(** * SnippetVCS core: a shallow embedding and its verified properties

    The development follows the C/C++ sources of the version-control core
    ([src/vcs/src/core]): hashing ([hash.c]), compression ([compress.c]),
    the object store ([object.c]), the staging index ([index.c]), the commit
    writer ([commit.c]), the commit graph ([dag.cpp]) and the line merge
    ([merge_engine.cpp]).

    Conventions.
    - A raw memory buffer is a [list byte]; a C string is a [string] holding
      the characters before the terminating NUL.
    - [size_t] and the other machine integers are [Z] (or [N]) with the
      wrap-around written out where the code can reach it.
    - A function returning [svcs_error_t] and filling out-parameters is a
      function into [result A]; a function that touches the disk takes the
      file system and returns the new one.
    - Allocation ([malloc], [calloc], [EVP_MD_CTX_new]) is assumed to succeed,
      so the [SVCS_ERROR_MEMORY] exits appear only where the code reaches them
      otherwise. *)

From Stdlib Require Import ZArith List String Ascii Lia.
From Stdlib Require Import Strings.Byte.
From stdpp Require Import base gmap strings list.
Import ListNotations.
Local Open Scope Z_scope.

(* ===================================================================== *)
(** ** Bytes, characters and C strings                                    *)
(* ===================================================================== *)

Definition Z_of_byte (b : byte) : Z := Z.of_N (Byte.to_N b).

Definition byte_of_Z (z : Z) : byte :=
  match Byte.of_N (Z.to_N (z mod 256)) with
  | Some b => b
  | None => x00
  end.

Definition Z_of_ascii (c : ascii) : Z := Z.of_N (N_of_ascii c).

Definition ascii_of_Z (z : Z) : ascii := ascii_of_N (Z.to_N (z mod 256)).

(** The bytes of a C string, without its terminator. *)
Definition bytes_of (s : string) : list byte := list_byte_of_string s.

(** A buffer read as text, character by character. *)
Definition text_of (bs : list byte) : string := string_of_list_byte bs.

Definition NUL : byte := x00.

(** The newline character and the one-character string holding it. *)
Definition nl_char : ascii := ascii_of_nat 10.
Definition nl : string := String nl_char EmptyString.

(** [strchr s c]: the index of the first [c] in [s]. *)
Fixpoint strchr (s : string) (c : ascii) : option nat :=
  match s with
  | EmptyString => None
  | String a r => if Ascii.eqb a c then Some O else option_map S (strchr r c)
  end.

(** [strrchr s c]: the index of the last [c] in [s]. *)
Fixpoint strrchr (s : string) (c : ascii) : option nat :=
  match s with
  | EmptyString => None
  | String a r =>
      match strrchr r c with
      | Some i => Some (S i)
      | None => if Ascii.eqb a c then Some O else None
      end
  end.

(** The first [n] characters of [s], and [s] without them. *)
Fixpoint str_take (n : nat) (s : string) : string :=
  match n, s with
  | S k, String a r => String a (str_take k r)
  | _, _ => EmptyString
  end.

Fixpoint str_drop (n : nat) (s : string) : string :=
  match n, s with
  | S k, String _ r => str_drop k r
  | _, _ => s
  end.

(** [*p = '\0'] at the first [c], when there is one. *)
Definition cut_at (c : ascii) (s : string) : string :=
  match strchr s c with
  | Some i => str_take i s
  | None => s
  end.

(** [memchr buf 0 size]: the index of the first zero byte. *)
Fixpoint memchr0 (bs : list byte) : option nat :=
  match bs with
  | [] => None
  | b :: r => if Byte.eqb b NUL then Some O else option_map S (memchr0 r)
  end.

(** A buffer read as a C string: the characters before its first zero byte
    (all of it when it holds none). *)
Definition c_str (bs : list byte) : string :=
  match memchr0 bs with
  | Some i => text_of (firstn i bs)
  | None => text_of bs
  end.

(** [strncmp buf lit n == 0] for a literal of [n] characters. *)
Definition starts_with (lit s : string) : bool := String.prefix lit s.

(** [isspace] in the C locale. *)
Definition isspace (c : ascii) : bool :=
  let n := Z_of_ascii c in
  (n =? 32) || ((9 <=? n) && (n <=? 13)).

(** The value of a digit character in a base up to 16, as [strtol] and
    [strtoul] read it. *)
Definition digit_value (c : ascii) : option Z :=
  let n := Z_of_ascii c in
  if (48 <=? n) && (n <=? 57) then Some (n - 48)
  else if (97 <=? n) && (n <=? 102) then Some (n - 87)
  else if (65 <=? n) && (n <=? 70) then Some (n - 55)
  else None.

Definition digit_in (base : Z) (c : ascii) : option Z :=
  match digit_value c with
  | Some d => if d <? base then Some d else None
  | None => None
  end.

(** The digits of a number: the longest prefix of digits of [s], folded
    into [acc]. *)
Fixpoint read_digits (base : Z) (s : string) (acc : Z) : Z :=
  match s with
  | EmptyString => acc
  | String c r =>
      match digit_in base c with
      | Some d => read_digits base r (acc * base + d)
      | None => acc
      end
  end.

Fixpoint skip_spaces (s : string) : string :=
  match s with
  | String c r => if isspace c then skip_spaces r else s
  | EmptyString => s
  end.

(** An optional sign: [(negative, rest)]. *)
Definition read_sign (s : string) : bool * string :=
  match s with
  | String "-" r => (true, r)
  | String "+" r => (false, r)
  | _ => (false, s)
  end.

(** An optional [0x] or [0X] before hexadecimal digits. When no digit follows
    it, the number read is the [0] alone, which has the same value. *)
Definition skip_hex_prefix (s : string) : string :=
  match s with
  | String "0" (String "x" r) => r
  | String "0" (String "X" r) => r
  | _ => s
  end.

Definition LONG_MAX : Z := 2 ^ 63 - 1.
Definition LONG_MIN : Z := - 2 ^ 63.
Definition ULONG_MAX : Z := 2 ^ 64 - 1.

(** [strtol(s, NULL, 16)] on a 64-bit [long]. *)
Definition strtol16 (s : string) : Z :=
  let (neg, r) := read_sign (skip_spaces s) in
  let v := read_digits 16 (skip_hex_prefix r) 0 in
  if neg then Z.max LONG_MIN (- v) else Z.min LONG_MAX v.

(** [strtoul(s, NULL, 10)] on a 64-bit [unsigned long]: a value out of range
    is [ULONG_MAX], and a minus sign negates modulo [2^64]. *)
Definition strtoul10 (s : string) : Z :=
  let (neg, r) := read_sign (skip_spaces s) in
  let v := read_digits 10 r 0 in
  if ULONG_MAX <? v then ULONG_MAX
  else if neg then (- v) mod 2 ^ 64 else v.

(** The digits of [n] in [base], most significant first, as [printf] writes
    them; [fuel] bounds the number of digits. *)
Definition digit_char (d : Z) : ascii :=
  if d <? 10 then ascii_of_Z (48 + d) else ascii_of_Z (87 + d).

Fixpoint print_digits (fuel : nat) (base : Z) (n : Z) (acc : string) : string :=
  match fuel with
  | O => acc
  | S f =>
      let acc' := String (digit_char (n mod base)) acc in
      if n <? base then acc' else print_digits f base (n / base) acc'
  end.

(** [%zu] of a [size_t]. *)
Definition fmt_zu (n : Z) : string := print_digits 20 10 (n mod 2 ^ 64) EmptyString.

(** A signed number of 64 bits in decimal, as [strftime] writes the value
    of [%s]: a minus sign for a negative number, then the digits. *)
Definition fmt_ld (n : Z) : string :=
  if n <? 0 then String "-" (print_digits 20 10 (- n) EmptyString)
  else print_digits 20 10 n EmptyString.

(** [%o] of a [uint32_t]. *)
Definition fmt_o (n : Z) : string := print_digits 11 8 (n mod 2 ^ 32) EmptyString.

(** [%02x] of a byte: two lowercase hexadecimal digits. *)
Definition fmt_02x (b : byte) : string :=
  let n := Z_of_byte b in
  String (digit_char (n / 16)) (String (digit_char (n mod 16)) EmptyString).

(* ===================================================================== *)
(** ** Error codes and results ([svcs.h])                                 *)
(* ===================================================================== *)

Inductive svcs_error_t : Set :=
| SVCS_OK
| SVCS_ERROR
| SVCS_ERROR_NOT_FOUND
| SVCS_ERROR_EXISTS
| SVCS_ERROR_INVALID
| SVCS_ERROR_IO
| SVCS_ERROR_MEMORY
| SVCS_ERROR_CORRUPT.

Definition error_code (e : svcs_error_t) : Z :=
  match e with
  | SVCS_OK => 0
  | SVCS_ERROR => -1
  | SVCS_ERROR_NOT_FOUND => -2
  | SVCS_ERROR_EXISTS => -3
  | SVCS_ERROR_INVALID => -4
  | SVCS_ERROR_IO => -5
  | SVCS_ERROR_MEMORY => -6
  | SVCS_ERROR_CORRUPT => -7
  end.

(** What a call leaves behind: [Ok a] is the return value [SVCS_OK] with the
    out-parameters [a]; [Err e] is the return value [e]. *)
Inductive result (A : Type) : Type :=
| Ok (a : A)
| Err (e : svcs_error_t).
Arguments Ok {A} a.
Arguments Err {A} e.

Definition returned {A} (r : result A) : svcs_error_t :=
  match r with
  | Ok _ => SVCS_OK
  | Err e => e
  end.

Inductive svcs_object_type_t : Set :=
| SVCS_OBJ_BLOB
| SVCS_OBJ_TREE
| SVCS_OBJ_COMMIT
| SVCS_OBJ_TAG.

Inductive svcs_file_status_t : Set :=
| SVCS_STATUS_UNTRACKED
| SVCS_STATUS_ADDED
| SVCS_STATUS_MODIFIED
| SVCS_STATUS_DELETED
| SVCS_STATUS_RENAMED
| SVCS_STATUS_COPIED.

Definition SVCS_HASH_SIZE : nat := 32.
Definition SVCS_HASH_HEX_SIZE : nat := 65.

(** [svcs_hash_t]: an array of [SVCS_HASH_SIZE] bytes. *)
Abbreviation svcs_hash_t := (list byte).

Definition hash_wf (h : svcs_hash_t) : Prop := length h = SVCS_HASH_SIZE.

(* ===================================================================== *)
(** ** SHA3-256 (FIPS 202), the digest behind [EVP_sha3_256]              *)
(* ===================================================================== *)

Module Keccak.

Definition w64 : Z := 2 ^ 64.

Definition rotl64 (x n : Z) : Z :=
  Z.lor (Z.shiftl x n mod w64) (Z.shiftr x (64 - n)).

(** The state is 25 lanes of 64 bits; lane [(x, y)] sits at [x + 5 y]. *)
Definition lane (st : list Z) (x y : Z) : Z :=
  nth (Z.to_nat (x mod 5 + 5 * (y mod 5))) st 0.

Definition lanes_of (f : Z -> Z -> Z) : list Z :=
  map (fun i => f (Z.of_nat i mod 5) (Z.of_nat i / 5)) (seq 0 25).

Definition round_constants : list Z :=
  [0x0000000000000001; 0x0000000000008082; 0x800000000000808A; 0x8000000080008000;
   0x000000000000808B; 0x0000000080000001; 0x8000000080008081; 0x8000000000008009;
   0x000000000000008A; 0x0000000000000088; 0x0000000080008009; 0x000000008000000A;
   0x000000008000808B; 0x800000000000008B; 0x8000000000008089; 0x8000000000008003;
   0x8000000000008002; 0x8000000000000080; 0x000000000000800A; 0x800000008000000A;
   0x8000000080008081; 0x8000000000008080; 0x0000000080000001; 0x8000000080008008].

Definition rotation_offsets : list Z :=
  [ 0;  1; 62; 28; 27;
   36; 44;  6; 55; 20;
    3; 10; 43; 25; 39;
   41; 45; 15; 21;  8;
   18;  2; 61; 56; 14].

Definition theta (a : list Z) : list Z :=
  let c x := Z.lxor (lane a x 0) (Z.lxor (lane a x 1) (Z.lxor (lane a x 2)
               (Z.lxor (lane a x 3) (lane a x 4)))) in
  let d x := Z.lxor (c (x + 4)) (rotl64 (c (x + 1)) 1) in
  lanes_of (fun x y => Z.lxor (lane a x y) (d x)).

(** Lane [(x, y)] rotated by its offset lands at [(y, 2x + 3y)]; read
    backwards, position [(X, Y)] receives the lane [(X + 3Y, X)]. *)
Definition rho_pi (a : list Z) : list Z :=
  lanes_of (fun X Y =>
    let x := (X + 3 * Y) mod 5 in
    let y := X in
    rotl64 (lane a x y) (nth (Z.to_nat (x + 5 * y)) rotation_offsets 0)).

Definition chi (b : list Z) : list Z :=
  lanes_of (fun x y =>
    Z.lxor (lane b x y)
           (Z.land (Z.lxor (lane b (x + 1) y) (w64 - 1)) (lane b (x + 2) y))).

Definition iota (rc : Z) (a : list Z) : list Z :=
  match a with
  | a0 :: rest => Z.lxor a0 rc :: rest
  | [] => []
  end.

Definition keccak_round (a : list Z) (rc : Z) : list Z :=
  iota rc (chi (rho_pi (theta a))).

Definition keccak_f (a : list Z) : list Z :=
  fold_left keccak_round round_constants a.

(** SHA3-256 absorbs 136 bytes per permutation. *)
Definition rate : nat := 136.

Fixpoint le_lane (bs : list Z) : Z :=
  match bs with
  | [] => 0
  | b :: r => b + 256 * le_lane r
  end.

Definition block_lanes (blk : list Z) : list Z :=
  map (fun i => le_lane (firstn 8 (skipn (8 * i) blk))) (seq 0 25).

Definition xor_state (st blk : list Z) : list Z :=
  map (fun i => Z.lxor (nth i st 0) (nth i blk 0)) (seq 0 25).

Fixpoint absorb (fuel : nat) (st : list Z) (msg : list Z) : list Z :=
  match fuel with
  | O => st
  | S f =>
      match msg with
      | [] => st
      | _ => absorb f (keccak_f (xor_state st (block_lanes (firstn rate msg))))
                    (skipn rate msg)
      end
  end.

(** The SHA-3 domain bits [01] and the [pad10*1] rule, on whole bytes. *)
Definition pad (msg : list Z) : list Z :=
  let q := (rate - (length msg mod rate))%nat in
  match q with
  | 1%nat => msg ++ [0x86]
  | _ => msg ++ [0x06] ++ repeat 0 (q - 2) ++ [0x80]
  end.

Definition squeeze (st : list Z) : list byte :=
  map (fun i => byte_of_Z (Z.shiftr (nth (i / 8) st 0) (8 * Z.of_nat (i mod 8))))
      (seq 0 32).

Definition zero_state : list Z := repeat 0 25.

End Keccak.

(** [EVP_DigestInit_ex(ctx, EVP_sha3_256())], one or more [EVP_DigestUpdate]
    whose chunks concatenate to [data], and [EVP_DigestFinal_ex]. *)
Definition sha3_256 (data : list byte) : list byte :=
  let m := Keccak.pad (map Z_of_byte data) in
  Keccak.squeeze (Keccak.absorb (length m) Keccak.zero_state m).

(* ===================================================================== *)
(** ** Hashing ([hash.c])                                                 *)
(* ===================================================================== *)

(** [svcs_hash_init]: [memset(hash->bytes, 0, SVCS_HASH_SIZE)]. *)
Definition svcs_hash_init : svcs_hash_t := repeat NUL SVCS_HASH_SIZE.

(** [svcs_hash_update(hash, data, len)]: returns at once when [len == 0];
    otherwise opens a fresh digest context, feeds it [data] and finalises it
    into [hash->bytes]. The argument [h] is the array before the call, the
    value is the array after it. *)
Definition svcs_hash_update (h : svcs_hash_t) (data : list byte) : svcs_hash_t :=
  match data with
  | [] => h
  | _ => sha3_256 data
  end.

(** [svcs_hash_final]: does nothing. *)
Definition svcs_hash_final (h : svcs_hash_t) : svcs_hash_t := h.

(** [svcs_hash_to_string]: [sprintf(str + 2 i, "%02x", hash->bytes[i])] for
    [i] from 0 to 31. *)
Definition svcs_hash_to_string (h : svcs_hash_t) : string :=
  fold_right append EmptyString
    (map (fun i => fmt_02x (nth i h NUL)) (seq 0 SVCS_HASH_SIZE)).

(** The character [str[i]] of a C string; reading the terminator gives the
    zero character. *)
Definition char_at (s : string) (i : nat) : ascii :=
  match String.get i s with
  | Some c => c
  | None => zero
  end.

(** The two-character buffer [{str[2 i], str[2 i + 1], 0}] as a C string. *)
Definition byte_str (s : string) (i : nat) : string :=
  String (char_at s (2 * i)) (String (char_at s (2 * i + 1)) EmptyString).

(** [svcs_hash_from_string]: the length test, then one [strtol] per pair of
    characters, each cast to [uint8_t]. *)
Definition svcs_hash_from_string (str : string) : result svcs_hash_t :=
  if negb (String.length str =? SVCS_HASH_HEX_SIZE - 1)%nat then Err SVCS_ERROR_INVALID
  else Ok (map (fun i => byte_of_Z (strtol16 (byte_str str i))) (seq 0 SVCS_HASH_SIZE)).

(** [memcmp], reduced to its sign; [svcs_hash_compare] applies it to the
    [SVCS_HASH_SIZE] bytes of the two arrays. *)
Fixpoint memcmp (a b : list byte) : Z :=
  match a, b with
  | x :: a', y :: b' =>
      if Z_of_byte x <? Z_of_byte y then -1
      else if Z_of_byte y <? Z_of_byte x then 1
      else memcmp a' b'
  | _, _ => 0
  end.

Definition svcs_hash_compare (a b : svcs_hash_t) : Z :=
  memcmp (firstn SVCS_HASH_SIZE a) (firstn SVCS_HASH_SIZE b).

Definition type_str (t : svcs_object_type_t) : string :=
  match t with
  | SVCS_OBJ_BLOB => "blob"
  | SVCS_OBJ_TREE => "tree"
  | SVCS_OBJ_COMMIT => "commit"
  | SVCS_OBJ_TAG => "tag"
  end.

(** The header [snprintf(header, 64, "%s %zu", type_str, size)]. *)
Definition object_header (t : svcs_object_type_t) (size : Z) : string :=
  type_str t ++ " " ++ fmt_zu size.

(** [svcs_hash_object]: the digest of the header, a zero byte and the data. *)
Definition svcs_hash_object (t : svcs_object_type_t) (data : list byte) : svcs_hash_t :=
  sha3_256 (bytes_of (object_header t (Z.of_nat (length data))) ++ [NUL] ++ data).

(* ===================================================================== *)
(** ** Three-way line merge ([merge_engine.cpp])                          *)
(* ===================================================================== *)

Inductive ConflictType : Set :=
| CONTENT
| ADD_ADD
| MODIFY_DELETE
| DELETE_MODIFY
| RENAME_RENAME
| MODE_CHANGE.

Record MergeConflict : Set := mkMergeConflict {
  file_path : string;
  conflict_type : ConflictType;
  our_content : string;
  their_content : string;
  base_content : string;
  our_line_start : Z;
  our_line_end : Z;
  their_line_start : Z;
  their_line_end : Z;
  resolution : string;
  resolved : bool
}.

Record ThreeWayMergeResult : Set := mkThreeWayMergeResult {
  merged_content : string;
  conflicts : list MergeConflict;
  has_conflicts : bool;
  success : bool;
  error_message : string
}.

(** [static_cast<int>] of a [size_t]: the low 32 bits, read as signed. *)
Definition int_of_size (n : nat) : Z :=
  let m := Z.of_nat n mod 2 ^ 32 in
  if m <? 2 ^ 31 then m else m - 2 ^ 32.

(** [join_lines]: the lines with a newline between two of them. *)
Fixpoint join_lines (lines : list string) : string :=
  match lines with
  | [] => EmptyString
  | [l] => l
  | l :: rest => l ++ nl ++ join_lines rest
  end.

(** The variables of the loop of [three_way_merge_lines]. *)
Record merge_state : Set := mkMergeState {
  base_idx : nat;
  our_idx : nat;
  their_idx : nat;
  merged_lines : list string;
  found : list MergeConflict
}.

Definition line_eqb (a b : string) : bool := String.eqb a b.

(** [idx < lines.size() && ... lines[idx] ...]: the line under a cursor that
    is still inside its vector. *)
Definition line_at (lines : list string) (idx : nat) : option string := lines !! idx.

(** The loop test: some cursor is still inside its vector. *)
Definition merge_continues (base ours theirs : list string) (st : merge_state) : bool :=
  (base_idx st <? length base)%nat || (our_idx st <? length ours)%nat
  || (their_idx st <? length theirs)%nat.

Definition advance (st : merge_state) (line : string) : merge_state :=
  {| base_idx := S (base_idx st); our_idx := S (our_idx st); their_idx := S (their_idx st);
     merged_lines := merged_lines st ++ [line]; found := found st |}.

Definition conflict_size : nat := 1.

(** The conflict branch of the loop body: at most [conflict_size] lines of
    each side between the markers, one [MergeConflict] recorded, and the
    three cursors moved on by [conflict_size]. *)
Definition conflict_step (ours theirs : list string) (st : merge_state) : merge_state :=
  let ours_c := firstn conflict_size (skipn (our_idx st) ours) in
  let theirs_c := firstn conflict_size (skipn (their_idx st) theirs) in
  {| base_idx := base_idx st + conflict_size;
     our_idx := our_idx st + conflict_size;
     their_idx := their_idx st + conflict_size;
     merged_lines := merged_lines st ++ ["<<<<<<< HEAD"%string] ++ ours_c
                       ++ ["======="%string] ++ theirs_c ++ [">>>>>>> branch"%string];
     found := found st ++
       [{| file_path := EmptyString; conflict_type := CONTENT;
           our_content := join_lines ours_c; their_content := join_lines theirs_c;
           base_content := EmptyString;
           our_line_start := int_of_size (our_idx st);
           our_line_end := int_of_size (our_idx st) + int_of_size (length ours_c) - 1;
           their_line_start := int_of_size (their_idx st);
           their_line_end := int_of_size (their_idx st) + int_of_size (length theirs_c) - 1;
           resolution := EmptyString; resolved := false |}] |}.

(** One iteration of the loop body. Each of the three tests needs every
    cursor inside its vector. *)
Definition merge_step (base ours theirs : list string) (st : merge_state) : merge_state :=
  match line_at base (base_idx st), line_at ours (our_idx st), line_at theirs (their_idx st) with
  | Some lb, Some lo, Some lt =>
      if line_eqb lb lo && line_eqb lo lt then advance st lo
      else if line_eqb lb lo then advance st lt
      else if line_eqb lb lt then advance st lo
      else conflict_step ours theirs st
  | _, _, _ => conflict_step ours theirs st
  end.

(** The [while] loop; [None] when [fuel] iterations do not reach its end. *)
Fixpoint merge_loop (fuel : nat) (base ours theirs : list string) (st : merge_state)
  : option merge_state :=
  if merge_continues base ours theirs st then
    match fuel with
    | O => None
    | S f => merge_loop f base ours theirs (merge_step base ours theirs st)
    end
  else Some st.

Definition merge_start : merge_state :=
  {| base_idx := 0; our_idx := 0; their_idx := 0; merged_lines := []; found := [] |}.

(** Every iteration moves the three cursors on by one, so the longest of the
    three vectors bounds the number of iterations. *)
Definition merge_fuel (base ours theirs : list string) : nat :=
  Nat.max (length base) (Nat.max (length ours) (length theirs)).

(** [MergeEngine::three_way_merge_lines]. *)
Definition three_way_merge_lines (base ours theirs : list string) : option ThreeWayMergeResult :=
  match merge_loop (merge_fuel base ours theirs) base ours theirs merge_start with
  | Some st =>
      Some {| merged_content := join_lines (merged_lines st);
              conflicts := found st;
              has_conflicts := match found st with [] => false | _ :: _ => true end;
              success := true;
              error_message := EmptyString |}
  | None => None
  end.

(* ===================================================================== *)
(** ** Compression ([compress.c]) over zlib                               *)
(* ===================================================================== *)

(** What [compress] and [uncompress] of zlib return; [Z_OK out] carries the
    bytes left in the destination buffer, whose count is the updated
    [destLen]. *)
Inductive z_result : Type :=
| Z_OK (out : list byte)
| Z_BUF_ERROR
| Z_DATA_ERROR
| Z_MEM_ERROR.

Definition SIZE_MAX1 : Z := 2 ^ 64.

(** [compressBound(sourceLen)] as zlib computes it. *)
Definition compressBound (n : Z) : Z :=
  n + Z.shiftr n 12 + Z.shiftr n 14 + Z.shiftr n 25 + 13.

(** The test [inflate] makes on the two header bytes of a zlib stream
    (RFC 1950): the pair is a multiple of 31, the method is deflate, the
    window is at most 32K and no preset dictionary is asked for. *)
Definition zlib_header_ok (s : list byte) : bool :=
  match s with
  | cmf :: flg :: _ =>
      ((Z_of_byte cmf * 256 + Z_of_byte flg) mod 31 =? 0)
      && (Z.land (Z_of_byte cmf) 15 =? 8)
      && (Z.shiftr (Z_of_byte cmf) 4 <=? 7)
      && (Z.land (Z_of_byte flg) 32 =? 0)
  | _ => false
  end.

(** zlib is a library outside the repository. Its two entry points are taken
    with the part of their contract the code relies on:
    - [compress] into a buffer of [compressBound] bytes succeeds; what it
      leaves is at least one byte and fits the buffer;
    - [uncompress] of what [compress] wrote gives the source back when the
      destination has room for it, and [Z_BUF_ERROR] when it has not;
    - [uncompress] answers [Z_DATA_ERROR] to a stream whose header fails the
      test above. *)
Class Zlib : Type := {
  zlib_compress : Z -> list byte -> z_result;
  zlib_uncompress : Z -> list byte -> z_result;
  zlib_compress_bound : forall x : list byte,
    exists c, zlib_compress (compressBound (Z.of_nat (length x))) x = Z_OK c;
  zlib_compress_nonempty : forall cap x c,
    zlib_compress cap x = Z_OK c -> c <> [];
  zlib_compress_fits : forall cap x c,
    zlib_compress cap x = Z_OK c -> Z.of_nat (length c) <= cap;
  zlib_uncompress_room : forall cap0 x c cap,
    zlib_compress cap0 x = Z_OK c -> Z.of_nat (length x) <= cap ->
    zlib_uncompress cap c = Z_OK x;
  zlib_uncompress_no_room : forall cap0 x c cap,
    zlib_compress cap0 x = Z_OK c -> 0 <= cap < Z.of_nat (length x) ->
    zlib_uncompress cap c = Z_BUF_ERROR;
  zlib_uncompress_header : forall cap s,
    (2 <= length s)%nat -> zlib_header_ok s = false ->
    zlib_uncompress cap s = Z_DATA_ERROR
}.

Section Compression.

Context {zlib : Zlib}.

(** [svcs_compress]: refuses an empty input, then [compress] into a buffer of
    [compressBound(input_size)] bytes. *)
Definition svcs_compress (input : list byte) : result (list byte) :=
  match input with
  | [] => Err SVCS_ERROR_INVALID
  | _ =>
      match zlib_compress (compressBound (Z.of_nat (length input))) input with
      | Z_OK out => Ok out
      | _ => Err SVCS_ERROR
      end
  end.

(** The retry loop of [svcs_decompress], entered with the answer of
    [uncompress] for a buffer of [buffer_size] bytes: while it is
    [Z_BUF_ERROR] the buffer doubles. [buffer_size] is a 64-bit [size_t], so
    the doubling wraps; once it is 0, [realloc(ptr, 0)] returns [NULL] and the
    function leaves with [SVCS_ERROR_MEMORY]. [None] means that [fuel] retries
    were not enough. *)
Fixpoint decompress_grow (fuel : nat) (buffer_size : Z) (input : list byte)
  : option (result (list byte)) :=
  match zlib_uncompress buffer_size input with
  | Z_OK out => Some (Ok out)
  | Z_BUF_ERROR =>
      let buffer_size' := (buffer_size * 2) mod SIZE_MAX1 in
      if buffer_size' =? 0 then Some (Err SVCS_ERROR_MEMORY)
      else
        match fuel with
        | O => None
        | S f => decompress_grow f buffer_size' input
        end
  | _ => Some (Err SVCS_ERROR)
  end.

(** [svcs_decompress]: refuses an empty input, guesses four times the input
    size and grows from there. A [size_t] that doubles is 0 after at most 64
    doublings, which bounds the retries. *)
Definition svcs_decompress (input : list byte) : result (list byte) :=
  match input with
  | [] => Err SVCS_ERROR_INVALID
  | _ =>
      let buffer_size := (Z.of_nat (length input) * 4) mod SIZE_MAX1 in
      match decompress_grow 64 buffer_size input with
      | Some r => r
      | None => Err SVCS_ERROR_MEMORY
      end
  end.

End Compression.

(** *** A zlib codec of stored blocks

    A codec of the zlib format that writes every block stored (deflate block
    type 00) and reads stored blocks. It is one implementation of the
    contract [Zlib], used to run the functions above on concrete inputs. *)

Module Stored.

Definition adler_step (ab : Z * Z) (x : byte) : Z * Z :=
  let a := (fst ab + Z_of_byte x) mod 65521 in
  (a, (snd ab + a) mod 65521).

Definition adler32 (data : list byte) : Z :=
  let (a, b) := fold_left adler_step data (1, 0) in
  b * 65536 + a.

Definition be32 (n : Z) : list byte :=
  [byte_of_Z (n / 16777216); byte_of_Z (n / 65536); byte_of_Z (n / 256); byte_of_Z n].

Definition read_be32 (bs : list byte) : Z :=
  match bs with
  | [b3; b2; b1; b0] =>
      ((Z_of_byte b3 * 256 + Z_of_byte b2) * 256 + Z_of_byte b1) * 256 + Z_of_byte b0
  | _ => -1
  end.

Definition max_stored : nat := Z.to_nat 65535.

(** The five bytes before the data of a stored block. *)
Definition block_header (final : bool) (len : Z) : list byte :=
  [byte_of_Z (if final then 1 else 0);
   byte_of_Z len; byte_of_Z (len / 256);
   byte_of_Z (65535 - len); byte_of_Z ((65535 - len) / 256)].

Fixpoint stored_blocks (fuel : nat) (data : list byte) : list byte :=
  match fuel with
  | O => []
  | S f =>
      let chunk := firstn max_stored data in
      match skipn max_stored data with
      | [] => block_header true (Z.of_nat (length chunk)) ++ chunk
      | rest => block_header false (Z.of_nat (length chunk)) ++ chunk ++ stored_blocks f rest
      end
  end.

Definition deflate_stored (data : list byte) : list byte :=
  [x78; x01] ++ stored_blocks (S (length data)) data ++ be32 (adler32 data).

(** Reads stored blocks up to the final one: the data and what follows the
    last block, or [None] on a block that is not stored, a length that does
    not match its complement, or a truncated stream. *)
Fixpoint inflate_blocks (fuel : nat) (s : list byte) (acc : list byte)
  : option (list byte * list byte) :=
  match fuel with
  | O => None
  | S f =>
      match s with
      | b0 :: l0 :: l1 :: n0 :: n1 :: rest =>
          let len := Z_of_byte l0 + 256 * Z_of_byte l1 in
          let nlen := Z_of_byte n0 + 256 * Z_of_byte n1 in
          if negb (Z.land (Z_of_byte b0) 6 =? 0) then None
          else if negb (len + nlen =? 65535) then None
          else if (Z.of_nat (length rest) <? len) then None
          else
            let data := firstn (Z.to_nat len) rest in
            let rest' := skipn (Z.to_nat len) rest in
            if Z.land (Z_of_byte b0) 1 =? 1 then Some (acc ++ data, rest')
            else inflate_blocks f rest' (acc ++ data)
      | _ => None
      end
  end.

Definition uncompress (cap : Z) (s : list byte) : z_result :=
  if negb (zlib_header_ok s) then Z_DATA_ERROR
  else
    match inflate_blocks (length s) (skipn 2 s) [] with
    | Some (out, trailer) =>
        if negb (read_be32 (firstn 4 trailer) =? adler32 out) then Z_DATA_ERROR
        else if cap <? Z.of_nat (length out) then Z_BUF_ERROR
        else Z_OK out
    | None => Z_DATA_ERROR
    end.

Definition compress (cap : Z) (data : list byte) : z_result :=
  let c := deflate_stored data in
  if cap <? Z.of_nat (length c) then Z_BUF_ERROR else Z_OK c.

End Stored.

(* ===================================================================== *)
(** ** The file system and the clock ([utils.c])                          *)
(* ===================================================================== *)

(** A regular file: its bytes, its modification time, its mode bits,
    whether [fopen(path, "rb")] and the [fread] after it succeed, and
    whether [fopen(path, "wb")] succeeds, for the process that runs the
    code. *)
Record file : Type := mkFile {
  f_content : list byte;
  f_mtime : Z;
  f_mode : Z;
  f_readable : bool;
  f_writable : bool
}.

Inductive node : Type :=
| File (f : file)
| Dir.

(** The world outside the process: what each path names, and the time
    [time(NULL)] returns. Paths are compared as the strings the code builds;
    the empty path stands for the directory a path without a slash, or with
    its only slash in front, lives in. *)
Record world : Type := mkWorld {
  nodes : gmap string node;
  clock : Z
}.

Definition SVCS_MAX_PATH : nat := 4096.

(** [snprintf(buf, size, ...)]: the text cut to [size - 1] characters. *)
Definition snprintf (size : nat) (s : string) : string := str_take (size - 1) s.

(** [svcs_file_exists]: [stat(path) == 0]. *)
Definition svcs_file_exists (w : world) (path : string) : bool :=
  match nodes w !! path with
  | Some _ => true
  | None => false
  end.

(** [svcs_file_mtime]: the modification time, 0 when [stat] fails. *)
Definition svcs_file_mtime (w : world) (path : string) : Z :=
  match nodes w !! path with
  | Some (File f) => f_mtime f
  | Some Dir => 0
  | None => 0
  end.

(** [svcs_file_read]: the whole file, or [SVCS_ERROR_IO] when it cannot be
    opened and read. A directory is opened by [fopen(path, "rb")]; the size
    that [ftell] reports for it after the seek to its end is one that
    [malloc] does not serve (Linux), which gives [SVCS_ERROR_MEMORY]. *)
Definition svcs_file_read (w : world) (path : string) : result (list byte) :=
  match nodes w !! path with
  | Some (File f) => if f_readable f then Ok (f_content f) else Err SVCS_ERROR_IO
  | Some Dir => Err SVCS_ERROR_MEMORY
  | None => Err SVCS_ERROR_IO
  end.

(** The directory part of a path: what precedes its last slash. *)
Definition parent_dir (path : string) : string :=
  match strrchr path "/" with
  | Some i => str_take i path
  | None => EmptyString
  end.

Definition is_dir (w : world) (path : string) : bool :=
  match path with
  | EmptyString => true
  | _ =>
      match nodes w !! path with
      | Some Dir => true
      | _ => false
      end
  end.

(** [fopen(path, "wb")], [fwrite], [fclose]: a file that is there is
    truncated when the process may write it, and a file that is not there
    is created when its directory exists; the path names no directory. The
    directories of the model are ones in which the process may create
    files. *)
Definition write_file (w : world) (path : string) (data : list byte) : option world :=
  if negb (is_dir w (parent_dir path)) then None
  else
    match nodes w !! path with
    | Some Dir => None
    | Some (File f) =>
        if f_writable f then
          Some {| nodes := <[path := File {| f_content := data; f_mtime := clock w;
                                             f_mode := f_mode f; f_readable := f_readable f;
                                             f_writable := true |}]> (nodes w);
                  clock := clock w |}
        else None
    | None =>
        Some {| nodes := <[path := File {| f_content := data; f_mtime := clock w;
                                           f_mode := 33188; f_readable := true;
                                           f_writable := true |}]> (nodes w);
                clock := clock w |}
    end.

(** [svcs_file_write]. *)
Definition svcs_file_write (w : world) (path : string) (data : list byte)
  : world * svcs_error_t :=
  match write_file w path data with
  | Some w' => (w', SVCS_OK)
  | None => (w, SVCS_ERROR_IO)
  end.

(** [mkdir(path, 0755) != 0 && errno != EEXIST] is false: the directory was
    made, or the path existed already. *)
Definition mkdir (w : world) (path : string) : world * bool :=
  match nodes w !! path with
  | Some _ => (w, true)
  | None =>
      match path with
      | EmptyString => (w, false)
      | _ =>
          if is_dir w (parent_dir path)
          then ({| nodes := <[path := Dir]> (nodes w); clock := clock w |}, true)
          else (w, false)
      end
  end.

(** The loop of [svcs_mkdir_recursive] over the positions [p] of [tmp]: at
    each slash, [mkdir] of the text before it. *)
Fixpoint mkdir_prefixes (w : world) (tmp : string) (positions : list nat)
  : world * bool :=
  match positions with
  | [] => (w, true)
  | p :: rest =>
      if Ascii.eqb (char_at tmp p) "/" then
        let (w', ok) := mkdir w (str_take p tmp) in
        if ok then mkdir_prefixes w' tmp rest else (w', false)
      else mkdir_prefixes w tmp rest
  end.

(** [svcs_mkdir_recursive]. *)
Definition svcs_mkdir_recursive (w : world) (path : string) : world * svcs_error_t :=
  let tmp0 := snprintf SVCS_MAX_PATH path in
  let len := String.length tmp0 in
  let tmp := if Ascii.eqb (char_at tmp0 (len - 1)) "/" then str_take (len - 1) tmp0 else tmp0 in
  let (w1, ok) := mkdir_prefixes w tmp (seq 1 (String.length tmp - 1)) in
  if negb ok then (w1, SVCS_ERROR_IO)
  else
    let (w2, ok2) := mkdir w1 tmp in
    if ok2 then (w2, SVCS_OK) else (w2, SVCS_ERROR_IO).

(* ===================================================================== *)
(** ** Repositories, objects and index entries ([svcs.h])                 *)
(* ===================================================================== *)

(** [svcs_object_t]: the object header. It has no field for a payload. *)
Record svcs_object_t : Type := mkObject {
  obj_type : svcs_object_type_t;
  obj_size : Z;
  obj_hash : svcs_hash_t
}.

Record svcs_commit_t : Type := mkCommit {
  tree_hash : svcs_hash_t;
  parent_hash : svcs_hash_t;
  author : string;
  committer : string;
  timestamp : Z;
  message : string;
  signature : string
}.

Record svcs_index_entry_t : Type := mkEntry {
  e_path : string;
  e_hash : svcs_hash_t;
  e_mode : Z;
  e_mtime : Z;
  e_size : Z;
  e_status : svcs_file_status_t
}.

(** [svcs_index_t]: [entry_count] is the length of [entries]. *)
Record svcs_index_t : Type := mkIndex {
  entries : list svcs_index_entry_t;
  index_timestamp : Z
}.

(** [svcs_repository_t]; [repo_index] is [None] for a null [index]. *)
Record svcs_repository_t : Type := mkRepo {
  git_dir : string;
  work_dir : string;
  repo_index : option svcs_index_t
}.

(* ===================================================================== *)
(** ** The time of a commit ([commit.c])                                  *)
(* ===================================================================== *)

(** [svcs_commit_create] writes the time with
    [strftime(buf, 64, "%s +0000", gmtime(&now))]. The conversion [%s]
    prints the number that [mktime] gives for the broken-down time it is
    handed, which [mktime] reads as a local time: for the time that
    [gmtime] broke down this is [now] in a process whose time zone is UTC
    and another number elsewhere. The C library and the time zone are
    outside the repository: [seconds_of_gmtime now] is the number printed,
    a [time_t] of 64 bits, and [None] when [gmtime] has no broken-down time
    for [now] (the year does not fit an [int]), where the code hands a null
    pointer to [strftime]. *)
Class TimeZone : Type := {
  seconds_of_gmtime : Z -> option Z;
  seconds_of_gmtime_range : forall now t,
    seconds_of_gmtime now = Some t -> - 2 ^ 63 <= t < 2 ^ 63
}.

(* ===================================================================== *)
(** ** The object store ([object.c])                                      *)
(* ===================================================================== *)

Section ObjectStore.

Context {zlib : Zlib}.
Context {tz : TimeZone}.

(** [get_object_path]: ["%s/objects/%.2s/%s"] of the directory, the hash in
    hexadecimal, and the same from its third character. *)
Definition get_object_path (repo : svcs_repository_t) (hash : svcs_hash_t) : string :=
  let hash_str := svcs_hash_to_string hash in
  snprintf SVCS_MAX_PATH
    (git_dir repo ++ "/objects/" ++ str_take 2 hash_str ++ "/" ++ str_drop 2 hash_str).

Definition type_of_str (s : string) : option svcs_object_type_t :=
  if String.eqb s "blob" then Some SVCS_OBJ_BLOB
  else if String.eqb s "tree" then Some SVCS_OBJ_TREE
  else if String.eqb s "commit" then Some SVCS_OBJ_COMMIT
  else if String.eqb s "tag" then Some SVCS_OBJ_TAG
  else None.

(** The header parse of [svcs_object_read] on the decompressed bytes. *)
Definition parse_object (hash : svcs_hash_t) (data : list byte) : result svcs_object_t :=
  match memchr0 data with
  | None => Err SVCS_ERROR_CORRUPT
  | Some header_end =>
      let header := c_str data in
      match strchr header " " with
      | None => Err SVCS_ERROR_CORRUPT
      | Some space =>
          let object_size := strtoul10 (str_drop (S space) header) in
          match type_of_str (str_take space header) with
          | None => Err SVCS_ERROR_CORRUPT
          | Some t =>
              let content_size := Z.of_nat (length data) - (Z.of_nat header_end + 1) in
              if negb (content_size =? object_size) then Err SVCS_ERROR_CORRUPT
              else Ok {| obj_type := t; obj_size := object_size; obj_hash := hash |}
          end
      end
  end.

(** [svcs_object_read]. *)
Definition svcs_object_read (w : world) (repo : svcs_repository_t) (hash : svcs_hash_t)
  : result svcs_object_t :=
  let path := get_object_path repo hash in
  if negb (svcs_file_exists w path) then Err SVCS_ERROR_NOT_FOUND
  else
    match svcs_file_read w path with
    | Err e => Err e
    | Ok compressed_data =>
        match svcs_decompress compressed_data with
        | Err e => Err e
        | Ok data => parse_object hash data
        end
    end.

(** The directory of a file made, as [svcs_object_write] and
    [svcs_commit_create] do before they write: the path is cut at its last
    slash and handed to [svcs_mkdir_recursive], whose return value is not
    looked at. *)
Definition with_parent_dir (w : world) (path : string) : world :=
  match strrchr path "/" with
  | Some last_slash => fst (svcs_mkdir_recursive w (str_take last_slash path))
  | None => w
  end.

(** [svcs_object_write]: makes the fan-out directory, returns at once when
    the object file exists, and otherwise writes the header and a zero byte,
    as they are. *)
Definition svcs_object_write (w : world) (repo : svcs_repository_t) (obj : svcs_object_t)
  : world * svcs_error_t :=
  let path := get_object_path repo (obj_hash obj) in
  let w1 := with_parent_dir w path in
  if svcs_file_exists w1 path then (w1, SVCS_OK)
  else
    let header := snprintf 64 (object_header (obj_type obj) (obj_size obj)) in
    match write_file w1 path (bytes_of header ++ [NUL]) with
    | None => (w1, SVCS_ERROR_IO)
    | Some w2 => (w2, SVCS_OK)
    end.

(** [svcs_hash_file]: the blob hash of the bytes of a file. *)
Definition svcs_hash_file (w : world) (path : string) : result svcs_hash_t :=
  match svcs_file_read w path with
  | Err e => Err e
  | Ok data => Ok (svcs_hash_object SVCS_OBJ_BLOB data)
  end.

(* ===================================================================== *)
(** ** The commit writer and reader ([commit.c])                          *)
(* ===================================================================== *)

(** What the second loop of [create_tree_from_index] writes for one entry:
    ["%o %s"] of the mode and the path, a zero byte, the 32 bytes of the
    hash. *)
Definition tree_entry_bytes (e : svcs_index_entry_t) : list byte :=
  bytes_of (fmt_o (e_mode e) ++ " " ++ e_path e) ++ [NUL] ++ firstn SVCS_HASH_SIZE (e_hash e).

(** The buffer [tree_data] after the loop over the index, in index order. *)
Definition tree_data (es : list svcs_index_entry_t) : list byte :=
  flat_map tree_entry_bytes es.

(** [create_tree_from_index]. *)
Definition create_tree_from_index (w : world) (repo : svcs_repository_t)
  : world * result svcs_hash_t :=
  match repo_index repo with
  | None => (w, Err SVCS_ERROR_INVALID)
  | Some idx =>
      match entries idx with
      | [] => (w, Ok svcs_hash_init)
      | es =>
          let data := tree_data es in
          let tree_hash := svcs_hash_object SVCS_OBJ_TREE data in
          let tree_obj := {| obj_type := SVCS_OBJ_TREE;
                             obj_size := Z.of_nat (length data);
                             obj_hash := tree_hash |} in
          let (w', err) := svcs_object_write w repo tree_obj in
          match err with
          | SVCS_OK => (w', Ok tree_hash)
          | e => (w', Err e)
          end
      end
  end.

(** A file read as text: its bytes as characters, up to the first zero
    byte. *)
Definition read_text (w : world) (path : string) : option string :=
  match svcs_file_read w path with
  | Ok data => Some (c_str data)
  | Err _ => None
  end.

(** The branch file a symbolic [HEAD] names: [git_dir/ref_name] with
    [ref_name] what follows ["ref: "], up to the end of the line. *)
Definition head_ref_path (repo : svcs_repository_t) (head_content : string) : option string :=
  if starts_with "ref: " head_content
  then Some (snprintf SVCS_MAX_PATH (git_dir repo ++ "/" ++ cut_at nl_char (str_drop 5 head_content)))
  else None.

(** [snprintf(head_path, sizeof(head_path), "%s/HEAD", repo->git_dir)]. *)
Definition head_path (repo : svcs_repository_t) : string :=
  snprintf SVCS_MAX_PATH (git_dir repo ++ "/HEAD").

(** The parent of the next commit: the hash in the branch file of a symbolic
    [HEAD], and the zero hash in every other case ([HEAD] unreadable, [HEAD]
    not symbolic, branch file unreadable, or its text refused by
    [svcs_hash_from_string]). *)
Definition resolve_parent (w : world) (repo : svcs_repository_t) : svcs_hash_t :=
  match read_text w (head_path repo) with
  | Some head_content =>
      match head_ref_path repo head_content with
      | Some ref_path =>
          match read_text w ref_path with
          | Some ref_text =>
              match svcs_hash_from_string (cut_at nl_char ref_text) with
              | Ok h => h
              | Err _ => svcs_hash_init
              end
          | None => svcs_hash_init
          end
      | None => svcs_hash_init
      end
  | None => svcs_hash_init
  end.

(** [strftime(timestamp_str, 64, "%s +0000", gmtime(&now))]: at most 26
    characters, which the buffer holds. *)
Definition timestamp_str (now : Z) : option string :=
  match seconds_of_gmtime now with
  | Some t => Some (fmt_ld t ++ " +0000")%string
  | None => None
  end.

Definition is_zero_hash (h : svcs_hash_t) : bool :=
  forallb (fun b => Byte.eqb b NUL) (firstn SVCS_HASH_SIZE h).

(** The text of the commit object, as the two [snprintf] format it from
    the hashes, the author, the text of the time and the message. *)
Definition commit_content (tree_hash parent_hash : svcs_hash_t) (author message : string)
  (stamp : string) : string :=
  if is_zero_hash parent_hash then
    "tree " ++ svcs_hash_to_string tree_hash ++ nl
    ++ "author " ++ author ++ " " ++ stamp ++ nl
    ++ "committer " ++ author ++ " " ++ stamp ++ nl
    ++ nl
    ++ message ++ nl
  else
    "tree " ++ svcs_hash_to_string tree_hash ++ nl
    ++ "parent " ++ svcs_hash_to_string parent_hash ++ nl
    ++ "author " ++ author ++ " " ++ stamp ++ nl
    ++ "committer " ++ author ++ " " ++ stamp ++ nl
    ++ nl
    ++ message ++ nl.

(** [sizeof(commit_content)]. *)
Definition COMMIT_CONTENT_SIZE : nat := 4096.

(** The last step of [svcs_commit_create]: with a symbolic [HEAD], make the
    directory of the branch file and write the new hash and a newline into
    it. Nothing is written in any other case. *)
Definition update_ref (w : world) (repo : svcs_repository_t) (commit_hash : svcs_hash_t) : world :=
  match read_text w (head_path repo) with
  | Some head_content =>
      match head_ref_path repo head_content with
      | Some ref_path =>
          let w1 := with_parent_dir w ref_path in
          fst (svcs_file_write w1 ref_path
                 (bytes_of (snprintf (SVCS_HASH_HEX_SIZE + 1)
                              (svcs_hash_to_string commit_hash ++ nl))))
      | None => w
      end
  | None => w
  end.

(** [svcs_commit_create]. The text of the commit is formatted by [snprintf]
    into [commit_content], an array of [COMMIT_CONTENT_SIZE] bytes, and
    [content_len], the length of the whole text whether it fitted or not,
    is the number of bytes that [svcs_hash_object] is handed from the
    array. The result is [None] where the C code has no defined behaviour:
    when the text does not fit the array with its terminator, so that the
    bytes hashed run past it, and when [gmtime] has no answer. *)
Definition svcs_commit_create (w : world) (repo : svcs_repository_t) (message author : string)
  : option (world * result svcs_hash_t) :=
  match create_tree_from_index w repo with
  | (w1, Err e) => Some (w1, Err e)
  | (w1, Ok tree_hash) =>
      let parent_hash := resolve_parent w1 repo in
      match timestamp_str (clock w1) with
      | None => None
      | Some stamp =>
          let content := commit_content tree_hash parent_hash author message stamp in
          let content_len := String.length content in
          if (COMMIT_CONTENT_SIZE <=? content_len)%nat then None
          else
            let commit_hash := svcs_hash_object SVCS_OBJ_COMMIT (bytes_of content) in
            let commit_obj := {| obj_type := SVCS_OBJ_COMMIT;
                                 obj_size := Z.of_nat content_len;
                                 obj_hash := commit_hash |} in
            match svcs_object_write w1 repo commit_obj with
            | (w2, SVCS_OK) => Some (update_ref w2 repo commit_hash, Ok commit_hash)
            | (w2, e) => Some (w2, Err e)
            end
      end
  end.

(** [svcs_commit_read]: reads the object for its type only; the fields of
    the commit are constants and the time of the call. *)
Definition svcs_commit_read (w : world) (repo : svcs_repository_t) (hash : svcs_hash_t)
  : result svcs_commit_t :=
  match svcs_object_read w repo hash with
  | Err e => Err e
  | Ok obj =>
      match obj_type obj with
      | SVCS_OBJ_COMMIT =>
          Ok {| tree_hash := svcs_hash_init;
                parent_hash := svcs_hash_init;
                author := "Author";
                committer := "Committer";
                timestamp := clock w;
                message := "Commit message";
                signature := EmptyString |}
      | _ => Err SVCS_ERROR_INVALID
      end
  end.

(* ===================================================================== *)
(** ** The staging index ([index.c])                                      *)
(* ===================================================================== *)

Definition with_status (e : svcs_index_entry_t) (s : svcs_file_status_t) : svcs_index_entry_t :=
  {| e_path := e_path e; e_hash := e_hash e; e_mode := e_mode e;
     e_mtime := e_mtime e; e_size := e_size e; e_status := s |}.

(** The body of the loop of [svcs_index_status] on the copy [entry]. *)
Definition check_status (w : world) (entry : svcs_index_entry_t) : svcs_index_entry_t :=
  if negb (svcs_file_exists w (e_path entry)) then with_status entry SVCS_STATUS_DELETED
  else
    let current_mtime := svcs_file_mtime w (e_path entry) in
    if negb (current_mtime =? e_mtime entry) then
      match svcs_hash_file w (e_path entry) with
      | Ok current_hash =>
          if negb (svcs_hash_compare current_hash (e_hash entry) =? 0)
          then with_status entry SVCS_STATUS_MODIFIED
          else entry
      | Err _ => entry
      end
    else entry.

(** The two arrays in play: the entries of the repository and the array
    handed to the caller. *)
Record status_arrays : Type := mkArrays {
  repo_entries : list svcs_index_entry_t;
  out_entries : list svcs_index_entry_t
}.

(** One iteration: cell [i] of the caller's array receives a copy of
    [repo->index->entries[i]], then the check runs on the copy. *)
Definition status_iteration (w : world) (a : status_arrays) (i : nat) : status_arrays :=
  match repo_entries a !! i with
  | Some e =>
      {| repo_entries := repo_entries a;
         out_entries := <[i := check_status w e]> (out_entries a) |}
  | None => a
  end.

(** [svcs_index_status], for a repository whose index is loaded. The array
    returned is allocated with one cell per entry; [fresh] stands for what
    [malloc] left in a cell. The repository is returned with it. *)
Definition svcs_index_status (w : world) (idx : svcs_index_t) (fresh : svcs_index_entry_t)
  : svcs_index_t * result (list svcs_index_entry_t) :=
  match entries idx with
  | [] => (idx, Ok [])
  | es =>
      let count := length es in
      let a := fold_left (status_iteration w) (seq 0 count)
                 {| repo_entries := es; out_entries := replicate count fresh |} in
      ({| entries := repo_entries a; index_timestamp := index_timestamp idx |},
       Ok (out_entries a))
  end.

End ObjectStore.

(* ===================================================================== *)
(** ** The commit graph ([dag.hpp], [dag.cpp])                            *)
(* ===================================================================== *)

(** A [std::shared_ptr<CommitNode>] or [std::weak_ptr<CommitNode>]: the nodes
    live in the table of the graph and are never removed from it, so a
    pointer is the key of its node, and the node it points to is read from
    the table at the time of use. *)
Abbreviation node_ptr := string.

Record CommitNode : Type := mkCommitNode {
  node_hash : svcs_hash_t;
  node_message : string;
  node_author : string;
  node_timestamp : Z;
  parents : list node_ptr;
  children : list node_ptr;
  depth : Z;
  visited : bool;
  branch_name : string
}.

Definition hash_string (n : CommitNode) : string := svcs_hash_to_string (node_hash n).

Definition is_merge_commit (n : CommitNode) : bool := (1 <? length (parents n))%nat.
Definition is_root_commit (n : CommitNode) : bool :=
  match parents n with [] => true | _ => false end.
Definition is_leaf_commit (n : CommitNode) : bool :=
  match children n with [] => true | _ => false end.

(** [CommitDAG]: the table [nodes] (an [unordered_map] keyed by the
    hexadecimal hash), and the vectors [roots] and [heads]. *)
Record CommitDAG : Type := mkDAG {
  dag_nodes : gmap string CommitNode;
  roots : list node_ptr;
  heads : list node_ptr
}.

Definition empty_dag : CommitDAG := {| dag_nodes := ∅; roots := []; heads := [] |}.

(** [parent->children.push_back(commit_node)]. *)
Definition push_child (n : CommitNode) (child : node_ptr) : CommitNode :=
  {| node_hash := node_hash n; node_message := node_message n;
     node_author := node_author n; node_timestamp := node_timestamp n;
     parents := parents n; children := children n ++ [child];
     depth := depth n; visited := visited n; branch_name := branch_name n |}.

(** One iteration of the loop that links a new commit to its parents: a
    parent found in the table is pushed on the parents of the commit, and
    the commit on the children of that parent; a parent that is not in the
    table is passed over. *)
Definition link_parent (commit : node_ptr)
  (st : gmap string CommitNode * list node_ptr) (parent_hash : svcs_hash_t)
  : gmap string CommitNode * list node_ptr :=
  let parent_str := svcs_hash_to_string parent_hash in
  match fst st !! parent_str with
  | Some parent => (<[parent_str := push_child parent commit]> (fst st), snd st ++ [parent_str])
  | None => st
  end.

(** [std::find] and [erase]: the vector without the first [x] in it. *)
Fixpoint erase_first (x : node_ptr) (l : list node_ptr) : list node_ptr :=
  match l with
  | [] => []
  | y :: r => if String.eqb y x then r else y :: erase_first x r
  end.

(** [CommitDAG::add_commit]; it returns [SVCS_OK] in every case. *)
Definition add_commit (dag : CommitDAG) (hash : svcs_hash_t) (message author : string)
  (timestamp : Z) (parent_hashes : list svcs_hash_t) : CommitDAG :=
  let hash_str := svcs_hash_to_string hash in
  match dag_nodes dag !! hash_str with
  | Some _ => dag
  | None =>
      let linked := fold_left (link_parent hash_str) parent_hashes (dag_nodes dag, []) in
      let commit_node :=
        {| node_hash := hash; node_message := message; node_author := author;
           node_timestamp := timestamp; parents := snd linked; children := [];
           depth := 0; visited := false; branch_name := EmptyString |} in
      let roots' := if is_root_commit commit_node then roots dag ++ [hash_str] else roots dag in
      let heads1 := fold_left (fun hs parent => erase_first parent hs)
                      (parents commit_node) (heads dag) in
      let heads' := if is_leaf_commit commit_node then heads1 ++ [hash_str] else heads1 in
      {| dag_nodes := <[hash_str := commit_node]> (fst linked);
         roots := roots'; heads := heads' |}
  end.

(** The arguments of one call of [add_commit]. *)
Record commit_args : Type := mkArgs {
  arg_hash : svcs_hash_t;
  arg_message : string;
  arg_author : string;
  arg_timestamp : Z;
  arg_parents : list svcs_hash_t
}.

Definition add_commit_args (dag : CommitDAG) (a : commit_args) : CommitDAG :=
  add_commit dag (arg_hash a) (arg_message a) (arg_author a) (arg_timestamp a) (arg_parents a).

(** The graph after a sequence of calls on an empty graph. *)
Definition build_dag (calls : list commit_args) : CommitDAG :=
  fold_left add_commit_args calls empty_dag.

(** An [int] of 32 bits: the value that the low 32 bits of [z] stand for.
    The C++ language defines no result for an [int] that leaves its range
    by arithmetic; the model gives it the value the machine computes. *)
Definition int_wrap (z : Z) : Z :=
  let m := z mod 2 ^ 32 in
  if m <? 2 ^ 31 then m else m - 2 ^ 32.

(** The variables of [topological_sort]: the map [in_degree] of [int]
    counters, the queue and the result. [in_degree[k]] of a key that is not
    in the map is 0. *)
Record sort_state : Type := mkSort {
  in_degree : gmap string Z;
  queue : list node_ptr;
  result_nodes : list node_ptr
}.

Definition degree (deg : gmap string Z) (k : string) : Z := default 0 (deg !! k).

(** The first loop, over the pairs of the table in the order the
    [unordered_map] hands them out. *)
Definition count_in_degree (nodes : gmap string CommitNode) (st : sort_state) (hash : string)
  : sort_state :=
  match nodes !! hash with
  | Some n =>
      let d := int_of_size (length (parents n)) in
      {| in_degree := <[hash := d]> (in_degree st);
         queue := if d =? 0 then queue st ++ [hash] else queue st;
         result_nodes := result_nodes st |}
  | None => st
  end.

(** The body of the loop over [current->children]: a child that is still
    alive has its in-degree decremented and is queued when that reaches 0. *)
Definition relax_child (nodes : gmap string CommitNode) (st : sort_state) (weak_child : node_ptr)
  : sort_state :=
  match nodes !! weak_child with
  | Some child =>
      let child_hash := hash_string child in
      let d := int_wrap (degree (in_degree st) child_hash - 1) in
      {| in_degree := <[child_hash := d]> (in_degree st);
         queue := if d =? 0 then queue st ++ [weak_child] else queue st;
         result_nodes := result_nodes st |}
  | None => st
  end.

(** The [while (!queue.empty())] loop; [None] when [fuel] iterations do not
    empty the queue. *)
Fixpoint drain_queue (fuel : nat) (nodes : gmap string CommitNode) (st : sort_state)
  : option (list node_ptr) :=
  match queue st with
  | [] => Some (result_nodes st)
  | current :: rest =>
      match fuel with
      | O => None
      | S f =>
          let popped := {| in_degree := in_degree st; queue := rest;
                           result_nodes := result_nodes st ++ [current] |} in
          let kids := match nodes !! current with
                      | Some n => children n
                      | None => []
                      end in
          drain_queue f nodes (fold_left (relax_child nodes) kids popped)
      end
  end.

(** [CommitDAG::topological_sort]. The order in which an [unordered_map] is
    iterated is not specified; [order] is the order of the keys in this run.
    In a graph whose nodes have fewer than [2 ^ 31] parents every node is
    popped once at most, which bounds the iterations by the size of the
    table. *)
Definition topological_sort (dag : CommitDAG) (order : list string) : option (list node_ptr) :=
  let nodes := dag_nodes dag in
  let start := fold_left (count_in_degree nodes) order
                 {| in_degree := ∅; queue := []; result_nodes := [] |} in
  drain_queue (size nodes) nodes start.

(* ===================================================================== *)
(** ** The line diff ([diff.c])                                           *)
(* ===================================================================== *)

(** The anonymous enumeration of [svcs_diff_line_t]; [SVCS_DIFF_ADD] is its
    value 0, what [calloc] leaves in a line that was never written. *)
Inductive svcs_diff_line_type : Set :=
| SVCS_DIFF_ADD
| SVCS_DIFF_DEL
| SVCS_DIFF_CONTEXT.

Record svcs_diff_line_t : Set := mkDiffLine {
  line_type : svcs_diff_line_type;
  old_line : Z;
  new_line : Z;
  content : string
}.

(** [svcs_diff_hunk_t]; [lines] is the array as it was allocated, of which
    the first [line_count] cells are the diff. *)
Record svcs_diff_hunk_t : Set := mkDiffHunk {
  old_start : Z;
  old_count : Z;
  new_start : Z;
  new_count : Z;
  line_count : nat;
  lines : list svcs_diff_line_t
}.

(** [svcs_diff_file_t]; [hunk_count] is the length of [hunks]. A path that
    was not given is the empty text [calloc] left. *)
Record svcs_diff_file_t : Set := mkDiffFile {
  old_path : string;
  new_path : string;
  status : svcs_file_status_t;
  hunks : list svcs_diff_hunk_t
}.

Definition newline : byte := x0a.

(** The second loop of [split_lines], at position [i]: at a newline and at
    the end of the content, the bytes from [line_start] to [i] become the
    next line. *)
Definition split_step (text : list byte) (st : nat * list (list byte)) (i : nat)
  : nat * list (list byte) :=
  let (line_start, found) := st in
  if (i =? length text)%nat || Byte.eqb (nth i text NUL) newline
  then (S i, found ++ [firstn (i - line_start) (skipn line_start text)])
  else st.

(** The first loop of [split_lines]: one more than the newlines. *)
Definition count_lines (text : list byte) : nat :=
  fold_left (fun n b => if Byte.eqb b newline then S n else n) text 1%nat.

(** [split_lines]: no line at all for a null or empty content, and
    otherwise the pieces between the newlines. A line is the bytes copied
    into its buffer, before the terminator that is put behind them. *)
Definition split_lines (text : option (list byte)) : list (list byte) :=
  match text with
  | None => []
  | Some [] => []
  | Some t => snd (fold_left (split_step t) (seq 0 (S (length t))) (0%nat, []))
  end.

(** A line as [strcmp] and [strncpy] read it: up to its first zero byte. *)
Definition line_text (l : list byte) : string := c_str l.

(** [strncpy(content, line, sizeof(content) - 1)] into a zeroed array of
    1024 characters. *)
Definition line_content (l : list byte) : string := str_take 1023 (line_text l).

(** The variables of the loop of [compute_diff_lines]. *)
Record diff_state : Set := mkDiffState {
  d_lines : list svcs_diff_line_t;
  line_idx : nat;
  old_idx : nat;
  new_idx : nat
}.

(** A cell of the array as [calloc] hands it out. *)
Definition zero_line : svcs_diff_line_t :=
  {| line_type := SVCS_DIFF_ADD; old_line := 0; new_line := 0; content := EmptyString |}.

Definition context_line (st : diff_state) (l : list byte) : svcs_diff_line_t :=
  {| line_type := SVCS_DIFF_CONTEXT;
     old_line := int_of_size (old_idx st) + 1;
     new_line := int_of_size (new_idx st) + 1;
     content := line_content l |}.

Definition del_line (st : diff_state) (l : list byte) : svcs_diff_line_t :=
  {| line_type := SVCS_DIFF_DEL;
     old_line := int_of_size (old_idx st) + 1;
     new_line := -1;
     content := line_content l |}.

Definition add_line (st : diff_state) (l : list byte) : svcs_diff_line_t :=
  {| line_type := SVCS_DIFF_ADD;
     old_line := -1;
     new_line := int_of_size (new_idx st) + 1;
     content := line_content l |}.

(** The body of the loop up to its [line_idx++]: the four cases on what the
    two files still hold. *)
Definition diff_step (old_lines new_lines : list (list byte)) (st : diff_state) : diff_state :=
  let max_lines := (length old_lines + length new_lines)%nat in
  match old_lines !! old_idx st, new_lines !! new_idx st with
  | Some o, Some n =>
      if String.eqb (line_text o) (line_text n) then
        {| d_lines := <[line_idx st := context_line st o]> (d_lines st);
           line_idx := line_idx st;
           old_idx := S (old_idx st); new_idx := S (new_idx st) |}
      else
        let st1 := {| d_lines := <[line_idx st := del_line st o]> (d_lines st);
                      line_idx := S (line_idx st);
                      old_idx := S (old_idx st); new_idx := new_idx st |} in
        if (line_idx st1 <? max_lines)%nat then
          {| d_lines := <[line_idx st1 := add_line st1 n]> (d_lines st1);
             line_idx := line_idx st1;
             old_idx := old_idx st1; new_idx := S (new_idx st1) |}
        else st1
  | Some o, None =>
      {| d_lines := <[line_idx st := del_line st o]> (d_lines st);
         line_idx := line_idx st;
         old_idx := S (old_idx st); new_idx := new_idx st |}
  | None, Some n =>
      {| d_lines := <[line_idx st := add_line st n]> (d_lines st);
         line_idx := line_idx st;
         old_idx := old_idx st; new_idx := S (new_idx st) |}
  | None, None => st
  end.

Definition diff_continues (old_lines new_lines : list (list byte)) (st : diff_state) : bool :=
  (old_idx st <? length old_lines)%nat || (new_idx st <? length new_lines)%nat.

(** The [while] loop with its [break]; [None] when [fuel] iterations do not
    end it. *)
Fixpoint diff_loop (fuel : nat) (old_lines new_lines : list (list byte)) (st : diff_state)
  : option diff_state :=
  if diff_continues old_lines new_lines st then
    match fuel with
    | O => None
    | S f =>
        let st1 := diff_step old_lines new_lines st in
        let st2 := {| d_lines := d_lines st1; line_idx := S (line_idx st1);
                      old_idx := old_idx st1; new_idx := new_idx st1 |} in
        if (length old_lines + length new_lines <=? line_idx st2)%nat then Some st2
        else diff_loop f old_lines new_lines st2
    end
  else Some st.

(** [compute_diff_lines]: one hunk over both files. Every iteration takes a
    line from one of the files, which bounds the iterations. For two files
    without lines the array has no cell; [calloc] is taken to return a
    pointer for it, as glibc's does. *)
Definition compute_diff_lines (old_lines new_lines : list (list byte))
  : option svcs_diff_hunk_t :=
  let max_lines := (length old_lines + length new_lines)%nat in
  match diff_loop max_lines old_lines new_lines
          {| d_lines := replicate max_lines zero_line; line_idx := 0;
             old_idx := 0; new_idx := 0 |} with
  | None => None
  | Some st =>
      Some {| old_start := 1; old_count := int_of_size (length old_lines);
              new_start := 1; new_count := int_of_size (length new_lines);
              line_count := line_idx st; lines := d_lines st |}
  end.

(** The content of a file for [svcs_diff_files]: null when the path is
    null, when nothing is there, and when the file cannot be read. *)
Definition diff_content (w : world) (path : option string) : option (list byte) :=
  match path with
  | None => None
  | Some p =>
      if svcs_file_exists w p then
        match svcs_file_read w p with
        | Ok data => Some data
        | Err _ => None
        end
      else None
  end.

(** [svcs_diff_files]; a null path is [None]. *)
Definition svcs_diff_files (w : world) (old_path' new_path' : option string)
  : option svcs_diff_file_t :=
  let status' :=
    match old_path', new_path' with
    | None, Some _ => SVCS_STATUS_ADDED
    | Some _, None => SVCS_STATUS_DELETED
    | _, _ => SVCS_STATUS_MODIFIED
    end in
  let old_lines := split_lines (diff_content w old_path') in
  let new_lines := split_lines (diff_content w new_path') in
  match compute_diff_lines old_lines new_lines with
  | None => None
  | Some hunk =>
      Some {| old_path := snprintf SVCS_MAX_PATH (default EmptyString old_path');
              new_path := snprintf SVCS_MAX_PATH (default EmptyString new_path');
              status := status'; hunks := [hunk] |}
  end.

(** The lines with a newline between two of them: what [split_lines]
    undoes. *)
Definition join_bytes (ls : list (list byte)) : list byte :=
  match ls with
  | [] => []
  | l :: rest => l ++ concat (map (cons newline) rest)
  end.

(** The lines of a diff that are taken from the old file, and those taken
    from the new one. *)
Definition is_add (l : svcs_diff_line_t) : bool :=
  match line_type l with SVCS_DIFF_ADD => true | _ => false end.

Definition is_del (l : svcs_diff_line_t) : bool :=
  match line_type l with SVCS_DIFF_DEL => true | _ => false end.

Definition is_context (l : svcs_diff_line_t) : bool :=
  match line_type l with SVCS_DIFF_CONTEXT => true | _ => false end.

Definition old_side (ls : list svcs_diff_line_t) : list svcs_diff_line_t :=
  List.filter (fun l => negb (is_add l)) ls.

Definition new_side (ls : list svcs_diff_line_t) : list svcs_diff_line_t :=
  List.filter (fun l => negb (is_del l)) ls.

(** The diff of a hunk: the cells of the array that were written. *)
Definition hunk_diff (h : svcs_diff_hunk_t) : list svcs_diff_line_t :=
  firstn (line_count h) (lines h).

(* ===================================================================== *)
(** ** Paths and strings ([utils.c])                                      *)
(* ===================================================================== *)

(** [svcs_path_relative]: the target without the base in front of it and
    without one slash after that; the target itself when it does not start
    with the base. [strncmp] over the length of the base is 0 exactly when
    the base is a prefix of the target. *)
Definition svcs_path_relative (base target : string) : string :=
  if String.prefix base target then
    let relative := str_drop (String.length base) target in
    match relative with
    | String "/" r => r
    | _ => relative
    end
  else target.

(** [strstr(s, pat)]: the first position at which [pat] stands in [s]. *)
Fixpoint strstr (s pat : string) : option nat :=
  if String.prefix pat s then Some O
  else
    match s with
    | EmptyString => None
    | String _ r => option_map S (strstr r pat)
    end.

Definition ignored_patterns : list string :=
  [".tmp"; ".temp"; ".log"; ".bak"; "~"; ".swp"; ".swo"]%string.

(** [svcs_path_is_ignored], for a path that is not null. *)
Definition svcs_path_is_ignored (path : string) : bool :=
  match strstr path ".svcs" with
  | Some _ => true
  | None =>
      existsb (fun pat => match strstr path pat with Some _ => true | None => false end)
              ignored_patterns
  end.

(** The white space of [svcs_string_trim]: space, tab, newline and carriage
    return. *)
Definition is_trim_space (c : ascii) : bool :=
  let n := Z_of_ascii c in
  (n =? 32) || (n =? 9) || (n =? 10) || (n =? 13).

(** The first loop of [svcs_string_trim]: the position [start] stops at. *)
Fixpoint trim_start (s : string) : nat :=
  match s with
  | String c r => if is_trim_space c then S (trim_start r) else O
  | EmptyString => O
  end.

(** The second loop: from [end_], while it is behind [start] and on white
    space, a zero is written and [end_] steps back. What is returned is the
    position it stops at; the zeros are behind it. *)
Fixpoint trim_end (fuel : nat) (s : string) (start end_ : Z) : Z :=
  match fuel with
  | O => end_
  | S f =>
      if (start <? end_) && is_trim_space (char_at s (Z.to_nat end_))
      then trim_end f s start (end_ - 1)
      else end_
  end.

(** [svcs_string_trim]: the string left in the buffer. It starts at [start]
    and ends where the zeros begin, or where the string ended when none was
    written. The second loop steps back once per iteration from the last
    character, which bounds its iterations by the length. *)
Definition svcs_string_trim (str : string) : string :=
  let start := trim_start str in
  let last := Z.of_nat (String.length str) - 1 in
  let end_ := trim_end (String.length str) str (Z.of_nat start) last in
  str_take (Z.to_nat (end_ + 1) - start) (str_drop start str).

(* ===================================================================== *)
(** ** Lines of a content ([merge_engine.cpp])                            *)
(* ===================================================================== *)

(** The loop of [split_into_lines]: [std::getline] reads up to a newline,
    which it drops, or up to the end; [line] is what it has read of the
    line in hand. At the end of the content a line is pushed only when
    [getline] has extracted a character for it. *)
Fixpoint getlines (text line : string) : list string :=
  match text with
  | EmptyString =>
      match line with
      | EmptyString => []
      | _ => [line]
      end
  | String c r =>
      if Ascii.eqb c nl_char then line :: getlines r EmptyString
      else getlines r (line ++ String c EmptyString)
  end.

(** [MergeEngine::split_into_lines]. *)
Definition split_into_lines (text : string) : list string := getlines text EmptyString.

(** [MergeEngine::three_way_merge_files]. *)
Definition three_way_merge_files (base_text our_text their_text : string)
  : option ThreeWayMergeResult :=
  three_way_merge_lines (split_into_lines base_text) (split_into_lines our_text)
                        (split_into_lines their_text).

(* ===================================================================== *)
(** ** Compressing files ([compress.c])                                   *)
(* ===================================================================== *)

Section CompressFiles.

Context {zlib : Zlib}.

(** [svcs_compress_file]. *)
Definition svcs_compress_file (w : world) (input_path output_path : string)
  : world * svcs_error_t :=
  match svcs_file_read w input_path with
  | Err e => (w, e)
  | Ok input_data =>
      match svcs_compress input_data with
      | Err e => (w, e)
      | Ok compressed_data => svcs_file_write w output_path compressed_data
      end
  end.

(** [svcs_decompress_file]. *)
Definition svcs_decompress_file (w : world) (input_path output_path : string)
  : world * svcs_error_t :=
  match svcs_file_read w input_path with
  | Err e => (w, e)
  | Ok compressed_data =>
      match svcs_decompress compressed_data with
      | Err e => (w, e)
      | Ok decompressed_data => svcs_file_write w output_path decompressed_data
      end
  end.

End CompressFiles.

(* ===================================================================== *)
(** ** Branches ([branch.c])                                              *)
(* ===================================================================== *)

(** Whether a directory has an entry: some path of the world goes on after
    the name of the directory and a slash. *)
Definition has_entries (w : world) (path : string) : bool :=
  existsb (fun k => String.prefix (path ++ "/") k) (map fst (map_to_list (nodes w))).

(** [remove(path)]: a file is unlinked, an empty directory removed; [None]
    when nothing is there or the directory has entries. *)
Definition remove (w : world) (path : string) : option world :=
  match nodes w !! path with
  | None => None
  | Some (File _) => Some {| nodes := delete path (nodes w); clock := clock w |}
  | Some Dir =>
      if has_entries w path then None
      else Some {| nodes := delete path (nodes w); clock := clock w |}
  end.

(** [snprintf(branch_path, sizeof(branch_path), "%s/refs/heads/%s", ...)]. *)
Definition branch_path (repo : svcs_repository_t) (name : string) : string :=
  snprintf SVCS_MAX_PATH (git_dir repo ++ "/refs/heads/" ++ name).

Definition refs_heads_dir (repo : svcs_repository_t) : string :=
  snprintf SVCS_MAX_PATH (git_dir repo ++ "/refs/heads").

(** [svcs_branch_create]; what [svcs_mkdir_recursive] returns is not looked
    at. *)
Definition svcs_branch_create (w : world) (repo : svcs_repository_t) (name : string)
  (commit_hash : svcs_hash_t) : world * svcs_error_t :=
  if svcs_file_exists w (branch_path repo name) then (w, SVCS_ERROR_EXISTS)
  else
    let w1 := fst (svcs_mkdir_recursive w (refs_heads_dir repo)) in
    let content := snprintf (SVCS_HASH_HEX_SIZE + 1) (svcs_hash_to_string commit_hash ++ nl) in
    svcs_file_write w1 (branch_path repo name) (bytes_of content).

(** [svcs_branch_checkout]: [HEAD] is made to name the branch; the working
    directory is left as it is. *)
Definition svcs_branch_checkout (w : world) (repo : svcs_repository_t) (name : string)
  : world * svcs_error_t :=
  if negb (svcs_file_exists w (branch_path repo name)) then (w, SVCS_ERROR_NOT_FOUND)
  else
    let head_content := snprintf SVCS_MAX_PATH ("ref: refs/heads/" ++ name ++ nl) in
    svcs_file_write w (head_path repo) (bytes_of head_content).

(** The branch a [HEAD] content names: what follows ["ref: refs/heads/"], up
    to the end of the line. *)
Definition head_branch (head_content : string) : option string :=
  if starts_with "ref: refs/heads/" head_content
  then Some (cut_at nl_char (str_drop 16 head_content))
  else None.

(** [svcs_branch_delete]. The name is not looked at before the path is
    built from it. The world compares paths as strings, which is what the
    file system does for a name that is one component of a path; a name
    with a slash, [.], [..] or the empty name can lead the file system to
    an entry that has another spelling too. *)
Definition svcs_branch_delete (w : world) (repo : svcs_repository_t) (name : string)
  : world * svcs_error_t :=
  let is_current :=
    match read_text w (head_path repo) with
    | Some head_content =>
        match head_branch head_content with
        | Some current_branch => String.eqb current_branch name
        | None => false
        end
    | None => false
    end in
  if is_current then (w, SVCS_ERROR_INVALID)
  else if negb (svcs_file_exists w (branch_path repo name)) then (w, SVCS_ERROR_NOT_FOUND)
  else
    match remove w (branch_path repo name) with
    | Some w' => (w', SVCS_OK)
    | None => (w, SVCS_ERROR_IO)
    end.

(** [svcs_branch_current], for a buffer [name] of [name_size] characters. *)
Definition svcs_branch_current (w : world) (repo : svcs_repository_t) (name_size : nat)
  : result string :=
  if (name_size =? 0)%nat then Err SVCS_ERROR_INVALID
  else
    match svcs_file_read w (head_path repo) with
    | Err e => Err e
    | Ok head_data =>
        match head_branch (c_str head_data) with
        | Some branch_name => Ok (snprintf name_size branch_name)
        | None => Err SVCS_ERROR_NOT_FOUND
        end
    end.

(* ===================================================================== *)
(** ** Repositories ([repository.c])                                      *)
(* ===================================================================== *)

(** [svcs_repository_init]; the line it prints is left out. *)
Definition svcs_repository_init (w : world) (path : string) : world * svcs_error_t :=
  let git_dir' := snprintf SVCS_MAX_PATH (path ++ "/.svcs") in
  let objects_dir := snprintf SVCS_MAX_PATH (git_dir' ++ "/objects") in
  let refs_dir := snprintf SVCS_MAX_PATH (git_dir' ++ "/refs") in
  match svcs_mkdir_recursive w git_dir' with
  | (w1, SVCS_OK) =>
      match svcs_mkdir_recursive w1 objects_dir with
      | (w2, SVCS_OK) =>
          match svcs_mkdir_recursive w2 refs_dir with
          | (w3, SVCS_OK) =>
              let head_file := snprintf SVCS_MAX_PATH (git_dir' ++ "/HEAD") in
              match svcs_file_write w3 head_file (bytes_of ("ref: refs/heads/main" ++ nl)) with
              | (w4, SVCS_OK) =>
                  let index_file := snprintf SVCS_MAX_PATH (git_dir' ++ "/index") in
                  match svcs_file_write w4 index_file [] with
                  | (w5, SVCS_OK) => (w5, SVCS_OK)
                  | (w5, _) => (w5, SVCS_ERROR_IO)
                  end
              | (w4, _) => (w4, SVCS_ERROR_IO)
              end
          | (w3, _) => (w3, SVCS_ERROR_IO)
          end
      | (w2, _) => (w2, SVCS_ERROR_IO)
      end
  | (w1, _) => (w1, SVCS_ERROR_IO)
  end.

(** [svcs_repository_is_valid]. *)
Definition svcs_repository_is_valid (w : world) (path : string) : bool :=
  svcs_file_exists w (snprintf SVCS_MAX_PATH (path ++ "/.svcs")).

(* ===================================================================== *)
(** ** The index file and the staging of files ([index.c], [object.c])    *)
(* ===================================================================== *)

(** A text that holds no zero character, as the characters of a C string
    do. *)
Fixpoint no_zero (s : string) : bool :=
  match s with
  | EmptyString => true
  | String c r => negb (Ascii.eqb c zero) && no_zero r
  end.

(** An entry that the fields of a [svcs_index_entry_t] can hold: a path
    that fits [char path[SVCS_MAX_PATH]] with its terminator, 32 bytes of
    hash, a [uint32_t] mode, a 64-bit [time_t] and a 64-bit [size_t]. *)
Definition entry_representable (e : svcs_index_entry_t) : Prop :=
  (String.length (e_path e) < SVCS_MAX_PATH)%nat /\
  no_zero (e_path e) = true /\
  hash_wf (e_hash e) /\
  0 <= e_mode e < 2 ^ 32 /\
  - 2 ^ 63 <= e_mtime e < 2 ^ 63 /\
  0 <= e_size e < 2 ^ 64.

(** How the machine lays out what [svcs_index_save] copies with [memcpy]
    and [svcs_index_load] copies back: the [sizeof(svcs_index_entry_t)]
    bytes of an entry and the four bytes of a [uint32_t]. The code depends
    on nothing else of it than that a copy out and back gives the value
    again. The bytes that the fields do not determine (padding) are taken
    to be a function of the entry. *)
Class IndexLayout : Type := {
  sizeof_entry : nat;
  entry_image : svcs_index_entry_t -> list byte;
  entry_of_image : list byte -> svcs_index_entry_t;
  uint32_image : Z -> list byte;
  uint32_of_image : list byte -> Z;
  entry_image_length : forall e, length (entry_image e) = sizeof_entry;
  entry_image_inv : forall e, entry_representable e -> entry_of_image (entry_image e) = e;
  uint32_image_length : forall n, length (uint32_image n) = 4%nat;
  uint32_image_inv : forall n, uint32_of_image (uint32_image n) = n mod 2 ^ 32
}.

Section Index.

Context {layout : IndexLayout}.

(** [snprintf(index_path, sizeof(index_path), "%s/index", repo->git_dir)]. *)
Definition index_path (repo : svcs_repository_t) : string :=
  snprintf SVCS_MAX_PATH (git_dir repo ++ "/index").

(** The buffer [svcs_index_save] fills: the version 1, the number of
    entries cast to [uint32_t], and the entries one after the other. *)
Definition index_image (idx : svcs_index_t) : list byte :=
  uint32_image 1 ++ uint32_image (Z.of_nat (length (entries idx)))
  ++ concat (map entry_image (entries idx)).

(** [svcs_index_save], for a repository whose index is [idx]. *)
Definition svcs_index_save (w : world) (repo : svcs_repository_t) (idx : svcs_index_t)
  : world * svcs_error_t :=
  svcs_file_write w (index_path repo) (index_image idx).

(** The loop of [svcs_index_load] over the entries: [None] when the bytes
    that are left do not hold an entry. *)
Fixpoint read_entries (count : nat) (data : list byte) : option (list svcs_index_entry_t) :=
  match count with
  | O => Some []
  | S c =>
      if (length data <? sizeof_entry)%nat then None
      else
        match read_entries c (skipn sizeof_entry data) with
        | Some es => Some (entry_of_image (firstn sizeof_entry data) :: es)
        | None => None
        end
  end.

Definition empty_index (w : world) : svcs_index_t :=
  {| entries := []; index_timestamp := clock w |}.

(** [svcs_index_load]: the index it leaves in [repo->index] when it returns
    [SVCS_OK]. *)
Definition svcs_index_load (w : world) (repo : svcs_repository_t) : result svcs_index_t :=
  let path := index_path repo in
  if negb (svcs_file_exists w path) then Ok (empty_index w)
  else
    match svcs_file_read w path with
    | Err e => Err e
    | Ok [] => Ok (empty_index w)
    | Ok data =>
        if (length data <? 8)%nat then Err SVCS_ERROR_CORRUPT
        else
          let version := uint32_of_image (firstn 4 data) in
          let entry_count := uint32_of_image (firstn 4 (skipn 4 data)) in
          if negb (version =? 1) then Err SVCS_ERROR_CORRUPT
          else
            match read_entries (Z.to_nat entry_count) (skipn 8 data) with
            | Some es => Ok {| entries := es; index_timestamp := clock w |}
            | None => Err SVCS_ERROR_CORRUPT
            end
    end.

(** [svcs_object_create_blob]: the blob hash of a file, and the object
    written for it. *)
Definition svcs_object_create_blob (w : world) (repo : svcs_repository_t) (file_path : string)
  : world * result svcs_hash_t :=
  match svcs_file_read w file_path with
  | Err e => (w, Err e)
  | Ok data =>
      let hash := svcs_hash_object SVCS_OBJ_BLOB data in
      let obj := {| obj_type := SVCS_OBJ_BLOB; obj_size := Z.of_nat (length data);
                    obj_hash := hash |} in
      match svcs_object_write w repo obj with
      | (w1, SVCS_OK) => (w1, Ok hash)
      | (w1, e) => (w1, Err e)
      end
  end.

(** The position of the first entry whose path is [path]. *)
Fixpoint find_entry (es : list svcs_index_entry_t) (path : string) : option nat :=
  match es with
  | [] => None
  | e :: r => if String.eqb (e_path e) path then Some O else option_map S (find_entry r path)
  end.

(** An entry that the search for [path] passes over. *)
Definition other_path (path : string) (e : svcs_index_entry_t) : bool :=
  negb (String.eqb (e_path e) path).

(** What [stat] reports of a file. *)
Definition st_size (f : file) : Z := Z.of_nat (length (f_content f)).

(** The entry of a file after [svcs_index_add]: the fields that are
    written into the entry found or made. *)
Definition staged_entry (entry_path : string) (hash : svcs_hash_t) (f : file)
  : svcs_index_entry_t :=
  {| e_path := entry_path; e_hash := hash; e_mode := f_mode f; e_mtime := f_mtime f;
     e_size := st_size f; e_status := SVCS_STATUS_ADDED |}.

(** [svcs_index_add], for a repository whose index is [idx]; the index it
    leaves in the repository is returned with the error, since the entry is
    written before the index is saved. A directory is stopped by
    [svcs_hash_file], with the error [svcs_file_read] has for it. *)
Definition svcs_index_add (w : world) (repo : svcs_repository_t) (idx : svcs_index_t)
  (path : string) : world * svcs_index_t * svcs_error_t :=
  match nodes w !! path with
  | None => (w, idx, SVCS_ERROR_NOT_FOUND)
  | Some Dir => (w, idx, SVCS_ERROR_MEMORY)
  | Some (File st) =>
      match svcs_hash_file w path with
      | Err e => (w, idx, e)
      | Ok _ =>
          match svcs_object_create_blob w repo path with
          | (w1, Err e) => (w1, idx, e)
          | (w1, Ok hash) =>
              let es :=
                match find_entry (entries idx) path with
                | Some i =>
                    <[i := staged_entry (default EmptyString (e_path <$> entries idx !! i))
                                        hash st]> (entries idx)
                | None => entries idx ++ [staged_entry (snprintf SVCS_MAX_PATH path) hash st]
                end in
              let idx' := {| entries := es; index_timestamp := index_timestamp idx |} in
              let (w2, err) := svcs_index_save w1 repo idx' in
              (w2, idx', err)
          end
      end
  end.

(** [svcs_index_remove], in the same way. *)
Definition svcs_index_remove (w : world) (repo : svcs_repository_t) (idx : svcs_index_t)
  (path : string) : world * svcs_index_t * svcs_error_t :=
  match find_entry (entries idx) path with
  | Some i =>
      let idx' := {| entries := delete i (entries idx);
                     index_timestamp := index_timestamp idx |} in
      let (w1, err) := svcs_index_save w repo idx' in
      (w1, idx', err)
  | None => (w, idx, SVCS_ERROR_NOT_FOUND)
  end.

End Index.

(** The layout of an LP64 little-endian machine (x86-64 Linux): a
    concrete [IndexLayout]. The entry takes 4160 bytes: the path array, the
    hash, the mode and four bytes of padding, the time, the size, the
    status and four bytes of padding. *)
Module LP64.

(** The [k] low bytes of [n], least significant first. *)
Fixpoint le_bytes (k : nat) (n : Z) : list byte :=
  match k with
  | O => []
  | S k' => byte_of_Z (n mod 256) :: le_bytes k' (n / 256)
  end.

Fixpoint le_value (bs : list byte) : Z :=
  match bs with
  | [] => 0
  | b :: r => Z_of_byte b + 256 * le_value r
  end.

(** A 64-bit pattern read as a signed number. *)
Definition signed64 (n : Z) : Z := if n <? 2 ^ 63 then n else n - 2 ^ 64.

Definition status_value (s : svcs_file_status_t) : Z :=
  match s with
  | SVCS_STATUS_UNTRACKED => 0
  | SVCS_STATUS_ADDED => 1
  | SVCS_STATUS_MODIFIED => 2
  | SVCS_STATUS_DELETED => 3
  | SVCS_STATUS_RENAMED => 4
  | SVCS_STATUS_COPIED => 5
  end.

(** The status of a stored value; a value that is none of the enumeration
    is read as [SVCS_STATUS_UNTRACKED]. *)
Definition status_of_value (n : Z) : svcs_file_status_t :=
  if n =? 1 then SVCS_STATUS_ADDED
  else if n =? 2 then SVCS_STATUS_MODIFIED
  else if n =? 3 then SVCS_STATUS_DELETED
  else if n =? 4 then SVCS_STATUS_RENAMED
  else if n =? 5 then SVCS_STATUS_COPIED
  else SVCS_STATUS_UNTRACKED.

Definition padding : list byte := repeat NUL 4.

(** The path array: the text, and zeros up to [SVCS_MAX_PATH], as
    [strncpy] fills it. *)
Definition path_image (p : string) : list byte :=
  firstn SVCS_MAX_PATH (bytes_of p ++ repeat NUL SVCS_MAX_PATH).

Definition hash_image (h : svcs_hash_t) : list byte :=
  firstn SVCS_HASH_SIZE (h ++ repeat NUL SVCS_HASH_SIZE).

Definition sizeof_entry : nat := 4160.

Definition entry_image (e : svcs_index_entry_t) : list byte :=
  path_image (e_path e) ++ hash_image (e_hash e)
  ++ le_bytes 4 (e_mode e) ++ padding
  ++ le_bytes 8 (e_mtime e) ++ le_bytes 8 (e_size e)
  ++ le_bytes 4 (status_value (e_status e)) ++ padding.

Definition field (offset size : nat) (image : list byte) : list byte :=
  firstn size (skipn offset image).

Definition entry_of_image (image : list byte) : svcs_index_entry_t :=
  {| e_path := c_str (field 0 4096 image);
     e_hash := field 4096 32 image;
     e_mode := le_value (field 4128 4 image);
     e_mtime := signed64 (le_value (field 4136 8 image));
     e_size := le_value (field 4144 8 image);
     e_status := status_of_value (le_value (field 4152 4 image)) |}.

Definition uint32_image (n : Z) : list byte := le_bytes 4 n.

Definition uint32_of_image (bs : list byte) : Z := le_value bs.

End LP64.

(* ===================================================================== *)
(** ** Opening a repository ([repository.c])                              *)
(* ===================================================================== *)

Section Open.

Context {layout : IndexLayout}.



End Open.


(* ===================================================================== *)
(** * Properties                                                          *)
(* ===================================================================== *)

(* ===================================================================== *)
(** ** SHA3-256: known answers and the digest length                      *)
(* ===================================================================== *)

(** The FIPS 202 known answer for the empty message. *)
Example sha3_256_empty :
  map Z_of_byte (sha3_256 []) =
  [0xa7; 0xff; 0xc6; 0xf8; 0xbf; 0x1e; 0xd7; 0x66; 0x51; 0xc1; 0x47; 0x56; 0xa0; 0x61; 0xd6; 0x62;
   0xf5; 0x80; 0xff; 0x4d; 0xe4; 0x3b; 0x49; 0xfa; 0x82; 0xd8; 0x0a; 0x4b; 0x80; 0xf8; 0x43; 0x4a].
Proof. vm_compute. reflexivity. Qed.

(** The FIPS 202 known answer for the message [abc]. *)
Example sha3_256_abc :
  map Z_of_byte (sha3_256 (bytes_of "abc")) =
  [0x3a; 0x98; 0x5d; 0xa7; 0x4f; 0xe2; 0x25; 0xb2; 0x04; 0x5c; 0x17; 0x2d; 0x6b; 0xd3; 0x90; 0xbd;
   0x85; 0x5f; 0x08; 0x6e; 0x3e; 0x9d; 0x52; 0x5b; 0x46; 0xbf; 0xe2; 0x45; 0x11; 0x43; 0x15; 0x32].
Proof. vm_compute. reflexivity. Qed.

Lemma sha3_256_length (data : list byte) : length (sha3_256 data) = SVCS_HASH_SIZE.
Proof.
  unfold sha3_256, Keccak.squeeze.
  rewrite List.length_map, List.length_seq. reflexivity.
Qed.

Lemma sha3_256_wf (data : list byte) : hash_wf (sha3_256 data).
Proof. apply sha3_256_length. Qed.

(* ===================================================================== *)
(** ** Hashing                                                            *)
(* ===================================================================== *)

Lemma svcs_hash_init_wf : hash_wf svcs_hash_init.
Proof. unfold hash_wf, svcs_hash_init. apply repeat_length. Qed.

Lemma svcs_hash_update_nonempty (h : svcs_hash_t) (data : list byte) :
  data <> [] -> svcs_hash_update h data = sha3_256 data.
Proof. destruct data; [congruence | reflexivity]. Qed.

Lemma svcs_hash_update_empty (h : svcs_hash_t) : svcs_hash_update h [] = h.
Proof. reflexivity. Qed.

Lemma svcs_hash_update_wf (h : svcs_hash_t) (data : list byte) :
  hash_wf h -> hash_wf (svcs_hash_update h data).
Proof. destruct data; [trivial | intros _; apply sha3_256_wf]. Qed.

(** C9. [svcs_hash_update] is not incremental: after [svcs_hash_update(h, a)]
    and then [svcs_hash_update(h, b)] with [a] and [b] non-empty, the hash
    state is the SHA3-256 digest of [b] alone. The first call leaves the
    digest of [a], the second overwrites it, and neither the earlier state
    nor [a] has any part in the final value. *)
Theorem svcs_hash_update_overwrites (h : svcs_hash_t) (a b : list byte) :
  a <> [] -> b <> [] ->
  svcs_hash_update h a = sha3_256 a /\
  svcs_hash_update (svcs_hash_update h a) b = sha3_256 b /\
  forall (h' : svcs_hash_t) (a' : list byte),
    svcs_hash_update (svcs_hash_update h' a') b = svcs_hash_update (svcs_hash_update h a) b.
Proof.
  intros Ha Hb. split; [| split].
  - apply svcs_hash_update_nonempty; assumption.
  - apply svcs_hash_update_nonempty; assumption.
  - intros h' a'. rewrite !(svcs_hash_update_nonempty _ b) by assumption. reflexivity.
Qed.

Lemma svcs_hash_update_overwrites_witness :
  svcs_hash_update svcs_hash_init (bytes_of "a") = sha3_256 (bytes_of "a") /\
  svcs_hash_update (svcs_hash_update svcs_hash_init (bytes_of "a")) (bytes_of "b")
    = sha3_256 (bytes_of "b") /\
  forall (h' : svcs_hash_t) (a' : list byte),
    svcs_hash_update (svcs_hash_update h' a') (bytes_of "b")
    = svcs_hash_update (svcs_hash_update svcs_hash_init (bytes_of "a")) (bytes_of "b").
Proof.
  apply (svcs_hash_update_overwrites svcs_hash_init (bytes_of "a") (bytes_of "b"));
    vm_compute; discriminate.
Defined.

(** Two values are different as soon as a function tells them apart. *)
Lemma differ_by {A B : Type} (f : A -> B) (x y : A) : f x <> f y -> x <> y.
Proof. intros H E. apply H. rewrite E. reflexivity. Qed.

(** On the chunks [a] and [b] the state after the two calls is not the digest
    of the concatenation: the two digests differ in their first byte. *)
Example svcs_hash_update_ab_is_not_concat :
  svcs_hash_update (svcs_hash_update svcs_hash_init (bytes_of "a")) (bytes_of "b")
  <> sha3_256 (bytes_of "a" ++ bytes_of "b").
Proof.
  apply (differ_by (fun l => map Z_of_byte (firstn 1 l))).
  vm_compute. discriminate.
Qed.

(** *** Hexadecimal form of a hash *)

Lemma strtol16_fmt_02x (b : byte) : byte_of_Z (strtol16 (fmt_02x b)) = b.
Proof. destruct b; vm_compute; reflexivity. Qed.

Definition is_lower_hex (c : ascii) : bool :=
  let n := Z_of_ascii c in
  ((48 <=? n) && (n <=? 57)) || ((97 <=? n) && (n <=? 102)).

Lemma fmt_02x_lower_hex (b : byte) :
  exists c1 c2, fmt_02x b = String c1 (String c2 EmptyString)
                /\ is_lower_hex c1 = true /\ is_lower_hex c2 = true.
Proof.
  exists (digit_char (Z_of_byte b / 16)), (digit_char (Z_of_byte b mod 16)).
  split; [reflexivity |].
  destruct b; vm_compute; split; reflexivity.
Qed.

(** Reading a whole array cell by cell gives the array back. *)
Lemma map_nth_seq_id {A} (d : A) (l : list A) :
  map (fun i => nth i l d) (seq 0 (length l)) = l.
Proof.
  induction l as [| x l IH]; [reflexivity |].
  cbn [length seq map nth]. f_equal.
  rewrite <- seq_shift, List.map_map. exact IH.
Qed.

Lemma hash_cells (h : svcs_hash_t) :
  hash_wf h -> map (fun i => nth i h NUL) (seq 0 SVCS_HASH_SIZE) = h.
Proof. intros Hwf. rewrite <- Hwf. apply map_nth_seq_id. Qed.

Definition hex_of_bytes (l : list byte) : string :=
  fold_right append EmptyString (map fmt_02x l).

Lemma svcs_hash_to_string_hex (h : svcs_hash_t) :
  hash_wf h -> svcs_hash_to_string h = hex_of_bytes h.
Proof.
  intros Hwf. unfold svcs_hash_to_string, hex_of_bytes.
  rewrite <- (List.map_map (fun i => nth i h NUL) fmt_02x).
  rewrite (hash_cells h Hwf). reflexivity.
Qed.

Lemma hex_of_bytes_cons (b : byte) (l : list byte) :
  exists c1 c2, fmt_02x b = String c1 (String c2 EmptyString) /\
                hex_of_bytes (b :: l) = String c1 (String c2 (hex_of_bytes l)).
Proof.
  destruct (fmt_02x_lower_hex b) as (c1 & c2 & E & _).
  exists c1, c2. split; [exact E |]. unfold hex_of_bytes. cbn [map fold_right].
  rewrite E. reflexivity.
Qed.

Lemma hex_of_bytes_length (l : list byte) :
  String.length (hex_of_bytes l) = (2 * length l)%nat.
Proof.
  induction l as [| b l IH]; [reflexivity |].
  destruct (hex_of_bytes_cons b l) as (c1 & c2 & _ & E). rewrite E.
  cbn [String.length length]. rewrite IH. lia.
Qed.

Lemma byte_str_hex_of_bytes (l : list byte) (i : nat) (b : byte) :
  l !! i = Some b -> byte_str (hex_of_bytes l) i = fmt_02x b.
Proof.
  revert i. induction l as [| x l IH]; intros i Hi; [discriminate |].
  destruct (hex_of_bytes_cons x l) as (c1 & c2 & Ex & E).
  destruct i as [| i].
  - injection Hi as ->. rewrite E, Ex. reflexivity.
  - cbn in Hi. specialize (IH i Hi). rewrite <- IH, E.
    unfold byte_str, char_at.
    replace (2 * S i)%nat with (S (S (2 * i))) by lia.
    replace (S (S (2 * i)) + 1)%nat with (S (S (2 * i + 1))) by lia.
    reflexivity.
Qed.

Lemma svcs_hash_to_string_length (h : svcs_hash_t) :
  String.length (svcs_hash_to_string h) = 64%nat.
Proof.
  unfold svcs_hash_to_string.
  change (String.length (hex_of_bytes (map (fun i => nth i h NUL) (seq 0 SVCS_HASH_SIZE))) = 64%nat).
  rewrite hex_of_bytes_length, List.length_map, List.length_seq. reflexivity.
Qed.

(** Every character of the hexadecimal form is one of [0-9a-f]. *)
Lemma hex_of_bytes_lower (l : list byte) (i : nat) (c : ascii) :
  String.get i (hex_of_bytes l) = Some c -> is_lower_hex c = true.
Proof.
  revert i. induction l as [| x l IH]; intros i Hi.
  - destruct i; discriminate.
  - destruct (hex_of_bytes_cons x l) as (c1 & c2 & Ex & E). rewrite E in Hi.
    destruct (fmt_02x_lower_hex x) as (d1 & d2 & Ed & H1 & H2).
    rewrite Ex in Ed. injection Ed as <- <-.
    destruct i as [| [| i]]; cbn in Hi.
    + injection Hi as <-. exact H1.
    + injection Hi as <-. exact H2.
    + eapply IH; eassumption.
Qed.

(** The round trip of the hexadecimal form: decoding what
    [svcs_hash_to_string] wrote gives the hash back. *)
Lemma svcs_hash_from_to_string (h : svcs_hash_t) :
  hash_wf h -> svcs_hash_from_string (svcs_hash_to_string h) = Ok h.
Proof.
  intros Hwf. unfold svcs_hash_from_string.
  rewrite svcs_hash_to_string_length. cbn [negb Nat.eqb SVCS_HASH_HEX_SIZE Nat.sub].
  change (64 =? 64)%nat with true. cbn [negb]. f_equal.
  rewrite svcs_hash_to_string_hex by exact Hwf.
  transitivity (map (fun i => nth i h NUL) (seq 0 SVCS_HASH_SIZE));
    [| apply hash_cells; exact Hwf].
  apply List.map_ext_in. intros i Hi. apply List.in_seq in Hi.
  rewrite (byte_str_hex_of_bytes h i (nth i h NUL)).
  - apply strtol16_fmt_02x.
  - destruct (lookup_lt_is_Some_2 h i) as [x Hx].
    { unfold hash_wf in Hwf. rewrite Hwf. lia. }
    rewrite Hx. f_equal. symmetry. apply nth_lookup_Some. exact Hx.
Qed.

(** A string that is not 64 characters long is refused. *)
Lemma svcs_hash_from_string_length (str : string) :
  String.length str <> 64%nat -> svcs_hash_from_string str = Err SVCS_ERROR_INVALID.
Proof.
  intros H. unfold svcs_hash_from_string.
  destruct (Nat.eqb_spec (String.length str) (SVCS_HASH_HEX_SIZE - 1)) as [E | E].
  - exfalso. apply H. exact E.
  - reflexivity.
Qed.

(** Distinct hashes have distinct hexadecimal forms. *)
Lemma svcs_hash_to_string_inj (h1 h2 : svcs_hash_t) :
  hash_wf h1 -> hash_wf h2 ->
  svcs_hash_to_string h1 = svcs_hash_to_string h2 -> h1 = h2.
Proof.
  intros H1 H2 E.
  assert (Ok h1 = Ok h2) as [= ->]; [| reflexivity].
  rewrite <- (svcs_hash_from_to_string h1 H1), <- (svcs_hash_from_to_string h2 H2), E.
  reflexivity.
Qed.

(** Sixty-four times the letter [z]: a string of the right length with no
    hexadecimal digit in it. *)
Definition sixty_four_z : string :=
  "zzzzzzzzzzzzzzzzzzzzzzzzzzzzzzzzzzzzzzzzzzzzzzzzzzzzzzzzzzzzzzzz".

(** C6. The decoder does not refuse a 64-character string without
    hexadecimal digits: [strtol] reads each pair as 0, so sixty-four [z]
    decode, with [SVCS_OK], to the all-zero hash. *)
Theorem svcs_hash_from_string_accepts_non_hex :
  String.length sixty_four_z = 64%nat /\
  (forall i c, String.get i sixty_four_z = Some c -> is_lower_hex c = false) /\
  svcs_hash_from_string sixty_four_z = Ok svcs_hash_init.
Proof.
  split; [reflexivity |]. split; [| vm_compute; reflexivity].
  intros i c Hi.
  assert (c = "z"%char) as ->; [| reflexivity].
  revert Hi. unfold sixty_four_z.
  do 64 (destruct i as [| i]; [intros [= <-]; reflexivity |]).
  discriminate.
Qed.

(* ===================================================================== *)
(** ** The hexadecimal form of a hash: what does hold                     *)
(* ===================================================================== *)

(** X1. For every hash [h] of 32 bytes, the text [svcs_hash_to_string]
    gives has 64 characters, all of them in [0-9a-f], and
    [svcs_hash_from_string] decodes it to [h] again; a string whose length
    is not 64 is refused with [SVCS_ERROR_INVALID]. *)
Theorem svcs_hash_hex_round_trip (h : svcs_hash_t) :
  hash_wf h ->
  String.length (svcs_hash_to_string h) = 64%nat /\
  (forall i c, String.get i (svcs_hash_to_string h) = Some c -> is_lower_hex c = true) /\
  svcs_hash_from_string (svcs_hash_to_string h) = Ok h /\
  (forall str, String.length str <> 64%nat ->
               svcs_hash_from_string str = Err SVCS_ERROR_INVALID).
Proof.
  intros Hwf. split; [apply svcs_hash_to_string_length |].
  split; [| split].
  - intros i c. rewrite (svcs_hash_to_string_hex h Hwf). apply hex_of_bytes_lower.
  - apply svcs_hash_from_to_string. exact Hwf.
  - apply svcs_hash_from_string_length.
Qed.

Lemma svcs_hash_hex_round_trip_witness :
  String.length (svcs_hash_to_string (sha3_256 (bytes_of "abc"))) = 64%nat /\
  (forall i c, String.get i (svcs_hash_to_string (sha3_256 (bytes_of "abc"))) = Some c ->
               is_lower_hex c = true) /\
  svcs_hash_from_string (svcs_hash_to_string (sha3_256 (bytes_of "abc")))
    = Ok (sha3_256 (bytes_of "abc")) /\
  (forall str, String.length str <> 64%nat ->
               svcs_hash_from_string str = Err SVCS_ERROR_INVALID).
Proof.
  apply (svcs_hash_hex_round_trip (sha3_256 (bytes_of "abc"))).
  vm_compute. reflexivity.
Defined.

(* ===================================================================== *)
(** ** Three-way line merge                                               *)
(* ===================================================================== *)

Section MergeProperties.

Implicit Types base ours theirs : list string.

(** What a merge without conflict returns for the lines [l]. *)
Definition clean_merge (l : list string) : ThreeWayMergeResult :=
  {| merged_content := join_lines l;
     conflicts := [];
     has_conflicts := false;
     success := true;
     error_message := EmptyString |}.

(** The distance of the cursors from the end of the longest vector. *)
Definition merge_measure base ours theirs (st : merge_state) : nat :=
  Nat.max (length base - base_idx st)
          (Nat.max (length ours - our_idx st) (length theirs - their_idx st)).

Lemma merge_step_cursors base ours theirs st :
  base_idx (merge_step base ours theirs st) = S (base_idx st) /\
  our_idx (merge_step base ours theirs st) = S (our_idx st) /\
  their_idx (merge_step base ours theirs st) = S (their_idx st).
Proof.
  unfold merge_step, conflict_step, advance, conflict_size.
  destruct (line_at base (base_idx st)), (line_at ours (our_idx st)),
    (line_at theirs (their_idx st)); cbn;
    repeat match goal with |- context [if ?c then _ else _] => destruct c end;
    cbn; repeat split; lia.
Qed.

Lemma merge_continues_measure base ours theirs st :
  merge_continues base ours theirs st = false <-> merge_measure base ours theirs st = O.
Proof.
  unfold merge_continues, merge_measure.
  rewrite !orb_false_iff, !Nat.ltb_ge. lia.
Qed.

(** The loop ends within [fuel] iterations as soon as [fuel] covers the
    distance left. *)
Lemma merge_loop_total base ours theirs (fuel : nat) st :
  (merge_measure base ours theirs st <= fuel)%nat ->
  exists st', merge_loop fuel base ours theirs st = Some st'.
Proof.
  revert st. induction fuel as [| f IH]; intros st Hm.
  - cbn. destruct (merge_continues base ours theirs st) eqn:E; [| eauto].
    assert (merge_measure base ours theirs st = O) as H0 by lia.
    apply merge_continues_measure in H0. congruence.
  - cbn. destruct (merge_continues base ours theirs st) eqn:E; [| eauto].
    apply IH.
    destruct (merge_step_cursors base ours theirs st) as (Hb & Ho & Ht).
    unfold merge_measure in *. rewrite Hb, Ho, Ht. lia.
Qed.

(** [three_way_merge_lines] returns on every input. *)
Lemma three_way_merge_lines_total base ours theirs :
  exists r, three_way_merge_lines base ours theirs = Some r.
Proof.
  unfold three_way_merge_lines.
  destruct (merge_loop_total base ours theirs (merge_fuel base ours theirs) merge_start)
    as [st' ->]; [| eauto].
  unfold merge_measure, merge_fuel, merge_start. cbn. lia.
Qed.

Lemma line_eqb_refl (l : string) : line_eqb l l = true.
Proof. apply String.eqb_refl. Qed.

(** With the three cursors on the same line number and that line present on
    each side, a side equal to the base lets the other side through. *)
Lemma merge_step_theirs_is_base base ours theirs st (lb lo : string) :
  line_at base (base_idx st) = Some lb ->
  line_at ours (our_idx st) = Some lo ->
  line_at theirs (their_idx st) = Some lb ->
  merge_step base ours theirs st = advance st lo.
Proof.
  intros Hb Ho Ht. unfold merge_step. rewrite Hb, Ho, Ht.
  destruct (line_eqb lb lo) eqn:E.
  - apply String.eqb_eq in E. subst lo. rewrite line_eqb_refl. reflexivity.
  - cbn. rewrite line_eqb_refl. reflexivity.
Qed.

Lemma merge_step_ours_is_base base ours theirs st (lb lt : string) :
  line_at base (base_idx st) = Some lb ->
  line_at ours (our_idx st) = Some lb ->
  line_at theirs (their_idx st) = Some lt ->
  merge_step base ours theirs st = advance st lt.
Proof.
  intros Hb Ho Ht. unfold merge_step. rewrite Hb, Ho, Ht.
  rewrite line_eqb_refl. cbn.
  destruct (line_eqb lb lt) eqn:E; [| reflexivity].
  apply String.eqb_eq in E. subst lt. reflexivity.
Qed.

(** The state the loop reaches from line [i] when every remaining line of
    [out] goes through. *)
Definition merged_through (n : nat) (out_rest : list string) (st : merge_state) : merge_state :=
  {| base_idx := n; our_idx := n; their_idx := n;
     merged_lines := merged_lines st ++ out_rest; found := found st |}.

(** Ours against an unchanged theirs, from any common cursor position: the
    vectors are split at the cursor into the lines done and the lines left. *)
Lemma merge_loop_theirs_is_base (bs xs bp xp : list string) (fuel : nat) st :
  length xs = length bs -> length xp = length bp ->
  base_idx st = length bp -> our_idx st = length bp -> their_idx st = length bp ->
  (length bs <= fuel)%nat ->
  merge_loop fuel (bp ++ bs) (xp ++ xs) (bp ++ bs) st
  = Some (merged_through (length bp + length bs) xs st).
Proof.
  revert xs bp xp fuel st.
  induction bs as [| b bs IH]; intros xs bp xp fuel st Hxs Hxp Hbi Hoi Hti Hfuel.
  - destruct xs; [| discriminate].
    assert (merge_continues (bp ++ []) (xp ++ []) (bp ++ []) st = false) as E.
    { unfold merge_continues. rewrite !orb_false_iff, !Nat.ltb_ge, !length_app.
      cbn. lia. }
    destruct fuel; cbn [merge_loop]; rewrite E; f_equal;
      destruct st; unfold merged_through; cbn in *; subst;
      rewrite Nat.add_0_r, app_nil_r; reflexivity.
  - destruct xs as [| x xs]; [discriminate |]. injection Hxs as Hxs.
    destruct fuel as [| fuel]; [cbn in Hfuel; lia |].
    cbn [merge_loop].
    assert (merge_continues (bp ++ b :: bs) (xp ++ x :: xs) (bp ++ b :: bs) st = true) as E.
    { unfold merge_continues. apply orb_true_iff. left. apply orb_true_iff. left.
      apply Nat.ltb_lt. rewrite length_app. cbn. lia. }
    rewrite E.
    rewrite (merge_step_theirs_is_base _ _ _ st b x).
    + replace (bp ++ b :: bs) with ((bp ++ [b]) ++ bs) by (rewrite <- app_assoc; reflexivity).
      replace (xp ++ x :: xs) with ((xp ++ [x]) ++ xs) by (rewrite <- app_assoc; reflexivity).
      rewrite (IH xs (bp ++ [b]) (xp ++ [x]) fuel (advance st x)).
      * f_equal. unfold merged_through, advance. cbn.
        rewrite !length_app, <- app_assoc. cbn. f_equal; lia.
      * exact Hxs.
      * rewrite !length_app. cbn. lia.
      * cbn. rewrite length_app. cbn. lia.
      * cbn. rewrite length_app. cbn. lia.
      * cbn. rewrite length_app. cbn. lia.
      * cbn in Hfuel. lia.
    + unfold line_at. rewrite Hbi. apply list_lookup_middle. reflexivity.
    + unfold line_at. rewrite Hoi. apply list_lookup_middle. symmetry. exact Hxp.
    + unfold line_at. rewrite Hti. apply list_lookup_middle. reflexivity.
Qed.

(** Theirs against an unchanged ours, the mirror image. *)
Lemma merge_loop_ours_is_base (bs ys bp yp : list string) (fuel : nat) st :
  length ys = length bs -> length yp = length bp ->
  base_idx st = length bp -> our_idx st = length bp -> their_idx st = length bp ->
  (length bs <= fuel)%nat ->
  merge_loop fuel (bp ++ bs) (bp ++ bs) (yp ++ ys) st
  = Some (merged_through (length bp + length bs) ys st).
Proof.
  revert ys bp yp fuel st.
  induction bs as [| b bs IH]; intros ys bp yp fuel st Hys Hyp Hbi Hoi Hti Hfuel.
  - destruct ys; [| discriminate].
    assert (merge_continues (bp ++ []) (bp ++ []) (yp ++ []) st = false) as E.
    { unfold merge_continues. rewrite !orb_false_iff, !Nat.ltb_ge, !length_app.
      cbn. lia. }
    destruct fuel; cbn [merge_loop]; rewrite E; f_equal;
      destruct st; unfold merged_through; cbn in *; subst;
      rewrite Nat.add_0_r, app_nil_r; reflexivity.
  - destruct ys as [| y ys]; [discriminate |]. injection Hys as Hys.
    destruct fuel as [| fuel]; [cbn in Hfuel; lia |].
    cbn [merge_loop].
    assert (merge_continues (bp ++ b :: bs) (bp ++ b :: bs) (yp ++ y :: ys) st = true) as E.
    { unfold merge_continues. apply orb_true_iff. left. apply orb_true_iff. left.
      apply Nat.ltb_lt. rewrite length_app. cbn. lia. }
    rewrite E.
    rewrite (merge_step_ours_is_base _ _ _ st b y).
    + replace (bp ++ b :: bs) with ((bp ++ [b]) ++ bs) by (rewrite <- app_assoc; reflexivity).
      replace (yp ++ y :: ys) with ((yp ++ [y]) ++ ys) by (rewrite <- app_assoc; reflexivity).
      rewrite (IH ys (bp ++ [b]) (yp ++ [y]) fuel (advance st y)).
      * f_equal. unfold merged_through, advance. cbn.
        rewrite !length_app, <- app_assoc. cbn. f_equal; lia.
      * exact Hys.
      * rewrite !length_app. cbn. lia.
      * cbn. rewrite length_app. cbn. lia.
      * cbn. rewrite length_app. cbn. lia.
      * cbn. rewrite length_app. cbn. lia.
      * cbn in Hfuel. lia.
    + unfold line_at. rewrite Hbi. apply list_lookup_middle. reflexivity.
    + unfold line_at. rewrite Hoi. apply list_lookup_middle. reflexivity.
    + unfold line_at. rewrite Hti. apply list_lookup_middle. symmetry. exact Hyp.
Qed.

Lemma three_way_merge_ours (b x : list string) :
  length x = length b -> three_way_merge_lines b x b = Some (clean_merge x).
Proof.
  intros Hlen. unfold three_way_merge_lines.
  pose proof (merge_loop_theirs_is_base b x [] [] (merge_fuel b x b) merge_start
                Hlen eq_refl eq_refl eq_refl eq_refl) as H.
  cbn [app] in H. rewrite H; [reflexivity |].
  unfold merge_fuel. lia.
Qed.

Lemma three_way_merge_theirs (b y : list string) :
  length y = length b -> three_way_merge_lines b b y = Some (clean_merge y).
Proof.
  intros Hlen. unfold three_way_merge_lines.
  pose proof (merge_loop_ours_is_base b y [] [] (merge_fuel b b y) merge_start
                Hlen eq_refl eq_refl eq_refl eq_refl) as H.
  cbn [app] in H. rewrite H; [reflexivity |].
  unfold merge_fuel. lia.
Qed.

End MergeProperties.

(** C4 (as amended). For every base [b] and every [x] and [y] with as many
    lines as [b]: merging [b] with itself on both sides returns [b], merging
    ours [x] against an unchanged theirs returns [x], and merging theirs [y]
    against an unchanged ours returns [y], each time with no conflict. *)
Theorem three_way_merge_identity (b x y : list string) :
  length x = length b -> length y = length b ->
  three_way_merge_lines b b b = Some (clean_merge b) /\
  three_way_merge_lines b x b = Some (clean_merge x) /\
  three_way_merge_lines b b y = Some (clean_merge y).
Proof.
  intros Hx Hy. repeat split.
  - apply three_way_merge_ours. reflexivity.
  - apply three_way_merge_ours. exact Hx.
  - apply three_way_merge_theirs. exact Hy.
Qed.

Lemma three_way_merge_identity_witness :
  three_way_merge_lines ["a"; "b"; "c"]%string ["a"; "b"; "c"]%string ["a"; "b"; "c"]%string
    = Some (clean_merge ["a"; "b"; "c"]%string) /\
  three_way_merge_lines ["a"; "b"; "c"]%string ["a"; "B1"; "c"]%string ["a"; "b"; "c"]%string
    = Some (clean_merge ["a"; "B1"; "c"]%string) /\
  three_way_merge_lines ["a"; "b"; "c"]%string ["a"; "b"; "c"]%string ["c"; "b"; "a"]%string
    = Some (clean_merge ["c"; "b"; "a"]%string).
Proof.
  apply (three_way_merge_identity ["a"; "b"; "c"]%string ["a"; "B1"; "c"]%string
           ["c"; "b"; "a"]%string); reflexivity.
Defined.

(** C4 as stated fails when a side has more or fewer lines than the base:
    with base and theirs [a] and ours [a; b], the line [b] has no base line
    under the cursor and comes out between conflict markers. *)
Lemma three_way_merge_longer_side_conflicts :
  exists r,
    three_way_merge_lines ["a"]%string ["a"; "b"]%string ["a"]%string = Some r /\
    has_conflicts r = true /\
    length (conflicts r) = 1%nat /\
    merged_content r
      = join_lines ["a"; "<<<<<<< HEAD"; "b"; "======="; ">>>>>>> branch"]%string /\
    Some r <> Some (clean_merge ["a"; "b"]%string).
Proof.
  eexists. split; [vm_compute; reflexivity |].
  repeat split; discriminate.
Qed.

(* ===================================================================== *)
(** ** Bytes as numbers                                                   *)
(* ===================================================================== *)

Lemma Z_of_byte_range (b : byte) : 0 <= Z_of_byte b < 256.
Proof.
  unfold Z_of_byte. pose proof (Byte.to_N_bounded b) as H. lia.
Qed.

Lemma Z_of_byte_of_Z (z : Z) : Z_of_byte (byte_of_Z z) = z mod 256.
Proof.
  unfold byte_of_Z, Z_of_byte.
  pose proof (Z.mod_pos_bound z 256 ltac:(lia)) as Hm.
  destruct (Byte.of_N (Z.to_N (z mod 256))) as [b |] eqn:E.
  - apply Byte.to_of_N in E. rewrite E. lia.
  - apply Byte.of_N_None_iff in E. lia.
Qed.

Lemma Z_of_byte_of_Z_small (z : Z) : 0 <= z < 256 -> Z_of_byte (byte_of_Z z) = z.
Proof. intros H. rewrite Z_of_byte_of_Z. apply Z.mod_small. exact H. Qed.

(* ===================================================================== *)
(** ** The stored-block codec meets the zlib contract                     *)
(* ===================================================================== *)

Module StoredFacts.
Import Stored.

Lemma max_stored_Z : Z.of_nat max_stored = 65535.
Proof. reflexivity. Qed.

Lemma le16_decode (n : Z) :
  0 <= n <= 65535 ->
  Z_of_byte (byte_of_Z n) + 256 * Z_of_byte (byte_of_Z (n / 256)) = n.
Proof.
  intros Hn. rewrite !Z_of_byte_of_Z.
  rewrite (Z.mod_small (n / 256) 256).
  - pose proof (Z.div_mod n 256 ltac:(lia)). lia.
  - split; [apply Z.div_pos; lia | apply Z.div_lt_upper_bound; lia].
Qed.

Lemma adler_step_range (ab : Z * Z) (x : byte) :
  0 <= fst (adler_step ab x) < 65521 /\ 0 <= snd (adler_step ab x) < 65521.
Proof.
  unfold adler_step. cbn [fst snd]. split; apply Z.mod_pos_bound; lia.
Qed.

Lemma adler_fold_range (data : list byte) (ab : Z * Z) :
  0 <= fst ab < 65521 /\ 0 <= snd ab < 65521 ->
  0 <= fst (fold_left adler_step data ab) < 65521 /\
  0 <= snd (fold_left adler_step data ab) < 65521.
Proof.
  revert ab. induction data as [| x data IH]; intros ab H; [exact H |].
  cbn [fold_left]. apply IH. apply adler_step_range.
Qed.

Lemma adler32_range (data : list byte) : 0 <= adler32 data < 2 ^ 32.
Proof.
  unfold adler32.
  pose proof (adler_fold_range data (1, 0) ltac:(cbn; lia)) as H.
  destruct (fold_left adler_step data (1, 0)) as [a b]. cbn [fst snd] in H. lia.
Qed.

Lemma read_be32_be32 (n : Z) : 0 <= n < 2 ^ 32 -> read_be32 (be32 n) = n.
Proof.
  intros Hn. unfold be32, read_be32. rewrite !Z_of_byte_of_Z.
  rewrite (Z.mod_small (n / 16777216) 256).
  2: { split; [apply Z.div_pos; lia | apply Z.div_lt_upper_bound; lia]. }
  assert (E1 : n / 256 / 256 = n / 65536) by (rewrite Z.div_div by lia; reflexivity).
  assert (E2 : n / 65536 / 256 = n / 16777216) by (rewrite Z.div_div by lia; reflexivity).
  pose proof (Z.div_mod n 256 ltac:(lia)) as H0.
  pose proof (Z.div_mod (n / 256) 256 ltac:(lia)) as H1. rewrite E1 in H1.
  pose proof (Z.div_mod (n / 65536) 256 ltac:(lia)) as H2. rewrite E2 in H2.
  lia.
Qed.

(** One block read back: the header written for [data] is accepted, and the
    reader goes on after the data or stops there. *)
Lemma inflate_one_block (fuel : nat) (final : bool) (data rest acc : list byte) :
  (length data <= max_stored)%nat ->
  inflate_blocks (S fuel) (block_header final (Z.of_nat (length data)) ++ data ++ rest) acc
  = if final then Some (acc ++ data, rest)
    else inflate_blocks fuel rest (acc ++ data).
Proof.
  intros Hlen.
  assert (0 <= Z.of_nat (length data) <= 65535) as Hn.
  { rewrite <- max_stored_Z. lia. }
  unfold block_header. cbn [app inflate_blocks].
  rewrite (le16_decode (Z.of_nat (length data)) Hn).
  rewrite (le16_decode (65535 - Z.of_nat (length data))) by lia.
  replace (Z.of_nat (length data) + (65535 - Z.of_nat (length data)) =? 65535) with true
    by (symmetry; apply Z.eqb_eq; lia).
  replace (Z.of_nat (length (data ++ rest)) <? Z.of_nat (length data)) with false
    by (symmetry; apply Z.ltb_ge; rewrite length_app; lia).
  rewrite Nat2Z.id.
  rewrite take_app_length, drop_app_length.
  destruct final; reflexivity.
Qed.

Lemma max_stored_pos : (0 < max_stored)%nat.
Proof. pose proof max_stored_Z. lia. Qed.

Lemma inflate_stored_blocks (fuel : nat) :
  forall (data acc tail : list byte) (fuel' : nat),
    (length data < fuel)%nat -> (fuel <= fuel')%nat ->
    inflate_blocks fuel' (stored_blocks fuel data ++ tail) acc = Some (acc ++ data, tail).
Proof.
  induction fuel as [| f IH]; intros data acc tail fuel' Hd Hf; [lia |].
  destruct fuel' as [| f']; [lia |].
  cbn [stored_blocks].
  pose proof (take_drop max_stored data) as Hsplit.
  pose proof (f_equal (@length byte) Hsplit) as Hlen.
  rewrite length_app, length_take in Hlen.
  pose proof max_stored_pos as Hpos.
  assert (length (take max_stored data) <= max_stored)%nat as Hchunk
    by (rewrite length_take; lia).
  destruct (skipn max_stored data) as [| r rs] eqn:Hrest.
  - rewrite <- !app_assoc. rewrite inflate_one_block by exact Hchunk.
    rewrite app_nil_r in Hsplit. rewrite Hsplit. reflexivity.
  - rewrite <- !app_assoc. rewrite inflate_one_block by exact Hchunk.
    cbn [length] in Hlen.
    rewrite IH.
    + rewrite <- app_assoc, Hsplit. reflexivity.
    + cbn [length]. lia.
    + lia.
Qed.

Lemma stored_blocks_length (fuel : nat) :
  forall data : list byte,
    (length data < fuel)%nat ->
    Z.of_nat (length (stored_blocks fuel data))
    <= Z.of_nat (length data) + 5 * (Z.of_nat (length data) / 65535 + 1).
Proof.
  induction fuel as [| f IH]; intros data Hd; [lia |].
  cbn [stored_blocks].
  pose proof (take_drop max_stored data) as Hsplit.
  pose proof (f_equal (@length byte) Hsplit) as Hlen.
  rewrite length_app in Hlen.
  pose proof (length_take data max_stored) as Htake.
  pose proof max_stored_Z as HmZ.
  pose proof (Z.div_pos (Z.of_nat (length data)) 65535 ltac:(lia) ltac:(lia)) as Hq.
  destruct (skipn max_stored data) as [| r rs] eqn:Hrest.
  - rewrite length_app. cbn [length block_header] in *. lia.
  - cbn [length] in Hlen.
    assert (length (take max_stored data) = max_stored) as Ht by lia.
    specialize (IH (r :: rs) ltac:(cbn [length]; lia)).
    assert (Z.of_nat (length (r :: rs)) = Z.of_nat (length data) + (-1) * 65535) as Hsub
      by (cbn [length]; lia).
    rewrite Hsub in IH. rewrite Z.div_add in IH by lia.
    rewrite !length_app. cbn [length block_header].
    rewrite !Nat2Z.inj_add. rewrite Ht, HmZ.
    change (Z.of_nat 5) with 5. lia.
Qed.

Lemma stored_blocks_length_ge (fuel : nat) :
  forall data : list byte,
    (length data < fuel)%nat ->
    (length data + 5 <= length (stored_blocks fuel data))%nat.
Proof.
  induction fuel as [| f IH]; intros data Hd; [lia |].
  cbn [stored_blocks].
  pose proof (take_drop max_stored data) as Hsplit.
  pose proof (f_equal (@length byte) Hsplit) as Hlen.
  rewrite length_app in Hlen.
  pose proof (length_take data max_stored) as Htake.
  pose proof max_stored_pos as Hpos.
  destruct (skipn max_stored data) as [| r rs] eqn:Hrest.
  - rewrite length_app. cbn [length block_header] in *. lia.
  - cbn [length] in Hlen.
    specialize (IH (r :: rs) ltac:(cbn [length]; lia)).
    rewrite !length_app. cbn [length block_header] in *. lia.
Qed.

Lemma deflate_stored_length (data : list byte) :
  Z.of_nat (length (deflate_stored data)) <= compressBound (Z.of_nat (length data)).
Proof.
  unfold deflate_stored, compressBound.
  rewrite !length_app. cbn [length be32].
  pose proof (stored_blocks_length (S (length data)) data ltac:(lia)) as H.
  set (n := Z.of_nat (length data)) in *.
  assert (0 <= n) as Hn by (unfold n; lia).
  rewrite !Z.shiftr_div_pow2 by lia.
  pose proof (Z.div_pos n (2 ^ 14) Hn ltac:(lia)).
  pose proof (Z.div_pos n (2 ^ 25) Hn ltac:(lia)).
  assert (15 * (n / 65535) <= n / 2 ^ 12) as H15.
  { apply Z.div_le_lower_bound; [lia |].
    pose proof (Z.mul_div_le n 65535 ltac:(lia)). lia. }
  pose proof (Z.div_pos n 65535 Hn ltac:(lia)).
  rewrite !Nat2Z.inj_add. change (Z.of_nat (length [x78; x01])) with 2.
  change (Z.of_nat 4) with 4. lia.
Qed.

Lemma uncompress_deflate_stored (cap : Z) (data : list byte) :
  uncompress cap (deflate_stored data)
  = if cap <? Z.of_nat (length data) then Z_BUF_ERROR else Z_OK data.
Proof.
  unfold uncompress.
  assert (zlib_header_ok (deflate_stored data) = true) as -> by reflexivity.
  cbn [negb].
  change (skipn 2 (deflate_stored data))
    with (stored_blocks (S (length data)) data ++ be32 (adler32 data)).
  rewrite inflate_stored_blocks.
  - cbn [app]. change (firstn 4 (be32 (adler32 data))) with (be32 (adler32 data)).
    rewrite read_be32_be32 by apply adler32_range.
    rewrite Z.eqb_refl. reflexivity.
  - lia.
  - unfold deflate_stored. rewrite !length_app. cbn [length be32].
    pose proof (stored_blocks_length_ge (S (length data)) data ltac:(lia)). lia.
Qed.

End StoredFacts.

(** The stored-block codec as an implementation of the contract. *)
#[export, refine] Instance stored_zlib : Zlib := {|
  zlib_compress := Stored.compress;
  zlib_uncompress := Stored.uncompress
|}.
Proof.
  - intros x. exists (Stored.deflate_stored x). unfold Stored.compress.
    pose proof (StoredFacts.deflate_stored_length x) as H.
    destruct (Z.ltb_spec (compressBound (Z.of_nat (length x)))
                (Z.of_nat (length (Stored.deflate_stored x)))); [lia | reflexivity].
  - intros cap x c. unfold Stored.compress.
    destruct (cap <? _); [discriminate |]. intros [= <-]. discriminate.
  - intros cap x c. unfold Stored.compress.
    destruct (Z.ltb_spec cap (Z.of_nat (length (Stored.deflate_stored x))));
      [discriminate |]. intros [= <-]. assumption.
  - intros cap0 x c cap. unfold Stored.compress.
    destruct (cap0 <? _); [discriminate |]. intros [= <-] Hcap.
    rewrite StoredFacts.uncompress_deflate_stored.
    destruct (Z.ltb_spec cap (Z.of_nat (length x))); [lia | reflexivity].
  - intros cap0 x c cap. unfold Stored.compress.
    destruct (cap0 <? _); [discriminate |]. intros [= <-] Hcap.
    rewrite StoredFacts.uncompress_deflate_stored.
    destruct (Z.ltb_spec cap (Z.of_nat (length x))); [reflexivity | lia].
  - intros cap s _ H. unfold Stored.uncompress. rewrite H. reflexivity.
Defined.

(* ===================================================================== *)
(** ** Compression                                                        *)
(* ===================================================================== *)

Section CompressionProperties.

Context {zlib : Zlib}.

Lemma svcs_compress_empty : svcs_compress [] = Err SVCS_ERROR_INVALID.
Proof. reflexivity. Qed.

Lemma svcs_decompress_empty : svcs_decompress [] = Err SVCS_ERROR_INVALID.
Proof. reflexivity. Qed.

(** On a non-empty input [svcs_compress] returns what [compress] wrote. *)
Lemma svcs_compress_nonempty (x : list byte) :
  x <> [] ->
  exists c, svcs_compress x = Ok c /\
            zlib_compress (compressBound (Z.of_nat (length x))) x = Z_OK c /\ c <> [].
Proof.
  intros Hx. destruct (zlib_compress_bound x) as [c Hc].
  exists c. split; [| split; [exact Hc | exact (zlib_compress_nonempty _ _ _ Hc)]].
  unfold svcs_compress. destruct x; [congruence |]. rewrite Hc. reflexivity.
Qed.

(** A [size_t] that has doubled [64 - fuel] times is a multiple of
    [2 ^ (64 - fuel)]; with no fuel left it is 0, and the loop leaves through
    the failed [realloc]. *)
Lemma decompress_grow_total (fuel : nat) :
  forall (buffer_size : Z) (input : list byte),
    0 <= buffer_size < SIZE_MAX1 ->
    (fuel <= 64)%nat ->
    (2 ^ (64 - Z.of_nat fuel) | buffer_size) ->
    exists r, decompress_grow fuel buffer_size input = Some r.
Proof.
  induction fuel as [| f IH]; intros b input Hb Hf Hdiv.
  - cbn [decompress_grow]. destruct (zlib_uncompress b input); eauto.
    assert (b = 0) as ->.
    { destruct Hdiv as [k Hk]. change (2 ^ (64 - Z.of_nat 0)) with SIZE_MAX1 in Hk.
      unfold SIZE_MAX1 in *. nia. }
    change (0 * 2 mod SIZE_MAX1 =? 0) with true. eauto.
  - cbn [decompress_grow]. destruct (zlib_uncompress b input); eauto.
    destruct (b * 2 mod SIZE_MAX1 =? 0); [eauto |].
    apply IH.
    + apply Z.mod_pos_bound. unfold SIZE_MAX1. lia.
    + lia.
    + destruct Hdiv as [k Hk].
      assert (2 ^ (64 - Z.of_nat f) = 2 * 2 ^ (64 - Z.of_nat (S f))) as Hp.
      { rewrite <- Z.pow_succ_r by lia. f_equal. lia. }
      assert (SIZE_MAX1 = 2 ^ (64 - Z.of_nat f) * 2 ^ Z.of_nat f) as Hs.
      { rewrite <- Z.pow_add_r by lia. unfold SIZE_MAX1. f_equal. lia. }
      rewrite Z.mod_eq by (unfold SIZE_MAX1; lia).
      set (q := b * 2 / SIZE_MAX1).
      exists (k - 2 ^ Z.of_nat f * q).
      rewrite Hs, Hk, Hp. ring.
Qed.

(** [svcs_decompress] never runs out of retries: the fallback of its model is
    dead code. *)
Lemma svcs_decompress_total (input : list byte) :
  exists r, decompress_grow 64 (Z.of_nat (length input) * 4 mod SIZE_MAX1) input = Some r.
Proof.
  apply decompress_grow_total.
  - apply Z.mod_pos_bound. unfold SIZE_MAX1. lia.
  - lia.
  - change (2 ^ (64 - Z.of_nat 64)) with 1. apply Z.divide_1_l.
Qed.

(** From a buffer that is not empty, doubling reaches the size of the
    source before the [size_t] wraps, as long as the source is below
    [2 ^ 63] bytes. *)
Lemma decompress_grow_finds (fuel : nat) :
  forall (buffer_size cap0 : Z) (x c : list byte),
    zlib_compress cap0 x = Z_OK c ->
    0 < buffer_size < SIZE_MAX1 ->
    Z.of_nat (length x) <= 2 ^ 63 ->
    Z.of_nat (length x) <= buffer_size * 2 ^ Z.of_nat fuel ->
    decompress_grow fuel buffer_size c = Some (Ok x).
Proof.
  induction fuel as [| f IH]; intros b cap0 x c Hc Hb Hx Hreach.
  - cbn [decompress_grow].
    rewrite (zlib_uncompress_room cap0 x c b Hc); [reflexivity |].
    change (2 ^ Z.of_nat 0) with 1 in Hreach. lia.
  - cbn [decompress_grow].
    destruct (Z.le_gt_cases (Z.of_nat (length x)) b) as [Hle | Hgt].
    + rewrite (zlib_uncompress_room cap0 x c b Hc Hle). reflexivity.
    + rewrite (zlib_uncompress_no_room cap0 x c b Hc) by lia.
      assert (b * 2 mod SIZE_MAX1 = b * 2) as Hm.
      { apply Z.mod_small. unfold SIZE_MAX1 in *. lia. }
      rewrite Hm.
      destruct (Z.eqb_spec (b * 2) 0) as [E | _]; [lia |].
      apply (IH (b * 2) cap0 x c Hc).
      * unfold SIZE_MAX1 in *. lia.
      * exact Hx.
      * rewrite Nat2Z.inj_succ, Z.pow_succ_r in Hreach by lia. lia.
Qed.

(** The round trip of the codec, for a source that is not empty. *)
Lemma svcs_decompress_compress (x c : list byte) :
  svcs_compress x = Ok c ->
  Z.of_nat (length x) <= 2 ^ 62 ->
  Z.of_nat (length c) < 2 ^ 62 ->
  svcs_decompress c = Ok x.
Proof.
  intros Hc Hx Hlc. unfold svcs_compress in Hc.
  destruct x as [| x0 x]; [discriminate |].
  destruct (zlib_compress _ (x0 :: x)) as [c' | | |] eqn:Hz; try discriminate.
  injection Hc as ->.
  pose proof (zlib_compress_nonempty _ _ _ Hz) as Hne.
  unfold svcs_decompress. destruct c as [| c0 c]; [congruence |].
  assert (Z.of_nat (length (c0 :: c)) * 4 mod SIZE_MAX1 = Z.of_nat (length (c0 :: c)) * 4) as Hm.
  { apply Z.mod_small. unfold SIZE_MAX1. lia. }
  rewrite Hm.
  rewrite (decompress_grow_finds 64 _ _ (x0 :: x) (c0 :: c) Hz); [reflexivity | | |].
  - unfold SIZE_MAX1. cbn [length] in *. lia.
  - lia.
  - cbn [length] in *. change (2 ^ Z.of_nat 64) with (2 ^ 64). lia.
Qed.

(** A stream of two bytes or more whose header is not a zlib header is
    refused with the catch-all code [SVCS_ERROR]. *)
Lemma svcs_decompress_bad_header (s : list byte) :
  (2 <= length s)%nat -> zlib_header_ok s = false ->
  svcs_decompress s = Err SVCS_ERROR.
Proof.
  intros Hlen Hbad. unfold svcs_decompress.
  destruct s as [| s0 s]; [cbn in Hlen; lia |].
  assert (forall fuel b, decompress_grow fuel b (s0 :: s) = Some (Err SVCS_ERROR)) as H.
  { intros [| f] b; cbn [decompress_grow];
      rewrite (zlib_uncompress_header _ (s0 :: s) Hlen Hbad); reflexivity. }
  rewrite H. reflexivity.
Qed.

Lemma compressBound_small (n : Z) : 0 <= n <= 2 ^ 61 -> compressBound n < 2 ^ 62.
Proof.
  intros Hn. unfold compressBound. rewrite !Z.shiftr_div_pow2 by lia.
  assert (n / 2 ^ 12 <= 2 ^ 49) by (apply Z.div_le_upper_bound; lia).
  assert (n / 2 ^ 14 <= 2 ^ 47) by (apply Z.div_le_upper_bound; lia).
  assert (n / 2 ^ 25 <= 2 ^ 36) by (apply Z.div_le_upper_bound; lia).
  lia.
Qed.

(** What the retry loop can leave with: the bytes of an [uncompress] that
    answered [Z_OK]; [SVCS_ERROR] after an [uncompress] that answered neither
    [Z_OK] nor [Z_BUF_ERROR]; or [SVCS_ERROR_MEMORY]. *)
Lemma decompress_grow_result (fuel : nat) :
  forall (buffer_size : Z) (input : list byte) (r : result (list byte)),
    decompress_grow fuel buffer_size input = Some r ->
    (exists cap out, zlib_uncompress cap input = Z_OK out /\ r = Ok out) \/
    (exists cap, (zlib_uncompress cap input = Z_DATA_ERROR \/
                  zlib_uncompress cap input = Z_MEM_ERROR) /\ r = Err SVCS_ERROR) \/
    r = Err SVCS_ERROR_MEMORY.
Proof.
  induction fuel as [| f IH]; intros b input r; cbn [decompress_grow];
    destruct (zlib_uncompress b input) as [out | | |] eqn:Hz.
  - intros [= <-]. left. eauto.
  - destruct (b * 2 mod SIZE_MAX1 =? 0); [| discriminate].
    intros [= <-]. right. right. reflexivity.
  - intros [= <-]. right. left. eauto.
  - intros [= <-]. right. left. eauto.
  - intros [= <-]. left. eauto.
  - destruct (b * 2 mod SIZE_MAX1 =? 0); [| apply IH].
    intros [= <-]. right. right. reflexivity.
  - intros [= <-]. right. left. eauto.
  - intros [= <-]. right. left. eauto.
Qed.

(** The same for [svcs_decompress], with the refusal of the empty input. *)
Lemma svcs_decompress_result (input : list byte) :
  (input = [] /\ svcs_decompress input = Err SVCS_ERROR_INVALID) \/
  (exists cap out, zlib_uncompress cap input = Z_OK out /\ svcs_decompress input = Ok out) \/
  (exists cap, (zlib_uncompress cap input = Z_DATA_ERROR \/
                zlib_uncompress cap input = Z_MEM_ERROR) /\
               svcs_decompress input = Err SVCS_ERROR) \/
  svcs_decompress input = Err SVCS_ERROR_MEMORY.
Proof.
  destruct input as [| i0 input]; [left; split; reflexivity | right].
  unfold svcs_decompress. cbv zeta.
  destruct (decompress_grow 64 _ (i0 :: input)) as [r |] eqn:Hg;
    [| right; right; reflexivity].
  destruct (decompress_grow_result _ _ _ _ Hg) as [(cap & out & Hz & ->) | [(cap & Hz & ->) | ->]].
  - left. eauto.
  - right. left. eauto.
  - right. right. reflexivity.
Qed.

(** An input that [uncompress] answers with [Z_DATA_ERROR], whatever the
    room it is given, is refused with the catch-all code [SVCS_ERROR]. *)
Lemma svcs_decompress_data_error (s : list byte) :
  s <> [] -> (forall cap, zlib_uncompress cap s = Z_DATA_ERROR) ->
  svcs_decompress s = Err SVCS_ERROR.
Proof.
  intros Hs Hbad. unfold svcs_decompress.
  destruct s as [| s0 s]; [congruence |].
  assert (forall fuel b, decompress_grow fuel b (s0 :: s) = Some (Err SVCS_ERROR)) as H.
  { intros [| f] b; cbn [decompress_grow]; rewrite Hbad; reflexivity. }
  rewrite H. reflexivity.
Qed.

(** C5 (as amended). For every byte sequence [x] that is not empty (and of
    at most [2 ^ 61] bytes, below the sizes at which a 64-bit [size_t]
    wraps), [svcs_compress] succeeds and [svcs_decompress] of its output
    returns exactly [x]. The empty sequence is refused by both functions with
    [SVCS_ERROR_INVALID]. [svcs_decompress] answers no input at all with the
    corruption code [SVCS_ERROR_CORRUPT]: it succeeds only with the bytes
    that a call of [uncompress] accepted; an input that is not empty and
    that [uncompress] accepts for no size of the destination fails with
    [SVCS_ERROR] or [SVCS_ERROR_MEMORY]; and an input that is not empty and
    that [uncompress] answers with [Z_DATA_ERROR] (what zlib answers to
    malformed data) fails with the general code [SVCS_ERROR]. *)
Theorem svcs_codec_round_trip (x : list byte) :
  x <> [] ->
  Z.of_nat (length x) <= 2 ^ 61 ->
  (exists c, svcs_compress x = Ok c /\ svcs_decompress c = Ok x) /\
  svcs_compress [] = Err SVCS_ERROR_INVALID /\
  svcs_decompress [] = Err SVCS_ERROR_INVALID /\
  (forall s, svcs_decompress s <> Err SVCS_ERROR_CORRUPT) /\
  (forall s out, svcs_decompress s = Ok out ->
                 exists cap, zlib_uncompress cap s = Z_OK out) /\
  (forall s, s <> [] -> (forall cap out, zlib_uncompress cap s <> Z_OK out) ->
             svcs_decompress s = Err SVCS_ERROR \/
             svcs_decompress s = Err SVCS_ERROR_MEMORY) /\
  (forall s, s <> [] -> (forall cap, zlib_uncompress cap s = Z_DATA_ERROR) ->
             svcs_decompress s = Err SVCS_ERROR).
Proof.
  intros Hx Hlen. split; [| split; [| split; [| split; [| split; [| split]]]]].
  - destruct (svcs_compress_nonempty x Hx) as (c & Hok & Hz & _).
    exists c. split; [exact Hok |].
    apply svcs_decompress_compress; [exact Hok | lia |].
    pose proof (zlib_compress_fits _ _ _ Hz) as Hfit.
    pose proof (compressBound_small (Z.of_nat (length x)) ltac:(lia)). lia.
  - apply svcs_compress_empty.
  - apply svcs_decompress_empty.
  - intros s.
    destruct (svcs_decompress_result s)
      as [[_ ->] | [(cap & out & _ & ->) | [(cap & _ & ->) | ->]]]; discriminate.
  - intros s out Hs.
    destruct (svcs_decompress_result s)
      as [[_ H] | [(cap & out' & Hz & H) | [(cap & _ & H) | H]]];
      rewrite H in Hs; try discriminate.
    injection Hs as <-. exists cap. exact Hz.
  - intros s Hs Hno.
    destruct (svcs_decompress_result s)
      as [[H _] | [(cap & out & Hz & _) | [(cap & _ & H) | H]]].
    + congruence.
    + destruct (Hno cap out Hz).
    + left. exact H.
    + right. exact H.
  - apply svcs_decompress_data_error.
Qed.

End CompressionProperties.

Definition hello : list byte := bytes_of "hello".

Lemma svcs_codec_round_trip_witness :
  (exists c, @svcs_compress stored_zlib hello = Ok c
             /\ @svcs_decompress stored_zlib c = Ok hello) /\
  @svcs_compress stored_zlib [] = Err SVCS_ERROR_INVALID /\
  @svcs_decompress stored_zlib [] = Err SVCS_ERROR_INVALID /\
  (forall s, @svcs_decompress stored_zlib s <> Err SVCS_ERROR_CORRUPT) /\
  (forall s out, @svcs_decompress stored_zlib s = Ok out ->
                 exists cap, @zlib_uncompress stored_zlib cap s = Z_OK out) /\
  (forall s, s <> [] ->
             (forall cap out, @zlib_uncompress stored_zlib cap s <> Z_OK out) ->
             @svcs_decompress stored_zlib s = Err SVCS_ERROR \/
             @svcs_decompress stored_zlib s = Err SVCS_ERROR_MEMORY) /\
  (forall s, s <> [] ->
             (forall cap, @zlib_uncompress stored_zlib cap s = Z_DATA_ERROR) ->
             @svcs_decompress stored_zlib s = Err SVCS_ERROR).
Proof.
  apply (@svcs_codec_round_trip stored_zlib hello).
  - vm_compute. discriminate.
  - vm_compute. discriminate.
Defined.

(** C5 as stated fails twice: the empty sequence is not compressed but
    refused, whatever the codec; and a malformed input (here a text that is
    no zlib stream) is answered with [SVCS_ERROR], which is not the
    corruption code, a code that [svcs_decompress] returns on no input. *)
Lemma svcs_codec_empty_and_malformed :
  (forall zlib : Zlib, @svcs_compress zlib [] = Err SVCS_ERROR_INVALID) /\
  (forall zlib : Zlib,
      @svcs_decompress zlib (bytes_of "blob 5") = Err SVCS_ERROR) /\
  @Err (list byte) SVCS_ERROR <> Err SVCS_ERROR_CORRUPT /\
  (forall (zlib : Zlib) (s : list byte),
      @svcs_decompress zlib s <> Err SVCS_ERROR_CORRUPT).
Proof.
  split; [reflexivity |]. split; [| split; [discriminate |]].
  - intros zlib. apply svcs_decompress_bad_header; [cbn; lia | reflexivity].
  - intros zlib s.
    destruct (@svcs_decompress_result zlib s)
      as [[_ ->] | [(cap & out & _ & ->) | [(cap & _ & ->) | ->]]]; discriminate.
Qed.

(* ===================================================================== *)
(** ** Comparing hashes                                                   *)
(* ===================================================================== *)




Lemma svcs_hash_object_wf (t : svcs_object_type_t) (data : list byte) :
  hash_wf (svcs_hash_object t data).
Proof. apply sha3_256_wf. Qed.

(* ===================================================================== *)
(** ** The staging index: [svcs_index_status]                             *)
(* ===================================================================== *)

#[export] Instance byte_eq_decision : EqDecision byte := Byte.byte_eq_dec.




(** After [k] iterations the first [k] cells of the caller's array hold the
    checked copies, the other cells are as they were, and the entries of the
    repository are untouched. *)
Lemma status_loop (w : world) (es : list svcs_index_entry_t) (k : nat) :
  forall out : list svcs_index_entry_t,
    length out = length es -> (k <= length es)%nat ->
    fold_left (status_iteration w) (seq 0 k) {| repo_entries := es; out_entries := out |}
    = {| repo_entries := es;
         out_entries := map (check_status w) (take k es) ++ drop k out |}.
Proof.
  induction k as [| k IH]; intros out Hlen Hk.
  - cbn. rewrite drop_0. reflexivity.
  - rewrite seq_S, fold_left_app, IH by lia. cbn [fold_left Nat.add].
    unfold status_iteration. cbn [repo_entries out_entries].
    destruct (lookup_lt_is_Some_2 es k ltac:(lia)) as [e He]. rewrite He.
    f_equal.
    rewrite (take_S_r es k e He), map_app. cbn [map].
    assert (length (map (check_status w) (take k es)) = k) as Hl
      by (rewrite length_map, length_take; lia).
    rewrite insert_app_r_alt by lia. rewrite Hl, Nat.sub_diag.
    destruct (drop k out) as [| o rest] eqn:Hd.
    { apply (f_equal (@length _)) in Hd. rewrite length_drop in Hd. cbn in Hd. lia. }
    cbn [insert list_insert]. rewrite <- app_assoc. cbn [app]. do 2 f_equal.
    rewrite <- Nat.add_1_r, <- drop_drop, Hd. reflexivity.
Qed.


(** A working tree with three files, and an index of four entries recorded
    earlier: [a.txt] is as recorded, [b.txt] is gone, [c.txt] was rewritten
    since, and [d.txt] was touched without a change of content. *)
Definition sample_file (s : string) (mtime : Z) : node :=
  File {| f_content := bytes_of s; f_mtime := mtime; f_mode := 33188; f_readable := true;
       f_writable := true |}.

Definition sample_entry (path content : string) (mtime : Z) : svcs_index_entry_t :=
  {| e_path := path;
     e_hash := svcs_hash_object SVCS_OBJ_BLOB (bytes_of content);
     e_mode := 33188; e_mtime := mtime;
     e_size := Z.of_nat (String.length content);
     e_status := SVCS_STATUS_ADDED |}.

Definition status_world : world :=
  {| nodes := list_to_map [("a.txt"%string, sample_file "hello" 100);
                           ("c.txt"%string, sample_file "new" 200);
                           ("d.txt"%string, sample_file "same" 300)];
     clock := 1000 |}.

Definition status_index : svcs_index_t :=
  {| entries := [sample_entry "a.txt" "hello" 100; sample_entry "b.txt" "gone" 100;
                 sample_entry "c.txt" "old" 150; sample_entry "d.txt" "same" 250];
     index_timestamp := 900 |}.


Example svcs_index_status_sample :
  match snd (svcs_index_status status_world status_index (sample_entry "" "" 0)) with
  | Ok out => map e_status out
  | Err _ => []
  end
  = [SVCS_STATUS_ADDED; SVCS_STATUS_DELETED; SVCS_STATUS_MODIFIED; SVCS_STATUS_ADDED].
Proof. vm_compute. reflexivity. Qed.

(* ===================================================================== *)
(** ** Reading a commit back: [svcs_commit_read]                          *)
(* ===================================================================== *)

(** The record [svcs_commit_read] fills in at the time [now]. *)
Definition placeholder_commit (now : Z) : svcs_commit_t :=
  {| tree_hash := svcs_hash_init;
     parent_hash := svcs_hash_init;
     author := "Author";
     committer := "Committer";
     timestamp := now;
     message := "Commit message";
     signature := EmptyString |}.

(** C10. Whenever the object stored under a hash reads back with type
    commit, [svcs_commit_read] returns a record whose message is
    [Commit message], whose author is [Author], whose committer is
    [Committer] and whose timestamp is the time of the call; nothing of the
    stored payload enters the record. *)
Theorem svcs_commit_read_placeholder (zlib : Zlib) (w : world) (repo : svcs_repository_t)
  (hash : svcs_hash_t) (obj : svcs_object_t) :
  svcs_object_read w repo hash = Ok obj ->
  obj_type obj = SVCS_OBJ_COMMIT ->
  svcs_commit_read w repo hash = Ok (placeholder_commit (clock w)) /\
  message (placeholder_commit (clock w)) = "Commit message"%string /\
  author (placeholder_commit (clock w)) = "Author"%string /\
  committer (placeholder_commit (clock w)) = "Committer"%string /\
  timestamp (placeholder_commit (clock w)) = clock w.
Proof.
  intros Hread Htype. split; [| repeat split].
  unfold svcs_commit_read. rewrite Hread, Htype. reflexivity.
Qed.

(** A repository at [/r] with an empty index. *)
Definition sample_repo : svcs_repository_t :=
  {| git_dir := "/r/.svcs"; work_dir := "/r";
     repo_index := Some {| entries := []; index_timestamp := 0 |} |}.

(** An object store holding one well-formed commit object: the compressed
    bytes of the header and of a payload of five bytes. *)
Definition commit_payload_hash : svcs_hash_t :=
  svcs_hash_object SVCS_OBJ_COMMIT (bytes_of "hello").

Definition commit_store_world : world :=
  {| nodes := {[ get_object_path sample_repo commit_payload_hash :=
                   File {| f_content :=
                             Stored.deflate_stored (bytes_of "commit 5" ++ [NUL] ++ bytes_of "hello");
                           f_mtime := 10; f_mode := 33188; f_readable := true;
       f_writable := true |} ]};
     clock := 1700000000 |}.

Lemma svcs_commit_read_placeholder_witness :
  @svcs_commit_read stored_zlib commit_store_world sample_repo commit_payload_hash
    = Ok (placeholder_commit (clock commit_store_world)) /\
  message (placeholder_commit (clock commit_store_world)) = "Commit message"%string /\
  author (placeholder_commit (clock commit_store_world)) = "Author"%string /\
  committer (placeholder_commit (clock commit_store_world)) = "Committer"%string /\
  timestamp (placeholder_commit (clock commit_store_world)) = clock commit_store_world.
Proof.
  apply (svcs_commit_read_placeholder stored_zlib commit_store_world sample_repo
           commit_payload_hash
           {| obj_type := SVCS_OBJ_COMMIT; obj_size := 5; obj_hash := commit_payload_hash |}).
  - vm_compute. reflexivity.
  - reflexivity.
Defined.

(* ===================================================================== *)
(** ** Tree synthesis: [create_tree_from_index]                           *)
(* ===================================================================== *)

Lemma bytes_of_app (a b : string) : bytes_of (a ++ b) = bytes_of a ++ bytes_of b.
Proof.
  unfold bytes_of, list_byte_of_string. induction a as [| c a IH]; [reflexivity |].
  simpl. f_equal. exact IH.
Qed.

(** What the specification says is emitted for one entry: the octal mode, a
    space, the path, a zero byte, and the 32 raw bytes of the hash. *)
Definition emitted_entry (e : svcs_index_entry_t) : list byte :=
  bytes_of (fmt_o (e_mode e)) ++ bytes_of " " ++ bytes_of (e_path e)
  ++ [NUL] ++ firstn 32 (e_hash e).

Lemma tree_entry_bytes_emitted (e : svcs_index_entry_t) :
  tree_entry_bytes e = emitted_entry e.
Proof.
  unfold tree_entry_bytes, emitted_entry.
  rewrite !bytes_of_app, <- !app_assoc. reflexivity.
Qed.

Lemma tree_data_emitted (es : list svcs_index_entry_t) :
  tree_data es = flat_map emitted_entry es.
Proof.
  unfold tree_data. induction es as [| e es IH]; [reflexivity |].
  cbn [flat_map]. rewrite IH, tree_entry_bytes_emitted. reflexivity.
Qed.

Lemma svcs_hash_object_tree (data : list byte) :
  svcs_hash_object SVCS_OBJ_TREE data
  = sha3_256 (bytes_of ("tree " ++ fmt_zu (Z.of_nat (length data))) ++ [NUL] ++ data).
Proof. unfold svcs_hash_object, object_header, type_str. reflexivity. Qed.

(** C3 (as amended). [create_tree_from_index] returns the zero hash when the
    index has no entry. Otherwise it emits, for the entries in the order the
    index holds them, the octal mode, a space, the path, a zero byte and the
    32 hash bytes; it hashes the result as a tree object (the digest of
    [tree <size>], a zero byte and the emitted bytes), writes the object
    header to the store, and returns the hash when the write succeeded. *)
Theorem create_tree_from_index_spec (w : world) (gd wd : string)
  (es : list svcs_index_entry_t) (ts : Z) :
  create_tree_from_index w
    {| git_dir := gd; work_dir := wd;
       repo_index := Some {| entries := es; index_timestamp := ts |} |}
  = match es with
    | [] => (w, Ok svcs_hash_init)
    | _ :: _ =>
        let data := flat_map emitted_entry es in
        let h := sha3_256 (bytes_of ("tree " ++ fmt_zu (Z.of_nat (length data)))
                           ++ [NUL] ++ data) in
        match svcs_object_write w
                {| git_dir := gd; work_dir := wd;
                   repo_index := Some {| entries := es; index_timestamp := ts |} |}
                {| obj_type := SVCS_OBJ_TREE; obj_size := Z.of_nat (length data);
                   obj_hash := h |} with
        | (w', SVCS_OK) => (w', Ok h)
        | (w', e) => (w', Err e)
        end
    end.
Proof.
  unfold create_tree_from_index. cbn [repo_index entries].
  destruct es as [| e es']; [reflexivity |].
  rewrite tree_data_emitted. cbv zeta.
  rewrite svcs_hash_object_tree.
  destruct (svcs_object_write _ _ _) as [w' err]. destruct err; reflexivity.
Qed.

(** Entries sorted by the bytes of their paths, as the specification has
    them. *)
Fixpoint insert_by_path (e : svcs_index_entry_t) (l : list svcs_index_entry_t)
  : list svcs_index_entry_t :=
  match l with
  | [] => [e]
  | x :: r => if String.leb (e_path e) (e_path x) then e :: x :: r
              else x :: insert_by_path e r
  end.

Definition sort_by_path (l : list svcs_index_entry_t) : list svcs_index_entry_t :=
  fold_right insert_by_path [] l.

(** A repository at [/r] whose index received [b.txt] before [a.txt]. *)
Definition unsorted_entries : list svcs_index_entry_t :=
  [sample_entry "b.txt" "bee" 100; sample_entry "a.txt" "ant" 100].

Definition unsorted_repo : svcs_repository_t :=
  {| git_dir := "/r/.svcs"; work_dir := "/r";
     repo_index := Some {| entries := unsorted_entries; index_timestamp := 0 |} |}.

Definition empty_store_world : world :=
  {| nodes := list_to_map [("/r"%string, Dir); ("/r/.svcs"%string, Dir);
                           ("/r/.svcs/objects"%string, Dir)];
     clock := 1700000000 |}.

(** C3 as stated fails on an index that is not in path order: the bytes
    emitted follow the index, [b.txt] first, and the tree hash returned is
    the hash of those bytes, not of the bytes in sorted order. *)
Lemma create_tree_from_index_keeps_index_order :
  map e_path (sort_by_path unsorted_entries) = ["a.txt"; "b.txt"]%string /\
  firstn 12 (tree_data unsorted_entries) = bytes_of "100644 b.txt" /\
  firstn 12 (tree_data (sort_by_path unsorted_entries)) = bytes_of "100644 a.txt" /\
  snd (create_tree_from_index empty_store_world unsorted_repo)
    = Ok (svcs_hash_object SVCS_OBJ_TREE (tree_data unsorted_entries)) /\
  svcs_hash_object SVCS_OBJ_TREE (tree_data unsorted_entries)
    <> svcs_hash_object SVCS_OBJ_TREE (tree_data (sort_by_path unsorted_entries)).
Proof.
  split; [vm_compute; reflexivity |].
  split; [vm_compute; reflexivity |].
  split; [vm_compute; reflexivity |].
  split; [vm_compute; reflexivity |].
  apply (differ_by (fun l => map Z_of_byte (firstn 2 l))).
  vm_compute. discriminate.
Qed.

(* ===================================================================== *)
(** ** What the file operations leave alone                               *)
(* ===================================================================== *)

(** [w'] has every node of [w], and the same clock. *)
Definition extends (w w' : world) : Prop :=
  clock w' = clock w /\
  forall k n, nodes w !! k = Some n -> nodes w' !! k = Some n.

Lemma extends_refl (w : world) : extends w w.
Proof. split; [reflexivity | auto]. Qed.

Lemma extends_trans (w1 w2 w3 : world) : extends w1 w2 -> extends w2 w3 -> extends w1 w3.
Proof. intros [C1 N1] [C2 N2]. split; [congruence | auto]. Qed.

Lemma mkdir_extends (w : world) (path : string) : extends w (fst (mkdir w path)).
Proof.
  unfold mkdir. destruct (nodes w !! path) eqn:E; [apply extends_refl |].
  destruct path; [apply extends_refl |].
  destruct (is_dir w _); [| apply extends_refl].
  split; [reflexivity |]. cbn [fst nodes]. intros k n Hk.
  rewrite lookup_insert_ne; [exact Hk | congruence].
Qed.

Lemma mkdir_prefixes_extends (tmp : string) (positions : list nat) :
  forall w, extends w (fst (mkdir_prefixes w tmp positions)).
Proof.
  induction positions as [| p rest IH]; intros w; [apply extends_refl |].
  cbn [mkdir_prefixes]. destruct (Ascii.eqb _ _); [| apply IH].
  pose proof (mkdir_extends w (str_take p tmp)) as H.
  destruct (mkdir w (str_take p tmp)) as [w' ok]. cbn [fst] in H.
  destruct ok; [| exact H].
  eapply extends_trans; [exact H | apply IH].
Qed.

Lemma svcs_mkdir_recursive_extends (w : world) (path : string) :
  extends w (fst (svcs_mkdir_recursive w path)).
Proof.
  unfold svcs_mkdir_recursive.
  set (tmp := if Ascii.eqb _ _ then _ else _).
  pose proof (mkdir_prefixes_extends tmp (seq 1 (String.length tmp - 1)) w) as H1.
  destruct (mkdir_prefixes w tmp _) as [w1 ok]. cbn [fst] in H1.
  destruct ok; cbn [negb]; [| exact H1].
  pose proof (mkdir_extends w1 tmp) as H2.
  destruct (mkdir w1 tmp) as [w2 ok2]. cbn [fst] in H2.
  destruct ok2; cbn [fst]; eapply extends_trans; eassumption.
Qed.

(** Writing a file keeps the clock and every node under another path. *)
Lemma write_file_other (w w' : world) (path : string) (data : list byte) :
  write_file w path data = Some w' ->
  clock w' = clock w /\ forall k, k <> path -> nodes w' !! k = nodes w !! k.
Proof.
  unfold write_file. destruct (is_dir w _); cbn [negb]; [| discriminate].
  destruct (nodes w !! path) as [[f |] |]; try destruct (f_writable f); try discriminate;
    intros [= <-]; cbn [clock nodes]; (split; [reflexivity |]);
    intros k Hk; apply lookup_insert_ne; congruence.
Qed.

Lemma with_parent_dir_extends (w : world) (path : string) :
  extends w (with_parent_dir w path).
Proof.
  unfold with_parent_dir.
  destruct (strrchr path "/"); [apply svcs_mkdir_recursive_extends | apply extends_refl].
Qed.

(** [svcs_object_write] keeps the clock and every node that is not the
    object file. *)
Lemma svcs_object_write_keeps (w : world) (repo : svcs_repository_t) (obj : svcs_object_t)
  (k : string) (n : node) :
  k <> get_object_path repo (obj_hash obj) ->
  nodes w !! k = Some n ->
  nodes (fst (svcs_object_write w repo obj)) !! k = Some n /\
  clock (fst (svcs_object_write w repo obj)) = clock w.
Proof.
  intros Hk Hn. unfold svcs_object_write.
  set (path := get_object_path repo (obj_hash obj)) in *.
  destruct (with_parent_dir_extends w path) as [Hc1 Hn1].
  cbv zeta.
  destruct (svcs_file_exists (with_parent_dir w path) path); cbn [fst]; [auto |].
  destruct (write_file (with_parent_dir w path) path _) as [w2 |] eqn:Hw; cbn [fst]; [| auto].
  destruct (write_file_other _ _ _ _ Hw) as [Hc2 Hn2].
  split; [rewrite Hn2 by exact Hk; auto | congruence].
Qed.

(** *** Characters of paths *)

Lemma char_at_app_r (a b : string) (i : nat) :
  char_at (a ++ b) (String.length a + i) = char_at b i.
Proof.
  unfold char_at. induction a as [| c a IH]; [reflexivity |]. exact IH.
Qed.

Lemma char_at_str_take (n : nat) :
  forall (s : string) (i : nat), (i < n)%nat -> char_at (str_take n s) i = char_at s i.
Proof.
  unfold char_at. induction n as [| n IH]; intros s i Hi; [lia |].
  destruct s as [| c s]; [reflexivity |].
  destruct i as [| i]; [reflexivity |]. cbn [str_take String.get].
  apply IH. lia.
Qed.

(** The object files and [HEAD] have different paths: after the directory
    and a slash comes an [o] in one and an [H] in the other. *)
Lemma head_path_not_object_path (repo : svcs_repository_t) (hash : svcs_hash_t) :
  (String.length (git_dir repo) + 2 < SVCS_MAX_PATH)%nat ->
  head_path repo <> get_object_path repo hash.
Proof.
  intros Hlen E.
  apply (f_equal (fun s => char_at s (String.length (git_dir repo) + 1))) in E.
  unfold head_path, get_object_path, snprintf in E.
  rewrite !char_at_str_take in E by (unfold SVCS_MAX_PATH in *; lia).
  rewrite !char_at_app_r in E. discriminate E.
Qed.

(** *** A [HEAD] that holds a hash is not symbolic *)

Lemma c_str_first (b : byte) (rest : list byte) :
  c_str (b :: rest) = EmptyString \/
  exists r, c_str (b :: rest) = String (ascii_of_byte b) r.
Proof.
  unfold c_str. cbn [memchr0].
  destruct (Byte.eqb b NUL); [left; reflexivity |].
  destruct (memchr0 rest) as [i |]; cbn [option_map]; right; eexists; reflexivity.
Qed.

Lemma svcs_hash_to_string_first (h : svcs_hash_t) :
  exists c r, svcs_hash_to_string h = String c r /\ is_lower_hex c = true.
Proof.
  unfold svcs_hash_to_string. cbn [seq SVCS_HASH_SIZE map fold_right].
  destruct (fmt_02x_lower_hex (nth 0 h NUL)) as (c1 & c2 & E & H1 & _).
  rewrite E. eexists _, _. split; [reflexivity | exact H1].
Qed.

Lemma detached_head_not_symbolic (h : svcs_hash_t) :
  starts_with "ref: " (c_str (bytes_of (svcs_hash_to_string h ++ nl))) = false.
Proof.
  destruct (svcs_hash_to_string_first h) as (c & r & E & Hc). rewrite E.
  change (bytes_of (String c r ++ nl)) with (byte_of_ascii c :: bytes_of (r ++ nl)).
  destruct (c_str_first (byte_of_ascii c) (bytes_of (r ++ nl))) as [-> | [r' ->]];
    [reflexivity |].
  rewrite ascii_of_byte_of_ascii. unfold starts_with. cbn [String.prefix].
  destruct (ascii_dec "r" c) as [<- | Hne]; [discriminate Hc | reflexivity].
Qed.

(* ===================================================================== *)
(** ** Appended strings                                                   *)
(* ===================================================================== *)

Lemma str_app_cons (c : ascii) (a b : string) :
  (String c a ++ b = String c (a ++ b))%string.
Proof. reflexivity. Qed.

Lemma str_app_nil_l (b : string) : ("" ++ b = b)%string.
Proof. reflexivity. Qed.

Lemma str_app_assoc (a b c : string) : ((a ++ b) ++ c = a ++ (b ++ c))%string.
Proof.
  induction a as [| x a IH]; [reflexivity |]. rewrite !str_app_cons. f_equal. exact IH.
Qed.

Lemma str_app_nil_r (a : string) : (a ++ "" = a)%string.
Proof. induction a as [| x a IH]; [reflexivity |]. rewrite str_app_cons. f_equal. exact IH. Qed.

Lemma str_app_length (a b : string) :
  String.length (a ++ b) = (String.length a + String.length b)%nat.
Proof.
  induction a as [| x a IH]; [reflexivity |]. rewrite str_app_cons. cbn [String.length Nat.add].
  f_equal. exact IH.
Qed.

(* ===================================================================== *)
(** ** The commit writer on a detached [HEAD]                             *)
(* ===================================================================== *)

(** The text of a commit without a parent line. *)
Definition root_commit_text (tree_hash : svcs_hash_t) (author message stamp : string)
  : string :=
  "tree " ++ svcs_hash_to_string tree_hash ++ nl
  ++ "author " ++ author ++ " " ++ stamp ++ nl
  ++ "committer " ++ author ++ " " ++ stamp ++ nl
  ++ nl
  ++ message ++ nl.

Lemma commit_content_zero_parent (t : svcs_hash_t) (author message stamp : string) :
  commit_content t svcs_hash_init author message stamp
  = root_commit_text t author message stamp.
Proof. reflexivity. Qed.

Lemma svcs_file_read_node (w w' : world) (path : string) :
  nodes w' !! path = nodes w !! path -> svcs_file_read w' path = svcs_file_read w path.
Proof. unfold svcs_file_read. intros ->. reflexivity. Qed.

Lemma svcs_file_read_is_node (w : world) (path : string) (data : list byte) :
  svcs_file_read w path = Ok data -> exists n, nodes w !! path = Some n.
Proof.
  unfold svcs_file_read. destruct (nodes w !! path) as [n |]; [eauto | discriminate].
Qed.

(** *** The length of the commit text *)

Lemma print_digits_length (base : Z) (fuel : nat) :
  forall n acc,
    (String.length (print_digits fuel base n acc) <= fuel + String.length acc)%nat.
Proof.
  induction fuel as [| f IH]; intros n acc; [cbn; lia |].
  cbn [print_digits]. destruct (n <? base).
  - cbn [String.length]. lia.
  - specialize (IH (n / base) (String (digit_char (n mod base)) acc)).
    cbn [String.length] in IH. lia.
Qed.

Lemma fmt_ld_length (n : Z) : (String.length (fmt_ld n) <= 21)%nat.
Proof.
  unfold fmt_ld. destruct (n <? 0); cbn [String.length].
  - pose proof (print_digits_length 10 20 (- n) EmptyString) as H.
    change (String.length EmptyString) with 0%nat in H. lia.
  - pose proof (print_digits_length 10 20 n EmptyString) as H.
    change (String.length EmptyString) with 0%nat in H. lia.
Qed.

Lemma commit_content_length (t p : svcs_hash_t) (author message stamp : string) :
  (String.length (commit_content t p author message stamp)
   <= 2 * String.length author + String.length message + 2 * String.length stamp + 167)%nat.
Proof.
  unfold commit_content. destruct (is_zero_hash p);
    rewrite !str_app_length, !svcs_hash_to_string_length; unfold nl;
    cbn [String.length]; lia.
Qed.

(** The text of the time is shorter than the 64 bytes [strftime] is given. *)
Lemma timestamp_str_length {tz : TimeZone} (now : Z) (stamp : string) :
  timestamp_str now = Some stamp -> (String.length stamp <= 27)%nat.
Proof.
  unfold timestamp_str. destruct (seconds_of_gmtime now) as [t |]; [| discriminate].
  intros [= <-]. rewrite str_app_length. pose proof (fmt_ld_length t). cbn [String.length]. lia.
Qed.

Section DetachedHead.

Context {tz : TimeZone}.
Variable repo : svcs_repository_t.
Hypothesis git_dir_fits : (String.length (git_dir repo) + 2 < SVCS_MAX_PATH)%nat.

Lemma create_tree_from_index_keeps_head (w : world) (n : node) :
  nodes w !! head_path repo = Some n ->
  nodes (fst (create_tree_from_index w repo)) !! head_path repo = Some n /\
  clock (fst (create_tree_from_index w repo)) = clock w.
Proof.
  intros Hn. unfold create_tree_from_index.
  destruct (repo_index repo) as [idx |]; [| auto].
  destruct (entries idx) as [| e es]; [auto |].
  set (obj := {| obj_type := SVCS_OBJ_TREE; obj_size := _; obj_hash := _ |}).
  pose proof (svcs_object_write_keeps w repo obj (head_path repo) n
                (head_path_not_object_path repo _ git_dir_fits) Hn) as H.
  destruct (svcs_object_write w repo obj) as [w' err]. cbn [fst] in H.
  destruct err; exact H.
Qed.

(** With a [HEAD] that is readable and not symbolic, no parent is found and
    no reference is moved. *)
Lemma resolve_parent_not_symbolic (w : world) (head_data : list byte) :
  svcs_file_read w (head_path repo) = Ok head_data ->
  starts_with "ref: " (c_str head_data) = false ->
  resolve_parent w repo = svcs_hash_init.
Proof.
  intros Hr Hs. unfold resolve_parent, read_text, head_ref_path.
  rewrite Hr, Hs. reflexivity.
Qed.

Lemma update_ref_not_symbolic (w : world) (head_data : list byte) (h : svcs_hash_t) :
  svcs_file_read w (head_path repo) = Ok head_data ->
  starts_with "ref: " (c_str head_data) = false ->
  update_ref w repo h = w.
Proof.
  intros Hr Hs. unfold update_ref, read_text, head_ref_path.
  rewrite Hr, Hs. reflexivity.
Qed.

Lemma svcs_commit_create_not_symbolic (w : world) (message author : string)
  (head_data : list byte) (t : Z) :
  (2 * String.length author + String.length message + 300 < COMMIT_CONTENT_SIZE)%nat ->
  seconds_of_gmtime (clock w) = Some t ->
  svcs_file_read w (head_path repo) = Ok head_data ->
  starts_with "ref: " (c_str head_data) = false ->
  exists w' r,
    svcs_commit_create w repo message author = Some (w', r) /\
    svcs_file_read w' (head_path repo) = Ok head_data /\
    resolve_parent (fst (create_tree_from_index w repo)) repo = svcs_hash_init /\
    forall commit_hash,
      r = Ok commit_hash ->
      exists tree_hash,
        snd (create_tree_from_index w repo) = Ok tree_hash /\
        commit_hash = svcs_hash_object SVCS_OBJ_COMMIT
                        (bytes_of (root_commit_text tree_hash author message
                                     (fmt_ld t ++ " +0000"))).
Proof.
  intros Hfit Ht Hr Hs.
  destruct (svcs_file_read_is_node _ _ _ Hr) as [n Hn].
  destruct (create_tree_from_index_keeps_head w n Hn) as [Hn1 Hc1].
  unfold svcs_commit_create.
  destruct (create_tree_from_index w repo) as [w1 [tree_hash | e]]; cbn [fst snd] in *.
  - assert (svcs_file_read w1 (head_path repo) = Ok head_data) as Hr1.
    { rewrite <- Hr. apply svcs_file_read_node. congruence. }
    rewrite (resolve_parent_not_symbolic w1 head_data Hr1 Hs).
    assert (Hstamp : timestamp_str (clock w1) = Some (fmt_ld t ++ " +0000")%string).
    { unfold timestamp_str. rewrite Hc1, Ht. reflexivity. }
    rewrite Hstamp. cbv zeta. rewrite commit_content_zero_parent.
    pose proof (commit_content_length tree_hash svcs_hash_init author message
                  (fmt_ld t ++ " +0000")) as Hlen.
    rewrite commit_content_zero_parent in Hlen.
    pose proof (timestamp_str_length _ _ Hstamp) as Hst.
    destruct (Nat.leb_spec COMMIT_CONTENT_SIZE
                (String.length (root_commit_text tree_hash author message
                                  (fmt_ld t ++ " +0000")))) as [Hbig | _]; [lia |].
    set (obj := {| obj_type := SVCS_OBJ_COMMIT; obj_size := _; obj_hash := _ |}).
    pose proof (svcs_object_write_keeps w1 repo obj (head_path repo) n
                  (head_path_not_object_path repo _ git_dir_fits) Hn1) as [Hn2 _].
    destruct (svcs_object_write w1 repo obj) as [w2 err]. cbn [fst] in Hn2.
    assert (svcs_file_read w2 (head_path repo) = Ok head_data) as Hr2.
    { rewrite <- Hr. apply svcs_file_read_node. congruence. }
    destruct err;
      try (eexists _, _; split; [reflexivity |]; split; [exact Hr2 |];
           split; [reflexivity |]; intros commit_hash Hok; discriminate Hok).
    eexists _, _. split; [reflexivity |].
    split; [rewrite (update_ref_not_symbolic w2 head_data _ Hr2 Hs); exact Hr2 |].
    split; [reflexivity |].
    intros commit_hash [= <-]. exists tree_hash. split; reflexivity.
  - eexists _, _. split; [reflexivity |]. split; [| split].
    + rewrite <- Hr. apply svcs_file_read_node. congruence.
    + eapply resolve_parent_not_symbolic; [| exact Hs].
      rewrite <- Hr. apply svcs_file_read_node. congruence.
    + discriminate.
Qed.

(** C2 (as amended). When the [HEAD] file holds a direct commit hash [p]
    instead of a symbolic reference, [svcs_commit_create], for an author
    and a message whose commit text fits the buffer of 4096 bytes and a
    time that [gmtime] can break down, takes no parent from it: the parent
    stays the zero hash, so a commit that is created is the hash of a text
    without a parent line, and [HEAD] is left as it was, still holding
    [p]. The time in the text is the number that [strftime] prints for
    [%s], whatever the time zone of the process. *)
Theorem svcs_commit_create_detached_head (w : world) (message author : string)
  (p : svcs_hash_t) (t : Z) :
  (2 * String.length author + String.length message + 300 < COMMIT_CONTENT_SIZE)%nat ->
  seconds_of_gmtime (clock w) = Some t ->
  svcs_file_read w (head_path repo) = Ok (bytes_of (svcs_hash_to_string p ++ nl)) ->
  exists w' r,
    svcs_commit_create w repo message author = Some (w', r) /\
    svcs_file_read w' (head_path repo) = Ok (bytes_of (svcs_hash_to_string p ++ nl)) /\
    resolve_parent (fst (create_tree_from_index w repo)) repo = svcs_hash_init /\
    forall commit_hash,
      r = Ok commit_hash ->
      exists tree_hash,
        snd (create_tree_from_index w repo) = Ok tree_hash /\
        commit_hash = svcs_hash_object SVCS_OBJ_COMMIT
                        (bytes_of (root_commit_text tree_hash author message
                                     (fmt_ld t ++ " +0000"))).
Proof.
  intros Hfit Ht Hread.
  apply (svcs_commit_create_not_symbolic w message author _ t Hfit Ht Hread).
  apply detached_head_not_symbolic.
Qed.

End DetachedHead.

(** The time zone UTC, with the range of times that [gmtime] of glibc
    breaks down (the year fits an [int]). *)
Definition GMTIME_MIN : Z := -67768040609740800.
Definition GMTIME_MAX : Z := 67767976233532799.

Definition utc_seconds (now : Z) : option Z :=
  if (GMTIME_MIN <=? now) && (now <=? GMTIME_MAX) then Some now else None.

Lemma utc_seconds_range (now t : Z) :
  utc_seconds now = Some t -> - 2 ^ 63 <= t < 2 ^ 63.
Proof.
  unfold utc_seconds, GMTIME_MIN, GMTIME_MAX.
  destruct (Z.leb_spec (-67768040609740800) now); cbn [andb]; [| discriminate].
  destruct (Z.leb_spec now 67767976233532799); [| discriminate].
  intros [= <-]. lia.
Qed.

#[export] Instance utc : TimeZone :=
  {| seconds_of_gmtime := utc_seconds; seconds_of_gmtime_range := utc_seconds_range |}.

(** A repository at [/r] whose [HEAD] holds the hash of an earlier commit. *)
Definition earlier_commit : svcs_hash_t :=
  svcs_hash_object SVCS_OBJ_COMMIT (bytes_of "earlier").

Definition detached_world : world :=
  {| nodes := list_to_map
                [("/r"%string, Dir); ("/r/.svcs"%string, Dir);
                 ("/r/.svcs/objects"%string, Dir);
                 ("/r/.svcs/HEAD"%string,
                  sample_file (svcs_hash_to_string earlier_commit ++ nl) 50)];
     clock := 1700000000 |}.

Lemma svcs_commit_create_detached_head_witness :
  exists w' r,
    @svcs_commit_create utc detached_world sample_repo "second" "T <t@x>" = Some (w', r) /\
    svcs_file_read w' (head_path sample_repo)
      = Ok (bytes_of (svcs_hash_to_string earlier_commit ++ nl)) /\
    resolve_parent (fst (create_tree_from_index detached_world sample_repo)) sample_repo
      = svcs_hash_init /\
    forall commit_hash,
      r = Ok commit_hash ->
      exists tree_hash,
        snd (create_tree_from_index detached_world sample_repo) = Ok tree_hash /\
        commit_hash = svcs_hash_object SVCS_OBJ_COMMIT
                        (bytes_of (root_commit_text tree_hash "T <t@x>" "second"
                                     (fmt_ld 1700000000 ++ " +0000"))).
Proof.
  apply (@svcs_commit_create_detached_head utc sample_repo ltac:(vm_compute; lia)
           detached_world "second" "T <t@x>" earlier_commit 1700000000).
  - vm_compute. lia.
  - reflexivity.
  - vm_compute. reflexivity.
Defined.

(** C2 as stated fails on that repository (in a process whose time zone is
    UTC): the commit succeeds, its hash is the hash of a text without a
    parent line and not of the text naming the hash in [HEAD] as parent,
    and [HEAD] afterwards still holds the earlier hash, not the new one. *)
Lemma svcs_commit_create_ignores_detached_head :
  exists w' commit_hash,
    @svcs_commit_create utc detached_world sample_repo "second" "T <t@x>"
      = Some (w', Ok commit_hash) /\
    commit_hash
      = svcs_hash_object SVCS_OBJ_COMMIT
          (bytes_of (commit_content svcs_hash_init svcs_hash_init "T <t@x>" "second"
                       "1700000000 +0000")) /\
    commit_hash
      <> svcs_hash_object SVCS_OBJ_COMMIT
           (bytes_of (commit_content svcs_hash_init earlier_commit "T <t@x>" "second"
                        "1700000000 +0000")) /\
    svcs_file_read w' (head_path sample_repo)
      = Ok (bytes_of (svcs_hash_to_string earlier_commit ++ nl)) /\
    svcs_hash_to_string earlier_commit <> svcs_hash_to_string commit_hash.
Proof.
  eexists (fst (default (detached_world, Err SVCS_ERROR)
                  (@svcs_commit_create utc detached_world sample_repo "second" "T <t@x>"))),
          (svcs_hash_object SVCS_OBJ_COMMIT
             (bytes_of (commit_content svcs_hash_init svcs_hash_init "T <t@x>" "second"
                          "1700000000 +0000"))).
  split; [vm_compute; reflexivity |].
  split; [reflexivity |].
  split.
  { apply (differ_by (fun l => map Z_of_byte (firstn 2 l))).
    vm_compute. discriminate. }
  split; [vm_compute; reflexivity |].
  apply (differ_by (fun s => String.get 0 s)).
  vm_compute. discriminate.
Qed.

(* ===================================================================== *)
(** ** The object store: writing and reading back                         *)
(* ===================================================================== *)

Lemma str_take_length (n : nat) :
  forall s : string,
    (String.length (str_take n s) <= n)%nat /\
    (String.length (str_take n s) <= String.length s)%nat.
Proof.
  induction n as [| n IH]; intros s; [cbn; lia |].
  destruct s as [| c s]; [cbn; lia |].
  cbn [str_take String.length]. specialize (IH s). lia.
Qed.

Lemma strrchr_lt (s : string) (c : ascii) (i : nat) :
  strrchr s c = Some i -> (i < String.length s)%nat.
Proof.
  revert i. induction s as [| a s IH]; intros i; [discriminate |].
  cbn [strrchr String.length].
  destruct (strrchr s c) as [j |].
  - intros [= <-]. specialize (IH j eq_refl). lia.
  - destruct (Ascii.eqb a c); [intros [= <-]; lia | discriminate].
Qed.

(** [mkdir] touches no path but its own. *)
Lemma mkdir_frame (w : world) (path k : string) :
  k <> path -> nodes (fst (mkdir w path)) !! k = nodes w !! k.
Proof.
  intros Hk. unfold mkdir.
  destruct (nodes w !! path); [reflexivity |].
  destruct path; [reflexivity |].
  destruct (is_dir w _); [| reflexivity].
  cbn [fst nodes]. apply lookup_insert_ne. congruence.
Qed.

(** The directories [svcs_mkdir_recursive] makes for [path] have names no
    longer than [path]: a longer name is left as it was. *)
Lemma mkdir_prefixes_frame (tmp k : string) (positions : list nat) :
  (String.length tmp < String.length k)%nat ->
  forall w, nodes (fst (mkdir_prefixes w tmp positions)) !! k = nodes w !! k.
Proof.
  intros Hk. induction positions as [| p rest IH]; intros w; [reflexivity |].
  cbn [mkdir_prefixes]. destruct (Ascii.eqb _ _); [| apply IH].
  assert (k <> str_take p tmp) as Hne.
  { intros ->. pose proof (str_take_length p tmp). lia. }
  pose proof (mkdir_frame w (str_take p tmp) k Hne) as H.
  destruct (mkdir w (str_take p tmp)) as [w' ok]. cbn [fst] in H.
  destruct ok; [| exact H]. rewrite IH. exact H.
Qed.

Lemma svcs_mkdir_recursive_frame (w : world) (path k : string) :
  (String.length path < String.length k)%nat ->
  nodes (fst (svcs_mkdir_recursive w path)) !! k = nodes w !! k.
Proof.
  intros Hk. unfold svcs_mkdir_recursive.
  set (tmp0 := snprintf SVCS_MAX_PATH path).
  set (tmp := if Ascii.eqb _ _ then _ else _).
  assert (String.length tmp < String.length k)%nat as Htmp.
  { assert (String.length tmp0 <= String.length path)%nat
      by (unfold tmp0, snprintf; apply str_take_length).
    assert (String.length tmp <= String.length tmp0)%nat; [| lia].
    unfold tmp. destruct (Ascii.eqb _ _); [apply str_take_length | lia]. }
  pose proof (mkdir_prefixes_frame tmp k (seq 1 (String.length tmp - 1)) Htmp w) as H1.
  destruct (mkdir_prefixes w tmp _) as [w1 ok]. cbn [fst] in H1.
  destruct ok; cbn [negb]; [| exact H1].
  assert (k <> tmp) as Hne by (intros ->; lia).
  pose proof (mkdir_frame w1 tmp k Hne) as H2.
  destruct (mkdir w1 tmp) as [w2 ok2]. cbn [fst] in H2.
  destruct ok2; cbn [fst]; congruence.
Qed.

Lemma with_parent_dir_frame (w : world) (path : string) :
  nodes (with_parent_dir w path) !! path = nodes w !! path.
Proof.
  unfold with_parent_dir. destruct (strrchr path "/") as [i |] eqn:E; [| reflexivity].
  apply svcs_mkdir_recursive_frame.
  pose proof (strrchr_lt _ _ _ E). pose proof (str_take_length i path). lia.
Qed.

(** The header of an object, written raw, does not start like a zlib
    stream. *)
Lemma raw_header_not_zlib (t : svcs_object_type_t) (size : Z) :
  zlib_header_ok (bytes_of (snprintf 64 (object_header t size)) ++ [NUL]) = false /\
  (2 <= length (bytes_of (snprintf 64 (object_header t size)) ++ [NUL]))%nat.
Proof.
  unfold object_header. generalize (fmt_zu size). intros d.
  destruct t; (split; [reflexivity |]);
    unfold bytes_of, list_byte_of_string, snprintf, type_str; simpl; lia.
Qed.

(** Whatever the codec: an object file that holds the raw header and a zero
    byte cannot be read back. *)
Lemma svcs_object_read_raw_header (zlib : Zlib) (w : world) (repo : svcs_repository_t)
  (hash : svcs_hash_t) (t : svcs_object_type_t) (size : Z) :
  svcs_file_read w (get_object_path repo hash)
    = Ok (bytes_of (snprintf 64 (object_header t size)) ++ [NUL]) ->
  svcs_object_read w repo hash = Err SVCS_ERROR.
Proof.
  intros Hread. unfold svcs_object_read.
  destruct (svcs_file_read_is_node _ _ _ Hread) as [n Hn].
  unfold svcs_file_exists. rewrite Hn. cbn [negb]. rewrite Hread.
  destruct (raw_header_not_zlib t size) as [Hbad Hlen].
  rewrite (svcs_decompress_bad_header _ Hlen Hbad). reflexivity.
Qed.

(** What a successful [svcs_object_write] leaves in an object file that was
    not there: the header and a zero byte, as they are, and nothing of a
    payload. *)
Lemma svcs_object_write_content (w : world) (repo : svcs_repository_t) (obj : svcs_object_t) :
  svcs_file_exists w (get_object_path repo (obj_hash obj)) = false ->
  snd (svcs_object_write w repo obj) = SVCS_OK ->
  svcs_file_read (fst (svcs_object_write w repo obj)) (get_object_path repo (obj_hash obj))
    = Ok (bytes_of (snprintf 64 (object_header (obj_type obj) (obj_size obj))) ++ [NUL]).
Proof.
  intros Hfresh. unfold svcs_object_write. cbv zeta.
  generalize (get_object_path repo (obj_hash obj)) Hfresh. clear Hfresh.
  intros path Hfresh.
  assert (nodes (with_parent_dir w path) !! path = None) as Hnone.
  { rewrite with_parent_dir_frame. unfold svcs_file_exists in Hfresh.
    destruct (nodes w !! path); [discriminate | reflexivity]. }
  generalize (with_parent_dir w path) Hnone. clear Hnone. intros w1 Hnone.
  unfold svcs_file_exists. rewrite Hnone.
  unfold write_file. rewrite Hnone.
  destruct (is_dir w1 (parent_dir path)); cbn [negb fst snd]; [| discriminate].
  intros _. unfold svcs_file_read. cbn [nodes]. rewrite lookup_insert_eq. reflexivity.
Qed.

(** Reading back what was just written fails, whatever the codec. *)
Lemma svcs_object_read_after_write (zlib : Zlib) (w : world) (repo : svcs_repository_t)
  (obj : svcs_object_t) :
  svcs_file_exists w (get_object_path repo (obj_hash obj)) = false ->
  snd (svcs_object_write w repo obj) = SVCS_OK ->
  svcs_object_read (fst (svcs_object_write w repo obj)) repo (obj_hash obj) = Err SVCS_ERROR.
Proof.
  intros Hfresh Hwrite.
  eapply svcs_object_read_raw_header.
  apply svcs_object_write_content; assumption.
Qed.

(** The object of the test [test_object_write_read]: a blob header for the
    19 bytes of [Test object content]. *)
Definition test_object : svcs_object_t :=
  {| obj_type := SVCS_OBJ_BLOB;
     obj_size := 19;
     obj_hash := svcs_hash_object SVCS_OBJ_BLOB (bytes_of "Test object content") |}.

(** C1. In a fresh repository, [svcs_object_write] of the test object
    succeeds and a second write succeeds without changing anything; but the
    file holds the bare header [blob 19] and a zero byte, neither compressed
    nor followed by a payload, and [svcs_object_read] of the hash fails with
    [SVCS_ERROR] for every codec instead of returning the object. *)
Theorem svcs_object_write_then_read_fails :
  let w1 := fst (svcs_object_write empty_store_world sample_repo test_object) in
  snd (svcs_object_write empty_store_world sample_repo test_object) = SVCS_OK /\
  svcs_object_write w1 sample_repo test_object = (w1, SVCS_OK) /\
  svcs_file_read w1 (get_object_path sample_repo (obj_hash test_object))
    = Ok (bytes_of "blob 19" ++ [NUL]) /\
  forall zlib : Zlib,
    @svcs_object_read zlib w1 sample_repo (obj_hash test_object) = Err SVCS_ERROR.
Proof.
  cbv zeta.
  split; [vm_compute; reflexivity |].
  split; [vm_compute; reflexivity |].
  split; [vm_compute; reflexivity |].
  intros zlib.
  apply (svcs_object_read_after_write zlib empty_store_world).
  - vm_compute. reflexivity.
  - vm_compute. reflexivity.
Qed.


(* ===================================================================== *)
(** ** Writing an object twice                                            *)
(* ===================================================================== *)

(** The world with the node [n] put under the name [k]. *)
Definition put (k : string) (n : node) (w : world) : world :=
  {| nodes := <[k := n]> (nodes w); clock := clock w |}.

Lemma parent_dir_length (path : string) :
  (String.length (parent_dir path) <= String.length path)%nat.
Proof.
  unfold parent_dir. destruct (strrchr path "/"); [apply str_take_length | cbn; lia].
Qed.

Lemma is_dir_put (w : world) (k path : string) (n : node) :
  k <> path -> is_dir (put k n w) path = is_dir w path.
Proof.
  intros Hne. unfold is_dir, put. cbn [nodes].
  destruct path; [reflexivity |]. rewrite lookup_insert_ne by exact Hne. reflexivity.
Qed.

(** [mkdir] of a name does not look at a longer name. *)
Lemma mkdir_put (w : world) (k path : string) (n : node) :
  (String.length path < String.length k)%nat ->
  mkdir (put k n w) path = (put k n (fst (mkdir w path)), snd (mkdir w path)).
Proof.
  intros Hlen.
  assert (k <> path) as Hne by (intros ->; lia).
  assert (k <> parent_dir path) as Hnp.
  { intros ->. pose proof (parent_dir_length path). lia. }
  unfold mkdir. rewrite (is_dir_put w k (parent_dir path) n Hnp).
  unfold put at 1. cbn [nodes]. rewrite lookup_insert_ne by exact Hne.
  destruct (nodes w !! path); [reflexivity |].
  destruct path; [reflexivity |].
  destruct (is_dir w _); [| reflexivity].
  cbn [fst snd]. unfold put. cbn [nodes clock]. f_equal. f_equal.
  apply insert_insert_ne. congruence.
Qed.

Lemma mkdir_prefixes_put (tmp k : string) (n : node) (positions : list nat) :
  (String.length tmp < String.length k)%nat ->
  forall w,
    mkdir_prefixes (put k n w) tmp positions
    = (put k n (fst (mkdir_prefixes w tmp positions)), snd (mkdir_prefixes w tmp positions)).
Proof.
  intros Hlen. induction positions as [| p rest IH]; intros w; [reflexivity |].
  cbn [mkdir_prefixes]. destruct (Ascii.eqb _ _); [| apply IH].
  rewrite mkdir_put by (pose proof (str_take_length p tmp); lia).
  destruct (mkdir w (str_take p tmp)) as [w' ok]. cbn [fst snd].
  destruct ok; [apply IH | reflexivity].
Qed.

Lemma svcs_mkdir_recursive_put (w : world) (path k : string) (n : node) :
  (String.length path < String.length k)%nat ->
  fst (svcs_mkdir_recursive (put k n w) path) = put k n (fst (svcs_mkdir_recursive w path)).
Proof.
  intros Hk. unfold svcs_mkdir_recursive.
  set (tmp0 := snprintf SVCS_MAX_PATH path).
  set (tmp := if Ascii.eqb _ _ then _ else _).
  assert (String.length tmp < String.length k)%nat as Htmp.
  { assert (String.length tmp0 <= String.length path)%nat
      by (unfold tmp0, snprintf; apply str_take_length).
    assert (String.length tmp <= String.length tmp0)%nat; [| lia].
    unfold tmp. destruct (Ascii.eqb _ _); [apply str_take_length | lia]. }
  rewrite (mkdir_prefixes_put tmp k n _ Htmp).
  destruct (mkdir_prefixes w tmp _) as [w1 ok]. cbn [fst snd].
  destruct ok; cbn [negb fst]; [| reflexivity].
  rewrite (mkdir_put w1 k tmp n Htmp).
  destruct (mkdir w1 tmp) as [w2 ok2]. cbn [fst snd].
  destruct ok2; reflexivity.
Qed.

Lemma with_parent_dir_put (w : world) (path : string) (n : node) :
  with_parent_dir (put path n w) path = put path n (with_parent_dir w path).
Proof.
  unfold with_parent_dir. destruct (strrchr path "/") as [i |] eqn:E; [| reflexivity].
  apply svcs_mkdir_recursive_put.
  pose proof (strrchr_lt _ _ _ E). pose proof (str_take_length i path). lia.
Qed.

(** A [mkdir] that went well leaves the name in place, and goes well in
    every later world without changing it. *)
Lemma mkdir_done (w w' : world) (path : string) :
  mkdir w path = (w', true) ->
  forall w'', extends w' w'' -> mkdir w'' path = (w'', true).
Proof.
  intros H w'' [_ Hext].
  assert (exists n, nodes w' !! path = Some n) as [n Hn].
  { unfold mkdir in H. destruct (nodes w !! path) as [n |] eqn:E.
    - injection H as <-. eauto.
    - destruct path; [discriminate |]. destruct (is_dir w _); [| discriminate].
      injection H as <-. cbn [nodes]. rewrite lookup_insert_eq. eauto. }
  unfold mkdir. rewrite (Hext _ _ Hn). reflexivity.
Qed.

Lemma mkdir_failed (w w' : world) (path : string) :
  mkdir w path = (w', false) -> w' = w.
Proof.
  unfold mkdir. destruct (nodes w !! path); [discriminate |].
  destruct path; [congruence |]. destruct (is_dir w _); [discriminate | congruence].
Qed.

Lemma mkdir_prefixes_done (tmp : string) (positions : list nat) :
  forall w w',
    mkdir_prefixes w tmp positions = (w', true) ->
    forall w'', extends w' w'' -> mkdir_prefixes w'' tmp positions = (w'', true).
Proof.
  induction positions as [| p rest IH]; intros w w' H w'' Hext; [reflexivity |].
  cbn [mkdir_prefixes] in *. destruct (Ascii.eqb _ _); [| exact (IH w w' H w'' Hext)].
  destruct (mkdir w (str_take p tmp)) as [w1 ok] eqn:E.
  destruct ok; [| discriminate].
  pose proof (mkdir_prefixes_extends tmp rest w1) as H1. rewrite H in H1. cbn [fst] in H1.
  rewrite (mkdir_done w w1 _ E w'' (extends_trans _ _ _ H1 Hext)).
  exact (IH w1 w' H w'' Hext).
Qed.

Lemma mkdir_prefixes_again (tmp : string) (positions : list nat) :
  forall w w' ok,
    mkdir_prefixes w tmp positions = (w', ok) ->
    mkdir_prefixes w' tmp positions = (w', ok).
Proof.
  induction positions as [| p rest IH]; intros w w' ok H.
  - cbn in *. congruence.
  - cbn [mkdir_prefixes] in *. destruct (Ascii.eqb _ _); [| exact (IH w w' ok H)].
    destruct (mkdir w (str_take p tmp)) as [w1 ok1] eqn:E.
    destruct ok1.
    + pose proof (mkdir_prefixes_extends tmp rest w1) as H1. rewrite H in H1. cbn [fst] in H1.
      rewrite (mkdir_done w w1 _ E w' H1). exact (IH w1 w' ok H).
    + injection H as <- <-. pose proof (mkdir_failed _ _ _ E) as ->.
      rewrite E. reflexivity.
Qed.

(** Making the directories a second time changes nothing. *)
Lemma svcs_mkdir_recursive_again (w : world) (path : string) :
  fst (svcs_mkdir_recursive (fst (svcs_mkdir_recursive w path)) path)
  = fst (svcs_mkdir_recursive w path).
Proof.
  unfold svcs_mkdir_recursive.
  set (tmp := if Ascii.eqb _ _ then _ else _).
  destruct (mkdir_prefixes w tmp _) as [w1 ok] eqn:E1.
  destruct ok; cbn [negb].
  - destruct (mkdir w1 tmp) as [w2 ok2] eqn:E2.
    assert (extends w1 w2) as Hext.
    { pose proof (mkdir_extends w1 tmp) as H. rewrite E2 in H. exact H. }
    assert (fst (if ok2 then (w2, SVCS_OK) else (w2, SVCS_ERROR_IO)) = w2) as ->
      by (destruct ok2; reflexivity).
    rewrite (mkdir_prefixes_done tmp _ w w1 E1 w2 Hext). cbn [negb].
    destruct ok2.
    + rewrite (mkdir_done w1 w2 tmp E2 w2 (extends_refl w2)). reflexivity.
    + pose proof (mkdir_failed _ _ _ E2) as ->. rewrite E2. reflexivity.
  - cbn [fst]. rewrite (mkdir_prefixes_again tmp _ w w1 false E1). reflexivity.
Qed.

Lemma with_parent_dir_again (w : world) (path : string) :
  with_parent_dir (with_parent_dir w path) path = with_parent_dir w path.
Proof.
  unfold with_parent_dir. destruct (strrchr path "/"); [| reflexivity].
  apply svcs_mkdir_recursive_again.
Qed.

(** X2. When [svcs_object_write] of an object has returned [SVCS_OK], a
    second [svcs_object_write] of the same object returns [SVCS_OK] and
    leaves the file system as it is. *)
Theorem svcs_object_write_twice (w : world) (repo : svcs_repository_t) (obj : svcs_object_t) :
  snd (svcs_object_write w repo obj) = SVCS_OK ->
  svcs_object_write (fst (svcs_object_write w repo obj)) repo obj
  = (fst (svcs_object_write w repo obj), SVCS_OK).
Proof.
  unfold svcs_object_write. cbv zeta.
  generalize (get_object_path repo (obj_hash obj)). intros path.
  generalize (bytes_of (snprintf 64 (object_header (obj_type obj) (obj_size obj))) ++ [NUL]).
  intros data.
  destruct (svcs_file_exists (with_parent_dir w path) path) eqn:E.
  - intros _. cbn [fst]. rewrite with_parent_dir_again, E. reflexivity.
  - destruct (write_file (with_parent_dir w path) path data) as [w2 |] eqn:Ew;
      cbn [fst snd]; [intros _ | discriminate].
    assert (exists f, w2 = put path (File f) (with_parent_dir w path)) as [f ->].
    { unfold write_file in Ew. unfold svcs_file_exists in E.
      destruct (negb _); [discriminate |].
      destruct (nodes (with_parent_dir w path) !! path); [discriminate |].
      injection Ew as <-. eexists. reflexivity. }
    rewrite with_parent_dir_put, with_parent_dir_again.
    unfold svcs_file_exists, put. cbn [nodes]. rewrite lookup_insert_eq. reflexivity.
Qed.

Lemma svcs_object_write_twice_witness :
  svcs_object_write (fst (svcs_object_write empty_store_world sample_repo test_object))
    sample_repo test_object
  = (fst (svcs_object_write empty_store_world sample_repo test_object), SVCS_OK).
Proof.
  apply (svcs_object_write_twice empty_store_world sample_repo test_object).
  vm_compute. reflexivity.
Defined.

(* ===================================================================== *)
(** ** The commit graph: what [add_commit] maintains                      *)
(* ===================================================================== *)

(** How many times a pointer stands in a vector. *)
Fixpoint occurrences (x : node_ptr) (l : list node_ptr) : nat :=
  match l with
  | [] => 0
  | y :: r => (if String.eqb y x then 1 else 0) + occurrences x r
  end.

Lemma occurrences_app (x : node_ptr) (l1 l2 : list node_ptr) :
  occurrences x (l1 ++ l2) = (occurrences x l1 + occurrences x l2)%nat.
Proof.
  induction l1 as [| y l1 IH]; [reflexivity |].
  cbn [app occurrences]. rewrite IH. lia.
Qed.

Lemma occurrences_not_in (x : node_ptr) (l : list node_ptr) :
  x ∉ l -> occurrences x l = 0%nat.
Proof.
  induction l as [| y l IH]; intros H; [reflexivity |].
  apply not_elem_of_cons in H as [Hne Hl]. cbn [occurrences].
  destruct (String.eqb_spec y x) as [-> | _]; [congruence |].
  rewrite IH by exact Hl. reflexivity.
Qed.

Lemma occurrences_pos (x : node_ptr) (l : list node_ptr) :
  x ∈ l -> (0 < occurrences x l)%nat.
Proof.
  induction l as [| y l IH]; intros H; [inversion H |].
  cbn [occurrences]. apply elem_of_cons in H as [-> | H].
  - rewrite String.eqb_refl. lia.
  - specialize (IH H). lia.
Qed.

Lemma occurrences_replicate (x y : node_ptr) (m : nat) :
  occurrences x (replicate m y) = if String.eqb y x then m else 0%nat.
Proof.
  induction m as [| m IH]; cbn [replicate occurrences].
  - destruct (String.eqb y x); reflexivity.
  - rewrite IH. destruct (String.eqb y x); lia.
Qed.

(** [n] with the pointers [l] pushed on its children. *)
Definition push_children (n : CommitNode) (l : list node_ptr) : CommitNode :=
  {| node_hash := node_hash n; node_message := node_message n;
     node_author := node_author n; node_timestamp := node_timestamp n;
     parents := parents n; children := children n ++ l;
     depth := depth n; visited := visited n; branch_name := branch_name n |}.

Lemma push_children_nil (n : CommitNode) : push_children n [] = n.
Proof. destruct n. unfold push_children. cbn. rewrite app_nil_r. reflexivity. Qed.

Lemma push_child_children (n : CommitNode) (l : list node_ptr) (c : node_ptr) :
  push_child (push_children n l) c = push_children n (l ++ [c]).
Proof. unfold push_child, push_children. cbn. rewrite <- app_assoc. reflexivity. Qed.

(** The parents a new commit is linked to: the hashes, as text, that are
    keys of the table. *)
Definition linked_parents (nodes : gmap string CommitNode) (parent_hashes : list svcs_hash_t)
  : list node_ptr :=
  List.filter (fun s => bool_decide (is_Some (nodes !! s)))
              (map svcs_hash_to_string parent_hashes).

Lemma linked_parents_present (nodes : gmap string CommitNode) (phs : list svcs_hash_t)
  (p : node_ptr) :
  p ∈ linked_parents nodes phs -> is_Some (nodes !! p).
Proof.
  unfold linked_parents. rewrite list_elem_of_In, List.filter_In.
  intros [_ H]. apply bool_decide_eq_true in H. exact H.
Qed.

(** [nodes'] is [nodes] in which every node has gained [commit] as a child
    once per occurrence of its key in [done]. *)
Definition linked_from (nodes : gmap string CommitNode) (commit : node_ptr)
  (done : list node_ptr) (nodes' : gmap string CommitNode) : Prop :=
  forall q, nodes' !! q
            = (fun n => push_children n (replicate (occurrences q done) commit)) <$> (nodes !! q).

Lemma linked_from_start (nodes : gmap string CommitNode) (commit : node_ptr) :
  linked_from nodes commit [] nodes.
Proof.
  intros q. cbn [occurrences replicate].
  destruct (nodes !! q) as [n |]; cbn; [rewrite push_children_nil |]; reflexivity.
Qed.

(** The linking loop: the pointers it collects are the linked parents, in
    order, and every parent gains the commit as a child once per time it was
    named. *)
Lemma link_parents_fold (commit : node_ptr) (nodes : gmap string CommitNode) :
  forall (phs : list svcs_hash_t) (nodes' : gmap string CommitNode) (done : list node_ptr),
    linked_from nodes commit done nodes' ->
    snd (fold_left (link_parent commit) phs (nodes', done))
      = done ++ linked_parents nodes phs /\
    linked_from nodes commit (done ++ linked_parents nodes phs)
      (fst (fold_left (link_parent commit) phs (nodes', done))).
Proof.
  induction phs as [| ph phs IH]; intros nodes' done Hl.
  - cbn. rewrite app_nil_r. split; [reflexivity | exact Hl].
  - cbn [fold_left]. unfold link_parent at 2 4. cbn [fst snd].
    unfold linked_parents. cbn [map List.filter]. fold (linked_parents nodes phs).
    generalize (svcs_hash_to_string ph). intros s.
    pose proof (Hl s) as Hs.
    destruct (nodes !! s) as [n |] eqn:En.
    + rewrite bool_decide_eq_true_2 by eauto.
      cbn [fmap option_fmap option_map] in Hs. rewrite Hs.
      replace (done ++ s :: linked_parents nodes phs)
        with ((done ++ [s]) ++ linked_parents nodes phs)
        by (rewrite <- app_assoc; reflexivity).
      apply IH. intros q.
      destruct (decide (q = s)) as [-> | Hne].
      * rewrite lookup_insert_eq, En. cbn [fmap option_fmap option_map]. f_equal.
        rewrite push_child_children. f_equal.
        rewrite occurrences_app. cbn [occurrences]. rewrite String.eqb_refl.
        rewrite Nat.add_0_r, replicate_add. reflexivity.
      * rewrite lookup_insert_ne by congruence. rewrite Hl.
        rewrite occurrences_app. cbn [occurrences].
        destruct (String.eqb_spec s q) as [E | _]; [congruence |].
        rewrite !Nat.add_0_r. reflexivity.
    + rewrite bool_decide_eq_false_2 by (intros [x Hx]; discriminate).
      cbn [fmap option_fmap option_map] in Hs. rewrite Hs. apply IH. exact Hl.
Qed.

(** The graph is well formed: every node sits under the text of its hash;
    parents and children are nodes of the table; a node is a child of
    another as many times as that one is its parent; and parents were added
    before their children ([rank] numbers the nodes in the order of their
    arrival). *)
Record wf_nodes (nodes : gmap string CommitNode) (rank : node_ptr -> nat) : Prop := mkWf {
  wf_key : forall k n, nodes !! k = Some n -> hash_string n = k;
  wf_parents : forall k n p,
    nodes !! k = Some n -> p ∈ parents n -> is_Some (nodes !! p) /\ (rank p < rank k)%nat;
  wf_children : forall k n c,
    nodes !! k = Some n -> c ∈ children n -> is_Some (nodes !! c);
  wf_edges : forall p c np nc,
    nodes !! p = Some np -> nodes !! c = Some nc ->
    occurrences c (children np) = occurrences p (parents nc);
  wf_rank : forall k, is_Some (nodes !! k) -> (rank k < size nodes)%nat
}.

Definition wf_dag (dag : CommitDAG) : Prop := exists rank, wf_nodes (dag_nodes dag) rank.

Lemma wf_empty : wf_dag empty_dag.
Proof.
  exists (fun _ => 0%nat). split; cbn; intros *; rewrite ?lookup_empty;
    try discriminate; intros [x Hx]; discriminate.
Qed.

Lemma linked_from_dom (nodes nodes' : gmap string CommitNode) (commit : node_ptr)
  (done : list node_ptr) :
  linked_from nodes commit done nodes' -> dom nodes' = dom nodes.
Proof.
  intros Hl. apply set_eq. intros q. rewrite !elem_of_dom, Hl.
  destruct (nodes !! q); cbn; split; intros [x Hx]; eauto; discriminate.
Qed.

Lemma linked_from_size (nodes nodes' : gmap string CommitNode) (commit : node_ptr)
  (done : list node_ptr) :
  linked_from nodes commit done nodes' -> size nodes' = size nodes.
Proof.
  intros Hl. rewrite <- !size_dom. rewrite (linked_from_dom _ _ _ _ Hl). reflexivity.
Qed.

Lemma occurrences_in (x : node_ptr) (l : list node_ptr) :
  (0 < occurrences x l)%nat -> x ∈ l.
Proof.
  intros H. destruct (decide (x ∈ l)) as [Hin | Hout]; [exact Hin |].
  rewrite (occurrences_not_in x l Hout) in H. lia.
Qed.

(** A node that is linked to parents of the table and put under a fresh key
    keeps the graph well formed; it is ranked after every node before it. *)
Lemma extend_wf (nodes nodes1 : gmap string CommitNode) (rank : node_ptr -> nat)
  (k : node_ptr) (cn : CommitNode) :
  wf_nodes nodes rank ->
  nodes !! k = None ->
  linked_from nodes k (parents cn) nodes1 ->
  (forall p, p ∈ parents cn -> is_Some (nodes !! p)) ->
  children cn = [] ->
  hash_string cn = k ->
  wf_nodes (<[k := cn]> nodes1) (fun q => if decide (q = k) then size nodes else rank q).
Proof.
  intros Hwf Hk Hl Hps Hch Hhs.
  assert (Hlook : forall q n, <[k := cn]> nodes1 !! q = Some n ->
            (q = k /\ n = cn) \/
            (q <> k /\ exists n0, nodes !! q = Some n0 /\
               n = push_children n0 (replicate (occurrences q (parents cn)) k))).
  { intros q n H. destruct (decide (q = k)) as [-> | Hne].
    - rewrite lookup_insert_eq in H. left. split; congruence.
    - rewrite lookup_insert_ne in H by congruence. rewrite Hl in H.
      destruct (nodes !! q) as [n0 |]; cbn in H; [| discriminate].
      right. split; [exact Hne |]. exists n0. split; congruence. }
  assert (Hold : forall q, is_Some (nodes !! q) ->
            q <> k /\ is_Some (<[k := cn]> nodes1 !! q)).
  { intros q [n0 Hq]. assert (q <> k) as Hne by (intros ->; congruence).
    split; [exact Hne |]. rewrite lookup_insert_ne by congruence.
    rewrite Hl, Hq. cbn. eauto. }
  assert (Hkp : forall q n0, nodes !! q = Some n0 -> k ∉ parents n0).
  { intros q n0 Hq Hin. destruct (wf_parents _ _ Hwf q n0 k Hq Hin) as [[x Hx] _].
    congruence. }
  assert (Hkc : forall q n0, nodes !! q = Some n0 -> k ∉ children n0).
  { intros q n0 Hq Hin. destruct (wf_children _ _ Hwf q n0 k Hq Hin) as [x Hx].
    congruence. }
  assert (Hsize : size (<[k := cn]> nodes1) = S (size nodes)).
  { rewrite map_size_insert_None.
    - rewrite (linked_from_size _ _ _ _ Hl). reflexivity.
    - rewrite Hl, Hk. reflexivity. }
  split.
  - intros q n H. destruct (Hlook q n H) as [[-> ->] | [_ (n0 & Hq & ->)]].
    + exact Hhs.
    + exact (wf_key _ _ Hwf q n0 Hq).
  - intros q n p H Hin. destruct (Hlook q n H) as [[-> ->] | [Hne (n0 & Hq & ->)]].
    + destruct (Hold p (Hps p Hin)) as [Hpk Hp]. split; [exact Hp |].
      repeat case_decide; try congruence.
      apply (wf_rank _ _ Hwf). apply Hps. exact Hin.
    + cbn [push_children parents] in Hin.
      destruct (wf_parents _ _ Hwf q n0 p Hq Hin) as [Hp Hlt].
      destruct (Hold p Hp) as [Hpk Hp']. split; [exact Hp' |].
      repeat case_decide; congruence.
  - intros q n c H Hin. destruct (Hlook q n H) as [[-> ->] | [Hne (n0 & Hq & ->)]].
    + rewrite Hch in Hin. inversion Hin.
    + cbn [push_children children] in Hin. apply elem_of_app in Hin as [Hin | Hin].
      * apply Hold. exact (wf_children _ _ Hwf q n0 c Hq Hin).
      * apply elem_of_replicate in Hin as [-> _]. rewrite lookup_insert_eq. eauto.
  - intros p c np nc Hp Hc.
    destruct (Hlook p np Hp) as [[-> ->] | [Hpk (np0 & Hp0 & ->)]];
      destruct (Hlook c nc Hc) as [[-> ->] | [Hck (nc0 & Hc0 & ->)]].
    + rewrite Hch. cbn [occurrences]. symmetry. apply occurrences_not_in.
      intros Hin. destruct (Hps k Hin) as [x Hx]. congruence.
    + rewrite Hch. cbn [occurrences push_children parents]. symmetry.
      apply occurrences_not_in. exact (Hkp c nc0 Hc0).
    + cbn [push_children children]. rewrite occurrences_app, occurrences_replicate.
      rewrite String.eqb_refl.
      rewrite (occurrences_not_in k (children np0) (Hkc p np0 Hp0)). reflexivity.
    + cbn [push_children children parents]. rewrite occurrences_app, occurrences_replicate.
      destruct (String.eqb_spec k c) as [E | _]; [congruence |].
      rewrite Nat.add_0_r. exact (wf_edges _ _ Hwf p c np0 nc0 Hp0 Hc0).
  - intros q [n H]. rewrite Hsize. destruct (Hlook q n H) as [[-> ->] | [Hne (n0 & Hq & ->)]].
    + case_decide; [lia | congruence].
    + case_decide; [congruence |].
      assert (rank q < size nodes)%nat by (apply (wf_rank _ _ Hwf); eauto). lia.
Qed.

(** [add_commit] keeps the graph well formed. *)
Lemma add_commit_wf (dag : CommitDAG) (hash : svcs_hash_t) (message author : string)
  (timestamp : Z) (parent_hashes : list svcs_hash_t) :
  wf_dag dag -> wf_dag (add_commit dag hash message author timestamp parent_hashes).
Proof.
  intros [rank Hwf]. unfold add_commit.
  remember (svcs_hash_to_string hash) as k eqn:Ek.
  destruct (dag_nodes dag !! k) as [old |] eqn:Ek0; [exists rank; exact Hwf |].
  destruct (link_parents_fold k (dag_nodes dag) parent_hashes (dag_nodes dag) []
              (linked_from_start (dag_nodes dag) k)) as [Hps Hl].
  cbn [app] in Hps, Hl. cbv zeta. cbn [dag_nodes].
  exists (fun q => if decide (q = k) then size (dag_nodes dag) else rank q).
  apply extend_wf; cbn [parents children]; try assumption.
  - rewrite Hps. exact Hl.
  - rewrite Hps. intros p Hp. exact (linked_parents_present _ _ _ Hp).
  - reflexivity.
  - unfold hash_string. cbn [node_hash]. symmetry. exact Ek.
Qed.

(** Every graph built by calls of [add_commit] on an empty graph is well
    formed. *)
Lemma build_dag_wf (calls : list commit_args) : wf_dag (build_dag calls).
Proof.
  unfold build_dag. generalize wf_empty. generalize empty_dag.
  induction calls as [| a calls IH]; intros dag Hwf; [exact Hwf |].
  cbn [fold_left]. apply IH. apply add_commit_wf. exact Hwf.
Qed.

(** *** The number of parents

    [topological_sort] counts the parents of a node in an [int]. A node has
    at most as many parents as the call that added it named, so the count
    is exact when every call names fewer than [2 ^ 31] of them. *)

Definition few_parents (nodes : gmap string CommitNode) : Prop :=
  forall k n, nodes !! k = Some n -> Z.of_nat (length (parents n)) < 2 ^ 31.

Lemma linked_parents_length (nodes : gmap string CommitNode) (phs : list svcs_hash_t) :
  (length (linked_parents nodes phs) <= length phs)%nat.
Proof.
  unfold linked_parents.
  rewrite <- (length_map svcs_hash_to_string phs). apply List.filter_length_le.
Qed.

Lemma add_commit_few_parents (dag : CommitDAG) (hash : svcs_hash_t) (message author : string)
  (timestamp : Z) (parent_hashes : list svcs_hash_t) :
  few_parents (dag_nodes dag) ->
  Z.of_nat (length parent_hashes) < 2 ^ 31 ->
  few_parents (dag_nodes (add_commit dag hash message author timestamp parent_hashes)).
Proof.
  intros Hfew Hlen. unfold add_commit.
  remember (svcs_hash_to_string hash) as k eqn:Ek.
  destruct (dag_nodes dag !! k) as [old |] eqn:Ek0; [exact Hfew |].
  destruct (link_parents_fold k (dag_nodes dag) parent_hashes (dag_nodes dag) []
              (linked_from_start (dag_nodes dag) k)) as [Hps Hl].
  cbn [app] in Hps, Hl. cbv zeta. cbn [dag_nodes].
  intros q n. destruct (decide (q = k)) as [-> | Hne].
  - rewrite lookup_insert_eq. intros [= <-]. cbn [parents]. rewrite Hps.
    pose proof (linked_parents_length (dag_nodes dag) parent_hashes). lia.
  - rewrite lookup_insert_ne by congruence. rewrite Hl.
    destruct (dag_nodes dag !! q) as [n0 |] eqn:Eq; cbn [fmap option_fmap option_map];
      [| discriminate].
    intros [= <-]. cbn [parents push_children]. exact (Hfew q n0 Eq).
Qed.

(** No node of a graph built by calls that name fewer than [2 ^ 31] parents
    each has [2 ^ 31] parents or more. *)
Lemma build_dag_few_parents (calls : list commit_args) :
  Forall (fun a => Z.of_nat (length (arg_parents a)) < 2 ^ 31) calls ->
  few_parents (dag_nodes (build_dag calls)).
Proof.
  unfold build_dag.
  assert (H0 : few_parents (dag_nodes empty_dag)).
  { intros k n H. cbn in H. rewrite lookup_empty in H. discriminate. }
  revert H0. generalize empty_dag.
  induction calls as [| a calls IH]; intros dag Hfew Hall; [exact Hfew |].
  apply Forall_cons in Hall as [Ha Hall].
  cbn [fold_left]. apply IH; [| exact Hall].
  apply add_commit_few_parents; assumption.
Qed.

Lemma int_wrap_small (z : Z) : - 2 ^ 31 <= z < 2 ^ 31 -> int_wrap z = z.
Proof.
  intros Hz. unfold int_wrap. cbv zeta.
  destruct (Z_lt_le_dec z 0) as [Hneg | Hpos].
  - replace (z mod 2 ^ 32) with (z + 2 ^ 32)
      by (apply (Z.mod_unique _ _ (-1)); lia).
    destruct (Z.ltb_spec (z + 2 ^ 32) (2 ^ 31)); lia.
  - rewrite Z.mod_small by lia. destruct (Z.ltb_spec z (2 ^ 31)); lia.
Qed.

Lemma int_of_size_small (n : nat) : Z.of_nat n < 2 ^ 31 -> int_of_size n = Z.of_nat n.
Proof. intros H. apply (int_wrap_small (Z.of_nat n)). lia. Qed.

Lemma int_wrap_range (z : Z) : - 2 ^ 31 <= int_wrap z < 2 ^ 31.
Proof.
  unfold int_wrap. cbv zeta.
  pose proof (Z.mod_pos_bound z (2 ^ 32) ltac:(lia)).
  destruct (Z.ltb_spec (z mod 2 ^ 32) (2 ^ 31)); lia.
Qed.

(* ===================================================================== *)
(** ** The commit graph: [topological_sort]                               *)
(* ===================================================================== *)

(** [p] stands before [c] in [out]. *)
Definition precedes (p c : node_ptr) (out : list node_ptr) : Prop :=
  exists i j, out !! i = Some p /\ out !! j = Some c /\ (i < j)%nat.

(** How many entries of the vector [ps] are not in [res] yet. *)
Fixpoint waiting (res ps : list node_ptr) : nat :=
  match ps with
  | [] => 0
  | p :: r => (if bool_decide (p ∈ res) then 0 else 1) + waiting res r
  end.

Lemma waiting_nil (ps : list node_ptr) : waiting [] ps = length ps.
Proof.
  induction ps as [| p ps IH]; [reflexivity |].
  cbn [waiting length]. rewrite bool_decide_eq_false_2 by (apply not_elem_of_nil).
  rewrite IH. reflexivity.
Qed.

Lemma waiting_snoc (res ps : list node_ptr) (x : node_ptr) :
  x ∉ res ->
  waiting res ps = (waiting (res ++ [x]) ps + occurrences x ps)%nat.
Proof.
  intros Hx. induction ps as [| p ps IH]; [reflexivity |].
  cbn [waiting occurrences]. rewrite IH.
  destruct (String.eqb_spec p x) as [-> | Hne].
  - rewrite bool_decide_eq_false_2 by exact Hx.
    rewrite bool_decide_eq_true_2 by (apply elem_of_app; right; apply list_elem_of_singleton; reflexivity).
    lia.
  - destruct (decide (p ∈ res)) as [Hin | Hout].
    + rewrite !bool_decide_eq_true_2; [lia | apply elem_of_app; left; exact Hin | exact Hin].
    + rewrite !bool_decide_eq_false_2; [lia | | exact Hout].
      intros H. apply elem_of_app in H as [H | H]; [contradiction |].
      apply list_elem_of_singleton in H. congruence.
Qed.

Lemma waiting_zero (res ps : list node_ptr) :
  waiting res ps = 0%nat <-> forall p, p ∈ ps -> p ∈ res.
Proof.
  induction ps as [| p ps IH]; cbn [waiting].
  - split; [intros _ q H; inversion H | reflexivity].
  - destruct (decide (p ∈ res)) as [Hin | Hout].
    + rewrite bool_decide_eq_true_2 by exact Hin. cbn [Nat.add]. rewrite IH.
      split; intros H q Hq.
      * apply elem_of_cons in Hq as [-> | Hq]; [exact Hin | exact (H q Hq)].
      * apply H. apply elem_of_cons. right. exact Hq.
    + rewrite bool_decide_eq_false_2 by exact Hout. split; [lia |].
      intros H. exfalso. apply Hout. apply H. apply elem_of_cons. left. reflexivity.
Qed.

(** A vector without repetitions whose entries are keys of a table is no
    longer than the table. *)
Lemma keys_length (nodes : gmap string CommitNode) (l : list node_ptr) :
  NoDup l -> (forall x, x ∈ l -> is_Some (nodes !! x)) -> (length l <= size nodes)%nat.
Proof.
  intros Hnd Hin. rewrite <- size_dom.
  rewrite <- (size_list_to_set (C := gset string) l Hnd).
  apply subseteq_size. intros x Hx. apply elem_of_list_to_set in Hx.
  apply elem_of_dom. exact (Hin x Hx).
Qed.

Lemma NoDup_list_filter (f : node_ptr -> bool) (l : list node_ptr) :
  NoDup l -> NoDup (List.filter f l).
Proof.
  induction l as [| x l IH]; intros H; [exact H |].
  apply NoDup_cons in H as [Hx Hl]. cbn [List.filter].
  destruct (f x); [| exact (IH Hl)].
  apply NoDup_cons. split; [| exact (IH Hl)].
  rewrite list_elem_of_In, List.filter_In, <- list_elem_of_In. intros [H _]. contradiction.
Qed.

(** The first loop of [topological_sort]. *)
Lemma count_in_degree_fold (nodes : gmap string CommitNode) (order : list string) :
  let st := fold_left (count_in_degree nodes) order
              {| in_degree := ∅; queue := []; result_nodes := [] |} in
  result_nodes st = [] /\
  queue st = List.filter (fun k => match nodes !! k with
                                   | Some n => int_of_size (length (parents n)) =? 0
                                   | None => false
                                   end) order /\
  (forall k n, k ∈ order -> nodes !! k = Some n ->
     in_degree st !! k = Some (int_of_size (length (parents n)))).
Proof.
  induction order as [| x order IH] using rev_ind.
  - cbn. split; [reflexivity |]. split; [reflexivity |]. intros k n H. inversion H.
  - rewrite fold_left_app. cbn [fold_left]. cbv zeta in IH.
    destruct IH as (Hr & Hq & Hd).
    set (st := fold_left (count_in_degree nodes) order _) in *.
    rewrite List.filter_app. cbn [List.filter]. unfold count_in_degree.
    destruct (nodes !! x) as [nx |] eqn:Ex; cbn [result_nodes queue in_degree].
    + split; [exact Hr |]. split.
      * rewrite Hq. destruct (int_of_size (length (parents nx)) =? 0); [reflexivity |].
        rewrite app_nil_r. reflexivity.
      * intros k n Hk Hn. destruct (decide (k = x)) as [-> | Hne].
        -- rewrite lookup_insert_eq. congruence.
        -- rewrite lookup_insert_ne by congruence. apply Hd; [| exact Hn].
           apply elem_of_app in Hk as [Hk | Hk]; [exact Hk |].
           apply list_elem_of_singleton in Hk. congruence.
    + split; [exact Hr |]. split; [rewrite app_nil_r; exact Hq |].
      intros k n Hk Hn. apply Hd; [| exact Hn].
      apply elem_of_app in Hk as [Hk | Hk]; [exact Hk |].
      apply list_elem_of_singleton in Hk. congruence.
Qed.

Section Kahn.
Variable nodes : gmap string CommitNode.
Variable rank : node_ptr -> nat.
Hypothesis Hwf : wf_nodes nodes rank.
Hypothesis Hfew : few_parents nodes.

(** What the loops of [topological_sort] maintain, with [todo] the
    children of the node in hand that are still to be visited: the result
    and the queue hold nodes of the table, each once; the in-degree of a
    node counts its parents that are not in the result, those in hand
    included; a node is in the result or in the queue exactly when its
    in-degree is 0; the parents of a node in the result stand before it;
    and no counter has left the range in which an [int] counts. *)
Record kahn_inv (todo : list node_ptr) (st : sort_state) : Prop := mkKahn {
  inv_nodup : NoDup (result_nodes st ++ queue st);
  inv_dom : forall x, x ∈ result_nodes st ++ queue st -> is_Some (nodes !! x);
  inv_degree : forall c nc, nodes !! c = Some nc ->
    degree (in_degree st) c
      = Z.of_nat (waiting (result_nodes st) (parents nc) + occurrences c todo);
  inv_ready : forall c, is_Some (nodes !! c) ->
    (c ∈ result_nodes st ++ queue st <-> degree (in_degree st) c = 0);
  inv_order : forall j c nc p,
    result_nodes st !! j = Some c -> nodes !! c = Some nc -> p ∈ parents nc ->
    exists i, (i < j)%nat /\ result_nodes st !! i = Some p;
  inv_range : forall c, is_Some (nodes !! c) -> degree (in_degree st) c < 2 ^ 31
}.

Lemma degree_insert_eq (deg : gmap string Z) (k : string) (d : Z) :
  degree (<[k := d]> deg) k = d.
Proof. unfold degree. rewrite lookup_insert_eq. reflexivity. Qed.

Lemma degree_insert_ne (deg : gmap string Z) (k k' : string) (d : Z) :
  k <> k' -> degree (<[k := d]> deg) k' = degree deg k'.
Proof. intros H. unfold degree. rewrite lookup_insert_ne by exact H. reflexivity. Qed.

(** The loop over the children of the node in hand. *)
Lemma relax_children (todo : list node_ptr) :
  forall st,
    (forall c, c ∈ todo -> is_Some (nodes !! c)) ->
    kahn_inv todo st ->
    kahn_inv [] (fold_left (relax_child nodes) todo st) /\
    result_nodes (fold_left (relax_child nodes) todo st) = result_nodes st.
Proof.
  induction todo as [| c todo IH]; intros st Hin Hinv; [split; [exact Hinv | reflexivity] |].
  cbn [fold_left].
  destruct (Hin c) as [nc Hc]; [apply elem_of_cons; left; reflexivity |].
  assert (Hkey : hash_string nc = c) by exact (wf_key _ _ Hwf c nc Hc).
  assert (Hstep : kahn_inv todo (relax_child nodes st c) /\
                  result_nodes (relax_child nodes st c) = result_nodes st).
  { unfold relax_child. rewrite Hc, Hkey.
    pose proof (inv_degree _ _ Hinv c nc Hc) as Hd. cbn [occurrences] in Hd.
    rewrite String.eqb_refl in Hd.
    assert (Hout : c ∉ result_nodes st ++ queue st).
    { intros H. apply (inv_ready _ _ Hinv c (ltac:(eauto))) in H. lia. }
    pose proof (inv_range _ _ Hinv c (ltac:(eauto))) as Hrange.
    rewrite (int_wrap_small (degree (in_degree st) c - 1)) by lia.
    set (d := degree (in_degree st) c - 1) in *.
    assert (Hd' : d = Z.of_nat (waiting (result_nodes st) (parents nc) + occurrences c todo))
      by (unfold d; lia).
    split; [| reflexivity].
    split; cbn [result_nodes queue in_degree].
    - destruct (d =? 0); [| exact (inv_nodup _ _ Hinv)].
      rewrite app_assoc. apply NoDup_app. split; [exact (inv_nodup _ _ Hinv) |].
      split; [| apply NoDup_singleton].
      intros x Hx Hx'. apply list_elem_of_singleton in Hx'. subst x. contradiction.
    - intros x Hx. destruct (d =? 0); [| exact (inv_dom _ _ Hinv x Hx)].
      rewrite app_assoc in Hx. apply elem_of_app in Hx as [Hx | Hx].
      + exact (inv_dom _ _ Hinv x Hx).
      + apply list_elem_of_singleton in Hx. subst x. eauto.
    - intros c' nc' Hc'. destruct (decide (c = c')) as [<- | Hne].
      + rewrite degree_insert_eq. congruence.
      + rewrite degree_insert_ne by exact Hne.
        rewrite (inv_degree _ _ Hinv c' nc' Hc'). cbn [occurrences].
        destruct (String.eqb_spec c c') as [E | _]; [congruence |]. reflexivity.
    - intros c' Hc'. destruct (decide (c = c')) as [<- | Hne].
      + rewrite degree_insert_eq. destruct (Z.eqb_spec d 0) as [E | E].
        * split; [intros _; exact E |]. intros _. rewrite app_assoc.
          apply elem_of_app. right. apply list_elem_of_singleton. reflexivity.
        * split; [intros H; contradiction | intros H; contradiction].
      + rewrite degree_insert_ne by exact Hne.
        rewrite <- (inv_ready _ _ Hinv c' Hc').
        destruct (d =? 0); [| reflexivity].
        rewrite app_assoc, elem_of_app, list_elem_of_singleton.
        split; [intros [H | H]; [exact H | congruence] | intros H; left; exact H].
    - exact (inv_order _ _ Hinv).
    - intros c' Hc'. destruct (decide (c = c')) as [<- | Hne].
      + rewrite degree_insert_eq. unfold d. lia.
      + rewrite degree_insert_ne by exact Hne. exact (inv_range _ _ Hinv c' Hc'). }
  destruct Hstep as [Hinv' Hres].
  destruct (IH (relax_child nodes st c)) as [Hfin Hres'].
  - intros x Hx. apply Hin. apply elem_of_cons. right. exact Hx.
  - exact Hinv'.
  - split; [exact Hfin | congruence].
Qed.

(** Taking the front of the queue into the result. *)
Lemma pop_queue (st : sort_state) (current : node_ptr) (rest : list node_ptr)
  (n : CommitNode) :
  kahn_inv [] st ->
  queue st = current :: rest ->
  nodes !! current = Some n ->
  kahn_inv (children n)
    {| in_degree := in_degree st; queue := rest;
       result_nodes := result_nodes st ++ [current] |}.
Proof.
  intros Hinv Hq Hn.
  pose proof (inv_nodup _ _ Hinv) as Hnd. rewrite Hq in Hnd.
  assert (Hperm : (result_nodes st ++ [current]) ++ rest ≡ₚ result_nodes st ++ current :: rest).
  { rewrite <- app_assoc. reflexivity. }
  assert (Hcur : current ∉ result_nodes st).
  { apply NoDup_app in Hnd as (_ & Hdis & _). intros H. apply (Hdis current H).
    apply elem_of_cons. left. reflexivity. }
  assert (Hpar : forall p, p ∈ parents n -> p ∈ result_nodes st).
  { apply waiting_zero.
    assert (Hz : degree (in_degree st) current = 0).
    { apply (inv_ready _ _ Hinv current (ltac:(eauto))). rewrite Hq.
      apply elem_of_app. right. apply elem_of_cons. left. reflexivity. }
    rewrite (inv_degree _ _ Hinv current n Hn) in Hz. cbn [occurrences] in Hz. lia. }
  split; cbn [result_nodes queue in_degree].
  - rewrite Hperm. exact Hnd.
  - intros x Hx. rewrite Hperm in Hx. rewrite <- Hq in Hx. exact (inv_dom _ _ Hinv x Hx).
  - intros c nc Hc. rewrite (inv_degree _ _ Hinv c nc Hc). cbn [occurrences].
    rewrite (waiting_snoc (result_nodes st) (parents nc) current Hcur).
    rewrite (wf_edges _ _ Hwf current c n nc Hn Hc). f_equal. lia.
  - intros c Hc. rewrite Hperm, <- Hq. exact (inv_ready _ _ Hinv c Hc).
  - intros j c nc p Hj Hc Hp.
    destruct (Nat.lt_ge_cases j (length (result_nodes st))) as [Hlt | Hge].
    + rewrite lookup_app_l in Hj by exact Hlt.
      destruct (inv_order _ _ Hinv j c nc p Hj Hc Hp) as (i & Hi & Hi').
      exists i. split; [exact Hi |]. rewrite lookup_app_l by lia. exact Hi'.
    + rewrite lookup_app_r in Hj by exact Hge.
      apply list_lookup_singleton_Some in Hj as [Hj0 <-].
      assert (nc = n) as -> by congruence.
      apply Hpar in Hp. apply list_elem_of_lookup in Hp as [i Hi].
      exists i. pose proof (lookup_lt_Some _ _ _ Hi) as Hlen.
      split; [lia |]. rewrite lookup_app_l by exact Hlen. exact Hi.
  - exact (inv_range _ _ Hinv).
Qed.

(** The queue loop ends within the iterations it is given, on a state with
    an empty queue that satisfies the invariant. *)
Lemma drain_queue_total (fuel : nat) :
  forall st,
    kahn_inv [] st ->
    (size nodes <= fuel + length (result_nodes st))%nat ->
    exists st', drain_queue fuel nodes st = Some (result_nodes st') /\
                kahn_inv [] st' /\ queue st' = [].
Proof.
  induction fuel as [| fuel IH]; intros st Hinv Hfuel.
  - destruct (queue st) as [| current rest] eqn:Hq.
    + exists st. cbn. rewrite Hq. auto.
    + exfalso.
      pose proof (keys_length nodes _ (inv_nodup _ _ Hinv) (inv_dom _ _ Hinv)) as Hlen.
      rewrite length_app, Hq in Hlen. cbn [length] in Hlen. lia.
  - cbn [drain_queue]. destruct (queue st) as [| current rest] eqn:Hq.
    + exists st. auto.
    + destruct (inv_dom _ _ Hinv current) as [n Hn].
      { rewrite Hq. apply elem_of_app. right. apply elem_of_cons. left. reflexivity. }
      rewrite Hn.
      pose proof (pop_queue st current rest n Hinv Hq Hn) as Hpop.
      destruct (relax_children (children n) _
                  (fun c Hc => wf_children _ _ Hwf current n c Hn Hc) Hpop) as [Hinv' Hres].
      apply IH; [exact Hinv' |]. rewrite Hres. cbn [result_nodes].
      rewrite length_app. cbn [length]. lia.
Qed.

(** When the queue is empty every node of the table is in the result. *)
Lemma drained_complete (st : sort_state) :
  kahn_inv [] st -> queue st = [] ->
  forall c, is_Some (nodes !! c) -> c ∈ result_nodes st.
Proof.
  intros Hinv Hq.
  assert (H : forall m c, (rank c < m)%nat -> is_Some (nodes !! c) -> c ∈ result_nodes st).
  { induction m as [| m IH]; intros c Hm Hc; [lia |].
    destruct Hc as [nc Hc].
    pose proof (inv_ready _ _ Hinv c (ltac:(eauto))) as Hr.
    rewrite Hq, app_nil_r in Hr. apply Hr.
    rewrite (inv_degree _ _ Hinv c nc Hc). cbn [occurrences]. rewrite Nat.add_0_r.
    apply (f_equal Z.of_nat (y := 0%nat)). apply waiting_zero. intros p Hp.
    destruct (wf_parents _ _ Hwf c nc p Hc Hp) as [Hsome Hlt].
    apply IH; [lia | exact Hsome]. }
  intros c Hc. apply (H (S (rank c))); [lia | exact Hc].
Qed.

(** [topological_sort] on a well-formed table: whatever the order in which
    the table is iterated, the result holds every node once, and every
    parent before its children. *)
Lemma kahn_sorts (order : list string) :
  order ≡ₚ (map_to_list nodes).*1 ->
  exists out,
    drain_queue (size nodes) nodes
      (fold_left (count_in_degree nodes) order
         {| in_degree := ∅; queue := []; result_nodes := [] |}) = Some out /\
    out ≡ₚ order /\
    (forall c nc p, nodes !! c = Some nc -> p ∈ parents nc -> precedes p c out) /\
    (forall p np c, nodes !! p = Some np -> c ∈ children np -> precedes p c out).
Proof.
  intros Horder.
  assert (Hnd : NoDup order) by (rewrite Horder; apply NoDup_fst_map_to_list).
  assert (Hkeys : forall k, k ∈ order <-> is_Some (nodes !! k)).
  { intros k. rewrite Horder. rewrite list_elem_of_fmap. split.
    - intros [[k' n] [-> H]]. apply elem_of_map_to_list in H. cbn. eauto.
    - intros [n H]. exists (k, n). split; [reflexivity |].
      apply elem_of_map_to_list. exact H. }
  destruct (count_in_degree_fold nodes order) as (Hr & Hq & Hd).
  set (st := fold_left (count_in_degree nodes) order _) in *.
  assert (Hdeg : forall c nc, nodes !! c = Some nc ->
            degree (in_degree st) c = Z.of_nat (length (parents nc))).
  { intros c nc Hc. unfold degree. rewrite (Hd c nc); [| | exact Hc].
    - apply int_of_size_small. exact (Hfew c nc Hc).
    - apply Hkeys. eauto. }
  assert (Hinv : kahn_inv [] st).
  { split.
    - rewrite Hr, Hq. cbn [app]. apply NoDup_list_filter. exact Hnd.
    - intros x. rewrite Hr, Hq. cbn [app]. rewrite list_elem_of_In, List.filter_In.
      intros [Hx _]. apply Hkeys. apply list_elem_of_In. exact Hx.
    - intros c nc Hc. rewrite (Hdeg c nc Hc), Hr, waiting_nil. cbn [occurrences].
      f_equal. lia.
    - intros c [nc Hc]. rewrite (Hdeg c nc Hc), Hr, Hq. cbn [app].
      rewrite list_elem_of_In, List.filter_In, Hc, <- list_elem_of_In.
      rewrite (int_of_size_small _ (Hfew c nc Hc)).
      rewrite Z.eqb_eq. split; [intros [_ H]; exact H |].
      intros H. split; [apply Hkeys; eauto | exact H].
    - intros j c nc p Hj. rewrite Hr in Hj. rewrite lookup_nil in Hj. discriminate.
    - intros c [nc Hc]. rewrite (Hdeg c nc Hc). exact (Hfew c nc Hc). }
  destruct (drain_queue_total (size nodes) st Hinv) as (st' & Hrun & Hinv' & Hq'); [lia |].
  exists (result_nodes st'). split; [exact Hrun |].
  pose proof (drained_complete st' Hinv' Hq') as Hall.
  pose proof (inv_nodup _ _ Hinv') as Hnd'. rewrite Hq', app_nil_r in Hnd'.
  assert (Hparents : forall c nc p, nodes !! c = Some nc -> p ∈ parents nc ->
            precedes p c (result_nodes st')).
  { intros c nc p Hc Hp.
    destruct (proj1 (list_elem_of_lookup _ _) (Hall c (ltac:(eauto)))) as [j Hj].
    destruct (inv_order _ _ Hinv' j c nc p Hj Hc Hp) as (i & Hi & Hi').
    exists i, j. auto. }
  split; [| split].
  - apply NoDup_Permutation; [exact Hnd' | exact Hnd |].
    intros x. rewrite Hkeys. split; [| apply Hall].
    intros Hx. apply (inv_dom _ _ Hinv'). apply elem_of_app. left. exact Hx.
  - exact Hparents.
  - intros p np c Hp Hc.
    destruct (wf_children _ _ Hwf p np c Hp Hc) as [nc Hnc].
    apply (Hparents c nc p Hnc). apply occurrences_in.
    rewrite <- (wf_edges _ _ Hwf p c np nc Hp Hnc). apply occurrences_pos. exact Hc.
Qed.
End Kahn.

(** C7. For every graph built by a sequence of [add_commit] calls on an
    empty graph, each naming fewer than [2 ^ 31] parents (the range of the
    [int] in which [topological_sort] counts them), and whatever the order
    in which the table of nodes is iterated, [topological_sort] returns a
    vector that holds every node of the graph once and in which every node
    stands before all of its children; equivalently, every parent stands
    before every commit that lists it as a parent. *)
Theorem topological_sort_parents_first (calls : list commit_args) (order : list string) :
  Forall (fun a => Z.of_nat (length (arg_parents a)) < 2 ^ 31) calls ->
  order ≡ₚ (map_to_list (dag_nodes (build_dag calls))).*1 ->
  exists out,
    topological_sort (build_dag calls) order = Some out /\
    out ≡ₚ order /\
    (forall p np c,
       dag_nodes (build_dag calls) !! p = Some np -> c ∈ children np -> precedes p c out) /\
    (forall c nc p,
       dag_nodes (build_dag calls) !! c = Some nc -> p ∈ parents nc -> precedes p c out).
Proof.
  intros Hcalls Horder. destruct (build_dag_wf calls) as [rank Hwf].
  destruct (kahn_sorts _ rank Hwf (build_dag_few_parents calls Hcalls) order Horder)
    as (out & Hrun & Hperm & Hpar & Hch).
  exists out. unfold topological_sort. cbv zeta. auto.
Qed.

(** A root, two commits on it, and their merge. *)
Definition graph_hash (b : byte) : svcs_hash_t := repeat b SVCS_HASH_SIZE.

Definition graph_calls : list commit_args :=
  [ {| arg_hash := graph_hash x01; arg_message := "root"; arg_author := "ada";
       arg_timestamp := 1; arg_parents := [] |};
    {| arg_hash := graph_hash x02; arg_message := "left"; arg_author := "ada";
       arg_timestamp := 2; arg_parents := [graph_hash x01] |};
    {| arg_hash := graph_hash x03; arg_message := "right"; arg_author := "ada";
       arg_timestamp := 3; arg_parents := [graph_hash x01] |};
    {| arg_hash := graph_hash x04; arg_message := "merge"; arg_author := "ada";
       arg_timestamp := 4; arg_parents := [graph_hash x02; graph_hash x03] |} ].

(** The table iterated from the merge back to the root. *)
Definition graph_order : list string :=
  map svcs_hash_to_string [graph_hash x04; graph_hash x03; graph_hash x02; graph_hash x01].

Lemma topological_sort_parents_first_witness :
  Forall (fun a => Z.of_nat (length (arg_parents a)) < 2 ^ 31) graph_calls /\
  graph_order ≡ₚ (map_to_list (dag_nodes (build_dag graph_calls))).*1 /\
  exists out,
    topological_sort (build_dag graph_calls) graph_order = Some out /\
    out ≡ₚ graph_order /\
    (forall p np c,
       dag_nodes (build_dag graph_calls) !! p = Some np -> c ∈ children np ->
       precedes p c out) /\
    (forall c nc p,
       dag_nodes (build_dag graph_calls) !! c = Some nc -> p ∈ parents nc ->
       precedes p c out).
Proof.
  assert (H : graph_order ≡ₚ (map_to_list (dag_nodes (build_dag graph_calls))).*1).
  { apply (bool_decide_unpack _). vm_compute. exact I. }
  assert (Hfew : Forall (fun a => Z.of_nat (length (arg_parents a)) < 2 ^ 31) graph_calls).
  { repeat (apply List.Forall_cons; [cbn; lia |]). apply List.Forall_nil. }
  split; [exact Hfew |]. split; [exact H |].
  exact (topological_sort_parents_first graph_calls graph_order Hfew H).
Defined.

(** On that graph the root comes out first and the merge last. *)
Example topological_sort_merge_graph :
  topological_sort (build_dag graph_calls) graph_order
  = Some (map svcs_hash_to_string
            [graph_hash x01; graph_hash x02; graph_hash x03; graph_hash x04]).
Proof. vm_compute. reflexivity. Qed.

(* ===================================================================== *)
(** ** The line diff                                                      *)
(* ===================================================================== *)

(** The pieces of [text] between its newlines, [line] being what was read
    of the piece in hand. *)
Fixpoint pieces (text line : list byte) : list (list byte) :=
  match text with
  | [] => [line]
  | b :: r => if Byte.eqb b newline then line :: pieces r [] else pieces r (line ++ [b])
  end.

Lemma byte_eqb_spec (x y : byte) : reflect (x = y) (Byte.eqb x y).
Proof.
  destruct (Byte.eqb x y) eqn:E; constructor.
  - apply Byte.byte_dec_bl. exact E.
  - apply Byte.eqb_false. exact E.
Qed.

Lemma firstn_snoc_nth {A : Type} (d : A) (l : list A) (m : nat) :
  (m < length l)%nat -> firstn (S m) l = firstn m l ++ [nth m l d].
Proof.
  revert m. induction l as [| x l IH]; intros m Hm; [cbn in Hm; lia |].
  destruct m as [| m]; [reflexivity |].
  cbn [firstn nth app]. f_equal. apply IH. cbn in Hm. lia.
Qed.

Lemma nth_skipn {A : Type} (d : A) (l : list A) (k m : nat) :
  nth m (skipn k l) d = nth (k + m) l d.
Proof.
  revert l. induction k as [| k IH]; intros l; [reflexivity |].
  destruct l as [| x l]; [destruct m; reflexivity |]. cbn. apply IH.
Qed.

Lemma split_fold_pieces (t : list byte) :
  forall (rest pre : list byte) (ls : nat) (found : list (list byte)),
    t = pre ++ rest ->
    (ls <= length pre)%nat ->
    snd (fold_left (split_step t) (seq (length pre) (S (length rest))) (ls, found))
    = found ++ pieces rest (firstn (length pre - ls) (skipn ls t)).
Proof.
  induction rest as [| b r IH]; intros pre ls found Ht Hls.
  - cbn [length seq fold_left pieces]. unfold split_step.
    rewrite Ht, app_nil_r, Nat.eqb_refl. reflexivity.
  - cbn [length]. rewrite <- cons_seq. cbn [fold_left pieces].
    assert (Hlen : length t = (length pre + S (length r))%nat).
    { rewrite Ht, length_app. reflexivity. }
    assert (Hnth : nth (length pre) t NUL = b).
    { rewrite Ht, app_nth2 by lia. rewrite Nat.sub_diag. reflexivity. }
    unfold split_step at 2. rewrite Hnth.
    destruct (Nat.eqb_spec (length pre) (length t)) as [E | _]; [lia |].
    cbn [orb].
    assert (Ht' : t = (pre ++ [b]) ++ r) by (rewrite <- app_assoc; exact Ht).
    assert (Hl' : length (pre ++ [b]) = S (length pre)).
    { rewrite length_app. cbn. lia. }
    destruct (Byte.eqb b newline).
    + rewrite <- Hl'. rewrite (IH (pre ++ [b]) _ _ Ht') by lia.
      rewrite Hl', Nat.sub_diag. cbn [firstn]. rewrite <- app_assoc. reflexivity.
    + rewrite <- Hl'. rewrite (IH (pre ++ [b]) _ _ Ht') by lia.
      rewrite Hl'. f_equal. f_equal.
      replace (S (length pre) - ls)%nat with (S (length pre - ls)) by lia.
      rewrite (firstn_snoc_nth NUL).
      * rewrite nth_skipn. replace (ls + (length pre - ls))%nat with (length pre) by lia.
        rewrite Hnth. reflexivity.
      * rewrite length_skipn. lia.
Qed.

Lemma split_lines_pieces (t : list byte) :
  split_lines (Some t) = match t with [] => [] | _ => pieces t [] end.
Proof.
  destruct t as [| b r]; [reflexivity |].
  unfold split_lines.
  exact (split_fold_pieces (b :: r) (b :: r) [] 0%nat [] eq_refl (Nat.le_refl 0)).
Qed.

Lemma pieces_nonempty (t : list byte) : forall line, pieces t line <> [].
Proof.
  induction t as [| b r IH]; intros line; cbn [pieces]; [discriminate |].
  destruct (Byte.eqb b newline); [discriminate | apply IH].
Qed.

Lemma join_pieces (t : list byte) :
  forall line, join_bytes (pieces t line) = line ++ t.
Proof.
  induction t as [| b r IH]; intros line; cbn [pieces].
  - cbn. rewrite app_nil_r. reflexivity.
  - destruct (byte_eqb_spec b newline) as [-> | _].
    + specialize (IH []). cbn [app] in IH.
      destruct (pieces r []) as [| l rest] eqn:E.
      * exfalso. exact (pieces_nonempty r [] E).
      * cbn [join_bytes map concat] in *. rewrite <- IH. reflexivity.
    + rewrite IH, <- app_assoc. reflexivity.
Qed.

Lemma count_lines_from (t : list byte) :
  forall n, fold_left (fun n b => if Byte.eqb b newline then S n else n) t n
            = (n + (count_lines t - 1))%nat.
Proof.
  unfold count_lines.
  induction t as [| b r IH]; intros n; cbn [fold_left]; [lia |].
  destruct (Byte.eqb b newline).
  - rewrite (IH (S n)), (IH 2%nat), (IH 1%nat). lia.
  - apply IH.
Qed.

Lemma pieces_length (t : list byte) :
  forall line, length (pieces t line) = count_lines t.
Proof.
  induction t as [| b r IH]; intros line; cbn [pieces]; [reflexivity |].
  unfold count_lines. cbn [fold_left].
  destruct (Byte.eqb b newline).
  - cbn [length]. rewrite IH. rewrite (count_lines_from r 2). unfold count_lines.
    rewrite (count_lines_from r 1). lia.
  - rewrite IH. reflexivity.
Qed.

Lemma pieces_no_newline (t : list byte) :
  forall line, newline ∉ line -> Forall (fun l => newline ∉ l) (pieces t line).
Proof.
  induction t as [| b r IH]; intros line Hline; cbn [pieces].
  - constructor; [exact Hline | constructor].
  - destruct (byte_eqb_spec b newline) as [-> | Hne].
    + constructor; [exact Hline |]. apply IH. apply not_elem_of_nil.
    + apply IH. intros H. apply elem_of_app in H as [H | H]; [contradiction |].
      apply list_elem_of_singleton in H. congruence.
Qed.

(** X3. [split_lines] cuts a content at its newlines and loses nothing: the
    lines hold no newline, joined again with one newline between two of
    them they are the content, and for a content that is not empty there
    are as many of them as the first loop counted, one more than the
    newlines; an empty content has no line. *)
Theorem split_lines_join (t : list byte) :
  join_bytes (split_lines (Some t)) = t /\
  Forall (fun l => newline ∉ l) (split_lines (Some t)) /\
  length (split_lines (Some t)) = match t with [] => 0%nat | _ => count_lines t end.
Proof.
  rewrite split_lines_pieces. destruct t as [| b r]; [repeat split; constructor |].
  split; [apply (join_pieces (b :: r) []) |].
  split; [apply pieces_no_newline, not_elem_of_nil | apply pieces_length].
Qed.

(** The diff written out by position: what the loop of
    [compute_diff_lines] leaves in the array. *)
Definition at_position (i j : nat) : diff_state :=
  {| d_lines := []; line_idx := 0; old_idx := i; new_idx := j |}.

Fixpoint additions (j : nat) (new_lines : list (list byte)) : list svcs_diff_line_t :=
  match new_lines with
  | [] => []
  | n :: ns => add_line (at_position 0 j) n :: additions (S j) ns
  end.

Fixpoint positional_diff (i j : nat) (old_lines new_lines : list (list byte))
  {struct old_lines} : list svcs_diff_line_t :=
  match old_lines with
  | [] => additions j new_lines
  | o :: os =>
      match new_lines with
      | [] => del_line (at_position i j) o :: positional_diff (S i) j os []
      | n :: ns =>
          if String.eqb (line_text o) (line_text n)
          then context_line (at_position i j) o :: positional_diff (S i) (S j) os ns
          else del_line (at_position i j) o :: add_line (at_position (S i) j) n
                 :: positional_diff (S i) (S j) os ns
      end
  end.

Lemma positional_diff_length (old_lines : list (list byte)) :
  forall i j new_lines,
    (length (positional_diff i j old_lines new_lines)
     <= length old_lines + length new_lines)%nat.
Proof.
  induction old_lines as [| o os IH]; intros i j new_lines.
  - cbn [positional_diff length Nat.add]. revert j.
    induction new_lines as [| n ns IHn]; intros j; cbn [additions length]; [lia |].
    specialize (IHn (S j)). lia.
  - destruct new_lines as [| n ns]; cbn [positional_diff length].
    + specialize (IH (S i) j []). cbn [length] in IH. lia.
    + destruct (String.eqb _ _); cbn [length]; specialize (IH (S i) (S j) ns); lia.
Qed.

(** What the loop keeps: the cells written so far, followed by the diff of
    what is left of the files, are the diff of the whole files. *)
Record diff_inv (old_lines new_lines : list (list byte)) (st : diff_state) : Prop := mkDiffInv {
  dinv_old : (old_idx st <= length old_lines)%nat;
  dinv_new : (new_idx st <= length new_lines)%nat;
  dinv_idx : (line_idx st <= old_idx st + new_idx st)%nat;
  dinv_size : length (d_lines st) = (length old_lines + length new_lines)%nat;
  dinv_written :
    firstn (line_idx st) (d_lines st)
      ++ positional_diff (old_idx st) (new_idx st)
           (skipn (old_idx st) old_lines) (skipn (new_idx st) new_lines)
    = positional_diff 0 0 old_lines new_lines
}.

Lemma skipn_lookup {A : Type} (l : list A) (i : nat) (x : A) :
  l !! i = Some x -> skipn i l = x :: skipn (S i) l.
Proof. apply drop_S. Qed.

Lemma skipn_none {A : Type} (l : list A) (i : nat) :
  l !! i = None -> skipn i l = [].
Proof.
  intros H. apply lookup_ge_None in H. apply skipn_all2. exact H.
Qed.

Lemma firstn_write {A : Type} (l : list A) (i : nat) (x : A) :
  (i < length l)%nat -> firstn (S i) (<[i := x]> l) = firstn i l ++ [x].
Proof.
  revert i. induction l as [| y l IH]; intros i Hi; [cbn in Hi; lia |].
  destruct i as [| i]; [reflexivity |].
  cbn [firstn app]. cbn. f_equal. apply IH. cbn in Hi. lia.
Qed.

Lemma firstn_write_after {A : Type} (l : list A) (i k : nat) (x : A) :
  (k <= i)%nat -> firstn k (<[i := x]> l) = firstn k l.
Proof.
  revert i k. induction l as [| y l IH]; intros i k Hk; [destruct i; reflexivity |].
  destruct k as [| k]; [reflexivity |].
  destruct i as [| i]; [lia |]. cbn. f_equal. apply IH. lia.
Qed.

Lemma diff_state_line (st : diff_state) (l : list byte) :
  context_line st l = context_line (at_position (old_idx st) (new_idx st)) l /\
  del_line st l = del_line (at_position (old_idx st) (new_idx st)) l /\
  add_line st l = add_line (at_position (old_idx st) (new_idx st)) l.
Proof. repeat split. Qed.

(** One iteration, with its [line_idx++], keeps the invariant and takes a
    line from one of the files. *)
Lemma diff_step_inv (old_lines new_lines : list (list byte)) (st : diff_state) :
  diff_inv old_lines new_lines st ->
  diff_continues old_lines new_lines st = true ->
  (line_idx st < length old_lines + length new_lines)%nat ->
  let st1 := diff_step old_lines new_lines st in
  let st2 := {| d_lines := d_lines st1; line_idx := S (line_idx st1);
                old_idx := old_idx st1; new_idx := new_idx st1 |} in
  diff_inv old_lines new_lines st2 /\
  (old_idx st + new_idx st < old_idx st2 + new_idx st2)%nat.
Proof.
  intros [Ho Hn Hi Hs Hw] Hc Hlt. cbv zeta. unfold diff_step.
  unfold diff_continues in Hc.
  destruct (old_lines !! old_idx st) as [o |] eqn:Eo;
    destruct (new_lines !! new_idx st) as [n |] eqn:En.
  - pose proof (lookup_lt_Some _ _ _ Eo) as Hol.
    pose proof (lookup_lt_Some _ _ _ En) as Hnl.
    rewrite (skipn_lookup _ _ _ Eo), (skipn_lookup _ _ _ En) in Hw.
    cbn [positional_diff] in Hw.
    destruct (String.eqb (line_text o) (line_text n)); cbn [d_lines line_idx old_idx new_idx].
    + split; [| lia]. split; cbn [d_lines line_idx old_idx new_idx]; try lia.
      * rewrite length_insert. exact Hs.
      * rewrite firstn_write by lia. rewrite <- app_assoc. cbn [app].
        rewrite (proj1 (diff_state_line st o)). exact Hw.
    + assert (Hguard : (S (line_idx st) <? length old_lines + length new_lines)%nat = true)
        by (apply Nat.ltb_lt; lia).
      rewrite Hguard. cbn [d_lines line_idx old_idx new_idx].
      split; [| lia]. split; cbn [d_lines line_idx old_idx new_idx]; try lia.
      * rewrite !length_insert. exact Hs.
      * rewrite firstn_write by (rewrite length_insert; lia).
        rewrite firstn_write by lia. rewrite <- !app_assoc. cbn [app].
        exact Hw.
  - pose proof (lookup_lt_Some _ _ _ Eo) as Hol.
    rewrite (skipn_lookup _ _ _ Eo), (skipn_none _ _ En) in Hw.
    cbn [positional_diff] in Hw. cbn [d_lines line_idx old_idx new_idx].
    split; [| lia]. split; cbn [d_lines line_idx old_idx new_idx]; try lia.
    + rewrite length_insert. exact Hs.
    + rewrite firstn_write by lia. rewrite <- app_assoc. cbn [app].
      rewrite (skipn_none _ _ En). exact Hw.
  - pose proof (lookup_lt_Some _ _ _ En) as Hnl.
    rewrite (skipn_none _ _ Eo), (skipn_lookup _ _ _ En) in Hw.
    cbn [positional_diff additions] in Hw. cbn [d_lines line_idx old_idx new_idx].
    split; [| lia]. split; cbn [d_lines line_idx old_idx new_idx]; try lia.
    + rewrite length_insert. exact Hs.
    + rewrite firstn_write by lia. rewrite <- app_assoc. cbn [app].
      rewrite (skipn_none _ _ Eo). cbn [positional_diff]. exact Hw.
  - exfalso. apply lookup_ge_None in Eo, En.
    apply orb_true_iff in Hc as [H | H]; apply Nat.ltb_lt in H; lia.
Qed.

Lemma diff_inv_done (old_lines new_lines : list (list byte)) (st : diff_state) :
  diff_inv old_lines new_lines st ->
  (length old_lines + length new_lines <= old_idx st + new_idx st)%nat ->
  firstn (line_idx st) (d_lines st) = positional_diff 0 0 old_lines new_lines.
Proof.
  intros [Ho Hn Hi Hs Hw] Hend.
  rewrite (skipn_all2 old_lines), (skipn_all2 new_lines) in Hw by lia.
  cbn in Hw. rewrite app_nil_r in Hw. exact Hw.
Qed.

(** The loop ends within the iterations it is given, with the whole diff
    written. *)
Lemma diff_loop_total (old_lines new_lines : list (list byte)) (fuel : nat) :
  forall st,
    diff_inv old_lines new_lines st ->
    (length old_lines + length new_lines <= fuel + (old_idx st + new_idx st))%nat ->
    (diff_continues old_lines new_lines st = true ->
     (line_idx st < length old_lines + length new_lines)%nat) ->
    exists st',
      diff_loop fuel old_lines new_lines st = Some st' /\
      diff_inv old_lines new_lines st' /\
      firstn (line_idx st') (d_lines st') = positional_diff 0 0 old_lines new_lines.
Proof.
  induction fuel as [| fuel IH]; intros st Hinv Hfuel Hbound.
  - assert (Hstop : diff_continues old_lines new_lines st = false).
    { unfold diff_continues. destruct Hinv as [Ho Hn _ _ _].
      apply orb_false_iff. split; apply Nat.ltb_ge; lia. }
    exists st. cbn. rewrite Hstop. split; [reflexivity |]. split; [exact Hinv |].
    apply diff_inv_done; [exact Hinv | lia].
  - cbn [diff_loop]. destruct (diff_continues old_lines new_lines st) eqn:Hc.
    + destruct (diff_step_inv old_lines new_lines st Hinv Hc (Hbound eq_refl)) as [Hinv' Hprog].
      cbv zeta in Hinv', Hprog.
      set (st2 := {| d_lines := _; line_idx := S _; old_idx := _; new_idx := _ |}) in *.
      destruct (Nat.leb_spec (length old_lines + length new_lines) (line_idx st2)) as [Hbrk | Hgo].
      * exists st2. split; [reflexivity |]. split; [exact Hinv' |].
        apply diff_inv_done; [exact Hinv' |]. destruct Hinv'. lia.
      * apply IH; [exact Hinv' | lia | intros _; exact Hgo].
    + exists st. split; [reflexivity |]. split; [exact Hinv |].
      apply diff_inv_done; [exact Hinv |].
      unfold diff_continues in Hc. apply orb_false_iff in Hc as [H1 H2].
      apply Nat.ltb_ge in H1, H2. lia.
Qed.

(** [compute_diff_lines] returns, and its diff is the diff by position. *)
Lemma compute_diff_lines_positional (old_lines new_lines : list (list byte)) :
  exists h,
    compute_diff_lines old_lines new_lines = Some h /\
    hunk_diff h = positional_diff 0 0 old_lines new_lines /\
    (line_count h <= length (lines h))%nat /\
    length (lines h) = (length old_lines + length new_lines)%nat /\
    old_count h = int_of_size (length old_lines) /\
    new_count h = int_of_size (length new_lines) /\
    old_start h = 1 /\ new_start h = 1.
Proof.
  unfold compute_diff_lines. cbv zeta.
  set (st0 := {| d_lines := replicate _ zero_line; line_idx := 0; old_idx := 0;
                 new_idx := 0 |}).
  destruct (diff_loop_total old_lines new_lines (length old_lines + length new_lines) st0)
    as (st' & Hrun & Hinv & Hfin).
  - split; cbn [st0 d_lines line_idx old_idx new_idx]; try lia.
    + apply length_replicate.
    + reflexivity.
  - cbn [st0 old_idx new_idx]. lia.
  - unfold diff_continues. cbn [st0 old_idx new_idx line_idx]. intros H.
    apply orb_true_iff in H as [H | H]; apply Nat.ltb_lt in H; lia.
  - rewrite Hrun. eexists. split; [reflexivity |]. unfold hunk_diff.
    cbn [line_count lines old_count new_count old_start new_start].
    destruct Hinv as [Ho Hn Hi Hs _]. repeat split; try assumption; try reflexivity. lia.
Qed.

Lemma additions_sides (new_lines : list (list byte)) :
  forall j,
    old_side (additions j new_lines) = [] /\
    new_side (additions j new_lines) = additions j new_lines /\
    map content (additions j new_lines) = map line_content new_lines /\
    map new_line (additions j new_lines)
      = map (fun k => int_of_size k + 1) (seq j (length new_lines)) /\
    forallb is_add (additions j new_lines) = true.
Proof.
  induction new_lines as [| n ns IH]; intros j; [repeat split |].
  destruct (IH (S j)) as (H1 & H2 & H3 & H4 & H5).
  cbn [additions length seq map]. unfold old_side, new_side in *.
  cbn [List.filter is_add is_del add_line line_type negb content new_line forallb
       at_position new_idx andb].
  rewrite H1, H2, H3, H4, H5. repeat split.
Qed.

(** The diff by position gives back both files: without its additions it is
    the old file, without its deletions the new one, line by line and with
    the line numbers in order. *)
Lemma positional_diff_sides (old_lines : list (list byte)) :
  forall i j new_lines,
    let d := positional_diff i j old_lines new_lines in
    map content (old_side d) = map line_content old_lines /\
    map old_line (old_side d)
      = map (fun k => int_of_size k + 1) (seq i (length old_lines)) /\
    map content (new_side d) = map line_content new_lines /\
    map new_line (new_side d)
      = map (fun k => int_of_size k + 1) (seq j (length new_lines)).
Proof.
  induction old_lines as [| o os IH]; intros i j new_lines; cbv zeta.
  - cbn [positional_diff length seq map].
    destruct (additions_sides new_lines j) as (H1 & H2 & H3 & H4 & _).
    rewrite H1, H2. cbn [map]. auto.
  - destruct new_lines as [| n ns]; cbn [positional_diff].
    + destruct (IH (S i) j []) as (H1 & H2 & H3 & H4). cbv zeta in *.
      unfold old_side, new_side in *.
      cbn [List.filter is_add is_del del_line line_type negb map content old_line length seq
           at_position old_idx] in *.
      rewrite H1, H2. rewrite H3. auto.
    + destruct (IH (S i) (S j) ns) as (H1 & H2 & H3 & H4). cbv zeta in *.
      unfold old_side, new_side in *.
      destruct (String.eqb_spec (line_text o) (line_text n)) as [E | _];
        cbn [List.filter is_add is_del del_line add_line context_line line_type negb map
             content old_line new_line length seq at_position old_idx new_idx] in *;
        rewrite H1, H2, H3, H4; repeat split.
      unfold line_content. rewrite E. reflexivity.
Qed.

(** The diff by position has only context lines exactly when the two files
    have the same lines. *)
Lemma positional_diff_context (old_lines : list (list byte)) :
  forall i j new_lines,
    forallb is_context (positional_diff i j old_lines new_lines) = true
    <-> map line_text old_lines = map line_text new_lines.
Proof.
  induction old_lines as [| o os IH]; intros i j new_lines.
  - cbn [positional_diff map]. destruct new_lines as [| n ns]; [split; reflexivity |].
    cbn. split; discriminate.
  - destruct new_lines as [| n ns]; cbn [positional_diff map].
    + cbn. split; discriminate.
    + destruct (String.eqb_spec (line_text o) (line_text n)) as [E | Hne].
      * cbn [forallb is_context context_line line_type andb]. rewrite IH, E.
        split; [intros ->; reflexivity | intros [= H]; exact H].
      * cbn. split; [discriminate | intros [= H _]; contradiction].
Qed.

(** X4. [compute_diff_lines] returns a hunk for every two files, and its
    diff loses nothing: the written cells fit the array of old plus new
    lines; without the additions they hold the lines of the old file in
    order, numbered from 1, and without the deletions those of the new
    file (a line being its text up to a zero byte, cut to 1023
    characters). *)
Theorem compute_diff_lines_sound (old_lines new_lines : list (list byte)) :
  exists h,
    compute_diff_lines old_lines new_lines = Some h /\
    (line_count h <= length (lines h))%nat /\
    length (lines h) = (length old_lines + length new_lines)%nat /\
    map content (old_side (hunk_diff h)) = map line_content old_lines /\
    map old_line (old_side (hunk_diff h))
      = map (fun k => int_of_size k + 1) (seq 0 (length old_lines)) /\
    map content (new_side (hunk_diff h)) = map line_content new_lines /\
    map new_line (new_side (hunk_diff h))
      = map (fun k => int_of_size k + 1) (seq 0 (length new_lines)).
Proof.
  destruct (compute_diff_lines_positional old_lines new_lines)
    as (h & Hrun & Hd & Hc & Hl & _).
  exists h. split; [exact Hrun |]. split; [exact Hc |]. split; [exact Hl |].
  rewrite Hd. apply positional_diff_sides.
Qed.

(** X5. The diff of [compute_diff_lines] consists of context lines alone
    exactly when the two files have the same number of lines and the same
    text, up to a zero byte, on every line. *)
Theorem compute_diff_lines_unchanged (old_lines new_lines : list (list byte)) :
  exists h,
    compute_diff_lines old_lines new_lines = Some h /\
    (forallb is_context (hunk_diff h) = true
     <-> map line_text old_lines = map line_text new_lines).
Proof.
  destruct (compute_diff_lines_positional old_lines new_lines) as (h & Hrun & Hd & _).
  exists h. split; [exact Hrun |]. rewrite Hd. apply positional_diff_context.
Qed.

Lemma context_is_old_side (d : list svcs_diff_line_t) :
  forallb is_context d = true -> old_side d = d.
Proof.
  induction d as [| l d IH]; [reflexivity |].
  cbn [forallb]. intros H. apply andb_true_iff in H as [Hl Hd].
  unfold old_side in *. cbn [List.filter].
  assert (negb (is_add l) = true) as ->.
  { unfold is_context in Hl. unfold is_add. destruct (line_type l); try discriminate.
    reflexivity. }
  rewrite (IH Hd). reflexivity.
Qed.

(** X6. [svcs_diff_files] of a path against itself returns one hunk that
    holds only context lines, one for every line of the file; the status it
    reports is nevertheless [SVCS_STATUS_MODIFIED]. *)
Theorem svcs_diff_files_same_path (w : world) (p : string) :
  exists d h,
    svcs_diff_files w (Some p) (Some p) = Some d /\
    hunks d = [h] /\
    status d = SVCS_STATUS_MODIFIED /\
    forallb is_context (hunk_diff h) = true /\
    map content (hunk_diff h) = map line_content (split_lines (diff_content w (Some p))).
Proof.
  unfold svcs_diff_files. cbv zeta.
  set (ls := split_lines (diff_content w (Some p))).
  destruct (compute_diff_lines_positional ls ls) as (h & Hrun & Hd & _).
  rewrite Hrun. eexists. exists h. split; [reflexivity |].
  cbn [hunks status]. split; [reflexivity |]. split; [reflexivity |].
  assert (Hctx : forallb is_context (hunk_diff h) = true).
  { rewrite Hd. apply positional_diff_context. reflexivity. }
  split; [exact Hctx |].
  rewrite <- (context_is_old_side _ Hctx). rewrite Hd.
  apply (positional_diff_sides ls 0 0 ls).
Qed.

(** X7. When nothing is at the old path, [svcs_diff_files] returns one hunk
    in which every line of the new file is an addition, numbered from 1;
    the old side counts no line, and the status is
    [SVCS_STATUS_MODIFIED], not [SVCS_STATUS_ADDED], because an old path was
    given. *)
Theorem svcs_diff_files_missing_old (w : world) (p q : string) :
  svcs_file_exists w p = false ->
  exists d h,
    svcs_diff_files w (Some p) (Some q) = Some d /\
    hunks d = [h] /\
    status d = SVCS_STATUS_MODIFIED /\
    old_count h = 0 /\
    forallb is_add (hunk_diff h) = true /\
    map content (hunk_diff h) = map line_content (split_lines (diff_content w (Some q))) /\
    map new_line (hunk_diff h)
      = map (fun k => int_of_size k + 1)
            (seq 0 (length (split_lines (diff_content w (Some q))))).
Proof.
  intros Hmiss. unfold svcs_diff_files. cbv zeta.
  assert (Hold : split_lines (diff_content w (Some p)) = []).
  { unfold diff_content. rewrite Hmiss. reflexivity. }
  rewrite Hold.
  set (ls := split_lines (diff_content w (Some q))).
  destruct (compute_diff_lines_positional [] ls) as (h & Hrun & Hd & _ & _ & Hoc & _).
  rewrite Hrun. eexists. exists h. split; [reflexivity |].
  cbn [hunks status]. split; [reflexivity |]. split; [reflexivity |].
  split; [exact Hoc |]. rewrite Hd. cbn [positional_diff].
  destruct (additions_sides ls 0) as (_ & _ & H3 & H4 & H5). auto.
Qed.

(** A directory with a file of three lines in it. *)
Definition notes_world : world :=
  {| nodes := list_to_map
                [("/d"%string, Dir);
                 ("/d/notes"%string,
                  File {| f_content := bytes_of ("one" ++ nl ++ "two" ++ nl ++ "three");
                          f_mtime := 7; f_mode := 33188; f_readable := true;
       f_writable := true |})];
     clock := 9 |}.

Lemma svcs_diff_files_missing_old_witness :
  exists d h,
    svcs_diff_files notes_world (Some "/d/gone"%string) (Some "/d/notes"%string) = Some d /\
    hunks d = [h] /\
    status d = SVCS_STATUS_MODIFIED /\
    old_count h = 0 /\
    forallb is_add (hunk_diff h) = true /\
    map content (hunk_diff h)
      = map line_content (split_lines (diff_content notes_world (Some "/d/notes"%string))) /\
    map new_line (hunk_diff h)
      = map (fun k => int_of_size k + 1)
            (seq 0 (length (split_lines (diff_content notes_world (Some "/d/notes"%string))))).
Proof.
  apply (svcs_diff_files_missing_old notes_world "/d/gone" "/d/notes").
  vm_compute. reflexivity.
Defined.

(** On that file the diff holds the three lines. *)
Example svcs_diff_files_notes :
  exists d h,
    svcs_diff_files notes_world (Some "/d/gone"%string) (Some "/d/notes"%string) = Some d /\
    hunks d = [h] /\
    map content (hunk_diff h) = ["one"; "two"; "three"]%string /\
    map new_line (hunk_diff h) = [1; 2; 3].
Proof. do 2 eexists. repeat split; vm_compute; reflexivity. Qed.

(* ===================================================================== *)
(** ** Paths and strings                                                  *)
(* ===================================================================== *)

Lemma str_take_drop (n : nat) : forall s, (str_take n s ++ str_drop n s = s)%string.
Proof.
  induction n as [| n IH]; intros s; [destruct s; reflexivity |].
  destruct s as [| c s]; [reflexivity |]. cbn [str_take str_drop].
  rewrite str_app_cons, IH. reflexivity.
Qed.

Lemma str_take_all (n : nat) : forall s, (String.length s <= n)%nat -> str_take n s = s.
Proof.
  induction n as [| n IH]; intros s H.
  - destruct s; [reflexivity | cbn in H; lia].
  - destruct s as [| c s]; [reflexivity |]. cbn. rewrite IH; [reflexivity | cbn in H; lia].
Qed.

Lemma str_take_app_length (a b : string) : str_take (String.length a) (a ++ b) = a.
Proof.
  induction a as [| x a IH]; [destruct b; reflexivity |].
  rewrite str_app_cons. cbn [String.length str_take]. rewrite IH. reflexivity.
Qed.

Lemma str_drop_app_length (a b : string) : str_drop (String.length a) (a ++ b) = b.
Proof.
  induction a as [| x a IH]; [destruct b; reflexivity |].
  rewrite str_app_cons. cbn [String.length str_drop]. exact IH.
Qed.

Lemma str_drop_length (n : nat) :
  forall s, String.length (str_drop n s) = (String.length s - n)%nat.
Proof.
  induction n as [| n IH]; intros s; [destruct s; cbn; lia |].
  destruct s as [| c s]; [reflexivity |]. cbn. apply IH.
Qed.


Lemma char_at_str_drop (n : nat) :
  forall s i, char_at (str_drop n s) i = char_at s (n + i).
Proof.
  induction n as [| n IH]; intros s i; [destruct s; reflexivity |].
  destruct s as [| c s]; [destruct i; reflexivity |]. cbn [str_drop Nat.add].
  rewrite IH. reflexivity.
Qed.

Lemma char_at_cons (c : ascii) (s : string) (i : nat) :
  char_at (String c s) (S i) = char_at s i.
Proof. reflexivity. Qed.

Lemma prefix_app (a b : string) : String.prefix a (a ++ b) = true.
Proof.
  induction a as [| x a IH]; [destruct b; reflexivity |].
  rewrite str_app_cons. cbn [String.prefix].
  destruct (ascii_dec x x) as [_ | H]; [exact IH | contradiction].
Qed.

Lemma prefix_split (a : string) :
  forall s, String.prefix a s = true -> s = (a ++ str_drop (String.length a) s)%string.
Proof.
  induction a as [| x a IH]; intros s H; [destruct s; reflexivity |].
  destruct s as [| c s]; [discriminate |]. cbn [String.prefix] in H.
  destruct (ascii_dec x c) as [-> | _]; [| discriminate].
  cbn [String.length str_drop]. rewrite str_app_cons. f_equal. apply IH. exact H.
Qed.

(** X8. [svcs_path_relative] removes the base and one slash: a target made
    of the base, a slash and a rest gives the rest. Whatever the base, what
    it returns is an end of the target; the base is matched character by
    character, not by path component, so a target that goes on after the
    base without a slash loses the base all the same. *)
Theorem svcs_path_relative_spec (base rest : string) :
  svcs_path_relative base (base ++ "/" ++ rest) = rest /\
  (forall target, exists front, target = (front ++ svcs_path_relative base target)%string) /\
  (forall c r, c <> "/"%char ->
     svcs_path_relative base (base ++ String c r) = String c r).
Proof.
  split; [| split].
  - unfold svcs_path_relative. rewrite prefix_app, str_drop_app_length. reflexivity.
  - intros target. unfold svcs_path_relative.
    destruct (String.prefix base target) eqn:E; [| exists EmptyString; reflexivity].
    pose proof (prefix_split base target E) as H.
    destruct (str_drop (String.length base) target) as [| c r] eqn:Ed.
    + exists base. exact H.
    + destruct (ascii_dec c "/") as [-> | Hne].
      * exists (base ++ "/")%string. rewrite str_app_assoc. exact H.
      * exists base.
        replace (match c with "/"%char => r | _ => String c r end) with (String c r);
          [exact H |].
        destruct c as [[] [] [] [] [] [] [] []]; try reflexivity. contradiction.
  - intros c r Hne. unfold svcs_path_relative.
    rewrite prefix_app, str_drop_app_length.
    destruct c as [[] [] [] [] [] [] [] []]; try reflexivity. contradiction.
Qed.

Lemma strstr_found (pat : string) :
  forall s i, strstr s pat = Some i ->
              exists a b, s = (a ++ pat ++ b)%string /\ String.length a = i.
Proof.
  induction s as [| c s IH]; intros i; cbn [strstr].
  - destruct (String.prefix pat "") eqn:E; [| discriminate].
    intros [= <-]. exists EmptyString. eexists. split; [apply (prefix_split pat _ E) | reflexivity].
  - destruct (String.prefix pat (String c s)) eqn:E.
    + intros [= <-]. exists EmptyString. eexists.
      split; [apply (prefix_split pat _ E) | reflexivity].
    + destruct (strstr s pat) as [j |]; [| discriminate]. intros [= <-].
      destruct (IH j eq_refl) as (a & b & -> & Ha).
      exists (String c a), b. split; [reflexivity | cbn [String.length]; lia].
Qed.

Lemma strstr_finds (pat b : string) :
  forall a, exists i, strstr (a ++ pat ++ b) pat = Some i.
Proof.
  induction a as [| c a IH].
  - exists O. rewrite str_app_nil_l. destruct (pat ++ b)%string eqn:E; cbn [strstr];
      rewrite <- E, prefix_app; reflexivity.
  - destruct IH as [i Hi]. rewrite str_app_cons. cbn [strstr].
    destruct (String.prefix pat _); [exists O; reflexivity |].
    rewrite Hi. exists (S i). reflexivity.
Qed.

Lemma strstr_occurs (s pat : string) :
  (exists i, strstr s pat = Some i) <-> exists a b, s = (a ++ pat ++ b)%string.
Proof.
  split.
  - intros [i H]. destruct (strstr_found pat s i H) as (a & b & E & _). eauto.
  - intros (a & b & ->). apply strstr_finds.
Qed.

(** X9. [svcs_path_is_ignored] answers 1 exactly for the paths in which
    [.svcs] or one of the seven patterns occurs somewhere: the match is on
    the text anywhere in the path, not on a file extension or a path
    component. *)
Theorem svcs_path_is_ignored_spec (path : string) :
  svcs_path_is_ignored path = true <->
  exists pat a b,
    pat ∈ (".svcs" :: ignored_patterns)%string /\ path = (a ++ pat ++ b)%string.
Proof.
  unfold svcs_path_is_ignored. split.
  - destruct (strstr path ".svcs") as [i |] eqn:E.
    + intros _. destruct (strstr_found _ _ _ E) as (a & b & Hs & _).
      exists ".svcs"%string, a, b. split; [apply elem_of_cons; left; reflexivity | exact Hs].
    + intros H. apply existsb_exists in H as (pat & Hin & Hp).
      destruct (strstr path pat) as [i |] eqn:Ep; [| discriminate].
      destruct (strstr_found _ _ _ Ep) as (a & b & Hs & _).
      exists pat, a, b. split; [| exact Hs].
      apply elem_of_cons. right. apply list_elem_of_In. exact Hin.
  - intros (pat & a & b & Hin & ->).
    destruct (strstr_finds pat b a) as [i Hi].
    apply elem_of_cons in Hin as [-> | Hin].
    + rewrite Hi. reflexivity.
    + destruct (strstr _ ".svcs"); [reflexivity |].
      apply existsb_exists. exists pat. split; [apply list_elem_of_In; exact Hin |].
      rewrite Hi. reflexivity.
Qed.

(** Strings made of white space, and the ends of a string. *)
Fixpoint all_space (s : string) : bool :=
  match s with
  | EmptyString => true
  | String c r => is_trim_space c && all_space r
  end.

Definition first_char (s : string) : option ascii :=
  match s with
  | EmptyString => None
  | String c _ => Some c
  end.

Fixpoint last_char (s : string) : option ascii :=
  match s with
  | EmptyString => None
  | String c EmptyString => Some c
  | String _ r => last_char r
  end.

Lemma trim_start_spec (s : string) :
  (trim_start s <= String.length s)%nat /\
  all_space (str_take (trim_start s) s) = true /\
  ((trim_start s < String.length s)%nat ->
   is_trim_space (char_at s (trim_start s)) = false).
Proof.
  induction s as [| c s (IH1 & IH2 & IH3)]; [cbn; repeat split; lia |].
  cbn [trim_start String.length]. destruct (is_trim_space c) eqn:E.
  - split; [lia |]. split.
    + cbn [str_take all_space]. rewrite E, IH2. reflexivity.
    + intros H. rewrite char_at_cons. apply IH3. lia.
  - split; [lia |]. split; [reflexivity |]. intros _. exact E.
Qed.

Lemma trim_end_spec (s : string) (start : Z) (fuel : nat) :
  forall e,
    (e - start <= Z.of_nat fuel) ->
    let e' := trim_end fuel s start e in
    e' <= e /\
    (start <= e -> start <= e') /\
    (e < start -> e' = e) /\
    (forall k, e' < k <= e -> is_trim_space (char_at s (Z.to_nat k)) = true) /\
    (start < e' -> is_trim_space (char_at s (Z.to_nat e')) = false).
Proof.
  induction fuel as [| fuel IH]; intros e Hf; cbv zeta; cbn [trim_end].
  - repeat split; try lia. 
  - destruct (Z.ltb_spec start e) as [Hlt | Hge]; cbn [andb].
    + destruct (is_trim_space (char_at s (Z.to_nat e))) eqn:E.
      * destruct (IH (e - 1) ltac:(lia)) as (H1 & H2 & H3 & H4 & H5). cbv zeta in *.
        split; [lia |]. split; [lia |]. split; [lia |]. split; [| exact H5].
        intros k Hk. destruct (Z.eq_dec k e) as [-> | Hne]; [exact E | apply H4; lia].
      * repeat split; try lia. intros _. exact E.
    + repeat split; lia.
Qed.

Lemma all_space_chars (t : string) :
  (forall i, (i < String.length t)%nat -> is_trim_space (char_at t i) = true) ->
  all_space t = true.
Proof.
  induction t as [| c t IH]; intros H; [reflexivity |].
  cbn [all_space]. pose proof (H O ltac:(cbn; lia)) as H0.
  change (char_at (String c t) 0) with c in H0. rewrite H0. cbn [andb].
  apply IH. intros i Hi. rewrite <- (char_at_cons c). apply H. cbn. lia.
Qed.

Lemma last_char_take (m : nat) :
  forall t, (m < String.length t)%nat ->
            last_char (str_take (S m) t) = Some (char_at t m).
Proof.
  induction m as [| m IH]; intros t Hm.
  - destruct t as [| c t]; [cbn in Hm; lia |]. reflexivity.
  - destruct t as [| c t]; [cbn in Hm; lia |]. cbn [String.length] in Hm.
    specialize (IH t ltac:(lia)). rewrite char_at_cons.
    change (str_take (S (S m)) (String c t)) with (String c (str_take (S m) t)).
    destruct t as [| c' t]; [cbn in Hm; lia |].
    change (str_take (S m) (String c' t)) with (String c' (str_take m t)) in *.
    exact IH.
Qed.

Lemma first_char_take (m : nat) (t : string) :
  first_char (str_take (S m) t) = first_char t.
Proof. destruct t; reflexivity. Qed.

Lemma first_char_at (t : string) (c : ascii) :
  first_char t = Some c -> c = char_at t 0 /\ (0 < String.length t)%nat.
Proof. destruct t; [discriminate |]. intros [= <-]. cbn. split; [reflexivity | lia]. Qed.

(** A string that neither starts nor ends with white space is left as it
    is. *)
Lemma svcs_string_trim_fixed (r : string) :
  (forall c, first_char r = Some c -> is_trim_space c = false) ->
  (forall c, last_char r = Some c -> is_trim_space c = false) ->
  svcs_string_trim r = r.
Proof.
  intros Hfirst Hlast. unfold svcs_string_trim.
  assert (Hstart : trim_start r = O).
  { destruct r as [| c r]; [reflexivity |]. cbn [trim_start].
    rewrite (Hfirst c eq_refl). reflexivity. }
  rewrite Hstart. cbn [str_drop]. replace (str_drop 0 r) with r by (destruct r; reflexivity).
  destruct r as [| c r]; [reflexivity |].
  set (s := String c r) in *. set (n := String.length s).
  assert (Hn : (0 < n)%nat) by (unfold n, s; cbn; lia).
  assert (Hl : last_char s = Some (char_at s (n - 1))).
  { rewrite <- (last_char_take (n - 1) s) by (unfold n; lia).
    replace (S (n - 1)) with n by lia. unfold n. rewrite str_take_all by lia. reflexivity. }
  assert (He : trim_end n s (Z.of_nat 0) (Z.of_nat n - 1) = Z.of_nat n - 1).
  { destruct n as [| m]; [lia |]. cbn [trim_end].
    replace (Z.to_nat (Z.of_nat (S m) - 1)) with (S m - 1)%nat by lia.
    rewrite (Hlast _ Hl). rewrite andb_false_r. reflexivity. }
  rewrite He. replace (Z.to_nat (Z.of_nat n - 1 + 1) - 0)%nat with n by lia.
  apply str_take_all. unfold n. lia.
Qed.

(** X10. [svcs_string_trim] removes the white space (space, tab, newline,
    carriage return) around a string and nothing else: the string is a run
    of white space, what is left in the buffer, and a run of white space;
    what is left neither starts nor ends with white space; and trimming it
    again changes nothing. *)
Theorem svcs_string_trim_spec (str : string) :
  (exists lead trail,
     str = (lead ++ svcs_string_trim str ++ trail)%string /\
     all_space lead = true /\ all_space trail = true) /\
  (forall c, first_char (svcs_string_trim str) = Some c -> is_trim_space c = false) /\
  (forall c, last_char (svcs_string_trim str) = Some c -> is_trim_space c = false) /\
  svcs_string_trim (svcs_string_trim str) = svcs_string_trim str.
Proof.
  assert (H : (exists lead trail,
                 str = (lead ++ svcs_string_trim str ++ trail)%string /\
                 all_space lead = true /\ all_space trail = true) /\
              (forall c, first_char (svcs_string_trim str) = Some c -> is_trim_space c = false) /\
              (forall c, last_char (svcs_string_trim str) = Some c -> is_trim_space c = false)).
  2: { destruct H as (H1 & H2 & H3). repeat split; try assumption.
       apply svcs_string_trim_fixed; assumption. }
  unfold svcs_string_trim.
  destruct (trim_start_spec str) as (Hs1 & Hs2 & Hs3).
  set (start := trim_start str) in *. set (n := String.length str) in *.
  destruct (trim_end_spec str (Z.of_nat start) n (Z.of_nat n - 1) ltac:(lia))
    as (He1 & He2 & He3 & He4 & He5). cbv zeta in *.
  set (e := trim_end n str (Z.of_nat start) (Z.of_nat n - 1)) in *.
  set (rest := str_drop start str).
  assert (Hrest : String.length rest = (n - start)%nat)
    by (unfold rest, n; apply str_drop_length).
  set (m := (Z.to_nat (e + 1) - start)%nat).
  assert (Hm : (m <= String.length rest)%nat) by (unfold m; lia).
  split; [| split].
  - exists (str_take start str), (str_drop m rest). split; [| split].
    + rewrite (str_take_drop m rest). unfold rest. rewrite str_take_drop. reflexivity.
    + exact Hs2.
    + apply all_space_chars. intros i Hi. rewrite str_drop_length in Hi.
      unfold rest. rewrite !char_at_str_drop.
      destruct (Z.lt_ge_cases (Z.of_nat n - 1) (Z.of_nat start)) as [Hall | Hsome].
      * exfalso. lia.
      * specialize (He2 Hsome).
        replace (start + (m + i))%nat with (Z.to_nat (e + 1 + Z.of_nat i)) by (unfold m; lia).
        apply He4. unfold m in Hi. lia.
  - intros c Hc. destruct m as [| m'] eqn:Em; [destruct rest; discriminate |].
    rewrite first_char_take in Hc. apply first_char_at in Hc as [-> Hlen].
    unfold rest. rewrite char_at_str_drop, Nat.add_0_r. apply Hs3. lia.
  - intros c Hc. destruct m as [| m'] eqn:Em; [destruct rest; discriminate |].
    rewrite last_char_take in Hc by lia. injection Hc as <-.
    unfold rest. rewrite char_at_str_drop.
    destruct (Z.lt_ge_cases (Z.of_nat n - 1) (Z.of_nat start)) as [Hall | Hsome];
      [exfalso; unfold m in Em; lia |].
    specialize (He2 Hsome).
    replace (start + m')%nat with (Z.to_nat e) by (unfold m in Em; lia).
    destruct (Z.eq_dec e (Z.of_nat start)) as [Heq | Hne].
    + rewrite Heq, Nat2Z.id. apply Hs3. lia.
    + apply He5. lia.
Qed.

(* ===================================================================== *)
(** ** Lines of a content and their merge                                 *)
(* ===================================================================== *)

(** A line holds no newline. *)
Fixpoint no_newline (s : string) : bool :=
  match s with
  | EmptyString => true
  | String c r => negb (Ascii.eqb c nl_char) && no_newline r
  end.

Lemma join_lines_cons (l : string) (rest : list string) :
  rest <> [] -> join_lines (l :: rest) = (l ++ nl ++ join_lines rest)%string.
Proof. destruct rest; [contradiction | reflexivity]. Qed.

Lemma getlines_line (l : string) :
  forall text line,
    no_newline l = true ->
    getlines (l ++ text) line = getlines text (line ++ l).
Proof.
  induction l as [| c l IH]; intros text line Hl.
  - rewrite str_app_nil_l, str_app_nil_r. reflexivity.
  - cbn [no_newline] in Hl. apply andb_true_iff in Hl as [Hc Hl].
    rewrite str_app_cons. cbn [getlines].
    destruct (Ascii.eqb c nl_char); [discriminate |].
    rewrite (IH _ _ Hl). rewrite str_app_assoc. reflexivity.
Qed.

Lemma getlines_join (ls : list string) :
  Forall (fun l => no_newline l = true) ls ->
  last ls <> Some EmptyString ->
  split_into_lines (join_lines ls) = ls.
Proof.
  unfold split_into_lines.
  induction ls as [| l rest IH]; intros Hnl Hlast; [reflexivity |].
  apply Forall_cons in Hnl as [Hl Hrest].
  destruct rest as [| l' rest'].
  - cbn [join_lines last] in *. rewrite <- (str_app_nil_r l) at 1.
    rewrite (getlines_line l _ _ Hl). cbn [getlines]. rewrite str_app_nil_l.
    destruct l; [exfalso; apply Hlast; reflexivity | reflexivity].
  - rewrite join_lines_cons by discriminate.
    rewrite (getlines_line l _ _ Hl). unfold nl at 1. rewrite str_app_cons.
    cbn [getlines]. rewrite Ascii.eqb_refl. rewrite str_app_nil_l. f_equal.
    apply IH; [exact Hrest | exact Hlast].
Qed.

Lemma getlines_nonempty (text : string) :
  forall line, text <> EmptyString -> getlines text line <> [].
Proof.
  induction text as [| c r IH]; intros line H; [contradiction |].
  cbn [getlines]. destruct (Ascii.eqb c nl_char); [discriminate |].
  destruct r as [| c' r']; [| apply IH; discriminate].
  cbn [getlines]. destruct (line ++ String c "")%string eqn:E; [| discriminate].
  destruct line; discriminate.
Qed.

Lemma last_char_cons (c c' : ascii) (r : string) :
  last_char (String c (String c' r)) = last_char (String c' r).
Proof. reflexivity. Qed.

Lemma join_getlines (text : string) :
  forall line,
    (last_char text = Some nl_char ->
     (join_lines (getlines text line) ++ nl = line ++ text)%string) /\
    (last_char text <> Some nl_char ->
     join_lines (getlines text line) = (line ++ text)%string).
Proof.
  induction text as [| c r IH]; intros line.
  - split; [discriminate |]. intros _. cbn [getlines]. rewrite str_app_nil_r.
    destruct line; reflexivity.
  - cbn [getlines]. destruct (Ascii.eqb_spec c nl_char) as [-> | Hne].
    + destruct r as [| c' r'].
      * split; [intros _; reflexivity | intros H; contradiction].
      * pose proof (getlines_nonempty (String c' r') EmptyString ltac:(discriminate)) as Hx.
        rewrite join_lines_cons by exact Hx. rewrite last_char_cons.
        destruct (IH EmptyString) as [IH1 IH2]. rewrite str_app_nil_l in IH1, IH2.
        split; intros H.
        -- rewrite !str_app_assoc. rewrite (IH1 H). reflexivity.
        -- rewrite (IH2 H). reflexivity.
    + destruct (IH (line ++ String c "")%string) as [IH1 IH2].
      rewrite str_app_assoc in IH1, IH2. rewrite str_app_cons, str_app_nil_l in IH1, IH2.
      destruct r as [| c' r'].
      * split; intros H; [injection H as ->; contradiction |]. apply IH2. discriminate.
      * rewrite last_char_cons. split; [exact IH1 | exact IH2].
Qed.

(** X11. [split_into_lines] reads back what [join_lines] wrote: lines that
    hold no newline, the last of which is not empty, are the lines of their
    join. *)
Theorem split_into_lines_join (ls : list string) :
  Forall (fun l => no_newline l = true) ls ->
  last ls <> Some EmptyString ->
  split_into_lines (join_lines ls) = ls.
Proof. apply getlines_join. Qed.

Lemma split_into_lines_join_witness :
  split_into_lines (join_lines ["a"; ""; "b c"]%string) = ["a"; ""; "b c"]%string.
Proof.
  apply (split_into_lines_join ["a"; ""; "b c"]%string).
  - repeat constructor.
  - vm_compute. discriminate.
Defined.

(** X12. A split and a join lose one final newline and nothing else: the
    join of the lines of a content is the content when it does not end with
    a newline, and the content without its last newline when it does. *)
Theorem join_lines_split (text : string) :
  (last_char text = Some nl_char ->
   (join_lines (split_into_lines text) ++ nl)%string = text) /\
  (last_char text <> Some nl_char ->
   join_lines (split_into_lines text) = text).
Proof.
  destruct (join_getlines text EmptyString) as [H1 H2].
  rewrite str_app_nil_l in H1, H2. split; assumption.
Qed.

(** The loop of [three_way_merge_lines] moves its three cursors together;
    [aligned k out cs] is its state with the cursors at [k]. *)
Definition aligned (k : nat) (out : list string) (cs : list MergeConflict) : merge_state :=
  {| base_idx := k; our_idx := k; their_idx := k; merged_lines := out; found := cs |}.

(** What one iteration at position [k] adds to the merged lines and to the
    conflicts. *)
Definition block_lines (base ours theirs : list string) (k : nat) : list string :=
  merged_lines (merge_step base ours theirs (aligned k [] [])).

Definition block_conflicts (base ours theirs : list string) (k : nat) : list MergeConflict :=
  found (merge_step base ours theirs (aligned k [] [])).

Lemma merge_step_aligned (base ours theirs : list string) (k : nat)
  (out : list string) (cs : list MergeConflict) :
  merge_step base ours theirs (aligned k out cs)
  = aligned (S k) (out ++ block_lines base ours theirs k)
                  (cs ++ block_conflicts base ours theirs k).
Proof.
  unfold block_lines, block_conflicts, merge_step, aligned.
  cbn [base_idx our_idx their_idx].
  destruct (line_at base k) as [lb |]; destruct (line_at ours k) as [lo |];
    destruct (line_at theirs k) as [lt |];
    repeat match goal with |- context [if ?b then _ else _] => destruct b end;
    unfold advance, conflict_step, conflict_size;
    cbn [base_idx our_idx their_idx merged_lines found app];
    rewrite ?Nat.add_1_r, ?app_nil_r; reflexivity.
Qed.

Lemma merge_continues_aligned (base ours theirs : list string) (k : nat)
  (out : list string) (cs : list MergeConflict) :
  merge_continues base ours theirs (aligned k out cs)
  = (k <? merge_fuel base ours theirs)%nat.
Proof.
  unfold merge_continues, merge_fuel, aligned. cbn [base_idx our_idx their_idx].
  destruct (Nat.ltb_spec k (length base)); destruct (Nat.ltb_spec k (length ours));
    destruct (Nat.ltb_spec k (length theirs));
    destruct (Nat.ltb_spec k (Nat.max (length base) (Nat.max (length ours) (length theirs))));
    cbn; try reflexivity; lia.
Qed.

(** The loop, position by position. *)
Lemma merge_loop_aligned (base ours theirs : list string) (fuel : nat) :
  forall k out cs,
    (k <= merge_fuel base ours theirs)%nat ->
    (merge_fuel base ours theirs <= k + fuel)%nat ->
    merge_loop fuel base ours theirs (aligned k out cs)
    = Some (aligned (merge_fuel base ours theirs)
              (out ++ flat_map (block_lines base ours theirs)
                               (seq k (merge_fuel base ours theirs - k)))
              (cs ++ flat_map (block_conflicts base ours theirs)
                              (seq k (merge_fuel base ours theirs - k)))).
Proof.
  set (n := merge_fuel base ours theirs).
  induction fuel as [| fuel IH]; intros k out cs Hk Hf.
  - assert (k = n) as -> by lia. cbn [merge_loop].
    rewrite merge_continues_aligned. fold n. rewrite Nat.ltb_irrefl, Nat.sub_diag.
    cbn [seq flat_map]. rewrite !app_nil_r. reflexivity.
  - cbn [merge_loop]. rewrite merge_continues_aligned. fold n.
    destruct (Nat.ltb_spec k n) as [Hlt | Hge].
    + rewrite merge_step_aligned. rewrite IH by lia.
      replace (n - k)%nat with (S (n - S k)) by lia. cbn [seq flat_map].
      rewrite <- !app_assoc. reflexivity.
    + assert (k = n) as -> by lia. rewrite Nat.sub_diag. cbn [seq flat_map].
      rewrite !app_nil_r. reflexivity.
Qed.

(** The line the merge takes where one side kept the base line: theirs
    when ours is the base line, ours otherwise. *)
Definition changed_side (lb lo lt : string) : string :=
  if String.eqb lb lo then lt else lo.

(** An iteration records no conflict exactly when the three vectors have a
    line at the position and one side has the base line there; it then adds
    the line of the other side. *)
Lemma block_conflicts_none (base ours theirs : list string) (k : nat) :
  block_conflicts base ours theirs k = [] <->
  exists lb lo lt,
    base !! k = Some lb /\ ours !! k = Some lo /\ theirs !! k = Some lt /\
    (lb = lo \/ lb = lt).
Proof.
  unfold block_conflicts, merge_step, aligned, line_at, line_eqb.
  cbn [base_idx our_idx their_idx].
  destruct (base !! k) as [lb |]; destruct (ours !! k) as [lo |];
    destruct (theirs !! k) as [lt |];
    try (split; [intros H; unfold conflict_step in H; cbn in H; discriminate
                | intros (? & ? & ? & ? & ? & ? & ?); discriminate]).
  destruct (String.eqb_spec lb lo) as [E1 | N1]; cbn [andb].
  - split; [intros _; exists lb, lo, lt; auto |].
    intros _. destruct (String.eqb lo lt); reflexivity.
  - destruct (String.eqb_spec lb lt) as [E3 | N3].
    + split; [intros _; exists lb, lo, lt; auto | intros _; reflexivity].
    + split; [intros H; unfold conflict_step in H; cbn in H; discriminate |].
      intros (? & ? & ? & [= <-] & [= <-] & [= <-] & [H | H]); contradiction.
Qed.

Lemma block_lines_clean (base ours theirs : list string) (k : nat) (lb lo lt : string) :
  base !! k = Some lb -> ours !! k = Some lo -> theirs !! k = Some lt ->
  lb = lo \/ lb = lt ->
  block_lines base ours theirs k = [changed_side lb lo lt].
Proof.
  intros Hb Ho Ht Hor.
  unfold block_lines, merge_step, aligned, line_at, line_eqb, changed_side.
  cbn [base_idx our_idx their_idx]. rewrite Hb, Ho, Ht.
  destruct (String.eqb_spec lb lo) as [E1 | N1]; cbn [andb].
  - destruct (String.eqb_spec lo lt) as [E2 | N2]; cbn [advance merged_lines app];
      [subst; reflexivity | reflexivity].
  - destruct (String.eqb_spec lb lt) as [E3 | N3]; [reflexivity |].
    destruct Hor; contradiction.
Qed.

Lemma flat_map_nil {A B : Type} (f : A -> list B) (l : list A) :
  flat_map f l = [] <-> forall x, x ∈ l -> f x = [].
Proof.
  induction l as [| a l IH]; cbn [flat_map].
  - split; [intros _ x H; inversion H | reflexivity].
  - split.
    + intros H. apply app_eq_nil in H as [Ha Hl]. intros x Hx.
      apply elem_of_cons in Hx as [-> | Hx]; [exact Ha | exact (proj1 IH Hl x Hx)].
    + intros H. rewrite (H a) by (apply elem_of_cons; left; reflexivity).
      apply IH. intros x Hx. apply H. apply elem_of_cons. right. exact Hx.
Qed.

Lemma flat_map_singletons {A B : Type} (f : A -> list B) (g : A -> B) (l : list A) :
  (forall x, x ∈ l -> f x = [g x]) -> flat_map f l = map g l.
Proof.
  induction l as [| a l IH]; intros H; [reflexivity |].
  cbn [flat_map map]. rewrite (H a) by (apply elem_of_cons; left; reflexivity).
  cbn [app]. f_equal. apply IH. intros x Hx. apply H. apply elem_of_cons. right. exact Hx.
Qed.

(** The three vectors agree in length and, line by line, one side has the
    base line. *)
Definition mergeable (base ours theirs : list string) : Prop :=
  length ours = length base /\ length theirs = length base /\
  forall i lb lo lt,
    base !! i = Some lb -> ours !! i = Some lo -> theirs !! i = Some lt ->
    lb = lo \/ lb = lt.

Lemma conflicts_none_mergeable (base ours theirs : list string) :
  flat_map (block_conflicts base ours theirs) (seq 0 (merge_fuel base ours theirs)) = []
  <-> mergeable base ours theirs.
Proof.
  rewrite flat_map_nil. unfold mergeable, merge_fuel. split.
  - intros H.
    assert (Hall : forall k, (k < Nat.max (length base) (Nat.max (length ours) (length theirs)))%nat ->
              exists lb lo lt, base !! k = Some lb /\ ours !! k = Some lo /\
                               theirs !! k = Some lt /\ (lb = lo \/ lb = lt)).
    { intros k Hk. apply block_conflicts_none. apply H. apply elem_of_seq. lia. }
    assert (Hlen : forall k, (k < Nat.max (length base) (Nat.max (length ours) (length theirs)))%nat ->
              (k < length base /\ k < length ours /\ k < length theirs)%nat).
    { intros k Hk. destruct (Hall k Hk) as (lb & lo & lt & Hb & Ho & Ht & _).
      apply lookup_lt_Some in Hb, Ho, Ht. lia. }
    assert (length ours = length base /\ length theirs = length base) as [E1 E2].
    { set (n := Nat.max (length base) (Nat.max (length ours) (length theirs))) in *.
      destruct n as [| m] eqn:En; [unfold n in En; lia |].
      specialize (Hlen m ltac:(lia)). unfold n in En. lia. }
    split; [exact E1 |]. split; [exact E2 |].
    intros i lb lo lt Hb Ho Ht.
    destruct (Hall i) as (lb' & lo' & lt' & Hb' & Ho' & Ht' & Hor).
    { apply lookup_lt_Some in Hb. lia. }
    congruence.
  - intros (E1 & E2 & Hpos) k Hk. apply elem_of_seq in Hk.
    apply block_conflicts_none.
    destruct (lookup_lt_is_Some_2 base k ltac:(lia)) as [lb Hb].
    destruct (lookup_lt_is_Some_2 ours k ltac:(lia)) as [lo Ho].
    destruct (lookup_lt_is_Some_2 theirs k ltac:(lia)) as [lt Ht].
    exists lb, lo, lt. repeat split; try assumption. exact (Hpos k lb lo lt Hb Ho Ht).
Qed.

(** X13. [three_way_merge_lines] returns for every three vectors, with
    [success] set. It reports no conflict exactly when the vectors have the
    same number of lines and at every position ours or theirs has the base
    line; the merged content then takes, position by position, theirs where
    ours has the base line and ours elsewhere. The comparison is by
    position: a line inserted on one side is a conflict. *)
Theorem three_way_merge_lines_conflict_free (base ours theirs : list string) :
  exists r,
    three_way_merge_lines base ours theirs = Some r /\
    success r = true /\
    (has_conflicts r = false <-> conflicts r = []) /\
    (has_conflicts r = false <-> mergeable base ours theirs) /\
    (has_conflicts r = false ->
     exists ml,
       merged_content r = join_lines ml /\
       length ml = length base /\
       forall i lb lo lt,
         base !! i = Some lb -> ours !! i = Some lo -> theirs !! i = Some lt ->
         ml !! i = Some (changed_side lb lo lt)).
Proof.
  unfold three_way_merge_lines.
  pose proof (merge_loop_aligned base ours theirs (merge_fuel base ours theirs) 0 [] []
                ltac:(lia) ltac:(lia)) as Hrun.
  change (aligned 0 [] []) with merge_start in Hrun. rewrite Hrun.
  rewrite Nat.sub_0_r. cbn [app aligned merged_lines found].
  set (n := merge_fuel base ours theirs).
  set (cs := flat_map (block_conflicts base ours theirs) (seq 0 n)).
  eexists. split; [reflexivity |].
  cbn [success has_conflicts conflicts merged_content].
  assert (Hcs : match cs with [] => false | _ :: _ => true end = false <-> cs = []).
  { destruct cs; split; intros H; try reflexivity; discriminate. }
  split; [reflexivity |]. split; [exact Hcs |].
  split; [rewrite Hcs; apply conflicts_none_mergeable |].
  intros H. apply Hcs in H. apply conflicts_none_mergeable in H as Hm.
  destruct Hm as (E1 & E2 & Hpos).
  assert (Hn : n = length base) by (unfold n, merge_fuel; lia).
  set (g := fun k => match base !! k, ours !! k, theirs !! k with
                     | Some lb, Some lo, Some lt => changed_side lb lo lt
                     | _, _, _ => EmptyString
                     end).
  exists (map g (seq 0 n)). split; [| split].
  - f_equal. apply flat_map_singletons. intros k Hk. apply elem_of_seq in Hk.
    destruct (lookup_lt_is_Some_2 base k ltac:(lia)) as [lb Hb].
    destruct (lookup_lt_is_Some_2 ours k ltac:(lia)) as [lo Ho].
    destruct (lookup_lt_is_Some_2 theirs k ltac:(lia)) as [lt Ht].
    rewrite (block_lines_clean _ _ _ k lb lo lt Hb Ho Ht (Hpos k lb lo lt Hb Ho Ht)).
    unfold g. rewrite Hb, Ho, Ht. reflexivity.
  - rewrite length_map, length_seq. exact Hn.
  - intros i lb lo lt Hb Ho Ht.
    rewrite list_lookup_fmap, lookup_seq_lt by (apply lookup_lt_Some in Hb; lia).
    cbn. unfold g. rewrite Hb, Ho, Ht. reflexivity.
Qed.

(** X14. [three_way_merge_files] of a content with itself on the three
    sides reports no conflict and returns the content without its final
    newline, when it has one: the lines are joined without a newline after
    the last. *)
Theorem three_way_merge_files_same (text : string) :
  exists r,
    three_way_merge_files text text text = Some r /\
    has_conflicts r = false /\
    conflicts r = [] /\
    (last_char text = Some nl_char -> (merged_content r ++ nl)%string = text) /\
    (last_char text <> Some nl_char -> merged_content r = text).
Proof.
  unfold three_way_merge_files.
  rewrite (three_way_merge_ours (split_into_lines text) (split_into_lines text) eq_refl).
  eexists. split; [reflexivity |]. unfold clean_merge.
  cbn [has_conflicts conflicts merged_content].
  split; [reflexivity |]. split; [reflexivity |].
  destruct (join_getlines text EmptyString) as [H1 H2].
  rewrite str_app_nil_l in H1, H2. split; assumption.
Qed.

(* ===================================================================== *)
(** ** Reading an object that is stored as the format asks                *)
(* ===================================================================== *)

(** A property of every character of a string. *)
Fixpoint str_forall (P : ascii -> bool) (s : string) : bool :=
  match s with
  | EmptyString => true
  | String c r => P c && str_forall P r
  end.

Definition is_decimal (c : ascii) : bool :=
  let n := Z_of_ascii c in (48 <=? n) && (n <=? 57).

Lemma str_forall_app (P : ascii -> bool) (a b : string) :
  str_forall P (a ++ b) = str_forall P a && str_forall P b.
Proof.
  induction a as [| c a IH]; [reflexivity |].
  rewrite str_app_cons. cbn [str_forall]. rewrite IH, andb_assoc. reflexivity.
Qed.

Lemma digit_char_decimal (d : Z) :
  0 <= d < 10 ->
  digit_in 10 (digit_char d) = Some d /\ is_decimal (digit_char d) = true.
Proof.
  intros H.
  assert (d = 0 \/ d = 1 \/ d = 2 \/ d = 3 \/ d = 4 \/ d = 5 \/ d = 6 \/ d = 7 \/ d = 8 \/ d = 9)
    as Hd by lia.
  repeat (destruct Hd as [-> | Hd]; [split; reflexivity |]). subst. split; reflexivity.
Qed.

(** The decimal digits [printf] writes for [n] are read back as [n]. *)
Lemma print_digits_read (fuel : nat) :
  forall n acc,
    0 <= n < 10 ^ Z.of_nat (S fuel) ->
    exists ds,
      print_digits (S fuel) 10 n acc = (ds ++ acc)%string /\
      ds <> EmptyString /\
      str_forall is_decimal ds = true /\
      forall a rest,
        read_digits 10 (ds ++ rest) a
        = read_digits 10 rest (a * 10 ^ Z.of_nat (String.length ds) + n).
Proof.
  induction fuel as [| fuel IH]; intros n acc Hn.
  - change (10 ^ Z.of_nat 1) with 10 in Hn.
    destruct (digit_char_decimal n Hn) as [Hd Hdec].
    exists (String (digit_char n) EmptyString).
    cbn [print_digits]. rewrite Z.mod_small by lia.
    assert ((n <? 10) = true) as -> by (apply Z.ltb_lt; lia).
    split; [reflexivity |]. split; [discriminate |].
    split; [cbn [str_forall]; rewrite Hdec; reflexivity |].
    intros a rest. rewrite str_app_cons, str_app_nil_l. cbn [read_digits].
    rewrite Hd. f_equal; cbn [String.length]; change (10 ^ Z.of_nat 1) with 10; lia.
  - cbn [print_digits].
    assert (0 <= n mod 10 < 10) as Hm by (apply Z.mod_pos_bound; lia).
    destruct (digit_char_decimal (n mod 10) Hm) as [Hd Hdec].
    destruct (Z.ltb_spec n 10) as [Hlt | Hge].
    + exists (String (digit_char (n mod 10)) EmptyString).
      split; [reflexivity |]. split; [discriminate |].
      split; [cbn [str_forall]; rewrite Hdec; reflexivity |].
      intros a rest. rewrite str_app_cons, str_app_nil_l. cbn [read_digits].
      rewrite Hd. f_equal; cbn [String.length]; change (10 ^ Z.of_nat 1) with 10;
        rewrite Z.mod_small by lia; lia.
    + assert (0 <= n / 10 < 10 ^ Z.of_nat (S fuel)) as Hq.
      { split; [apply Z.div_pos; lia |].
        apply Z.div_lt_upper_bound; [lia |].
        replace (Z.of_nat (S (S fuel))) with (Z.of_nat (S fuel) + 1) in Hn by lia.
        rewrite Z.pow_add_r in Hn by lia. lia. }
      destruct (IH (n / 10) (String (digit_char (n mod 10)) acc) Hq)
        as (ds & Hp & Hne & Hall & Hread).
      exists (ds ++ String (digit_char (n mod 10)) EmptyString)%string.
      split; [| split; [| split]].
      * change (print_digits (S fuel) 10 (n / 10) (String (digit_char (n mod 10)) acc)
                = ((ds ++ String (digit_char (n mod 10)) "") ++ acc)%string).
        rewrite Hp, str_app_assoc. reflexivity.
      * destruct ds; [contradiction | discriminate].
      * rewrite str_forall_app, Hall. cbn [str_forall]. rewrite Hdec. reflexivity.
      * intros a rest. rewrite str_app_assoc, str_app_cons, str_app_nil_l.
        rewrite Hread. cbn [read_digits]. rewrite Hd. f_equal.
        rewrite str_app_length. cbn [String.length Nat.add].
        replace (Z.of_nat (String.length ds + 1)) with (Z.of_nat (String.length ds) + 1) by lia.
        rewrite Z.pow_add_r by lia. pose proof (Z.div_mod n 10 ltac:(lia)). lia.
Qed.

Lemma read_sign_decimal (c : ascii) (r : string) :
  is_decimal c = true ->
  skip_spaces (String c r) = String c r /\ read_sign (String c r) = (false, String c r).
Proof.
  intros H. destruct c as [[] [] [] [] [] [] [] []]; try discriminate; split; reflexivity.
Qed.

(** [strtoul] reads back what [%zu] printed. *)
Lemma strtoul10_fmt_zu (n : Z) :
  0 <= n < 2 ^ 64 ->
  strtoul10 (fmt_zu n) = n /\
  fmt_zu n <> EmptyString /\ str_forall is_decimal (fmt_zu n) = true.
Proof.
  intros Hn. unfold fmt_zu. rewrite (Z.mod_small n) by lia.
  destruct (print_digits_read 19 n EmptyString) as (ds & Hp & Hne & Hall & Hread).
  { split; [lia |]. change (10 ^ Z.of_nat 20) with 100000000000000000000. lia. }
  rewrite Hp, str_app_nil_r. split; [| split; assumption].
  unfold strtoul10. destruct ds as [| c r]; [contradiction |].
  cbn [str_forall] in Hall. apply andb_true_iff in Hall as [Hc _].
  destruct (read_sign_decimal c r Hc) as [-> ->].
  specialize (Hread 0 EmptyString). rewrite str_app_nil_r in Hread. rewrite Hread.
  cbn [read_digits]. rewrite Z.mul_0_l, Z.add_0_l.
  assert ((ULONG_MAX <? n) = false) as -> by (apply Z.ltb_ge; unfold ULONG_MAX; lia).
  reflexivity.
Qed.

Definition not_zero_char (c : ascii) : bool := negb (Ascii.eqb c zero).

Lemma memchr0_text (s : string) (rest : list byte) :
  str_forall not_zero_char s = true ->
  memchr0 (bytes_of s ++ NUL :: rest) = Some (String.length s) /\
  c_str (bytes_of s ++ NUL :: rest) = s.
Proof.
  intros H.
  assert (Hm : memchr0 (bytes_of s ++ NUL :: rest) = Some (String.length s)).
  { induction s as [| c s IH]; [reflexivity |].
    cbn [str_forall] in H. apply andb_true_iff in H as [Hc Hs].
    change (bytes_of (String c s)) with (byte_of_ascii c :: bytes_of s).
    cbn [app memchr0 String.length].
    assert (Byte.eqb (byte_of_ascii c) NUL = false) as ->.
    { unfold not_zero_char in Hc. destruct c as [[] [] [] [] [] [] [] []]; try reflexivity.
      discriminate. }
    rewrite (IH Hs). reflexivity. }
  split; [exact Hm |]. unfold c_str. rewrite Hm.
  assert (length (bytes_of s) = String.length s) as Hl.
  { unfold bytes_of. clear. induction s as [| c s IH]; [reflexivity |].
    cbn. f_equal. exact IH. }
  rewrite <- Hl, firstn_app, Nat.sub_diag, firstn_all. cbn [firstn]. rewrite app_nil_r.
  unfold text_of, bytes_of. apply string_of_list_byte_of_string.
Qed.

Lemma decimal_not_zero (s : string) :
  str_forall is_decimal s = true -> str_forall not_zero_char s = true.
Proof.
  induction s as [| c s IH]; [reflexivity |]. cbn [str_forall]. intros H.
  apply andb_true_iff in H as [Hc Hs]. rewrite (IH Hs), andb_true_r.
  destruct c as [[] [] [] [] [] [] [] []]; try reflexivity. discriminate.
Qed.

(** The header parse on a header, a zero byte and a payload: the object
    when the size in the header is the length of the payload, and
    [SVCS_ERROR_CORRUPT] when it is not. *)
Lemma parse_object_header (hash : svcs_hash_t) (t : svcs_object_type_t) (n : Z)
  (payload : list byte) :
  0 <= n < 2 ^ 64 ->
  parse_object hash (bytes_of (object_header t n) ++ [NUL] ++ payload)
  = if Z.of_nat (length payload) =? n
    then Ok {| obj_type := t; obj_size := n; obj_hash := hash |}
    else Err SVCS_ERROR_CORRUPT.
Proof.
  intros Hn. destruct (strtoul10_fmt_zu n Hn) as (Hread & Hne & Hdec).
  assert (Hnz : str_forall not_zero_char (object_header t n) = true).
  { unfold object_header. rewrite !str_forall_app, (decimal_not_zero _ Hdec).
    destruct t; reflexivity. }
  destruct (memchr0_text (object_header t n) payload Hnz) as [Hm Hc].
  unfold parse_object. cbn [app]. rewrite Hm, Hc.
  assert (Hsp : strchr (object_header t n) " " = Some (String.length (type_str t))).
  { unfold object_header. destruct t; reflexivity. }
  rewrite Hsp.
  assert (Htake : str_take (String.length (type_str t)) (object_header t n) = type_str t).
  { unfold object_header. apply str_take_app_length. }
  assert (Hdrop : str_drop (S (String.length (type_str t))) (object_header t n) = fmt_zu n).
  { unfold object_header. destruct t; reflexivity. }
  rewrite Htake, Hdrop, Hread.
  assert (type_of_str (type_str t) = Some t) as -> by (destruct t; reflexivity).
  rewrite length_app. cbn [length].
  assert (length (bytes_of (object_header t n)) = String.length (object_header t n)) as ->.
  { unfold bytes_of. generalize (object_header t n). clear.
    induction s as [| c s IH]; [reflexivity |]. cbn. f_equal. exact IH. }
  replace (Z.of_nat (String.length (object_header t n) + S (length payload))
           - (Z.of_nat (String.length (object_header t n)) + 1))
    with (Z.of_nat (length payload)) by lia.
  destruct (Z.of_nat (length payload) =? n); reflexivity.
Qed.

Section ObjectReadProperties.

Context {zlib : Zlib}.

(** X15. [svcs_object_read] returns the object of a file that holds what
    the format asks for: when the file under the path of [hash] decompresses
    to the header of a type and a size, a zero byte and a payload of that
    size, the object read has that type and size, and the hash that was
    asked for, which is not compared with the content. A size in the header
    that is not the length of the payload makes the read fail with
    [SVCS_ERROR_CORRUPT], and a missing file with [SVCS_ERROR_NOT_FOUND]. *)
Theorem svcs_object_read_well_formed (w : world) (repo : svcs_repository_t)
  (hash : svcs_hash_t) (t : svcs_object_type_t) (n : Z) (payload stored : list byte) :
  0 <= n < 2 ^ 64 ->
  svcs_file_read w (get_object_path repo hash) = Ok stored ->
  svcs_decompress stored = Ok (bytes_of (object_header t n) ++ [NUL] ++ payload) ->
  (Z.of_nat (length payload) = n ->
   svcs_object_read w repo hash = Ok {| obj_type := t; obj_size := n; obj_hash := hash |}) /\
  (Z.of_nat (length payload) <> n ->
   svcs_object_read w repo hash = Err SVCS_ERROR_CORRUPT) /\
  (forall other, svcs_file_exists w (get_object_path repo other) = false ->
                 svcs_object_read w repo other = Err SVCS_ERROR_NOT_FOUND).
Proof.
  intros Hn Hfile Hdec.
  assert (Hex : svcs_file_exists w (get_object_path repo hash) = true).
  { unfold svcs_file_exists. unfold svcs_file_read in Hfile.
    destruct (nodes w !! get_object_path repo hash); [reflexivity | discriminate]. }
  assert (Hread : svcs_object_read w repo hash
                  = parse_object hash (bytes_of (object_header t n) ++ [NUL] ++ payload)).
  { unfold svcs_object_read. rewrite Hex, Hfile, Hdec. reflexivity. }
  rewrite Hread, (parse_object_header hash t n payload Hn).
  split; [| split].
  - intros E. apply Z.eqb_eq in E. rewrite E. reflexivity.
  - intros E. apply Z.eqb_neq in E. rewrite E. reflexivity.
  - intros other Hmiss. unfold svcs_object_read. rewrite Hmiss. reflexivity.
Qed.

End ObjectReadProperties.

Lemma svcs_object_read_well_formed_witness :
  (Z.of_nat (length (bytes_of "hello")) = 5 ->
   @svcs_object_read stored_zlib commit_store_world sample_repo commit_payload_hash
   = Ok {| obj_type := SVCS_OBJ_COMMIT; obj_size := 5; obj_hash := commit_payload_hash |}) /\
  (Z.of_nat (length (bytes_of "hello")) <> 5 ->
   @svcs_object_read stored_zlib commit_store_world sample_repo commit_payload_hash
   = Err SVCS_ERROR_CORRUPT) /\
  (forall other,
     svcs_file_exists commit_store_world (get_object_path sample_repo other) = false ->
     @svcs_object_read stored_zlib commit_store_world sample_repo other
     = Err SVCS_ERROR_NOT_FOUND).
Proof.
  apply (@svcs_object_read_well_formed stored_zlib commit_store_world sample_repo
           commit_payload_hash SVCS_OBJ_COMMIT 5 (bytes_of "hello")
           (Stored.deflate_stored (bytes_of "commit 5" ++ [NUL] ++ bytes_of "hello"))).
  - lia.
  - vm_compute. reflexivity.
  - vm_compute. reflexivity.
Defined.

(* ===================================================================== *)
(** ** Compressing files                                                  *)
(* ===================================================================== *)

(** What a successful [svcs_file_write] leaves under the path. *)
Lemma svcs_file_write_content (w w' : world) (path : string) (data : list byte) :
  svcs_file_write w path data = (w', SVCS_OK) ->
  exists f, nodes w' !! path = Some (File f) /\ f_content f = data /\
            (nodes w !! path = None -> f_readable f = true) /\
            (forall g, nodes w !! path = Some (File g) -> f_readable f = f_readable g) /\
            clock w' = clock w /\
            (forall k, k <> path -> nodes w' !! k = nodes w !! k).
Proof.
  unfold svcs_file_write, write_file.
  destruct (negb (is_dir w (parent_dir path))); [discriminate |].
  destruct (nodes w !! path) as [[f |] |] eqn:E; try destruct (f_writable f);
    try discriminate;
    intros [= <-]; cbn [nodes clock]; eexists; rewrite lookup_insert_eq;
    (split; [reflexivity |]); cbn [f_content f_readable];
    (split; [reflexivity |]); (split; [try discriminate; reflexivity |]);
    (split; [try discriminate; try (intros g [= <-]); reflexivity |]);
    (split; [reflexivity |]); intros k Hk; apply lookup_insert_ne; congruence.
Qed.

(** A file that was written is one the process may write. *)
Lemma svcs_file_write_writable (w w' : world) (path : string) (data : list byte) :
  svcs_file_write w path data = (w', SVCS_OK) ->
  exists f, nodes w' !! path = Some (File f) /\ f_writable f = true.
Proof.
  unfold svcs_file_write, write_file.
  destruct (negb (is_dir w (parent_dir path))); [discriminate |].
  destruct (nodes w !! path) as [[f |] |]; try destruct (f_writable f); try discriminate;
    intros [= <-]; cbn [nodes]; eexists; rewrite lookup_insert_eq; split; reflexivity.
Qed.

Lemma svcs_file_write_failed (w w' : world) (path : string) (data : list byte)
  (e : svcs_error_t) :
  svcs_file_write w path data = (w', e) -> e <> SVCS_OK -> w' = w /\ e = SVCS_ERROR_IO.
Proof.
  unfold svcs_file_write. destruct (write_file w path data); intros [= <- <-] H;
    [contradiction | split; reflexivity].
Qed.

Section CompressFileProperties.

Context {zlib : Zlib}.

(** X16. A file that [svcs_compress_file] has compressed is given back by
    [svcs_decompress_file]: when both return [SVCS_OK], the file written
    last holds the bytes the first file held (of at most [2 ^ 61] bytes).
    An empty file is refused by [svcs_compress_file] with
    [SVCS_ERROR_INVALID], and nothing is written. *)
Theorem svcs_compress_file_round_trip (w w1 w2 : world) (a b c : string) (x : list byte) :
  svcs_file_read w a = Ok x ->
  Z.of_nat (length x) <= 2 ^ 61 ->
  svcs_compress_file w a b = (w1, SVCS_OK) ->
  svcs_decompress_file w1 b c = (w2, SVCS_OK) ->
  (exists f, nodes w2 !! c = Some (File f) /\ f_content f = x) /\
  x <> [] /\
  (forall w0 p q, svcs_file_read w0 p = Ok [] ->
                  svcs_compress_file w0 p q = (w0, SVCS_ERROR_INVALID)).
Proof.
  intros Ha Hlen Hc Hd.
  assert (Hempty : forall w0 p q, svcs_file_read w0 p = Ok [] ->
                                  svcs_compress_file w0 p q = (w0, SVCS_ERROR_INVALID)).
  { intros w0 p q Hp. unfold svcs_compress_file. rewrite Hp. reflexivity. }
  unfold svcs_compress_file in Hc. rewrite Ha in Hc.
  destruct (svcs_compress x) as [cx | e] eqn:Ecx.
  2: { injection Hc as <- ->. destruct x as [| x0 x].
       - rewrite svcs_compress_empty in Ecx. discriminate.
       - destruct (svcs_compress_nonempty (x0 :: x) ltac:(discriminate)) as (c' & Hok & _).
         congruence. }
  assert (Hx : x <> []).
  { intros ->. rewrite svcs_compress_empty in Ecx. discriminate. }
  destruct (svcs_file_write_content _ _ _ _ Hc) as (fb & Hb & Hbc & _).
  unfold svcs_decompress_file in Hd.
  destruct (svcs_file_read w1 b) as [cb | e] eqn:Erb.
  2: { injection Hd as <- ->. unfold svcs_file_read in Erb.
       destruct (nodes w1 !! b) as [[f |] |]; try destruct (f_readable f); discriminate. }
  assert (cb = cx) as ->.
  { unfold svcs_file_read in Erb. rewrite Hb in Erb.
    destruct (f_readable fb); [| discriminate]. congruence. }
  assert (Hrt : svcs_decompress cx = Ok x).
  { apply svcs_decompress_compress; [exact Ecx | lia |].
    destruct (svcs_compress_nonempty x Hx) as (c' & Hok & Hz & _).
    assert (c' = cx) as -> by congruence.
    pose proof (zlib_compress_fits _ _ _ Hz) as Hfit.
    pose proof (compressBound_small (Z.of_nat (length x)) ltac:(lia)). lia. }
  rewrite Hrt in Hd.
  destruct (svcs_file_write_content _ _ _ _ Hd) as (fc & Hfc & Hcc & _).
  split; [exists fc; split; assumption |]. split; [exact Hx | exact Hempty].
Qed.

End CompressFileProperties.

Lemma svcs_compress_file_round_trip_witness :
  (exists f,
     nodes (fst (@svcs_decompress_file stored_zlib
                   (fst (@svcs_compress_file stored_zlib notes_world "/d/notes" "/d/notes.z"))
                   "/d/notes.z" "/d/copy")) !! "/d/copy"%string = Some (File f) /\
     f_content f = bytes_of ("one" ++ nl ++ "two" ++ nl ++ "three")) /\
  bytes_of ("one" ++ nl ++ "two" ++ nl ++ "three") <> [] /\
  (forall w0 p q, svcs_file_read w0 p = Ok [] ->
                  @svcs_compress_file stored_zlib w0 p q = (w0, SVCS_ERROR_INVALID)).
Proof.
  apply (@svcs_compress_file_round_trip stored_zlib notes_world
           (fst (@svcs_compress_file stored_zlib notes_world "/d/notes" "/d/notes.z"))
           (fst (@svcs_decompress_file stored_zlib
                   (fst (@svcs_compress_file stored_zlib notes_world "/d/notes" "/d/notes.z"))
                   "/d/notes.z" "/d/copy"))
           "/d/notes" "/d/notes.z" "/d/copy").
  - vm_compute. reflexivity.
  - vm_compute. discriminate.
  - vm_compute. reflexivity.
  - vm_compute. reflexivity.
Defined.

(* ===================================================================== *)
(** ** Branches                                                           *)
(* ===================================================================== *)

Lemma bytes_of_length (s : string) : length (bytes_of s) = String.length s.
Proof.
  unfold bytes_of. induction s as [| c s IH]; [reflexivity |]. cbn. f_equal. exact IH.
Qed.

Lemma memchr0_none (s : string) :
  str_forall not_zero_char s = true -> memchr0 (bytes_of s) = None.
Proof.
  induction s as [| c s IH]; [reflexivity |]. cbn [str_forall]. intros H.
  apply andb_true_iff in H as [Hc Hs].
  change (bytes_of (String c s)) with (byte_of_ascii c :: bytes_of s). cbn [memchr0].
  assert (Byte.eqb (byte_of_ascii c) NUL = false) as ->.
  { unfold not_zero_char in Hc. destruct c as [[] [] [] [] [] [] [] []]; try reflexivity.
    discriminate. }
  rewrite (IH Hs). reflexivity.
Qed.

(** A text without a zero character is read back from its bytes. *)
Lemma c_str_bytes_of (s : string) :
  str_forall not_zero_char s = true -> c_str (bytes_of s) = s.
Proof.
  intros H. unfold c_str. rewrite (memchr0_none s H).
  unfold text_of, bytes_of. apply string_of_list_byte_of_string.
Qed.

Lemma str_forall_get (P : ascii -> bool) (s : string) :
  (forall i c, String.get i s = Some c -> P c = true) -> str_forall P s = true.
Proof.
  induction s as [| c s IH]; intros H; [reflexivity |]. cbn [str_forall].
  rewrite (H O c eq_refl). cbn [andb]. apply IH. intros i x Hx. exact (H (S i) x Hx).
Qed.

Lemma str_forall_impl (P Q : ascii -> bool) (s : string) :
  (forall c, P c = true -> Q c = true) -> str_forall P s = true -> str_forall Q s = true.
Proof.
  intros HPQ. induction s as [| c s IH]; [reflexivity |]. cbn [str_forall]. intros H.
  apply andb_true_iff in H as [Hc Hs]. rewrite (HPQ c Hc), (IH Hs). reflexivity.
Qed.

(** A character of a line of text: neither the terminator nor a newline. *)
Definition line_char (c : ascii) : bool := not_zero_char c && negb (Ascii.eqb c nl_char).

Lemma lower_hex_line_char (c : ascii) : is_lower_hex c = true -> line_char c = true.
Proof. destruct c as [[] [] [] [] [] [] [] []]; try reflexivity; discriminate. Qed.

Lemma svcs_hash_to_string_line (h : svcs_hash_t) :
  str_forall line_char (svcs_hash_to_string h) = true.
Proof.
  apply (str_forall_impl is_lower_hex); [exact lower_hex_line_char |].
  apply str_forall_get. intros i c.
  change (svcs_hash_to_string h)
    with (hex_of_bytes (map (fun i => nth i h NUL) (seq 0 SVCS_HASH_SIZE))).
  apply hex_of_bytes_lower.
Qed.

Lemma line_char_not_zero (s : string) :
  str_forall line_char s = true -> str_forall not_zero_char s = true.
Proof.
  apply str_forall_impl. intros c H. unfold line_char in H.
  apply andb_true_iff in H as [H _]. exact H.
Qed.

Lemma strchr_line (a b : string) :
  str_forall line_char a = true ->
  strchr (a ++ String nl_char b) nl_char = Some (String.length a).
Proof.
  induction a as [| c a IH]; intros H.
  - rewrite str_app_nil_l. cbn [strchr]. rewrite Ascii.eqb_refl. reflexivity.
  - cbn [str_forall] in H. apply andb_true_iff in H as [Hc Ha].
    rewrite str_app_cons. cbn [strchr String.length].
    unfold line_char in Hc. apply andb_true_iff in Hc as [_ Hc].
    destruct (Ascii.eqb c nl_char); [discriminate |]. rewrite (IH Ha). reflexivity.
Qed.

(** A line and its newline, cut at the newline, is the line. *)
Lemma cut_at_line (a b : string) :
  str_forall line_char a = true -> cut_at nl_char (a ++ String nl_char b) = a.
Proof.
  intros H. unfold cut_at. rewrite (strchr_line a b H). apply str_take_app_length.
Qed.

Lemma snprintf_fits (size : nat) (s : string) :
  (String.length s < size)%nat -> snprintf size s = s.
Proof. intros H. unfold snprintf. apply str_take_all. lia. Qed.

(** The text of a branch file: the hash in hexadecimal and a newline. *)
Definition ref_text (h : svcs_hash_t) : string := svcs_hash_to_string h ++ nl.

Lemma ref_text_fits (h : svcs_hash_t) :
  snprintf (SVCS_HASH_HEX_SIZE + 1) (svcs_hash_to_string h ++ nl) = ref_text h.
Proof.
  unfold ref_text. apply snprintf_fits.
  rewrite str_app_length, svcs_hash_to_string_length. cbn. lia.
Qed.

Lemma ref_text_read (h : svcs_hash_t) :
  hash_wf h ->
  svcs_hash_from_string (cut_at nl_char (c_str (bytes_of (ref_text h)))) = Ok h.
Proof.
  intros Hwf. unfold ref_text.
  rewrite c_str_bytes_of.
  - unfold nl. rewrite (cut_at_line _ EmptyString (svcs_hash_to_string_line h)).
    apply svcs_hash_from_to_string. exact Hwf.
  - rewrite str_forall_app, (line_char_not_zero _ (svcs_hash_to_string_line h)). reflexivity.
Qed.

(** The branch file a [HEAD] that names a branch leads to. *)
Lemma head_ref_path_branch (repo : svcs_repository_t) (name : string) :
  str_forall line_char name = true ->
  head_ref_path repo ("ref: refs/heads/" ++ name ++ nl) = Some (branch_path repo name) /\
  head_branch ("ref: refs/heads/" ++ name ++ nl) = Some name.
Proof.
  intros Hname. unfold head_ref_path, head_branch, starts_with, branch_path.
  rewrite (prefix_app "ref: refs/heads/").
  change (String.prefix "ref: " ("ref: refs/heads/" ++ name ++ nl)) with true.
  change (str_drop 5 ("ref: refs/heads/" ++ name ++ nl))
    with ("refs/heads/" ++ name ++ nl)%string.
  change (str_drop 16 ("ref: refs/heads/" ++ name ++ nl)) with (name ++ nl)%string.
  unfold nl. rewrite (cut_at_line name EmptyString Hname).
  rewrite <- (str_app_assoc "refs/heads/" name), (cut_at_line _ EmptyString).
  - split; reflexivity.
  - rewrite str_forall_app, Hname. reflexivity.
Qed.

(** [svcs_mkdir_recursive] adds directories and nothing else. *)
Lemma mkdir_adds_dir (w : world) (path k : string) :
  nodes (fst (mkdir w path)) !! k = nodes w !! k \/
  (nodes w !! k = None /\ nodes (fst (mkdir w path)) !! k = Some Dir).
Proof.
  unfold mkdir. destruct (nodes w !! path) eqn:E; [left; reflexivity |].
  destruct path as [| c p]; [left; reflexivity |].
  destruct (is_dir w _); [| left; reflexivity]. cbn [fst nodes].
  destruct (decide (k = String c p)) as [-> | Hne].
  - right. rewrite lookup_insert_eq. split; [exact E | reflexivity].
  - left. apply lookup_insert_ne. congruence.
Qed.

Lemma mkdir_prefixes_adds_dir (tmp k : string) (positions : list nat) :
  forall w,
    nodes (fst (mkdir_prefixes w tmp positions)) !! k = nodes w !! k \/
    (nodes w !! k = None /\ nodes (fst (mkdir_prefixes w tmp positions)) !! k = Some Dir).
Proof.
  induction positions as [| p rest IH]; intros w; [left; reflexivity |].
  cbn [mkdir_prefixes]. destruct (Ascii.eqb _ _); [| apply IH].
  pose proof (mkdir_adds_dir w (str_take p tmp) k) as H.
  destruct (mkdir w (str_take p tmp)) as [w1 ok]. cbn [fst] in H.
  destruct ok; [| exact H].
  destruct (IH w1) as [H1 | [H1 H2]]; destruct H as [H | [H H']].
  - left. congruence.
  - right. split; [exact H | congruence].
  - right. split; [congruence | exact H2].
  - congruence.
Qed.

Lemma svcs_mkdir_recursive_adds_dir (w : world) (path k : string) :
  nodes (fst (svcs_mkdir_recursive w path)) !! k = nodes w !! k \/
  (nodes w !! k = None /\ nodes (fst (svcs_mkdir_recursive w path)) !! k = Some Dir).
Proof.
  unfold svcs_mkdir_recursive.
  set (tmp := if Ascii.eqb _ _ then _ else _).
  pose proof (mkdir_prefixes_adds_dir tmp k (seq 1 (String.length tmp - 1)) w) as H1.
  destruct (mkdir_prefixes w tmp _) as [w1 ok]. cbn [fst] in H1.
  destruct ok; cbn [negb]; [| exact H1].
  pose proof (mkdir_adds_dir w1 tmp k) as H2.
  destruct (mkdir w1 tmp) as [w2 ok2]. cbn [fst] in H2.
  assert (fst (if ok2 then (w2, SVCS_OK) else (w2, SVCS_ERROR_IO)) = w2) as ->
    by (destruct ok2; reflexivity).
  destruct H1 as [H1 | [H1 H1']]; destruct H2 as [H2 | [H2 H2']].
  - left. congruence.
  - right. split; congruence.
  - right. split; congruence.
  - congruence.
Qed.

Lemma svcs_file_write_not_dir (w w' : world) (path : string) (data : list byte) :
  svcs_file_write w path data = (w', SVCS_OK) -> nodes w !! path <> Some Dir.
Proof.
  unfold svcs_file_write, write_file. intros H E. rewrite E in H.
  destruct (negb _); discriminate.
Qed.

(** X17. When [svcs_branch_create] has returned [SVCS_OK], the branch file
    holds the hash in hexadecimal and a newline; creating the branch again
    is refused with [SVCS_ERROR_EXISTS] and changes nothing; and with a
    [HEAD] that names the branch, the parent [svcs_commit_create] takes for
    the next commit is the hash the branch was created at. *)
Theorem svcs_branch_create_spec (w : world) (repo : svcs_repository_t) (name : string)
  (h : svcs_hash_t) :
  snd (svcs_branch_create w repo name h) = SVCS_OK ->
  let w' := fst (svcs_branch_create w repo name h) in
  svcs_file_read w' (branch_path repo name) = Ok (bytes_of (svcs_hash_to_string h ++ nl)) /\
  (forall h2, svcs_branch_create w' repo name h2 = (w', SVCS_ERROR_EXISTS)) /\
  (hash_wf h ->
   str_forall line_char name = true ->
   read_text w' (head_path repo) = Some ("ref: refs/heads/" ++ name ++ nl)%string ->
   resolve_parent w' repo = h).
Proof.
  unfold svcs_branch_create.
  destruct (svcs_file_exists w (branch_path repo name)) eqn:Eex; [discriminate |].
  cbv zeta. rewrite ref_text_fits.
  set (w1 := fst (svcs_mkdir_recursive w (refs_heads_dir repo))).
  destruct (svcs_file_write w1 (branch_path repo name) (bytes_of (ref_text h)))
    as [w' e] eqn:Ew. cbn [fst snd]. intros ->.
  destruct (svcs_file_write_content _ _ _ _ Ew) as (f & Hf & Hc & Hnew & _ & _ & _).
  assert (Hnone : nodes w1 !! branch_path repo name = None).
  { destruct (svcs_mkdir_recursive_adds_dir w (refs_heads_dir repo) (branch_path repo name))
      as [H | [_ H]]; fold w1 in H.
    - rewrite H. unfold svcs_file_exists in Eex.
      destruct (nodes w !! branch_path repo name); [discriminate | reflexivity].
    - exfalso. exact (svcs_file_write_not_dir _ _ _ _ Ew H). }
  assert (Hread : svcs_file_read w' (branch_path repo name) = Ok (bytes_of (ref_text h))).
  { unfold svcs_file_read. rewrite Hf, (Hnew Hnone), Hc. reflexivity. }
  split; [exact Hread |]. split.
  - intros h2. unfold svcs_file_exists. rewrite Hf. reflexivity.
  - intros Hwf Hname Hhead. unfold resolve_parent. rewrite Hhead.
    rewrite (proj1 (head_ref_path_branch repo name Hname)).
    unfold read_text. rewrite Hread. rewrite (ref_text_read h Hwf). reflexivity.
Qed.

(** X18. After a [svcs_branch_checkout] that returned [SVCS_OK], [HEAD]
    holds the name of the branch, [svcs_branch_current] returns it (cut to
    the buffer it is given), and [svcs_branch_delete] of that branch is
    refused with [SVCS_ERROR_INVALID]; nothing but [HEAD] has changed, the
    files of the working directory included. *)
Theorem svcs_branch_checkout_current (w : world) (repo : svcs_repository_t) (name : string)
  (name_size : nat) :
  str_forall line_char name = true ->
  (String.length name + 17 < SVCS_MAX_PATH)%nat ->
  (forall f, nodes w !! head_path repo = Some (File f) -> f_readable f = true) ->
  (0 < name_size)%nat ->
  snd (svcs_branch_checkout w repo name) = SVCS_OK ->
  let w' := fst (svcs_branch_checkout w repo name) in
  svcs_file_read w' (head_path repo) = Ok (bytes_of ("ref: refs/heads/" ++ name ++ nl)) /\
  svcs_branch_current w' repo name_size = Ok (snprintf name_size name) /\
  svcs_branch_delete w' repo name = (w', SVCS_ERROR_INVALID) /\
  (forall k, k <> head_path repo -> nodes w' !! k = nodes w !! k).
Proof.
  intros Hname Hlen Hreadable Hsize. unfold svcs_branch_checkout.
  destruct (svcs_file_exists w (branch_path repo name)); cbn [negb]; [| discriminate].
  rewrite (snprintf_fits SVCS_MAX_PATH).
  2: { rewrite !str_app_length. cbn [String.length nl]. unfold SVCS_MAX_PATH in *. lia. }
  destruct (svcs_file_write w (head_path repo) _) as [w' e] eqn:Ew. cbn [fst snd].
  intros ->. cbv zeta.
  destruct (svcs_file_write_content _ _ _ _ Ew) as (f & Hf & Hc & Hnew & Hold & _ & Hrest).
  assert (Hr : f_readable f = true).
  { destruct (nodes w !! head_path repo) as [[g |] |] eqn:E.
    - rewrite (Hold g eq_refl). apply Hreadable. reflexivity.
    - exfalso. exact (svcs_file_write_not_dir _ _ _ _ Ew E).
    - apply Hnew. reflexivity. }
  assert (Hread : svcs_file_read w' (head_path repo)
                  = Ok (bytes_of ("ref: refs/heads/" ++ name ++ nl))).
  { unfold svcs_file_read. rewrite Hf, Hr, Hc. reflexivity. }
  assert (Htext : c_str (bytes_of ("ref: refs/heads/" ++ name ++ nl))
                  = ("ref: refs/heads/" ++ name ++ nl)%string).
  { apply c_str_bytes_of. rewrite !str_forall_app, (line_char_not_zero _ Hname). reflexivity. }
  split; [exact Hread |]. split; [| split; [| exact Hrest]].
  - unfold svcs_branch_current. destruct name_size; [lia |]. cbn [Nat.eqb].
    rewrite Hread, Htext, (proj2 (head_ref_path_branch repo name Hname)). reflexivity.
  - unfold svcs_branch_delete, read_text. rewrite Hread, Htext.
    rewrite (proj2 (head_ref_path_branch repo name Hname)), String.eqb_refl. reflexivity.
Qed.

Lemma strrchr_app_last (a b : string) (c : ascii) :
  strrchr b c = None -> strrchr (a ++ String c b) c = Some (String.length a).
Proof.
  intros Hb. induction a as [| x a IH].
  - rewrite str_app_nil_l. cbn [strrchr]. rewrite Hb, Ascii.eqb_refl. reflexivity.
  - rewrite str_app_cons. cbn [strrchr String.length]. rewrite IH. reflexivity.
Qed.

Lemma parent_dir_app (a b : string) :
  strrchr b "/" = None -> parent_dir (a ++ String "/" b) = a.
Proof.
  intros Hb. unfold parent_dir. rewrite (strrchr_app_last a b "/" Hb).
  apply str_take_app_length.
Qed.

(** A name that is one component of a path: not empty, neither [.] nor
    [..], and without a slash. The path built from such a name is that of an
    entry of [refs/heads], and no other spelling leads to this entry. *)
Definition plain_name (name : string) : bool :=
  negb (String.eqb name "") && negb (String.eqb name ".") && negb (String.eqb name "..")
  && str_forall (fun c => negb (Ascii.eqb c "/")) name.

Lemma plain_name_no_slash (name : string) :
  plain_name name = true -> strrchr name "/" = None.
Proof.
  unfold plain_name. intros H. apply andb_prop in H as [_ H].
  induction name as [| a name IH]; [reflexivity |].
  cbn [str_forall] in H. apply andb_prop in H as [Ha Hr].
  cbn [strrchr]. rewrite (IH Hr). destruct (Ascii.eqb a "/"); [discriminate | reflexivity].
Qed.

(** X19. For a branch name that is one path component (not empty, neither
    [.] nor [..], without a slash) and whose path fits the buffer of
    [SVCS_MAX_PATH] characters: the path of the branch is the entry of that
    name in the directory [refs/heads], and after a [svcs_branch_delete]
    that returned [SVCS_OK] nothing is left under it, while every other
    path is as before; the branch can no longer be checked out. The
    function itself does not look at the name: the restriction is on the
    caller. *)
Theorem svcs_branch_delete_spec (w : world) (repo : svcs_repository_t) (name : string) :
  plain_name name = true ->
  (String.length (git_dir repo) + String.length name + 12 < SVCS_MAX_PATH)%nat ->
  snd (svcs_branch_delete w repo name) = SVCS_OK ->
  let w' := fst (svcs_branch_delete w repo name) in
  branch_path repo name = (git_dir repo ++ "/refs/heads/" ++ name)%string /\
  parent_dir (branch_path repo name) = (git_dir repo ++ "/refs/heads")%string /\
  svcs_file_exists w (branch_path repo name) = true /\
  svcs_file_exists w' (branch_path repo name) = false /\
  (forall k, k <> branch_path repo name -> nodes w' !! k = nodes w !! k) /\
  svcs_branch_checkout w' repo name = (w', SVCS_ERROR_NOT_FOUND).
Proof.
  intros Hplain Hfits Hok. cbv zeta.
  assert (Hpath : branch_path repo name = (git_dir repo ++ "/refs/heads/" ++ name)%string).
  { unfold branch_path. apply snprintf_fits.
    rewrite !str_app_length. cbn [String.length]. unfold SVCS_MAX_PATH in *. lia. }
  split; [exact Hpath |]. split.
  { rewrite Hpath.
    change (git_dir repo ++ "/refs/heads/" ++ name)%string
      with (git_dir repo ++ ("/refs/heads" ++ String "/" name))%string.
    rewrite <- str_app_assoc. apply parent_dir_app. exact (plain_name_no_slash name Hplain). }
  clear Hfits Hpath Hplain. revert Hok. unfold svcs_branch_delete.
  destruct (match read_text w (head_path repo) with Some _ => _ | None => _ end);
    [discriminate |].
  destruct (svcs_file_exists w (branch_path repo name)) eqn:Eex; cbn [negb]; [| discriminate].
  destruct (remove w (branch_path repo name)) as [w' |] eqn:Er; [| discriminate].
  intros _. cbn [fst]. cbv zeta.
  assert (Hw : nodes w' = delete (branch_path repo name) (nodes w)).
  { unfold remove in Er. destruct (nodes w !! branch_path repo name) as [[f |] |];
      try discriminate; [injection Er as <-; reflexivity |].
    destruct (has_entries w _); [discriminate |]. injection Er as <-. reflexivity. }
  assert (Hgone : svcs_file_exists w' (branch_path repo name) = false).
  { unfold svcs_file_exists. rewrite Hw, lookup_delete_eq. reflexivity. }
  split; [reflexivity |]. split; [exact Hgone |]. split.
  - intros k Hk. rewrite Hw. apply lookup_delete_ne. congruence.
  - unfold svcs_branch_checkout. rewrite Hgone. reflexivity.
Qed.

(** A repository at [/r] with a branch [main] and a branch [topic]. *)
Definition branches_world : world :=
  {| nodes := list_to_map
                [("/r"%string, Dir); ("/r/.svcs"%string, Dir);
                 ("/r/.svcs/refs"%string, Dir); ("/r/.svcs/refs/heads"%string, Dir);
                 ("/r/.svcs/HEAD"%string, sample_file ("ref: refs/heads/main" ++ nl) 5);
                 ("/r/.svcs/refs/heads/main"%string,
                  sample_file (svcs_hash_to_string earlier_commit ++ nl) 6);
                 ("/r/.svcs/refs/heads/topic"%string,
                  sample_file (svcs_hash_to_string earlier_commit ++ nl) 7)];
     clock := 1700000000 |}.

Lemma svcs_branch_create_spec_witness :
  let w' := fst (svcs_branch_create branches_world sample_repo "fix" earlier_commit) in
  svcs_file_read w' (branch_path sample_repo "fix")
    = Ok (bytes_of (svcs_hash_to_string earlier_commit ++ nl)) /\
  (forall h2, svcs_branch_create w' sample_repo "fix" h2 = (w', SVCS_ERROR_EXISTS)) /\
  (hash_wf earlier_commit ->
   str_forall line_char "fix" = true ->
   read_text w' (head_path sample_repo) = Some ("ref: refs/heads/" ++ "fix" ++ nl)%string ->
   resolve_parent w' sample_repo = earlier_commit).
Proof.
  apply (svcs_branch_create_spec branches_world sample_repo "fix" earlier_commit).
  vm_compute. reflexivity.
Defined.

Lemma svcs_branch_checkout_current_witness :
  let w' := fst (svcs_branch_checkout branches_world sample_repo "topic") in
  svcs_file_read w' (head_path sample_repo)
    = Ok (bytes_of ("ref: refs/heads/" ++ "topic" ++ nl)) /\
  svcs_branch_current w' sample_repo 256 = Ok (snprintf 256 "topic") /\
  svcs_branch_delete w' sample_repo "topic" = (w', SVCS_ERROR_INVALID) /\
  (forall k, k <> head_path sample_repo -> nodes w' !! k = nodes branches_world !! k).
Proof.
  apply (svcs_branch_checkout_current branches_world sample_repo "topic" 256).
  - reflexivity.
  - vm_compute. lia.
  - intros f Hf. vm_compute in Hf. injection Hf as <-. reflexivity.
  - lia.
  - vm_compute. reflexivity.
Defined.

Lemma svcs_branch_delete_spec_witness :
  let w' := fst (svcs_branch_delete branches_world sample_repo "topic") in
  branch_path sample_repo "topic" = (git_dir sample_repo ++ "/refs/heads/" ++ "topic")%string /\
  parent_dir (branch_path sample_repo "topic") = (git_dir sample_repo ++ "/refs/heads")%string /\
  svcs_file_exists branches_world (branch_path sample_repo "topic") = true /\
  svcs_file_exists w' (branch_path sample_repo "topic") = false /\
  (forall k, k <> branch_path sample_repo "topic" ->
             nodes w' !! k = nodes branches_world !! k) /\
  svcs_branch_checkout w' sample_repo "topic" = (w', SVCS_ERROR_NOT_FOUND).
Proof.
  apply (svcs_branch_delete_spec branches_world sample_repo "topic").
  - reflexivity.
  - vm_compute. lia.
  - vm_compute. reflexivity.
Defined.

(* ===================================================================== *)
(** ** Repositories                                                       *)
(* ===================================================================== *)

Lemma mkdir_ok_exists (w w' : world) (path : string) :
  mkdir w path = (w', true) -> exists n, nodes w' !! path = Some n.
Proof.
  unfold mkdir. destruct (nodes w !! path) as [n |] eqn:E.
  - intros [= <-]. eauto.
  - destruct path; [discriminate |]. destruct (is_dir w _); [| discriminate].
    intros [= <-]. cbn [nodes]. rewrite lookup_insert_eq. eauto.
Qed.

(** A path that fits the buffer and does not end with a slash exists after
    [svcs_mkdir_recursive] has returned [SVCS_OK] for it. *)
Lemma svcs_mkdir_recursive_ok (w w' : world) (path : string) :
  (String.length path < SVCS_MAX_PATH)%nat ->
  char_at path (String.length path - 1) <> "/"%char ->
  svcs_mkdir_recursive w path = (w', SVCS_OK) ->
  exists n, nodes w' !! path = Some n.
Proof.
  intros Hlen Hlast. unfold svcs_mkdir_recursive.
  rewrite (snprintf_fits SVCS_MAX_PATH path Hlen).
  destruct (Ascii.eqb_spec (char_at path (String.length path - 1)) "/") as [E | _];
    [contradiction |].
  destruct (mkdir_prefixes w path _) as [w1 ok]. destruct ok; cbn [negb]; [| discriminate].
  destruct (mkdir w1 path) as [w2 ok2] eqn:E2. destruct ok2; [| discriminate].
  intros [= <-]. exact (mkdir_ok_exists _ _ _ E2).
Qed.

Lemma svcs_file_write_parent (w w' : world) (path : string) (data : list byte) :
  svcs_file_write w path data = (w', SVCS_OK) -> is_dir w (parent_dir path) = true.
Proof.
  unfold svcs_file_write, write_file.
  destruct (is_dir w (parent_dir path)); [reflexivity | discriminate].
Qed.

Lemma str_app_inv_l (a b c : string) : (a ++ b = a ++ c)%string -> b = c.
Proof.
  induction a as [| x a IH]; [rewrite !str_app_nil_l; trivial |].
  rewrite !str_app_cons. intros [= H]. exact (IH H).
Qed.

Lemma str_app_neq_l (a b : string) : b <> EmptyString -> (a ++ b)%string <> a.
Proof.
  intros Hb E. apply (f_equal String.length) in E. rewrite str_app_length in E.
  destruct b; [contradiction | cbn in E; lia].
Qed.

(** X20. When [svcs_repository_init] has returned [SVCS_OK], whatever was
    there before, the path is a valid repository: [.svcs] is a directory,
    [objects] and [refs] exist in it, [HEAD] names the branch [main], and
    the index file is empty. An index and a [HEAD] that were there are
    overwritten. *)
Theorem svcs_repository_init_spec (w : world) (path : string) :
  (String.length path + 15 < SVCS_MAX_PATH)%nat ->
  snd (svcs_repository_init w path) = SVCS_OK ->
  let w' := fst (svcs_repository_init w path) in
  let g := (path ++ "/.svcs")%string in
  svcs_repository_is_valid w' path = true /\
  is_dir w' g = true /\
  svcs_file_exists w' (g ++ "/objects") = true /\
  svcs_file_exists w' (g ++ "/refs") = true /\
  (exists f, nodes w' !! (g ++ "/HEAD")%string = Some (File f) /\
             f_content f = bytes_of ("ref: refs/heads/main" ++ nl)) /\
  (exists f, nodes w' !! (g ++ "/index")%string = Some (File f) /\ f_content f = []).
Proof.
  intros Hlen. unfold svcs_repository_init, svcs_repository_is_valid. cbv zeta.
  set (g := (path ++ "/.svcs")%string).
  assert (Hg : String.length g = (String.length path + 6)%nat)
    by (unfold g; rewrite str_app_length; reflexivity).
  assert (Hfit : forall s, (String.length s <= 8)%nat ->
                           snprintf SVCS_MAX_PATH (g ++ s) = (g ++ s)%string).
  { intros s Hs. apply snprintf_fits. rewrite str_app_length. lia. }
  rewrite (snprintf_fits SVCS_MAX_PATH g) by lia.
  rewrite !Hfit by (cbn; lia).
  destruct (svcs_mkdir_recursive w g) as [w1 e1] eqn:E1.
  destruct e1; try discriminate.
  destruct (svcs_mkdir_recursive w1 (g ++ "/objects")) as [w2 e2] eqn:E2.
  destruct e2; try discriminate.
  destruct (svcs_mkdir_recursive w2 (g ++ "/refs")) as [w3 e3] eqn:E3.
  destruct e3; try discriminate.
  destruct (svcs_file_write w3 (g ++ "/HEAD") _) as [w4 e4] eqn:E4.
  destruct e4; try discriminate.
  destruct (svcs_file_write w4 (g ++ "/index") []) as [w5 e5] eqn:E5.
  destruct e5; try discriminate.
  intros _. cbn [fst].
  destruct (svcs_file_write_content _ _ _ _ E4) as (fh & Hfh & Hch & _ & _ & _ & Hk4).
  destruct (svcs_file_write_content _ _ _ _ E5) as (fi & Hfi & Hci & _ & _ & _ & Hk5).
  pose proof (svcs_file_write_parent _ _ _ _ E4) as Hdir.
  change (g ++ "/HEAD")%string with (g ++ String "/" "HEAD")%string in Hdir.
  rewrite (parent_dir_app g "HEAD" eq_refl) in Hdir.
  assert (Hgdir : nodes w3 !! g = Some Dir).
  { unfold is_dir in Hdir. destruct g as [| c g']; [cbn in Hg; lia |].
    destruct (nodes w3 !! String c g') as [[f |] |]; try discriminate. reflexivity. }
  assert (Hne : forall s, s <> EmptyString -> g <> (g ++ s)%string).
  { intros s Hs E. symmetry in E. exact (str_app_neq_l g s Hs E). }
  assert (Hne2 : forall s t, s <> t -> (g ++ s)%string <> (g ++ t)%string).
  { intros s t Hst E. apply Hst. exact (str_app_inv_l g s t E). }
  assert (Hg5 : nodes w5 !! g = Some Dir).
  { rewrite Hk5 by (apply Hne; discriminate). rewrite Hk4 by (apply Hne; discriminate).
    exact Hgdir. }
  assert (Hobj : exists n, nodes w2 !! (g ++ "/objects")%string = Some n).
  { apply (svcs_mkdir_recursive_ok w1); [rewrite str_app_length; cbn; lia | | exact E2].
    rewrite str_app_length. 
    replace (String.length g + String.length "/objects" - 1)%nat
      with (String.length g + 7)%nat by (cbn; lia).
    rewrite char_at_app_r. cbn. discriminate. }
  assert (Hrefs : exists n, nodes w3 !! (g ++ "/refs")%string = Some n).
  { apply (svcs_mkdir_recursive_ok w2); [rewrite str_app_length; cbn; lia | | exact E3].
    rewrite str_app_length.
    replace (String.length g + String.length "/refs" - 1)%nat
      with (String.length g + 4)%nat by (cbn; lia).
    rewrite char_at_app_r. cbn. discriminate. }
  assert (Hext : extends w2 w3).
  { pose proof (svcs_mkdir_recursive_extends w2 (g ++ "/refs")) as H. rewrite E3 in H. exact H. }
  split; [unfold svcs_file_exists; rewrite Hg5; reflexivity |].
  split; [unfold is_dir; destruct g; [cbn in Hg; lia | rewrite Hg5; reflexivity] |].
  split; [| split; [| split]].
  - destruct Hobj as [n Hn]. unfold svcs_file_exists.
    rewrite Hk5 by (apply Hne2; discriminate). rewrite Hk4 by (apply Hne2; discriminate).
    rewrite (proj2 Hext _ _ Hn). reflexivity.
  - destruct Hrefs as [n Hn]. unfold svcs_file_exists.
    rewrite Hk5 by (apply Hne2; discriminate). rewrite Hk4 by (apply Hne2; discriminate).
    rewrite Hn. reflexivity.
  - exists fh. rewrite Hk5 by (apply Hne2; discriminate). split; assumption.
  - exists fi. split; assumption.
Qed.

(** A directory [/p] in which nothing was initialised. *)
Definition bare_world : world :=
  {| nodes := list_to_map [("/p"%string, Dir)]; clock := 1700000000 |}.

Lemma svcs_repository_init_spec_witness :
  let w' := fst (svcs_repository_init bare_world "/p") in
  let g := ("/p" ++ "/.svcs")%string in
  svcs_repository_is_valid w' "/p" = true /\
  is_dir w' g = true /\
  svcs_file_exists w' (g ++ "/objects") = true /\
  svcs_file_exists w' (g ++ "/refs") = true /\
  (exists f, nodes w' !! (g ++ "/HEAD")%string = Some (File f) /\
             f_content f = bytes_of ("ref: refs/heads/main" ++ nl)) /\
  (exists f, nodes w' !! (g ++ "/index")%string = Some (File f) /\ f_content f = []).
Proof.
  apply (svcs_repository_init_spec bare_world "/p").
  - vm_compute. lia.
  - vm_compute. reflexivity.
Defined.

(* ===================================================================== *)
(** ** The commit graph: roots and heads                                  *)
(* ===================================================================== *)

Lemma erase_first_elem (x y : node_ptr) (l : list node_ptr) :
  NoDup l -> (y ∈ erase_first x l <-> y ∈ l /\ y <> x).
Proof.
  induction l as [| z l IH]; intros Hnd; cbn [erase_first].
  - split; [intros H; inversion H | intros [H _]; inversion H].
  - apply NoDup_cons in Hnd as [Hz Hl].
    destruct (String.eqb_spec z x) as [-> | Hne].
    + split.
      * intros H. split; [apply elem_of_cons; right; exact H |]. intros ->. contradiction.
      * intros [H Hy]. apply elem_of_cons in H as [-> | H]; [contradiction | exact H].
    + rewrite !elem_of_cons, (IH Hl). split.
      * intros [-> | [H Hy]]; [split; [left; reflexivity | exact Hne] |].
        split; [right; exact H | exact Hy].
      * intros [[-> | H] Hy]; [left; reflexivity | right; split; assumption].
Qed.

Lemma erase_first_NoDup (x : node_ptr) (l : list node_ptr) :
  NoDup l -> NoDup (erase_first x l).
Proof.
  induction l as [| z l IH]; intros Hnd; cbn [erase_first]; [exact Hnd |].
  apply NoDup_cons in Hnd as [Hz Hl].
  destruct (String.eqb z x); [exact Hl |].
  apply NoDup_cons. split; [| exact (IH Hl)].
  intros H. apply (erase_first_elem x z l Hl) in H as [H _]. contradiction.
Qed.

Lemma erase_parents (ps : list node_ptr) :
  forall l, NoDup l ->
    NoDup (fold_left (fun hs parent => erase_first parent hs) ps l) /\
    forall y, y ∈ fold_left (fun hs parent => erase_first parent hs) ps l
              <-> y ∈ l /\ y ∉ ps.
Proof.
  induction ps as [| p ps IH]; intros l Hnd; cbn [fold_left].
  - split; [exact Hnd |]. intros y. split; [intros H; split; [exact H | apply not_elem_of_nil] |].
    intros [H _]. exact H.
  - destruct (IH (erase_first p l) (erase_first_NoDup p l Hnd)) as [H1 H2].
    split; [exact H1 |]. intros y. rewrite H2, (erase_first_elem p y l Hnd), not_elem_of_cons.
    tauto.
Qed.

(** What [add_commit] keeps of the two vectors: [roots] holds every node
    without parents once and no other, [heads] every node without children
    once and no other. *)
Record roots_heads_ok (dag : CommitDAG) : Prop := mkRootsHeads {
  roots_nodup : NoDup (roots dag);
  heads_nodup : NoDup (heads dag);
  roots_spec : forall k,
    k ∈ roots dag <-> exists n, dag_nodes dag !! k = Some n /\ parents n = [];
  heads_spec : forall k,
    k ∈ heads dag <-> exists n, dag_nodes dag !! k = Some n /\ children n = []
}.

Lemma roots_heads_empty : roots_heads_ok empty_dag.
Proof.
  split; cbn [empty_dag roots heads dag_nodes]; try apply NoDup_nil_2; intros k;
    (split; [intros Hin; inversion Hin |]); intros (n & Hn & _);
    rewrite lookup_empty in Hn; discriminate.
Qed.

Lemma add_commit_roots_heads (dag : CommitDAG) (hash : svcs_hash_t) (message author : string)
  (timestamp : Z) (parent_hashes : list svcs_hash_t) :
  wf_dag dag -> roots_heads_ok dag ->
  roots_heads_ok (add_commit dag hash message author timestamp parent_hashes).
Proof.
  intros [rank Hwf] [Hrn Hhn Hr Hh]. unfold add_commit.
  remember (svcs_hash_to_string hash) as k eqn:Ek.
  destruct (dag_nodes dag !! k) as [old |] eqn:Ek0; [split; assumption |].
  destruct (link_parents_fold k (dag_nodes dag) parent_hashes (dag_nodes dag) []
              (linked_from_start (dag_nodes dag) k)) as [Hps Hl].
  cbn [app] in Hps, Hl. cbv zeta.
  set (linked := fold_left (link_parent k) parent_hashes (dag_nodes dag, [])) in *.
  set (ps := linked_parents (dag_nodes dag) parent_hashes) in *.
  cbn [parents children is_leaf_commit]. rewrite Hps.
  assert (Hkr : k ∉ roots dag).
  { intros H. apply Hr in H as (n & Hn & _). congruence. }
  assert (Hkh : k ∉ heads dag).
  { intros H. apply Hh in H as (n & Hn & _). congruence. }
  assert (Hlook : forall q, q <> k ->
            <[k := {| node_hash := hash; node_message := message; node_author := author;
                      node_timestamp := timestamp; parents := ps; children := [];
                      depth := 0; visited := false; branch_name := EmptyString |}]>
              (fst linked) !! q
            = (fun n => push_children n (replicate (occurrences q ps) k))
                <$> (dag_nodes dag !! q)).
  { intros q Hq. rewrite lookup_insert_ne by congruence. apply Hl. }
  destruct (erase_parents ps (heads dag) Hhn) as [Hen Hes].
  split; cbn [dag_nodes roots heads].
  - unfold is_root_commit. cbn [parents]. destruct ps; [| exact Hrn].
    apply NoDup_app. split; [exact Hrn |]. split; [| apply NoDup_singleton].
    intros x Hx Hx'. apply list_elem_of_singleton in Hx'. subst x. contradiction.
  - apply NoDup_app. split; [exact Hen |]. split; [| apply NoDup_singleton].
    intros x Hx Hx'. apply list_elem_of_singleton in Hx'. subst x.
    apply Hes in Hx as [Hx _]. contradiction.
  - intros q. destruct (decide (q = k)) as [-> | Hq].
    + rewrite lookup_insert_eq. unfold is_root_commit. cbn [parents].
      destruct ps as [| p ps'].
      * split; [intros _; eexists; split; reflexivity |].
        intros _. apply elem_of_app. right. apply list_elem_of_singleton. reflexivity.
      * split; [intros H; contradiction | intros (n & [= <-] & Hn); discriminate].
    + rewrite (Hlook q Hq).
      assert (Hin : q ∈ (if is_root_commit
                              {| node_hash := hash; node_message := message;
                                 node_author := author; node_timestamp := timestamp;
                                 parents := ps; children := []; depth := 0;
                                 visited := false; branch_name := EmptyString |}
                         then roots dag ++ [k] else roots dag) <-> q ∈ roots dag).
      { destruct (is_root_commit _); [| reflexivity].
        rewrite elem_of_app, list_elem_of_singleton. tauto. }
      rewrite Hin, Hr. split.
      * intros (n & Hn & Hp). rewrite Hn. cbn. eexists. split; [reflexivity | exact Hp].
      * intros (n & Hn & Hp). destruct (dag_nodes dag !! q) as [n0 |]; [| discriminate].
        cbn in Hn. injection Hn as <-. exists n0. split; [reflexivity | exact Hp].
  - intros q. rewrite elem_of_app, list_elem_of_singleton, Hes.
    destruct (decide (q = k)) as [-> | Hq].
    + rewrite lookup_insert_eq. split; [intros _; eexists; split; reflexivity |].
      intros _. right. reflexivity.
    + rewrite (Hlook q Hq), Hh. split.
      * intros [[(n & Hn & Hc) Hout] | E]; [| contradiction].
        rewrite Hn. cbn. eexists. split; [reflexivity |]. cbn [push_children children].
        rewrite Hc, (occurrences_not_in q ps Hout). reflexivity.
      * intros (n & Hn & Hc). left.
        destruct (dag_nodes dag !! q) as [n0 |]; [| discriminate].
        cbn in Hn. injection Hn as <-. cbn [push_children children] in Hc.
        apply app_eq_nil in Hc as [Hc Hrep].
        split; [exists n0; split; [reflexivity | exact Hc] |].
        intros Hin. apply occurrences_pos in Hin.
        destruct (occurrences q ps); [lia | discriminate].
Qed.

(** X21. In every graph built by [add_commit] calls on an empty graph,
    [roots] lists exactly the nodes that have no parent in the graph, and
    [heads] exactly the nodes that have no child, each once. A commit none
    of whose parents is in the graph when it is added is a root, whatever
    parents it named. *)
Theorem build_dag_roots_heads (calls : list commit_args) :
  let dag := build_dag calls in
  NoDup (roots dag) /\ NoDup (heads dag) /\
  (forall k, k ∈ roots dag <-> exists n, dag_nodes dag !! k = Some n /\ parents n = []) /\
  (forall k, k ∈ heads dag <-> exists n, dag_nodes dag !! k = Some n /\ children n = []).
Proof.
  cbv zeta.
  assert (H : wf_dag (build_dag calls) /\ roots_heads_ok (build_dag calls)).
  { unfold build_dag. generalize wf_empty roots_heads_empty. generalize empty_dag.
    induction calls as [| a calls IH]; intros dag Hwf Hok; [split; assumption |].
    cbn [fold_left]. apply IH.
    - apply add_commit_wf. exact Hwf.
    - apply add_commit_roots_heads; assumption. }
  destruct H as [_ [H1 H2 H3 H4]]. auto.
Qed.

(* ===================================================================== *)
(** ** The LP64 layout is an index layout                                 *)
(* ===================================================================== *)

Module LP64Facts.
Import LP64.

Lemma le_bytes_length (k : nat) : forall n, length (le_bytes k n) = k.
Proof. induction k as [| k IH]; intros n; [reflexivity |]. cbn. rewrite IH. reflexivity. Qed.

Lemma le_value_le_bytes (k : nat) :
  forall n, le_value (le_bytes k n) = n mod 2 ^ (8 * Z.of_nat k).
Proof.
  induction k as [| k IH]; intros n.
  - cbn. rewrite Z.mod_1_r. reflexivity.
  - cbn [le_bytes le_value]. rewrite IH, Z_of_byte_of_Z.
    rewrite Z.mod_mod by lia.
    replace (8 * Z.of_nat (S k)) with (8 + 8 * Z.of_nat k) by lia.
    rewrite Z.pow_add_r by lia. change (2 ^ 8) with 256.
    rewrite (Z.rem_mul_r n 256 (2 ^ (8 * Z.of_nat k))) by lia. reflexivity.
Qed.

Lemma status_round_trip (s : svcs_file_status_t) :
  status_of_value (le_value (le_bytes 4 (status_value s))) = s.
Proof. destruct s; reflexivity. Qed.

Lemma signed64_round_trip (t : Z) :
  - 2 ^ 63 <= t < 2 ^ 63 -> signed64 (le_value (le_bytes 8 t)) = t.
Proof.
  intros H. rewrite le_value_le_bytes. change (2 ^ (8 * Z.of_nat 8)) with (2 ^ 64).
  unfold signed64. destruct (Z.lt_ge_cases t 0) as [Hneg | Hpos].
  - replace (t mod 2 ^ 64) with (t + 2 ^ 64).
    + destruct (Z.ltb_spec (t + 2 ^ 64) (2 ^ 63)); lia.
    + symmetry. rewrite <- (Z.mod_add t 1 (2 ^ 64)) by lia.
      rewrite Z.mul_1_l. apply Z.mod_small. lia.
  - rewrite Z.mod_small by lia. destruct (Z.ltb_spec t (2 ^ 63)); lia.
Qed.

Lemma field_skip (a rest : list byte) (off size : nat) :
  field (length a + off) size (a ++ rest) = field off size rest.
Proof.
  unfold field. rewrite skipn_app.
  rewrite (skipn_all2 a) by lia. cbn [app].
  replace (length a + off - length a)%nat with off by lia. reflexivity.
Qed.

Lemma field_here (b rest : list byte) :
  field 0 (length b) (b ++ rest) = b.
Proof.
  unfold field. rewrite drop_0. apply take_app_length.
Qed.

Lemma path_image_length (p : string) : length (path_image p) = 4096%nat.
Proof.
  unfold path_image. rewrite length_firstn, length_app, repeat_length.
  unfold SVCS_MAX_PATH. lia.
Qed.

Lemma hash_image_length (h : svcs_hash_t) : length (hash_image h) = 32%nat.
Proof.
  unfold hash_image. rewrite length_firstn, length_app, repeat_length.
  unfold SVCS_HASH_SIZE. lia.
Qed.

Lemma no_zero_forall (s : string) : no_zero s = str_forall not_zero_char s.
Proof. induction s as [| c s IH]; [reflexivity |]. cbn. rewrite IH. reflexivity. Qed.

Lemma path_image_text (p : string) :
  (String.length p < SVCS_MAX_PATH)%nat -> no_zero p = true ->
  c_str (path_image p) = p.
Proof.
  intros Hlen Hnz. unfold path_image.
  rewrite firstn_app, bytes_of_length.
  rewrite firstn_all2 by (rewrite bytes_of_length; lia).
  destruct (SVCS_MAX_PATH - String.length p)%nat as [| j] eqn:Ej; [lia |].
  change (repeat NUL SVCS_MAX_PATH) with (NUL :: repeat NUL 4095).
  cbn [firstn]. apply memchr0_text. rewrite <- no_zero_forall. exact Hnz.
Qed.

Lemma hash_image_wf (h : svcs_hash_t) : hash_wf h -> hash_image h = h.
Proof.
  intros Hwf. unfold hash_image, hash_wf in *.
  rewrite firstn_app, Hwf, Nat.sub_diag. cbn [firstn]. rewrite app_nil_r.
  apply firstn_all2. lia.
Qed.

Lemma entry_image_length (e : svcs_index_entry_t) : length (entry_image e) = sizeof_entry.
Proof.
  unfold entry_image. rewrite !length_app, path_image_length, hash_image_length,
    !le_bytes_length. reflexivity.
Qed.

Lemma entry_image_inv (e : svcs_index_entry_t) :
  entry_representable e -> entry_of_image (entry_image e) = e.
Proof.
  intros (Hlen & Hnz & Hwf & Hmode & Htime & Hsize).
  destruct e as [p h m t sz st]. cbn [e_path e_hash e_mode e_mtime e_size e_status] in *.
  unfold entry_of_image, entry_image. cbn [e_path e_hash e_mode e_mtime e_size e_status].
  set (A := path_image p). set (B := hash_image h). set (C := le_bytes 4 m).
  set (D := le_bytes 8 t). set (E := le_bytes 8 sz). set (F := le_bytes 4 (status_value st)).
  assert (HA : length A = 4096%nat) by apply path_image_length.
  assert (HB : length B = 32%nat) by apply hash_image_length.
  assert (HC : length C = 4%nat) by apply le_bytes_length.
  assert (HD : length D = 8%nat) by apply le_bytes_length.
  assert (HE : length E = 8%nat) by apply le_bytes_length.
  assert (HF : length F = 4%nat) by apply le_bytes_length.
  assert (HP : length padding = 4%nat) by reflexivity.
  assert (F0 : field 0 4096 (A ++ B ++ C ++ padding ++ D ++ E ++ F ++ padding) = A).
  { rewrite <- HA at 1. apply field_here. }
  assert (F1 : field 4096 32 (A ++ B ++ C ++ padding ++ D ++ E ++ F ++ padding) = B).
  { replace 4096%nat with (length A + 0)%nat at 1 by lia. rewrite field_skip.
    rewrite <- HB at 1. apply field_here. }
  assert (F2 : field 4128 4 (A ++ B ++ C ++ padding ++ D ++ E ++ F ++ padding) = C).
  { replace 4128%nat with (length A + (length B + 0))%nat by lia.
    rewrite !field_skip. rewrite <- HC at 1. apply field_here. }
  assert (F3 : field 4136 8 (A ++ B ++ C ++ padding ++ D ++ E ++ F ++ padding) = D).
  { replace 4136%nat with (length A + (length B + (length C + (length padding + 0))))%nat
      by lia.
    rewrite !field_skip. rewrite <- HD at 1. apply field_here. }
  assert (F4 : field 4144 8 (A ++ B ++ C ++ padding ++ D ++ E ++ F ++ padding) = E).
  { replace 4144%nat
      with (length A + (length B + (length C + (length padding + (length D + 0)))))%nat
      by lia.
    rewrite !field_skip. rewrite <- HE at 1. apply field_here. }
  assert (F5 : field 4152 4 (A ++ B ++ C ++ padding ++ D ++ E ++ F ++ padding) = F).
  { replace 4152%nat
      with (length A + (length B + (length C + (length padding
              + (length D + (length E + 0))))))%nat by lia.
    rewrite !field_skip. rewrite <- HF at 1. apply field_here. }
  rewrite F0, F1, F2, F3, F4, F5. unfold A, B, C, D, E, F.
  rewrite (path_image_text p Hlen Hnz), (hash_image_wf h Hwf).
  rewrite (signed64_round_trip t Htime), status_round_trip.
  rewrite !le_value_le_bytes.
  change (2 ^ (8 * Z.of_nat 4)) with (2 ^ 32). change (2 ^ (8 * Z.of_nat 8)) with (2 ^ 64).
  rewrite !Z.mod_small by lia. reflexivity.
Qed.

Lemma uint32_image_inv (n : Z) : uint32_of_image (uint32_image n) = n mod 2 ^ 32.
Proof. unfold uint32_of_image, uint32_image. apply (le_value_le_bytes 4). Qed.

End LP64Facts.

#[export] Instance lp64_layout : IndexLayout :=
  {| sizeof_entry := LP64.sizeof_entry;
     entry_image := LP64.entry_image;
     entry_of_image := LP64.entry_of_image;
     uint32_image := LP64.uint32_image;
     uint32_of_image := LP64.uint32_of_image;
     entry_image_length := LP64Facts.entry_image_length;
     entry_image_inv := LP64Facts.entry_image_inv;
     uint32_image_length := LP64Facts.le_bytes_length 4;
     uint32_image_inv := LP64Facts.uint32_image_inv |}.

(* ===================================================================== *)
(** ** The index file                                                     *)
(* ===================================================================== *)

Section IndexProperties.

Context {layout : IndexLayout}.

Lemma images_length (es : list svcs_index_entry_t) :
  length (concat (map entry_image es)) = (length es * sizeof_entry)%nat.
Proof.
  induction es as [| e es IH]; [reflexivity |].
  cbn [map concat length]. rewrite length_app, entry_image_length, IH. lia.
Qed.

Lemma read_entries_images (es : list svcs_index_entry_t) (rest : list byte) :
  Forall entry_representable es ->
  read_entries (length es) (concat (map entry_image es) ++ rest) = Some es.
Proof.
  induction es as [| e es IH]; intros H; [reflexivity |].
  apply Forall_cons in H as [He Hes].
  cbn [map concat length read_entries]. rewrite <- app_assoc.
  destruct (Nat.ltb_spec (length (entry_image e ++ concat (map entry_image es) ++ rest))
                         sizeof_entry) as [Hlt | _].
  - rewrite length_app, entry_image_length in Hlt. lia.
  - rewrite (drop_app_length' (entry_image e)) by (symmetry; apply entry_image_length).
    rewrite (take_app_length' (entry_image e)) by (symmetry; apply entry_image_length).
    rewrite (IH Hes), (entry_image_inv e He). reflexivity.
Qed.

Lemma read_entries_short (count : nat) :
  forall data, (length data < count * sizeof_entry)%nat -> read_entries count data = None.
Proof.
  induction count as [| c IH]; intros data H; [lia |].
  cbn [read_entries]. destruct (Nat.ltb_spec (length data) sizeof_entry) as [_ | Hge];
    [reflexivity |].
  rewrite IH; [reflexivity |]. rewrite length_skipn. lia.
Qed.

Lemma index_image_length (idx : svcs_index_t) :
  length (index_image idx) = (8 + length (entries idx) * sizeof_entry)%nat.
Proof.
  unfold index_image. rewrite !length_app, !uint32_image_length, images_length. lia.
Qed.

(** The header of a saved index, read back. *)
Lemma index_image_header (idx : svcs_index_t) (k : nat) :
  (8 <= k)%nat ->
  Z.of_nat (length (entries idx)) < 2 ^ 32 ->
  uint32_of_image (firstn 4 (firstn k (index_image idx))) = 1 /\
  uint32_of_image (firstn 4 (skipn 4 (firstn k (index_image idx))))
    = Z.of_nat (length (entries idx)) /\
  skipn 8 (firstn k (index_image idx)) = firstn (k - 8) (concat (map entry_image (entries idx))).
Proof.
  intros Hk Hn. unfold index_image.
  set (a := uint32_image 1). set (b := uint32_image (Z.of_nat (length (entries idx)))).
  set (body := concat (map entry_image (entries idx))).
  assert (Ha : length a = 4%nat) by apply uint32_image_length.
  assert (Hb : length b = 4%nat) by apply uint32_image_length.
  assert (E : firstn k (a ++ b ++ body) = a ++ b ++ firstn (k - 8) body).
  { rewrite firstn_app, (firstn_all2 a) by lia. f_equal.
    rewrite firstn_app, (firstn_all2 b) by lia. f_equal. f_equal. lia. }
  rewrite E. split; [| split].
  - rewrite (take_app_length' a) by lia. unfold a. rewrite uint32_image_inv. reflexivity.
  - rewrite (drop_app_length' a) by lia. rewrite (take_app_length' b) by lia.
    unfold b. rewrite uint32_image_inv. apply Z.mod_small. lia.
  - change 8%nat with (4 + 4)%nat.
    rewrite <- drop_drop, (drop_app_length' a), (drop_app_length' b) by lia. reflexivity.
Qed.

Lemma svcs_index_load_data (w : world) (repo : svcs_repository_t) (data : list byte) :
  svcs_file_read w (index_path repo) = Ok data ->
  (8 <= length data)%nat ->
  uint32_of_image (firstn 4 data) = 1 ->
  svcs_index_load w repo
  = match read_entries (Z.to_nat (uint32_of_image (firstn 4 (skipn 4 data)))) (skipn 8 data) with
    | Some es => Ok {| entries := es; index_timestamp := clock w |}
    | None => Err SVCS_ERROR_CORRUPT
    end.
Proof.
  intros Hread Hlen Hv. unfold svcs_index_load.
  assert (Hex : svcs_file_exists w (index_path repo) = true).
  { unfold svcs_file_exists. unfold svcs_file_read in Hread.
    destruct (nodes w !! index_path repo); [reflexivity | discriminate]. }
  rewrite Hex, Hread. cbn [negb].
  destruct data as [| b0 data'] eqn:Ed; [cbn in Hlen; lia |]. rewrite <- Ed in *.
  destruct (Nat.ltb_spec (length data) 8) as [Hlt | _]; [lia |].
  rewrite Hv. reflexivity.
Qed.

Lemma svcs_index_save_written (w w' : world) (repo : svcs_repository_t) (idx : svcs_index_t) :
  (forall f, nodes w !! index_path repo = Some (File f) -> f_readable f = true) ->
  svcs_index_save w repo idx = (w', SVCS_OK) ->
  svcs_file_read w' (index_path repo) = Ok (index_image idx).
Proof.
  unfold svcs_index_save. generalize (index_path repo). intros p Hreadable Hsave.
  destruct (svcs_file_write_content _ _ _ _ Hsave) as (f & Hf & Hc & Hnew & Hold & _ & _).
  assert (Hr : f_readable f = true).
  { destruct (nodes w !! p) as [[g |] |] eqn:E.
    - rewrite (Hold g eq_refl). apply Hreadable. reflexivity.
    - exfalso. exact (svcs_file_write_not_dir _ _ _ _ Hsave E).
    - apply Hnew. reflexivity. }
  unfold svcs_file_read. rewrite Hf, Hr, Hc. reflexivity.
Qed.

Lemma svcs_index_load_image (w : world) (repo : svcs_repository_t) (idx : svcs_index_t) :
  Forall entry_representable (entries idx) ->
  Z.of_nat (length (entries idx)) < 2 ^ 32 ->
  svcs_file_read w (index_path repo) = Ok (index_image idx) ->
  svcs_index_load w repo = Ok {| entries := entries idx; index_timestamp := clock w |}.
Proof.
  intros Hrep Hn Hread.
  pose proof (index_image_length idx) as Hlen.
  assert (H8 : (8 <= length (index_image idx))%nat) by lia.
  destruct (index_image_header idx (length (index_image idx)) H8 Hn) as (Hv & Hcount & Hbody).
  rewrite firstn_all in Hv, Hcount, Hbody.
  rewrite (svcs_index_load_data w repo _ Hread H8 Hv).
  rewrite Hcount, Hbody, Nat2Z.id.
  rewrite firstn_all2 by (rewrite images_length; lia).
  pose proof (read_entries_images _ [] Hrep) as Hes. rewrite app_nil_r in Hes.
  rewrite Hes. reflexivity.
Qed.

(** X22. An index that [svcs_index_save] has written is the index
    [svcs_index_load] reads: the same entries in the same order, with the
    time of the load as its timestamp. The entries are those the fields of
    the structure can hold, fewer than [2 ^ 32] of them. *)
Theorem svcs_index_save_load (w w' : world) (repo : svcs_repository_t) (idx : svcs_index_t) :
  Forall entry_representable (entries idx) ->
  Z.of_nat (length (entries idx)) < 2 ^ 32 ->
  (forall f, nodes w !! index_path repo = Some (File f) -> f_readable f = true) ->
  svcs_index_save w repo idx = (w', SVCS_OK) ->
  svcs_index_load w' repo = Ok {| entries := entries idx; index_timestamp := clock w' |}.
Proof.
  intros Hrep Hn Hreadable Hsave.
  apply (svcs_index_load_image w' repo idx Hrep Hn).
  exact (svcs_index_save_written _ _ _ _ Hreadable Hsave).
Qed.

(** X23. A saved index that was cut short is refused: when the index file
    holds a beginning of what [svcs_index_save] writes for an index, not
    empty and not the whole of it, [svcs_index_load] returns
    [SVCS_ERROR_CORRUPT]. *)
Theorem svcs_index_load_truncated (w : world) (repo : svcs_repository_t) (idx : svcs_index_t)
  (k : nat) :
  Z.of_nat (length (entries idx)) < 2 ^ 32 ->
  (0 < k < length (index_image idx))%nat ->
  svcs_file_read w (index_path repo) = Ok (firstn k (index_image idx)) ->
  svcs_index_load w repo = Err SVCS_ERROR_CORRUPT.
Proof.
  intros Hn Hk Hread.
  pose proof (index_image_length idx) as Hlen.
  assert (Hfl : length (firstn k (index_image idx)) = k) by (rewrite length_firstn; lia).
  destruct (Nat.lt_ge_cases k 8) as [Hshort | Hlong].
  - unfold svcs_index_load.
    assert (Hex : svcs_file_exists w (index_path repo) = true).
    { unfold svcs_file_exists. unfold svcs_file_read in Hread.
      destruct (nodes w !! index_path repo); [reflexivity | discriminate]. }
    rewrite Hex, Hread. cbn [negb].
    destruct (firstn k (index_image idx)) as [| b0 d] eqn:Ed; [cbn in Hfl; lia |].
    rewrite Hfl.
    destruct (Nat.ltb_spec k 8) as [_ | Hge]; [reflexivity | lia].
  - destruct (index_image_header idx k Hlong Hn) as (Hv & Hcount & Hbody).
    rewrite (svcs_index_load_data w repo _ Hread ltac:(lia) Hv).
    rewrite Hcount, Hbody, Nat2Z.id.
    rewrite read_entries_short; [reflexivity |].
    rewrite length_firstn, images_length. lia.
Qed.


(** *** Staging *)

Lemma find_entry_Some (es : list svcs_index_entry_t) (path : string) :
  forall i, find_entry es path = Some i -> exists e, es !! i = Some e /\ e_path e = path.
Proof.
  induction es as [| e r IH]; intros i H; [discriminate |].
  cbn [find_entry] in H. destruct (String.eqb_spec (e_path e) path) as [E | E].
  - injection H as <-. exists e. split; [reflexivity | exact E].
  - destruct (find_entry r path) as [j |]; [| discriminate]. injection H as <-.
    apply (IH j eq_refl).
Qed.

Lemma find_entry_None (es : list svcs_index_entry_t) (path : string) :
  find_entry es path = None <-> path ∉ e_path <$> es.
Proof.
  induction es as [| e r IH].
  - split; [intros _; apply not_elem_of_nil | reflexivity].
  - cbn [find_entry]. rewrite fmap_cons, not_elem_of_cons.
    destruct (String.eqb_spec (e_path e) path) as [E | E].
    + split; [discriminate | intros [H _]; congruence].
    + destruct (find_entry r path) as [j |]; cbn [option_map].
      * split; [discriminate |]. intros [_ H]. apply IH in H. discriminate.
      * split; [| reflexivity]. intros _. split; [congruence | apply IH; reflexivity].
Qed.

Lemma find_entry_insert (es : list svcs_index_entry_t) (path : string)
  (e' : svcs_index_entry_t) :
  forall i, find_entry es path = Some i -> e_path e' = path ->
  find_entry (<[i := e']> es) path = Some i.
Proof.
  induction es as [| e r IH]; intros i H He; [discriminate |].
  cbn [find_entry] in H. destruct (String.eqb_spec (e_path e) path) as [E | E].
  - injection H as <-. cbn [insert list_insert find_entry]. rewrite He, String.eqb_refl.
    reflexivity.
  - destruct (find_entry r path) as [j |] eqn:Ej; [| discriminate]. injection H as <-.
    change (<[S j := e']> (e :: r)) with (e :: <[j := e']> r). cbn [find_entry].
    destruct (String.eqb_spec (e_path e) path) as [E' | _]; [contradiction |].
    rewrite (IH j eq_refl He). reflexivity.
Qed.

Lemma find_entry_app_new (es : list svcs_index_entry_t) (path : string)
  (e' : svcs_index_entry_t) :
  find_entry es path = None -> e_path e' = path ->
  find_entry (es ++ [e']) path = Some (length es).
Proof.
  intros H He. induction es as [| e r IH].
  - cbn [app find_entry]. rewrite He, String.eqb_refl. reflexivity.
  - cbn [find_entry] in H. cbn [app find_entry length].
    destruct (String.eqb (e_path e) path); [discriminate |].
    destruct (find_entry r path); [discriminate |]. rewrite (IH eq_refl). reflexivity.
Qed.

Lemma other_path_same (path : string) (e : svcs_index_entry_t) :
  e_path e = path -> other_path path e = false.
Proof. intros <-. unfold other_path. rewrite String.eqb_refl. reflexivity. Qed.

Lemma filter_insert_found (es : list svcs_index_entry_t) (path : string)
  (e' : svcs_index_entry_t) :
  forall i, find_entry es path = Some i -> e_path e' = path ->
  List.filter (other_path path) (<[i := e']> es) = List.filter (other_path path) es.
Proof.
  induction es as [| e r IH]; intros i H He; [discriminate |].
  cbn [find_entry] in H. destruct (String.eqb (e_path e) path) eqn:E.
  - injection H as <-. change (<[0%nat := e']> (e :: r)) with (e' :: r).
    cbn [List.filter]. rewrite (other_path_same path e' He).
    rewrite (other_path_same path e) by (apply String.eqb_eq; exact E). reflexivity.
  - destruct (find_entry r path) as [j |] eqn:Ej; [| discriminate]. injection H as <-.
    change (<[S j := e']> (e :: r)) with (e :: <[j := e']> r).
    cbn [List.filter]. rewrite (IH j eq_refl He). reflexivity.
Qed.

Lemma filter_app_new (es : list svcs_index_entry_t) (path : string)
  (e' : svcs_index_entry_t) :
  e_path e' = path ->
  List.filter (other_path path) (es ++ [e']) = List.filter (other_path path) es.
Proof.
  intros He. rewrite List.filter_app. cbn [List.filter].
  rewrite (other_path_same path e' He). apply app_nil_r.
Qed.

Lemma filter_other_all (es : list svcs_index_entry_t) (path : string) :
  path ∉ e_path <$> es -> List.filter (other_path path) es = es.
Proof.
  induction es as [| e r IH]; [reflexivity |].
  rewrite fmap_cons, not_elem_of_cons. intros [Hne H]. cbn [List.filter].
  unfold other_path at 1. destruct (String.eqb_spec (e_path e) path) as [E | _];
    [congruence |].
  cbn [negb]. rewrite (IH H). reflexivity.
Qed.

Lemma paths_insert_found (es : list svcs_index_entry_t) (path : string)
  (e' : svcs_index_entry_t) (i : nat) :
  find_entry es path = Some i -> e_path e' = path ->
  e_path <$> <[i := e']> es = e_path <$> es.
Proof.
  intros H He. destruct (find_entry_Some es path i H) as (e & Hi & Hp).
  rewrite list_fmap_insert. apply list_insert_id.
  rewrite list_lookup_fmap, Hi. cbn. congruence.
Qed.

Lemma delete_found (es : list svcs_index_entry_t) (path : string) :
  NoDup (e_path <$> es) ->
  forall i, find_entry es path = Some i -> delete i es = List.filter (other_path path) es.
Proof.
  induction es as [| e r IH]; intros Hnd i H; [discriminate |].
  rewrite fmap_cons in Hnd. apply NoDup_cons in Hnd as [Hnotin Hnd].
  cbn [find_entry] in H. cbn [List.filter]. unfold other_path at 1.
  destruct (String.eqb_spec (e_path e) path) as [E | E]; cbn [negb].
  - injection H as <-. change (delete 0%nat (e :: r)) with r.
    symmetry. apply filter_other_all. rewrite <- E. exact Hnotin.
  - destruct (find_entry r path) as [j |] eqn:Ej; [| discriminate]. injection H as <-.
    change (delete (S j) (e :: r)) with (e :: delete j r).
    rewrite (IH Hnd j eq_refl). reflexivity.
Qed.

(** [svcs_index_status] hands every entry, in order, to the check. *)
Lemma svcs_index_status_map (w : world) (idx : svcs_index_t) (fresh : svcs_index_entry_t) :
  svcs_index_status w idx fresh = (idx, Ok (map (check_status w) (entries idx))).
Proof.
  unfold svcs_index_status. destruct idx as [es ts]. cbn [entries index_timestamp].
  destruct es as [| e0 es']; [reflexivity |].
  set (es := e0 :: es') in *.
  rewrite (status_loop w es (length es)) by (rewrite ?length_replicate; lia).
  cbn [repo_entries out_entries].
  rewrite firstn_all, drop_ge, app_nil_r by (rewrite length_replicate; lia).
  reflexivity.
Qed.

Lemma svcs_object_write_exists (w w' : world) (repo : svcs_repository_t) (obj : svcs_object_t) :
  svcs_object_write w repo obj = (w', SVCS_OK) ->
  svcs_file_exists w' (get_object_path repo (obj_hash obj)) = true.
Proof.
  unfold svcs_object_write. cbv zeta.
  generalize (get_object_path repo (obj_hash obj)). intros p.
  destruct (svcs_file_exists (with_parent_dir w p) p) eqn:E.
  - intros [= <-]. exact E.
  - destruct (write_file (with_parent_dir w p) p _) as [w2 |] eqn:Hw; [| discriminate].
    intros [= <-]. unfold write_file in Hw.
    destruct (negb _); [discriminate |].
    destruct (nodes (with_parent_dir w p) !! p) as [[f |] |]; try destruct (f_writable f);
      try discriminate;
      injection Hw as <-; unfold svcs_file_exists; cbn [nodes];
      rewrite lookup_insert_eq; reflexivity.
Qed.

Lemma svcs_file_write_exists (w w' : world) (path k : string) (data : list byte) :
  svcs_file_write w path data = (w', SVCS_OK) ->
  svcs_file_exists w k = true -> svcs_file_exists w' k = true.
Proof.
  intros H Hk. destruct (svcs_file_write_content _ _ _ _ H) as (f & Hf & _ & _ & _ & _ & Hrest).
  unfold svcs_file_exists in *. destruct (decide (k = path)) as [-> | Hne].
  - rewrite Hf. reflexivity.
  - rewrite (Hrest k Hne). exact Hk.
Qed.

(** A file that was written can be written again. *)
Lemma svcs_file_write_again (w w' : world) (path : string) (data data' : list byte) :
  svcs_file_write w path data = (w', SVCS_OK) ->
  snd (svcs_file_write w' path data') = SVCS_OK.
Proof.
  intros H. pose proof (svcs_file_write_parent _ _ _ _ H) as Hp.
  destruct (svcs_file_write_content _ _ _ _ H) as (f0 & _ & _ & _ & _ & _ & Hrest).
  destruct (svcs_file_write_writable _ _ _ _ H) as (f & Hf & Hwr).
  assert (Hd : is_dir w' (parent_dir path) = true).
  { unfold is_dir in *. destruct (parent_dir path) as [| c s] eqn:E; [reflexivity |].
    assert (Hne : String c s <> path).
    { intros Heq. unfold parent_dir in E. destruct (strrchr path "/") as [i |] eqn:Er;
        [| discriminate].
      pose proof (strrchr_lt _ _ _ Er). pose proof (str_take_length i path).
      rewrite E, Heq in *. lia. }
    rewrite (Hrest _ Hne). exact Hp. }
  unfold svcs_file_write, write_file. rewrite Hd, Hf, Hwr. reflexivity.
Qed.

Lemma svcs_index_save_exists (w w' : world) (repo : svcs_repository_t) (idx : svcs_index_t)
  (k : string) :
  svcs_index_save w repo idx = (w', SVCS_OK) ->
  svcs_file_exists w k = true -> svcs_file_exists w' k = true.
Proof. unfold svcs_index_save. apply svcs_file_write_exists. Qed.

Lemma svcs_index_save_other (w w' : world) (repo : svcs_repository_t) (idx : svcs_index_t)
  (k : string) :
  svcs_index_save w repo idx = (w', SVCS_OK) ->
  k <> index_path repo -> nodes w' !! k = nodes w !! k.
Proof.
  unfold svcs_index_save. generalize (index_path repo). intros p Hs Hk.
  destruct (svcs_file_write_content _ _ _ _ Hs) as (f & _ & _ & _ & _ & _ & Hrest).
  apply Hrest. exact Hk.
Qed.

Lemma svcs_index_save_again (w w' : world) (repo : svcs_repository_t) (idx idx2 : svcs_index_t) :
  svcs_index_save w repo idx = (w', SVCS_OK) ->
  snd (svcs_index_save w' repo idx2) = SVCS_OK.
Proof. unfold svcs_index_save. apply svcs_file_write_again. Qed.

Lemma svcs_index_save_error (w w' : world) (repo : svcs_repository_t) (idx : svcs_index_t)
  (e : svcs_error_t) :
  svcs_index_save w repo idx = (w', e) -> e <> SVCS_ERROR_NOT_FOUND.
Proof.
  unfold svcs_index_save, svcs_file_write.
  destruct (write_file _ _ _); intros [= _ <-]; discriminate.
Qed.

Lemma svcs_index_save_read (w w' : world) (repo : svcs_repository_t) (idx : svcs_index_t) :
  (forall f, nodes w' !! index_path repo = Some (File f) -> f_readable f = true) ->
  svcs_index_save w repo idx = (w', SVCS_OK) ->
  svcs_file_read w' (index_path repo) = Ok (index_image idx).
Proof.
  unfold svcs_index_save. generalize (index_path repo). intros p Hreadable Hs.
  destruct (svcs_file_write_content _ _ _ _ Hs) as (f & Hf & Hc & _).
  unfold svcs_file_read. rewrite Hf, (Hreadable f Hf), Hc. reflexivity.
Qed.

(** What a successful [svcs_index_add] of a regular file has done. *)
Lemma svcs_index_add_inv (w w' : world) (repo : svcs_repository_t) (idx idx' : svcs_index_t)
  (path : string) (st : file) :
  nodes w !! path = Some (File st) ->
  (String.length path < SVCS_MAX_PATH)%nat ->
  svcs_index_add w repo idx path = (w', idx', SVCS_OK) ->
  let hash := svcs_hash_object SVCS_OBJ_BLOB (f_content st) in
  let e := staged_entry path hash st in
  exists w1,
    f_readable st = true /\
    svcs_object_write w repo {| obj_type := SVCS_OBJ_BLOB;
                                obj_size := Z.of_nat (length (f_content st));
                                obj_hash := hash |} = (w1, SVCS_OK) /\
    entries idx' = match find_entry (entries idx) path with
                   | Some i => <[i := e]> (entries idx)
                   | None => entries idx ++ [e]
                   end /\
    index_timestamp idx' = index_timestamp idx /\
    svcs_index_save w1 repo idx' = (w', SVCS_OK).
Proof.
  intros Hnode Hlen. unfold svcs_index_add. rewrite Hnode.
  unfold svcs_hash_file, svcs_object_create_blob, svcs_file_read. rewrite Hnode.
  destruct (f_readable st); [| intros [= _ _ H]; discriminate].
  cbv zeta.
  destruct (svcs_object_write w repo _) as [w1 e1] eqn:Ew.
  destruct e1; try (intros [= _ _ H]; discriminate).
  destruct (svcs_index_save w1 repo _) as [w2 err] eqn:Es.
  intros [= <- <- ->]. exists w1. cbn [entries index_timestamp].
  rewrite (snprintf_fits SVCS_MAX_PATH path Hlen) in *.
  assert (Hes : match find_entry (entries idx) path with
                | Some i =>
                    <[i := staged_entry (default EmptyString (e_path <$> entries idx !! i))
                             (svcs_hash_object SVCS_OBJ_BLOB (f_content st)) st]> (entries idx)
                | None => entries idx ++
                            [staged_entry path (svcs_hash_object SVCS_OBJ_BLOB (f_content st)) st]
                end
                = match find_entry (entries idx) path with
                  | Some i => <[i := staged_entry path
                                       (svcs_hash_object SVCS_OBJ_BLOB (f_content st)) st]>
                                (entries idx)
                  | None => entries idx ++
                              [staged_entry path (svcs_hash_object SVCS_OBJ_BLOB (f_content st)) st]
                  end).
  { destruct (find_entry (entries idx) path) as [i |] eqn:Ef; [| reflexivity].
    destruct (find_entry_Some _ _ _ Ef) as (e0 & Hi & Hp). rewrite Hi. cbn. rewrite Hp.
    reflexivity. }
  rewrite Hes in Es. rewrite Hes.
  split; [reflexivity |]. split; [reflexivity |]. split; [reflexivity |].
  split; [reflexivity | exact Es].
Qed.

(** X24. A successful [svcs_index_add] of a regular file whose path fits
    the entry stages it: the first entry with this path holds the path, the
    blob hash of the content, the mode, time and size of the file and the
    status Added; the entries with other paths are as they were, in their
    order; the paths of the index are those it had, with the new one at the
    end when it was not there; and the object file of the blob exists. *)
Theorem svcs_index_add_spec (w w' : world) (repo : svcs_repository_t) (idx idx' : svcs_index_t)
  (path : string) (st : file) :
  nodes w !! path = Some (File st) ->
  (String.length path < SVCS_MAX_PATH)%nat ->
  svcs_index_add w repo idx path = (w', idx', SVCS_OK) ->
  let hash := svcs_hash_object SVCS_OBJ_BLOB (f_content st) in
  (exists i, find_entry (entries idx') path = Some i /\
             entries idx' !! i = Some (staged_entry path hash st)) /\
  List.filter (other_path path) (entries idx') = List.filter (other_path path) (entries idx) /\
  e_path <$> entries idx'
    = (e_path <$> entries idx)
      ++ (if bool_decide (path ∈ e_path <$> entries idx) then [] else [path]) /\
  svcs_file_exists w' (get_object_path repo hash) = true.
Proof.
  intros Hnode Hlen Hadd. cbv zeta.
  destruct (svcs_index_add_inv _ _ _ _ _ _ _ Hnode Hlen Hadd) as (w1 & _ & Hw & Hes & _ & Hs).
  cbv zeta in Hw, Hes. revert Hw Hes.
  generalize (svcs_hash_object SVCS_OBJ_BLOB (f_content st)). intros hash Hw Hes.
  rewrite Hes. clear Hes.
  assert (Hobj : svcs_file_exists w' (get_object_path repo hash) = true).
  { apply (svcs_index_save_exists _ _ _ _ _ Hs).
    exact (svcs_object_write_exists w w1 repo
             {| obj_type := SVCS_OBJ_BLOB; obj_size := Z.of_nat (length (f_content st));
                obj_hash := hash |} Hw). }
  destruct (find_entry (entries idx) path) as [i |] eqn:Ef.
  - destruct (find_entry_Some _ _ _ Ef) as (e0 & Hi & Hp).
    split; [| split; [| split]].
    + exists i. split; [apply find_entry_insert; [exact Ef | reflexivity] |].
      apply list_lookup_insert_eq. apply (lookup_lt_Some _ _ _ Hi).
    + apply filter_insert_found; [exact Ef | reflexivity].
    + rewrite (paths_insert_found _ path (staged_entry path hash st) i Ef eq_refl).
      rewrite bool_decide_eq_true_2, app_nil_r; [reflexivity |].
      apply list_elem_of_fmap. exists e0. split; [congruence |].
      apply list_elem_of_lookup. exists i. exact Hi.
    + exact Hobj.
  - split; [| split; [| split]].
    + exists (length (entries idx)). split; [apply find_entry_app_new; [exact Ef | reflexivity] |].
      apply list_lookup_middle. reflexivity.
    + apply filter_app_new. reflexivity.
    + rewrite fmap_app. rewrite bool_decide_eq_false_2 by (apply find_entry_None; exact Ef).
      reflexivity.
    + exact Hobj.
Qed.

(** X25. What [svcs_index_add] has staged is what a later
    [svcs_index_load] reads: after a successful add, when the entries can be
    held by the structure and the index file can be read, the load returns
    the entries left in the repository. *)
Theorem svcs_index_add_load (w w' : world) (repo : svcs_repository_t) (idx idx' : svcs_index_t)
  (path : string) (st : file) :
  nodes w !! path = Some (File st) ->
  (String.length path < SVCS_MAX_PATH)%nat ->
  Forall entry_representable (entries idx') ->
  Z.of_nat (length (entries idx')) < 2 ^ 32 ->
  (forall f, nodes w' !! index_path repo = Some (File f) -> f_readable f = true) ->
  svcs_index_add w repo idx path = (w', idx', SVCS_OK) ->
  svcs_index_load w' repo = Ok {| entries := entries idx'; index_timestamp := clock w' |}.
Proof.
  intros Hnode Hlen Hrep Hn Hreadable Hadd.
  destruct (svcs_index_add_inv _ _ _ _ _ _ _ Hnode Hlen Hadd) as (w1 & _ & _ & _ & _ & Hs).
  apply (svcs_index_load_image w' repo idx' Hrep Hn).
  exact (svcs_index_save_read _ _ _ _ Hreadable Hs).
Qed.

(** X26. A file that was just staged is reported as Added: after a
    successful [svcs_index_add] of a file that is neither the index file nor
    the object file of its blob, [svcs_index_status] returns, at the place
    of the first entry with this path, the entry that was staged, its
    status unchanged. *)
Theorem svcs_index_add_status (w w' : world) (repo : svcs_repository_t)
  (idx idx' : svcs_index_t) (path : string) (st : file) (fresh : svcs_index_entry_t) :
  nodes w !! path = Some (File st) ->
  (String.length path < SVCS_MAX_PATH)%nat ->
  path <> index_path repo ->
  path <> get_object_path repo (svcs_hash_object SVCS_OBJ_BLOB (f_content st)) ->
  svcs_index_add w repo idx path = (w', idx', SVCS_OK) ->
  exists out i,
    svcs_index_status w' idx' fresh = (idx', Ok out) /\
    find_entry (entries idx') path = Some i /\
    out !! i = Some (staged_entry path (svcs_hash_object SVCS_OBJ_BLOB (f_content st)) st) /\
    length out = length (entries idx').
Proof.
  intros Hnode Hlen Hni Hno Hadd.
  destruct (svcs_index_add_inv _ _ _ _ _ _ _ Hnode Hlen Hadd) as (w1 & _ & Hw & Hes & _ & Hs).
  cbv zeta in Hw, Hes. revert Hno Hw Hes.
  generalize (svcs_hash_object SVCS_OBJ_BLOB (f_content st)). intros hash Hno Hw Hes.
  assert (Hkept : nodes w' !! path = Some (File st)).
  { pose proof (svcs_object_write_keeps w repo
                  {| obj_type := SVCS_OBJ_BLOB; obj_size := Z.of_nat (length (f_content st));
                     obj_hash := hash |} path (File st) Hno Hnode) as [Hk _].
    rewrite Hw in Hk. cbn [fst] in Hk.
    rewrite (svcs_index_save_other _ _ _ _ _ Hs Hni). exact Hk. }
  assert (Hcheck : check_status w' (staged_entry path hash st) = staged_entry path hash st).
  { unfold check_status, svcs_file_exists, svcs_file_mtime. cbn [e_path staged_entry e_mtime].
    rewrite Hkept. cbn [negb]. rewrite Z.eqb_refl. reflexivity. }
  assert (Hi : exists i, find_entry (entries idx') path = Some i /\
                         entries idx' !! i = Some (staged_entry path hash st)).
  { rewrite Hes. destruct (find_entry (entries idx) path) as [i |] eqn:Ef.
    - destruct (find_entry_Some _ _ _ Ef) as (e0 & Hi & Hp).
      exists i. split; [apply find_entry_insert; [exact Ef | reflexivity] |].
      apply list_lookup_insert_eq. apply (lookup_lt_Some _ _ _ Hi).
    - exists (length (entries idx)).
      split; [apply find_entry_app_new; [exact Ef | reflexivity] |].
      apply list_lookup_middle. reflexivity. }
  destruct Hi as (i & Hfind & Hlook).
  exists (map (check_status w') (entries idx')), i.
  split; [apply svcs_index_status_map |]. split; [exact Hfind |].
  split; [| apply length_map].
  change (map (check_status w') (entries idx')) with (check_status w' <$> entries idx').
  rewrite list_lookup_fmap, Hlook. cbn [fmap option_fmap option_map]. rewrite Hcheck. reflexivity.
Qed.

(** X27. [svcs_index_remove] on an index without repeated paths leaves the
    entries whose path is another one, in their order, in the repository,
    also when the index could not be saved; it returns
    [SVCS_ERROR_NOT_FOUND] exactly when no entry has the path, and then the
    file system is untouched. *)
Theorem svcs_index_remove_spec (w w' : world) (repo : svcs_repository_t)
  (idx idx' : svcs_index_t) (path : string) (err : svcs_error_t) :
  NoDup (e_path <$> entries idx) ->
  svcs_index_remove w repo idx path = (w', idx', err) ->
  entries idx' = List.filter (other_path path) (entries idx) /\
  index_timestamp idx' = index_timestamp idx /\
  (err = SVCS_ERROR_NOT_FOUND <-> path ∉ e_path <$> entries idx) /\
  (err = SVCS_ERROR_NOT_FOUND -> w' = w) /\
  (err <> SVCS_ERROR_NOT_FOUND -> (w', err) = svcs_index_save w repo idx').
Proof.
  intros Hnd. unfold svcs_index_remove.
  destruct (find_entry (entries idx) path) as [i |] eqn:Ef.
  - set (idx1 := {| entries := delete i (entries idx);
                    index_timestamp := index_timestamp idx |}).
    destruct (svcs_index_save w repo idx1) as [w1 e1] eqn:Es. intros [= <- <- <-].
    cbn [entries index_timestamp idx1].
    pose proof (svcs_index_save_error _ _ _ _ _ Es) as Hne.
    assert (Hin : ~ (path ∉ e_path <$> entries idx)).
    { intros H. apply find_entry_None in H. congruence. }
    split; [apply delete_found; assumption |]. split; [reflexivity |].
    split; [split; intros H; contradiction |].
    split; [intros H; contradiction | intros _; symmetry; exact Es].
  - intros [= <- <- <-].
    pose proof (proj1 (find_entry_None _ _) Ef) as Hnotin.
    split; [symmetry; apply filter_other_all; exact Hnotin |]. split; [reflexivity |].
    split; [split; intros _; [exact Hnotin | reflexivity] |].
    split; [reflexivity | intros H; contradiction].
Qed.

(** X28. Staging a file whose path the index does not hold and removing it
    again gives the index back: after a successful [svcs_index_add],
    [svcs_index_remove] of the same path returns [SVCS_OK] and leaves the
    index the repository had before the two calls. *)
Theorem svcs_index_add_remove (w w1 w2 : world) (repo : svcs_repository_t)
  (idx idx1 idx2 : svcs_index_t) (path : string) (st : file) (err : svcs_error_t) :
  nodes w !! path = Some (File st) ->
  (String.length path < SVCS_MAX_PATH)%nat ->
  path ∉ e_path <$> entries idx ->
  svcs_index_add w repo idx path = (w1, idx1, SVCS_OK) ->
  svcs_index_remove w1 repo idx1 path = (w2, idx2, err) ->
  err = SVCS_OK /\ idx2 = idx.
Proof.
  intros Hnode Hlen Hfresh Hadd.
  destruct (svcs_index_add_inv _ _ _ _ _ _ _ Hnode Hlen Hadd) as (w0 & _ & _ & Hes & Hts & Hs).
  cbv zeta in Hes. revert Hes.
  generalize (svcs_hash_object SVCS_OBJ_BLOB (f_content st)). intros hash Hes.
  apply find_entry_None in Hfresh. rewrite Hfresh in Hes.
  unfold svcs_index_remove.
  rewrite Hes.
  rewrite (find_entry_app_new _ path (staged_entry path hash st) Hfresh eq_refl).
  rewrite delete_middle, app_nil_r.
  pose proof (svcs_index_save_again _ _ repo idx1
                {| entries := entries idx; index_timestamp := index_timestamp idx1 |} Hs) as Hok.
  destruct (svcs_index_save w1 repo
              {| entries := entries idx; index_timestamp := index_timestamp idx1 |})
    as [w3 e3]. intros [= <- <- <-].
  split; [exact Hok |].
  rewrite Hts. destruct idx. reflexivity.
Qed.

End IndexProperties.

(** *** A repository with a file to stage, on the LP64 layout *)

Definition hello_file : file :=
  {| f_content := bytes_of "hello"; f_mtime := 100; f_mode := 33188; f_readable := true;
       f_writable := true |}.

Definition staging_world : world :=
  {| nodes := list_to_map [("/r"%string, Dir); ("/r/.svcs"%string, Dir);
                           ("/r/.svcs/objects"%string, Dir);
                           ("/r/a.txt"%string, File hello_file)];
     clock := 1700000000 |}.

Definition staged_index : svcs_index_t :=
  {| entries := [sample_entry "/r/b.txt" "bee" 50; sample_entry "/r/c.txt" "sea" 60];
     index_timestamp := 1600000000 |}.

Lemma staged_index_representable : Forall entry_representable (entries staged_index).
Proof.
  unfold staged_index. cbn [entries].
  apply List.Forall_cons; [| apply List.Forall_cons; [| apply List.Forall_nil]];
    (split; [vm_compute; lia |]); (split; [reflexivity |]);
    (split; [apply svcs_hash_object_wf |]); cbn [e_mode e_mtime e_size sample_entry];
    (split; [lia |]); (split; [lia |]); vm_compute; split; congruence.
Qed.

Lemma svcs_index_save_load_witness :
  let w' := fst (svcs_index_save staging_world sample_repo staged_index) in
  svcs_index_load w' sample_repo
  = Ok {| entries := entries staged_index; index_timestamp := clock w' |}.
Proof.
  intros w'.
  apply (@svcs_index_save_load lp64_layout staging_world w' sample_repo staged_index).
  - exact staged_index_representable.
  - vm_compute. reflexivity.
  - intros f H. vm_compute in H. discriminate.
  - vm_compute. reflexivity.
Defined.

Lemma svcs_index_load_truncated_witness :
  svcs_index_load
    {| nodes := <[index_path sample_repo :=
                    File {| f_content := firstn 100 (index_image staged_index); f_mtime := 7;
                            f_mode := 33188; f_readable := true;
       f_writable := true |}]> (nodes staging_world);
       clock := 1700000000 |}
    sample_repo
  = Err SVCS_ERROR_CORRUPT.
Proof.
  apply (@svcs_index_load_truncated lp64_layout _ sample_repo staged_index 100).
  - vm_compute. reflexivity.
  - vm_compute. lia.
  - vm_compute. reflexivity.
Defined.

Lemma svcs_index_add_spec_witness :
  let r := svcs_index_add staging_world sample_repo staged_index "/r/a.txt" in
  let hash := svcs_hash_object SVCS_OBJ_BLOB (f_content hello_file) in
  (exists i, find_entry (entries (snd (fst r))) "/r/a.txt" = Some i /\
             entries (snd (fst r)) !! i = Some (staged_entry "/r/a.txt" hash hello_file)) /\
  List.filter (other_path "/r/a.txt") (entries (snd (fst r)))
    = List.filter (other_path "/r/a.txt") (entries staged_index) /\
  e_path <$> entries (snd (fst r))
    = (e_path <$> entries staged_index)
      ++ (if bool_decide ("/r/a.txt"%string ∈ e_path <$> entries staged_index)
          then [] else ["/r/a.txt"%string]) /\
  svcs_file_exists (fst (fst r)) (get_object_path sample_repo hash) = true.
Proof.
  intros r.
  apply (@svcs_index_add_spec lp64_layout staging_world (fst (fst r)) sample_repo staged_index
           (snd (fst r)) "/r/a.txt" hello_file).
  - vm_compute. reflexivity.
  - vm_compute. lia.
  - vm_compute. reflexivity.
Defined.

Lemma svcs_index_add_load_witness :
  let r := svcs_index_add staging_world sample_repo staged_index "/r/a.txt" in
  svcs_index_load (fst (fst r)) sample_repo
  = Ok {| entries := entries (snd (fst r)); index_timestamp := clock (fst (fst r)) |}.
Proof.
  intros r.
  apply (@svcs_index_add_load lp64_layout staging_world (fst (fst r)) sample_repo staged_index
           (snd (fst r)) "/r/a.txt" hello_file).
  - vm_compute. reflexivity.
  - vm_compute. lia.
  - change (entries (snd (fst r)))
      with (entries staged_index
            ++ [staged_entry "/r/a.txt" (svcs_hash_object SVCS_OBJ_BLOB (f_content hello_file))
                  hello_file]).
    apply Forall_app. split; [exact staged_index_representable |].
    apply List.Forall_cons; [| apply List.Forall_nil].
    (split; [vm_compute; lia |]); (split; [reflexivity |]);
      (split; [apply svcs_hash_object_wf |]); cbn [e_mode e_mtime e_size staged_entry];
      (split; [vm_compute; split; congruence |]); (split; [vm_compute; split; congruence |]);
      vm_compute; split; congruence.
  - vm_compute. reflexivity.
  - intros f H. vm_compute in H. injection H as <-. reflexivity.
  - vm_compute. reflexivity.
Defined.

Lemma svcs_index_add_status_witness :
  let r := svcs_index_add staging_world sample_repo staged_index "/r/a.txt" in
  exists out i,
    svcs_index_status (fst (fst r)) (snd (fst r)) (sample_entry "" "" 0)
      = (snd (fst r), Ok out) /\
    find_entry (entries (snd (fst r))) "/r/a.txt" = Some i /\
    out !! i = Some (staged_entry "/r/a.txt"
                       (svcs_hash_object SVCS_OBJ_BLOB (f_content hello_file)) hello_file) /\
    length out = length (entries (snd (fst r))).
Proof.
  intros r.
  apply (@svcs_index_add_status lp64_layout staging_world (fst (fst r)) sample_repo staged_index
           (snd (fst r)) "/r/a.txt" hello_file (sample_entry "" "" 0)).
  - vm_compute. reflexivity.
  - vm_compute. lia.
  - intros H. vm_compute in H. discriminate.
  - intros H. vm_compute in H. discriminate.
  - vm_compute. reflexivity.
Defined.

Lemma svcs_index_remove_spec_witness :
  let r := svcs_index_remove staging_world sample_repo staged_index "/r/b.txt" in
  entries (snd (fst r)) = List.filter (other_path "/r/b.txt") (entries staged_index) /\
  index_timestamp (snd (fst r)) = index_timestamp staged_index /\
  (snd r = SVCS_ERROR_NOT_FOUND <-> "/r/b.txt"%string ∉ e_path <$> entries staged_index) /\
  (snd r = SVCS_ERROR_NOT_FOUND -> fst (fst r) = staging_world) /\
  (snd r <> SVCS_ERROR_NOT_FOUND ->
   (fst (fst r), snd r) = svcs_index_save staging_world sample_repo (snd (fst r))).
Proof.
  intros r.
  apply (@svcs_index_remove_spec lp64_layout staging_world (fst (fst r)) sample_repo
           staged_index (snd (fst r)) "/r/b.txt" (snd r)).
  - apply (bool_decide_unpack _). vm_compute. exact I.
  - vm_compute. reflexivity.
Defined.

Lemma svcs_index_add_remove_witness :
  let r := svcs_index_add staging_world sample_repo staged_index "/r/a.txt" in
  let r' := svcs_index_remove (fst (fst r)) sample_repo (snd (fst r)) "/r/a.txt" in
  snd r' = SVCS_OK /\ snd (fst r') = staged_index.
Proof.
  intros r r'.
  apply (@svcs_index_add_remove lp64_layout staging_world (fst (fst r)) (fst (fst r'))
           sample_repo staged_index (snd (fst r)) (snd (fst r')) "/r/a.txt" hello_file (snd r')).
  - vm_compute. reflexivity.
  - vm_compute. lia.
  - apply (bool_decide_unpack _). vm_compute. exact I.
  - vm_compute. reflexivity.
  - vm_compute. reflexivity.
Defined.

(* ===================================================================== *)
(** ** Commits on a branch                                                *)
(* ===================================================================== *)

Lemma svcs_object_write_extends (w : world) (repo : svcs_repository_t) (obj : svcs_object_t) :
  extends w (fst (svcs_object_write w repo obj)).
Proof.
  unfold svcs_object_write. cbv zeta.
  generalize (get_object_path repo (obj_hash obj)). intros path.
  pose proof (with_parent_dir_extends w path) as Hext.
  destruct (svcs_file_exists (with_parent_dir w path) path) eqn:Eex; [exact Hext |].
  destruct (write_file (with_parent_dir w path) path _) as [w2 |] eqn:Hw; cbn [fst];
    [| exact Hext].
  destruct (write_file_other _ _ _ _ Hw) as [Hc Hn]. destruct Hext as [Hc1 Hn1].
  split; [congruence |]. intros k n Hk. apply Hn1 in Hk.
  rewrite Hn; [exact Hk |]. intros ->.
  unfold svcs_file_exists in Eex. rewrite Hk in Eex. discriminate.
Qed.

Lemma create_tree_from_index_extends (w : world) (repo : svcs_repository_t) :
  extends w (fst (create_tree_from_index w repo)).
Proof.
  unfold create_tree_from_index.
  destruct (repo_index repo) as [idx |]; [| apply extends_refl].
  destruct (entries idx) as [| e es]; [apply extends_refl |]. cbv zeta.
  pose proof (svcs_object_write_extends w repo
                {| obj_type := SVCS_OBJ_TREE;
                   obj_size := Z.of_nat (length (tree_data (e :: es)));
                   obj_hash := svcs_hash_object SVCS_OBJ_TREE (tree_data (e :: es)) |}) as H.
  destruct (svcs_object_write w repo
              {| obj_type := SVCS_OBJ_TREE;
                 obj_size := Z.of_nat (length (tree_data (e :: es)));
                 obj_hash := svcs_hash_object SVCS_OBJ_TREE (tree_data (e :: es)) |})
    as [w1 err].
  cbn [fst] in H. destruct err; exact H.
Qed.

Lemma svcs_file_read_extends (w w' : world) (path : string) (data : list byte) :
  extends w w' -> svcs_file_read w path = Ok data -> svcs_file_read w' path = Ok data.
Proof.
  intros [_ Hn] H. destruct (svcs_file_read_is_node _ _ _ H) as [n Hk].
  rewrite <- H. apply svcs_file_read_node. rewrite Hk. apply Hn. exact Hk.
Qed.

Lemma read_text_extends (w w' : world) (path s : string) :
  extends w w' -> read_text w path = Some s -> read_text w' path = Some s.
Proof.
  intros Hext. unfold read_text. destruct (svcs_file_read w path) as [data | e] eqn:E;
    [| discriminate].
  rewrite (svcs_file_read_extends _ _ _ _ Hext E). trivial.
Qed.

Lemma is_dir_extends (w w' : world) (path : string) :
  extends w w' -> is_dir w path = true -> is_dir w' path = true.
Proof.
  intros [_ Hn]. unfold is_dir. destruct path as [| c s]; [trivial |].
  destruct (nodes w !! String c s) as [[f |] |] eqn:E; try discriminate.
  rewrite (Hn _ _ E). trivial.
Qed.

(** [HEAD] and a branch file have different paths: after the directory and
    a slash comes an [H] in one and an [r] in the other. *)
Lemma head_path_not_branch_path (repo : svcs_repository_t) (name : string) :
  (String.length (git_dir repo) + 2 < SVCS_MAX_PATH)%nat ->
  head_path repo <> branch_path repo name.
Proof.
  intros Hlen E.
  apply (f_equal (fun s => char_at s (String.length (git_dir repo) + 1))) in E.
  unfold head_path, branch_path, snprintf in E.
  rewrite !char_at_str_take in E by (unfold SVCS_MAX_PATH in *; lia).
  rewrite !char_at_app_r in E. discriminate E.
Qed.

(** The parent that [svcs_commit_create] takes on a branch whose file holds
    a hash. *)
Lemma resolve_parent_branch (w : world) (repo : svcs_repository_t) (name : string)
  (p : svcs_hash_t) :
  str_forall line_char name = true ->
  hash_wf p ->
  read_text w (head_path repo) = Some ("ref: refs/heads/" ++ name ++ nl)%string ->
  svcs_file_read w (branch_path repo name) = Ok (bytes_of (ref_text p)) ->
  resolve_parent w repo = p.
Proof.
  intros Hname Hp Hhead Hbranch. unfold resolve_parent. rewrite Hhead.
  rewrite (proj1 (head_ref_path_branch repo name Hname)).
  unfold read_text. rewrite Hbranch, (ref_text_read p Hp). reflexivity.
Qed.

(** Overwriting a file that the process may read and write, and whose
    directory exists: the file holds the new bytes, and a text read from
    another path is read as before. *)
Lemma svcs_file_write_over (w : world) (bp hp s : string) (old data : list byte) :
  hp <> bp ->
  is_dir w (parent_dir bp) = true ->
  svcs_file_read w bp = Ok old ->
  (forall f, nodes w !! bp = Some (File f) -> f_writable f = true) ->
  read_text w hp = Some s ->
  svcs_file_read (fst (svcs_file_write w bp data)) bp = Ok data /\
  read_text (fst (svcs_file_write w bp data)) hp = Some s.
Proof.
  intros Hne Hdir Hold Hwr Hhead.
  assert (Hw : exists f, nodes w !! bp = Some (File f) /\ f_readable f = true).
  { unfold svcs_file_read in Hold. destruct (nodes w !! bp) as [[f |] |];
      try discriminate. exists f. split; [reflexivity |].
    destruct (f_readable f); [reflexivity | discriminate]. }
  destruct Hw as (f & Hf & Hr).
  destruct (svcs_file_write w bp data) as [w4 e4] eqn:Ew. cbn [fst].
  assert (He : e4 = SVCS_OK).
  { revert Ew. unfold svcs_file_write, write_file.
    rewrite Hdir, Hf, (Hwr f Hf). cbn [negb]. intros [= _ <-]. reflexivity. }
  subst e4.
  destruct (svcs_file_write_content _ _ _ _ Ew) as (g & Hg & Hc & _ & Hkeep & _ & Hrest).
  split.
  - unfold svcs_file_read. rewrite Hg, (Hkeep f Hf), Hr, Hc. reflexivity.
  - unfold read_text. rewrite (svcs_file_read_node w w4 hp (Hrest hp Hne)). exact Hhead.
Qed.

(** A file that is there stays as it is in a world that extends the first,
    so what the process may do with it stays too. *)
Lemma writable_extends (w w' : world) (path : string) (data : list byte) :
  extends w w' ->
  svcs_file_read w path = Ok data ->
  (forall f, nodes w !! path = Some (File f) -> f_writable f = true) ->
  forall f, nodes w' !! path = Some (File f) -> f_writable f = true.
Proof.
  intros [_ Hn] Hread Hwr f Hf.
  destruct (svcs_file_read_is_node _ _ _ Hread) as [n Hk].
  pose proof (Hn _ _ Hk) as Hk'. rewrite Hf in Hk'. injection Hk' as <-.
  exact (Hwr f Hk).
Qed.

(** What [update_ref] leaves on a branch whose file can be read and
    written. *)
Lemma update_ref_branch (w : world) (repo : svcs_repository_t) (name : string)
  (old : list byte) (c : svcs_hash_t) :
  (String.length (git_dir repo) + 2 < SVCS_MAX_PATH)%nat ->
  str_forall line_char name = true ->
  read_text w (head_path repo) = Some ("ref: refs/heads/" ++ name ++ nl)%string ->
  is_dir w (parent_dir (branch_path repo name)) = true ->
  svcs_file_read w (branch_path repo name) = Ok old ->
  (forall f, nodes w !! branch_path repo name = Some (File f) -> f_writable f = true) ->
  svcs_file_read (update_ref w repo c) (branch_path repo name) = Ok (bytes_of (ref_text c)) /\
  read_text (update_ref w repo c) (head_path repo)
    = Some ("ref: refs/heads/" ++ name ++ nl)%string.
Proof.
  intros Hlen Hname Hhead Hdir Hbranch Hwr. unfold update_ref. rewrite Hhead.
  rewrite (proj1 (head_ref_path_branch repo name Hname)). cbv zeta.
  rewrite ref_text_fits.
  pose proof (head_path_not_branch_path repo name Hlen) as Hne.
  revert Hne Hhead Hdir Hbranch Hwr.
  generalize (head_path repo) (branch_path repo name). intros hp bp Hne Hhead Hdir Hbranch Hwr.
  pose proof (with_parent_dir_extends w bp) as Hext.
  apply (svcs_file_write_over _ _ _ _ old).
  - exact Hne.
  - exact (is_dir_extends _ _ _ Hext Hdir).
  - exact (svcs_file_read_extends _ _ _ _ Hext Hbranch).
  - exact (writable_extends _ _ _ _ Hext Hbranch Hwr).
  - exact (read_text_extends _ _ _ _ Hext Hhead).
Qed.

Section BranchCommit.

Context {tz : TimeZone}.

(** X29. A commit on a branch advances the branch. With a [HEAD] that
    names a branch whose file holds the hash [p] and which the process may
    write, an author and a message short enough for the commit text to fit
    its buffer of 4096 bytes, and a time that [gmtime] can break down,
    [svcs_commit_create] returns; when it returns [SVCS_OK] it has hashed a
    commit text that names [p] as its parent and carries the number that
    [strftime] prints for [%s] in the time zone of the process; afterwards
    the branch file holds the new hash and a newline, [HEAD] still names
    the branch, and the parent that the next [svcs_commit_create] takes is
    the new commit. *)
Theorem svcs_commit_create_advances_branch (w : world) (repo : svcs_repository_t)
  (message author name : string) (p : svcs_hash_t) (t : Z) :
  (2 * String.length author + String.length message + 300 < COMMIT_CONTENT_SIZE)%nat ->
  seconds_of_gmtime (clock w) = Some t ->
  (String.length (git_dir repo) + 2 < SVCS_MAX_PATH)%nat ->
  str_forall line_char name = true ->
  hash_wf p ->
  read_text w (head_path repo) = Some ("ref: refs/heads/" ++ name ++ nl)%string ->
  is_dir w (parent_dir (branch_path repo name)) = true ->
  svcs_file_read w (branch_path repo name) = Ok (bytes_of (svcs_hash_to_string p ++ nl)) ->
  (forall f, nodes w !! branch_path repo name = Some (File f) -> f_writable f = true) ->
  exists w' r,
    svcs_commit_create w repo message author = Some (w', r) /\
    forall h, r = Ok h ->
      (exists tree_hash,
          snd (create_tree_from_index w repo) = Ok tree_hash /\
          h = svcs_hash_object SVCS_OBJ_COMMIT
                (bytes_of (commit_content tree_hash p author message
                             (fmt_ld t ++ " +0000")))) /\
      svcs_file_read w' (branch_path repo name)
        = Ok (bytes_of (svcs_hash_to_string h ++ nl)) /\
      read_text w' (head_path repo) = Some ("ref: refs/heads/" ++ name ++ nl)%string /\
      resolve_parent w' repo = h.
Proof.
  intros Hfit Ht Hlen Hname Hp Hhead Hdir Hbranch Hwr.
  change (svcs_hash_to_string p ++ nl)%string with (ref_text p) in Hbranch.
  unfold svcs_commit_create.
  pose proof (create_tree_from_index_extends w repo) as Hext1.
  destruct (create_tree_from_index w repo) as [w1 [tree_hash | e]]; cbn [fst snd] in *.
  2: { eexists _, _. split; [reflexivity |]. intros h Hok. discriminate Hok. }
  cbv zeta.
  rewrite (resolve_parent_branch w1 repo name p Hname Hp
             (read_text_extends _ _ _ _ Hext1 Hhead)
             (svcs_file_read_extends _ _ _ _ Hext1 Hbranch)).
  assert (Hstamp : timestamp_str (clock w1) = Some (fmt_ld t ++ " +0000")%string).
  { unfold timestamp_str. rewrite (proj1 Hext1), Ht. reflexivity. }
  rewrite Hstamp.
  pose proof (commit_content_length tree_hash p author message (fmt_ld t ++ " +0000"))
    as Hclen.
  pose proof (timestamp_str_length _ _ Hstamp) as Hst.
  remember (commit_content tree_hash p author message (fmt_ld t ++ " +0000")) as text
    eqn:Etext.
  destruct (Nat.leb_spec COMMIT_CONTENT_SIZE (String.length text)) as [Hbig | _];
    [unfold COMMIT_CONTENT_SIZE in *; lia |].
  remember (svcs_hash_object SVCS_OBJ_COMMIT (bytes_of text)) as c eqn:Ec.
  assert (Hwf : hash_wf c) by (rewrite Ec; apply svcs_hash_object_wf).
  pose proof (svcs_object_write_extends w1 repo
                {| obj_type := SVCS_OBJ_COMMIT;
                   obj_size := Z.of_nat (String.length text);
                   obj_hash := c |}) as Hext2.
  destruct (svcs_object_write w1 repo
              {| obj_type := SVCS_OBJ_COMMIT;
                 obj_size := Z.of_nat (String.length text);
                 obj_hash := c |}) as [w2 e2].
  cbn [fst] in Hext2.
  destruct e2;
    try (eexists _, _; split; [reflexivity |]; intros h Hok; discriminate Hok).
  assert (Hext : extends w w2) by (eapply extends_trans; eassumption).
  destruct (update_ref_branch w2 repo name (bytes_of (ref_text p)) c Hlen Hname
              (read_text_extends _ _ _ _ Hext Hhead)
              (is_dir_extends _ _ _ Hext Hdir)
              (svcs_file_read_extends _ _ _ _ Hext Hbranch)
              (writable_extends _ _ _ _ Hext Hbranch Hwr)) as [Hread Hhead'].
  eexists _, _. split; [reflexivity |]. intros h [= <-].
  split; [exists tree_hash; split; [reflexivity | rewrite <- Etext; exact Ec] |].
  split; [exact Hread |]. split; [exact Hhead' |].
  exact (resolve_parent_branch _ repo name c Hname Hwf Hhead' Hread).
Qed.

End BranchCommit.

Lemma svcs_commit_create_advances_branch_witness :
  exists w' r,
    @svcs_commit_create utc branches_world sample_repo "second" "ann" = Some (w', r) /\
    forall h, r = Ok h ->
      (exists tree_hash,
          snd (create_tree_from_index branches_world sample_repo) = Ok tree_hash /\
          h = svcs_hash_object SVCS_OBJ_COMMIT
                (bytes_of (commit_content tree_hash earlier_commit "ann" "second"
                             (fmt_ld 1700000000 ++ " +0000")))) /\
      svcs_file_read w' (branch_path sample_repo "main")
        = Ok (bytes_of (svcs_hash_to_string h ++ nl)) /\
      read_text w' (head_path sample_repo)
        = Some ("ref: refs/heads/" ++ "main" ++ nl)%string /\
      resolve_parent w' sample_repo = h.
Proof.
  apply (@svcs_commit_create_advances_branch utc branches_world sample_repo
           "second" "ann" "main" earlier_commit 1700000000).
  - vm_compute. lia.
  - vm_compute. reflexivity.
  - vm_compute. lia.
  - reflexivity.
  - apply svcs_hash_object_wf.
  - vm_compute. reflexivity.
  - vm_compute. reflexivity.
  - vm_compute. reflexivity.
  - intros f Hf. vm_compute in Hf. injection Hf as <-. reflexivity.
Defined.

(** On that repository, in a process whose time zone is UTC, the commit is
    created, and the branch [main] is moved from the earlier commit to
    it. *)
Example svcs_commit_create_on_main :
  exists w' h,
    @svcs_commit_create utc branches_world sample_repo "second" "ann" = Some (w', Ok h) /\
    svcs_file_read branches_world (branch_path sample_repo "main")
      = Ok (bytes_of (svcs_hash_to_string earlier_commit ++ nl)) /\
    svcs_file_read w' (branch_path sample_repo "main")
      = Ok (bytes_of (svcs_hash_to_string h ++ nl)) /\
    svcs_hash_to_string earlier_commit <> svcs_hash_to_string h.
Proof.
  eexists (fst (default (branches_world, Err SVCS_ERROR)
                  (@svcs_commit_create utc branches_world sample_repo "second" "ann"))),
          (svcs_hash_object SVCS_OBJ_COMMIT
             (bytes_of (commit_content svcs_hash_init earlier_commit "ann" "second"
                          "1700000000 +0000"))).
  split; [vm_compute; reflexivity |].
  split; [vm_compute; reflexivity |].
  split; [vm_compute; reflexivity |].
  apply (differ_by (fun s => String.get 0 s)).
  vm_compute. discriminate.
Qed.

(* ===================================================================== *)
(** ** Opening a repository                                               *)
(* ===================================================================== *)




Section OpenProperties.

Context {layout : IndexLayout}.




End OpenProperties.


